(** * ImGuiUtils: layout algebra, grid population and the scalable window

    A shallow embedding of the positioning helpers ([PositionTools.cpp]),
    the [ImVec2] operator overloads ([ImVec2Operators.h]), the grid
    population routine of [DrawTools.cpp] and the [Window] class
    ([Window.h] / [Window.cpp]).

    C++ [float] is IEEE-754 binary32; it is modelled by the standard
    library's [spec_float] at precision 24 and maximal exponent 128, with
    round-to-nearest-even.  Every operation is rounded on its own: no
    intermediate result is kept in a wider format and no product is fused
    with a sum.  C++ [int] is a 32-bit signed integer carried by [Z];
    operations whose behaviour the language leaves undefined (division by
    zero, signed overflow, out-of-range indexing) return [None]. *)

From Stdlib Require Import ZArith Bool List Lia QArith Qpower Qabs Lqa String.
From Stdlib Require Import Floats.SpecFloat.
Import ListNotations.
Local Open Scope Z_scope.

(* ================================================================== *)
(** ** Single-precision floating point *)

Definition float : Type := spec_float.

Module F32.

Definition prec : Z := 24.
Definition emax : Z := 128.

Definition add : float -> float -> float := SFadd prec emax.
Definition sub : float -> float -> float := SFsub prec emax.
Definition mul : float -> float -> float := SFmul prec emax.
Definition div : float -> float -> float := SFdiv prec emax.

(** Comparison operators of the language: every comparison with a NaN
    is false, except [!=] which is true. *)
Definition eqb (a b : float) : bool := SFeqb a b.
Definition neb (a b : float) : bool := negb (SFeqb a b).
Definition ltb (a b : float) : bool := SFltb a b.
Definition gtb (a b : float) : bool := SFltb b a.

(** Implicit conversion [int -> float] (round to nearest, ties to even). *)
Definition of_int (z : Z) : float := binary_normalize prec emax z 0 false.

(** The dyadic number [m * 2^e] rounded to single precision; used to
    write literals such as [0.5f]. *)
Definition dyadic (m e : Z) : float := binary_normalize prec emax m e false.

Definition zero : float := S754_zero false.
Definition one : float := of_int 1.
Definition half : float := dyadic 1 (-1).

(** The triples of [spec_float] that are single-precision numbers: the
    mantissa has the digits its exponent asks for and the exponent is in
    range.  Every value of a C++ [float] is valid. *)
Definition valid (a : float) : bool := valid_binary prec emax a.

Definition is_nan (a : float) : bool :=
  match a with S754_nan => true | _ => false end.

Definition is_finite (a : float) : bool :=
  match a with S754_zero _ | S754_finite _ _ _ => true | _ => false end.

(** Exact rational value of a finite float (0 for infinities and NaN). *)
Definition to_Q (a : float) : Q :=
  match a with
  | S754_finite s m e => (inject_Z (cond_Zopp s (Z.pos m)) * 2 ^ e)%Q
  | _ => 0%Q
  end.

(** [a] is the single-precision number whose value is exactly [q]. *)
Definition exact (a : float) (q : Q) : Prop :=
  valid a = true /\ is_finite a = true /\ (to_Q a == q)%Q.

(** [q] is a single-precision number: computing it needs no rounding. *)
Definition representable (q : Q) : Prop := exists a, exact a q.

(** The value truncated toward zero, as the conversions from [float] to
    the integer types do; undefined for infinities and NaN. *)
Definition trunc (a : float) : option Z :=
  match a with
  | S754_zero _ => Some 0
  | S754_finite s m e => Some (cond_Zopp s (Z.shiftl (Z.pos m) e))
  | _ => None
  end.

End F32.

Declare Scope f32_scope.
Delimit Scope f32_scope with f32.
Infix "+" := F32.add : f32_scope.
Infix "-" := F32.sub : f32_scope.
Infix "*" := F32.mul : f32_scope.
Infix "/" := F32.div : f32_scope.

(* ================================================================== *)
(** ** 32-bit signed integers *)

Module Int.

Definition min_int : Z := - 2 ^ 31.
Definition max_int : Z := 2 ^ 31 - 1.

Definition in_range (z : Z) : bool := (min_int <=? z) && (z <=? max_int).

(** Result of an arithmetic operation: undefined when it leaves the
    range of [int]. *)
Definition checked (z : Z) : option Z :=
  if in_range z then Some z else None.

Definition add (a b : Z) : option Z := checked (a + b).
Definition mul (a b : Z) : option Z := checked (a * b).

(** [a / b] and [a % b] truncate toward zero; both are undefined for
    [b = 0] and when the quotient overflows. *)
Definition div (a b : Z) : option Z :=
  if b =? 0 then None else checked (Z.quot a b).
Definition rem (a b : Z) : option Z :=
  if b =? 0 then None
  else if in_range (Z.quot a b) then Some (Z.rem a b) else None.

(** Conversion of an unsigned size to [int]: reduction modulo [2^32]
    into the signed range. *)
Definition of_size (n : Z) : Z := (n + 2 ^ 31) mod 2 ^ 32 - 2 ^ 31.

End Int.

(* ================================================================== *)
(** ** 32-bit unsigned integers ([ImU32]) *)

Module U32.

Definition modulus : Z := 2 ^ 32.

Definition in_range (z : Z) : bool := (0 <=? z) && (z <? modulus).

(** [(ImU32) f]: undefined when the truncated value does not fit. *)
Definition of_float (f : float) : option Z :=
  match F32.trunc f with
  | Some z => if in_range z then Some z else None
  | None => None
  end.

(** [a << n] on 32 bits: the bits shifted out are lost. *)
Definition shl (a n : Z) : Z := Z.shiftl a n mod modulus.

(** The alpha byte and the three colour bytes of a packed colour. *)
Definition alpha (c : Z) : Z := Z.shiftr c 24.
Definition rgb (c : Z) : Z := Z.land c 16777215.

End U32.

(** A tiny option monad for computations that may be undefined. *)
Definition bind {A B : Type} (m : option A) (k : A -> option B) : option B :=
  match m with Some a => k a | None => None end.

Notation "'let?' x ':=' m 'in' k" := (bind m (fun x => k))
  (at level 10, x name, m at level 100, k at level 200).

(* ================================================================== *)
(** ** [ImVec2], [ImVec4] and the operator overloads *)

Record ImVec2 : Type := mkVec2 { vx : float; vy : float }.
Record ImVec4 : Type := mkVec4 { cx : float; cy : float; cz : float; cw : float }.

(** [operator+], [operator-], [operator*] and [operator/] of
    [ImVec2Operators.h]. *)
Definition vadd (lhs rhs : ImVec2) : ImVec2 :=
  mkVec2 (vx lhs + vx rhs)%f32 (vy lhs + vy rhs)%f32.
Definition vsub (lhs rhs : ImVec2) : ImVec2 :=
  mkVec2 (vx lhs - vx rhs)%f32 (vy lhs - vy rhs)%f32.
Definition vscale (lhs : ImVec2) (rhs : float) : ImVec2 :=
  mkVec2 (vx lhs * rhs)%f32 (vy lhs * rhs)%f32.
Definition vdiv (lhs : ImVec2) (rhs : float) : ImVec2 :=
  mkVec2 (vx lhs / rhs)%f32 (vy lhs / rhs)%f32.

(** Component-wise [==] of the language on two vectors. *)
Definition veqb (a b : ImVec2) : bool :=
  F32.eqb (vx a) (vx b) && F32.eqb (vy a) (vy b).

Declare Scope vec_scope.
Delimit Scope vec_scope with vec.
Infix "+" := vadd : vec_scope.
Infix "-" := vsub : vec_scope.

(* ================================================================== *)
(** ** [namespace Position] *)

Module Position.

Definition RightAlign (origin : ImVec2) (documentWidth lineHeight : float)
    (line : Z) (objectDimensions : ImVec2) : ImVec2 :=
  (origin + mkVec2 documentWidth (F32.of_int line * lineHeight)%f32
     - objectDimensions)%vec.

Definition LeftAlign (origin : ImVec2) (lineHeight : float) (line : Z)
    (objectDimensions : ImVec2) : ImVec2 :=
  (origin - mkVec2 (F32.of_int 0) (lineHeight * F32.of_int line)%f32
     - mkVec2 (F32.of_int 0) (vy objectDimensions))%vec.

Definition CenterAlign (origin : ImVec2) (documentWidth lineHeight : float)
    (line : Z) (objectDimensions : ImVec2) : ImVec2 :=
  let x := (vx origin
            + ((documentWidth - vx objectDimensions) / F32.of_int 2))%f32 in
  let y := (vy origin + F32.of_int line * lineHeight)%f32 in
  mkVec2 x y.

Definition Center2D (origin targetObjectDimensions
                     centeredObjectDimensions : ImVec2) : ImVec2 :=
  (origin
   + mkVec2 ((vx targetObjectDimensions - vx centeredObjectDimensions)
             / F32.of_int 2)%f32
            ((vy targetObjectDimensions - vy centeredObjectDimensions)
             / F32.of_int 2)%f32)%vec.

(** [cellNumber / rows] and [cellNumber % columns] are integer
    operations: the function is undefined when either divisor is 0. *)
Definition GridTranslocatedOrigin (origin : ImVec2)
    (cellWidth cellHeight gridlineWidth : float)
    (columns rows cellNumber : Z) : option ImVec2 :=
  let origin := (origin + mkVec2 gridlineWidth gridlineWidth)%vec in
  let horizontalDisplacement := (cellWidth + gridlineWidth)%f32 in
  let verticalDisplacement := (cellHeight + gridlineWidth)%f32 in
  let? row := Int.div cellNumber rows in
  let? col := Int.rem cellNumber columns in
  let x := (vx origin + F32.of_int col * horizontalDisplacement)%f32 in
  let y := (vy origin + F32.of_int row * verticalDisplacement)%f32 in
  Some (mkVec2 x y).

(** The conventional row-major placement the specification compares
    with: the row is [cellNumber / columns]. *)
Definition GridTranslocatedOrigin_row_major (origin : ImVec2)
    (cellWidth cellHeight gridlineWidth : float)
    (columns rows cellNumber : Z) : option ImVec2 :=
  let origin := (origin + mkVec2 gridlineWidth gridlineWidth)%vec in
  let horizontalDisplacement := (cellWidth + gridlineWidth)%f32 in
  let verticalDisplacement := (cellHeight + gridlineWidth)%f32 in
  let? row := Int.div cellNumber columns in
  let? col := Int.rem cellNumber columns in
  let x := (vx origin + F32.of_int col * horizontalDisplacement)%f32 in
  let y := (vy origin + F32.of_int row * verticalDisplacement)%f32 in
  Some (mkVec2 x y).

Definition FrameWithin (outerFrame innerFrame : ImVec2) (padding : float)
    : ImVec2 :=
  let innerAspectRatio := (vx innerFrame / vy innerFrame)%f32 in
  let outerAspectRatio := (vx outerFrame / vy outerFrame)%f32 in
  if F32.gtb innerAspectRatio outerAspectRatio then
    let x := (vx outerFrame - F32.of_int 2 * padding)%f32 in
    let y := (x / innerAspectRatio)%f32 in
    mkVec2 x y
  else
    let y := (vy outerFrame - F32.of_int 2 * padding)%f32 in
    let x := (y * innerAspectRatio)%f32 in
    mkVec2 x y.

(** *** Outer and inner alignment

    The literal [2.0f] and the [int] constant [2] converted to [float]
    are the same single-precision number. *)

Definition CenterOnLeftSide (targetObjectOrigin targetObjectDimensions
    centeredObjectDimensions : ImVec2) (distanceApart : float) : ImVec2 :=
  let x := (vx targetObjectOrigin - distanceApart
            - vx centeredObjectDimensions)%f32 in
  let y := (vy targetObjectOrigin
            + (vy targetObjectDimensions - vy centeredObjectDimensions)
              / F32.of_int 2)%f32 in
  mkVec2 x y.

Definition CenterAbove (targetObjectOrigin targetObjectDimensions
    centeredObjectDimensions : ImVec2) (distanceApart : float) : ImVec2 :=
  let absoluteCenter :=
    Center2D targetObjectOrigin targetObjectDimensions
      centeredObjectDimensions in
  (absoluteCenter
   - mkVec2 (F32.of_int 0)
            (distanceApart + vy targetObjectDimensions / F32.of_int 2)%f32)%vec.

Definition CenterOnRightSide (targetObjectOrigin targetObjectDimensions
    centeredObjectDimensions : ImVec2) (distanceApart : float) : ImVec2 :=
  let x := (vx targetObjectOrigin + vx targetObjectDimensions
            + distanceApart)%f32 in
  let y := (vy targetObjectOrigin
            + (vy targetObjectDimensions - vy centeredObjectDimensions)
              / F32.of_int 2)%f32 in
  mkVec2 x y.

Definition BottomAlignOnRightSide (targetObjectOrigin targetObjectDimensions
    alignedObjectDimensions : ImVec2) (distanceApart : float) : ImVec2 :=
  let x := (vx targetObjectOrigin + vx targetObjectDimensions
            + distanceApart)%f32 in
  let y := (vy targetObjectOrigin
            + (vy targetObjectDimensions - vy alignedObjectDimensions))%f32 in
  mkVec2 x y.

Definition TopAlignOnRightSide (targetObjectOrigin targetObjectDimensions
    : ImVec2) (distanceApart : float) : ImVec2 :=
  let x := (vx targetObjectOrigin + vx targetObjectDimensions
            + distanceApart)%f32 in
  let y := vy targetObjectOrigin in
  mkVec2 x y.

Definition InnerAlignCenterLeft (targetObjectOrigin targetObjectDimensions
    centeredObjectDimensions : ImVec2) : ImVec2 :=
  let centeringDisplacement :=
    ((vy targetObjectDimensions - vy centeredObjectDimensions)
     / F32.of_int 2)%f32 in
  let y := (vy targetObjectOrigin + centeringDisplacement)%f32 in
  let x := (vx targetObjectOrigin + centeringDisplacement)%f32 in
  mkVec2 x y.

Definition InnerAlignCenterRight (targetObjectOrigin targetObjectDimensions
    centeredObjectDimensions : ImVec2) : ImVec2 :=
  let centeringDisplacement :=
    ((vy targetObjectDimensions - vy centeredObjectDimensions)
     / F32.of_int 2)%f32 in
  let y := (vy targetObjectOrigin + centeringDisplacement)%f32 in
  let x := (vx targetObjectOrigin + vx targetObjectDimensions
            - vx centeredObjectDimensions - centeringDisplacement)%f32 in
  mkVec2 x y.

Definition InnerAlignBottomRight (targetObjectOrigin targetObjectDimensions
    alignedObjectDimensions : ImVec2) (gap : float) : ImVec2 :=
  let x := (vx targetObjectOrigin + vx targetObjectDimensions
            - vx alignedObjectDimensions - gap)%f32 in
  let y := (vy targetObjectOrigin + vy targetObjectDimensions - gap
            - vy alignedObjectDimensions)%f32 in
  mkVec2 x y.

Definition InnerAlignTopLeft (targetObjectOrigin : ImVec2) (gap : float)
    : ImVec2 :=
  let x := (vx targetObjectOrigin + gap)%f32 in
  let y := (vy targetObjectOrigin + gap)%f32 in
  mkVec2 x y.

Definition InnerAlignBottomLeft (targetObjectOrigin targetObjectDimensions
    alignedObjectDimensions : ImVec2) (gap : float) : ImVec2 :=
  let x := (vx targetObjectOrigin + gap)%f32 in
  let y := (vy targetObjectOrigin + vy targetObjectDimensions - gap
            - vy alignedObjectDimensions)%f32 in
  mkVec2 x y.

Definition InnerAlignBottomCenter (targetObjectOrigin targetObjectDimensions
    alignedObjectDimensions : ImVec2) (gap : float) : ImVec2 :=
  let x := (vx targetObjectOrigin
            + (vx targetObjectDimensions - vx alignedObjectDimensions)
              / F32.of_int 2)%f32 in
  let y := (vy targetObjectOrigin + vy targetObjectDimensions
            - vy alignedObjectDimensions - gap)%f32 in
  mkVec2 x y.

End Position.

(* ================================================================== *)
(** ** The interface to Dear ImGui and to the C library *)

Module ImGui.

(** An [ImFont*] and an [ImTextureID] are handles. *)
Definition ImFont : Type := Z.

(** What the library and [libm] compute, left open: the trigonometric
    functions and [std::pow] on [float], the size of a text in a font,
    and the packing of a colour of four floats. *)
Record Env : Type := mkEnv {
  cosf : float -> float;
  sinf : float -> float;
  powf : float -> float -> float;
  CalcTextSize : ImFont -> string -> ImVec2;
  ColorConvertFloat4ToU32 : ImVec4 -> Z
  }.

(** Calls on the draw list of the current window, and on the font
    stack.  [AddRectFilled] is called with three arguments, or with a
    rounding and [ImDrawFlags_RoundCornersAll]. *)
Inductive DrawCmd : Type :=
| AddText (font : ImFont) (font_size : float) (pos : ImVec2) (col : Z)
    (text : string)
| AddRectFilled (p_min p_max : ImVec2) (col : Z)
| AddRectFilled_RoundCornersAll (p_min p_max : ImVec2) (col : Z)
    (rounding : float)
| AddRect (p_min p_max : ImVec2) (col : Z) (rounding : float) (flags : Z)
    (thickness : float)
| AddImage (user_texture_id : Z) (p_min p_max uv_min uv_max : ImVec2)
    (col : Z)
| AddImageRounded (user_texture_id : Z) (p_min p_max uv_min uv_max : ImVec2)
    (col : Z) (rounding : float)
| PushFont (font : ImFont)
| PopFont.

(** [IM_PI] is the literal [3.14159265358979323846f]. *)
Definition IM_PI : float := F32.dyadic 13176795 (-22).

(** [IM_COL32_WHITE] is [IM_COL32(255,255,255,255)]. *)
Definition IM_COL32_WHITE : Z := 4294967295.

(** The macro [IM_COL32(R,G,B,A)]: each argument is converted to
    [ImU32] and shifted to its byte (red lowest, alpha highest). *)
Definition IM_COL32 (R G B A : float) : option Z :=
  let? a := U32.of_float A in
  let? b := U32.of_float B in
  let? g := U32.of_float G in
  let? r := U32.of_float R in
  Some (Z.lor (Z.lor (Z.lor (U32.shl a 24) (U32.shl b 16)) (U32.shl g 8))
              (U32.shl r 0)).

(** [ImClamp(v, mn, mx)] is [(v < mn) ? mn : (v > mx) ? mx : v]. *)
Definition ImClamp (v mn mx : float) : float :=
  if F32.ltb v mn then mn else if F32.gtb v mx then mx else v.

End ImGui.

(** [double] arithmetic, for expressions that mix a [float] with a
    literal such as [255.0]. *)
Module F64.

Definition prec : Z := 53.
Definition emax : Z := 1024.

(** The promotion [float -> double] changes no value. *)
Definition of_float (a : float) : spec_float :=
  match a with
  | S754_finite s m e => binary_round prec emax s m e
  | _ => a
  end.

Definition of_int (z : Z) : spec_float := binary_normalize prec emax z 0 false.
Definition mul : spec_float -> spec_float -> spec_float := SFmul prec emax.

End F64.

(* ================================================================== *)
(** ** [namespace Color] *)

Module Color.


Definition RGBtoImVec4 (r g b a : float) : ImVec4 :=
  mkVec4 (r / F32.of_int 255)%f32 (g / F32.of_int 255)%f32
         (b / F32.of_int 255)%f32 a.




(** [WithAlpha]: undefined when [(ImU32)(alpha * 255.0f)] is. *)
Definition WithAlpha (color : Z) (alpha : float) : option Z :=
  let colorWithAlpha := Z.land color 16777215 in
  let? a := U32.of_float (alpha * F32.of_int 255)%f32 in
  Some (Z.lor colorWithAlpha (U32.shl a 24)).

Definition RGBtoImU32 (ui : ImGui.Env) (r g b a : float) : Z :=
  ImGui.ColorConvertFloat4ToU32 ui
    (mkVec4 (r / F32.of_int 255)%f32 (g / F32.of_int 255)%f32
            (b / F32.of_int 255)%f32 (a / F32.of_int 255)%f32).

End Color.

(* ================================================================== *)
(** ** [Draw::PopulateGrid] *)

(** [struct TextureData] of the texture loader. *)
Record TextureData : Type := mkTexture { id : Z; width : Z; height : Z }.

(** Style macros of [Window.h] that [DrawTools.cpp] uses. *)
Module Style.

Definition DEFAULT_HIGHLIGHT_WIDTH : float := F32.of_int 8.
Definition DEFAULT_GRAPHICS_GAP : float := F32.of_int 32.
Definition DEFAULT_WINDOW_ROUNDING : float := F32.of_int 48.

(** [Color::RGBtoImU32(DEFAULT_INERT_SELECTION_OR_FONT_COLOR, 1.0f)]. *)
Definition DEFAULT_FONT_COLOR (ui : ImGui.Env) : Z :=
  Color.RGBtoImU32 ui (F32.of_int 144) (F32.of_int 146) (F32.of_int 148)
    (F32.of_int 1).

End Style.

Module Draw.

(** What one iteration of the population loop does that is visible from
    outside: it reads [images[index]] while the guard counter has the
    value [cellIndex], and hands the texture to [Draw::Image]. *)
Record ImageCall : Type := mkImageCall {
  call_cellIndex : Z;
  call_index : Z;
  call_sprite : TextureData;
  call_position : ImVec2;
  call_frameSize : ImVec2;
  call_scale : float
  }.

(** Control after a loop body: fall through to the next iteration, or
    [return] from the function. *)
Inductive Flow (S : Type) : Type :=
| Continue (s : S)
| Return (s : S).
Arguments Continue {S} s.
Arguments Return {S} s.

(** [for (int i = lo; i < lo + n; i++) body], [n] iterations at most;
    [None] is undefined behaviour inside the body. *)
Fixpoint for_loop {S : Type} (n : nat) (i : Z)
    (body : Z -> S -> option (Flow S)) (s : S) : option (Flow S) :=
  match n with
  | O => Some (Continue s)
  | Datatypes.S n' =>
      match body i s with
      | Some (Continue s') => for_loop n' (i + 1) body s'
      | other => other
      end
  end.

(** [images[i]] on a [std::vector]: undefined outside [0 .. size-1]. *)
Definition at_index (images : list TextureData) (i : Z)
    : option TextureData :=
  if i <? 0 then None else nth_error images (Z.to_nat i).

(** Loop state: the counter [cellIndex] and the calls made so far (most
    recent first). *)
Definition GridState : Type := (Z * list ImageCall)%type.

Definition PopulateGrid_cell (images : list TextureData) (origin : ImVec2)
    (columns : Z) (horizontalCellDisplacement verticalCellDisplacement : float)
    (cellFrameSize : ImVec2) (imageCount currentRow currentColumn : Z)
    (st : GridState) : option (Flow GridState) :=
  let '(cellIndex, calls) := st in
  if imageCount <=? cellIndex then Some (Return st)
  else
    let anchor :=
      (origin + mkVec2 (F32.of_int currentColumn * horizontalCellDisplacement)%f32
                       (F32.of_int currentRow * verticalCellDisplacement)%f32)%vec in
    let? rc := Int.mul currentRow columns in
    let? index := Int.add rc currentColumn in
    let? sprite := at_index images index in
    let call := mkImageCall cellIndex index sprite anchor cellFrameSize
                  F32.zero in
    let? next := Int.add cellIndex 1 in
    Some (Continue (next, call :: calls)).

(** The function returns the [Draw::Image] calls it made, in order, or
    [None] if it ran into undefined behaviour. *)
Definition PopulateGrid (images : list TextureData) (origin : ImVec2)
    (columns rows : Z) (cellWidth cellHeight gridlineWidth : float)
    : option (list ImageCall) :=
  let origin := (origin + mkVec2 gridlineWidth gridlineWidth)%vec in
  let horizontalCellDisplacement := (cellWidth + gridlineWidth)%f32 in
  let verticalCellDisplacement := (cellHeight + gridlineWidth)%f32 in
  let cellFrameSize := mkVec2 cellWidth cellHeight in
  let imageCount := Int.of_size (Z.of_nat (List.length images)) in
  let cellIndex := 0 in
  let result :=
    for_loop (Z.to_nat rows) 0
      (fun currentRow =>
         for_loop (Z.to_nat columns) 0
           (PopulateGrid_cell images origin columns
              horizontalCellDisplacement verticalCellDisplacement
              cellFrameSize imageCount currentRow))
      (cellIndex, []) in
  match result with
  | Some (Continue (_, calls)) | Some (Return (_, calls)) => Some (rev calls)
  | None => None
  end.

(** *** Vocabulary for the statement about [PopulateGrid] *)

(** What a call read: the guard counter, the index, the texture. *)
Definition access (c : ImageCall) : Z * Z * TextureData :=
  (call_cellIndex c, call_index c, call_sprite c).

(** The textures of [l] read in order from position [i], the counter
    agreeing with the index. *)
Fixpoint numbered (i : Z) (l : list TextureData)
    : list (Z * Z * TextureData) :=
  match l with
  | [] => []
  | t :: l' => (i, i, t) :: numbered (i + 1) l'
  end.

(** Number of images the grid shows: [min(images.size(), columns*rows)]. *)
Definition shown (images : list TextureData) (columns rows : Z) : Z :=
  Z.min (Z.of_nat (List.length images)) (columns * rows).

(** Number of calls the loops make, in terms of the [int] that
    [images.size()] narrows to. *)
Definition drawn (images : list TextureData) (columns rows : Z) : Z :=
  Z.min (Z.max 0 (Int.of_size (Z.of_nat (List.length images))))
        (columns * rows).

(** *** The drawing primitives *)

(** A function that draws returns its calls in order, or [None] if it
    ran into undefined behaviour. *)
Definition Drawing : Type := option (list ImGui.DrawCmd).

Definition and_then (a b : Drawing) : Drawing :=
  let? x := a in let? y := b in Some (x ++ y).

(** [for (int i = 0; i < n; ++i) f(i)] for a body that only draws. *)
Definition draw_loop (n : nat) (f : Z -> Drawing) : Drawing :=
  match for_loop n 0
          (fun i calls => let? c := f i in Some (Continue (calls ++ c))) []
  with
  | Some (Continue calls) | Some (Return calls) => Some calls
  | None => None
  end.

Definition Text (text : string) (color : Z) (transparency : float)
    (position : ImVec2) (font : ImGui.ImFont) (fontSize : float) : Drawing :=
  let? a := U32.of_float (transparency * F32.of_int 255)%f32 in
  let colorWithAlpha := Z.lor (Z.land color 16777215) (U32.shl a 24) in
  Some [ImGui.AddText font fontSize position colorWithAlpha text].

Definition segments : Z := 32.

Definition TextStroke (ui : ImGui.Env) (text : string) (strokeColor : Z)
    (transparency strokeWidth : float) (position : ImVec2)
    (font : ImGui.ImFont) (fontSize : float) : Drawing :=
  let step := (F32.of_int 2 * ImGui.IM_PI / F32.of_int segments)%f32 in
  draw_loop (Z.to_nat segments)
    (fun i =>
       let angle := (step * F32.of_int i)%f32 in
       let offset :=
         vscale (mkVec2 (ImGui.cosf ui angle) (ImGui.sinf ui angle))
                strokeWidth in
       Text text strokeColor transparency (position + offset)%vec font
         fontSize).

Definition TextWithStroke (ui : ImGui.Env) (text : string)
    (strokeColor textColor : Z) (transparency strokeWidth : float)
    (position : ImVec2) (font : ImGui.ImFont) (fontSize : float) : Drawing :=
  and_then
    (TextStroke ui text strokeColor transparency strokeWidth position font
       fontSize)
    (Text text textColor transparency position font fontSize).

Definition FilledRectangle (color : Z) (transparency : float)
    (position rectangleSize : ImVec2) : Drawing :=
  let colorWithAlpha := Z.land color 16777215 in
  let? a := U32.of_float (transparency * F32.of_int 255)%f32 in
  let colorWithAlpha := Z.lor colorWithAlpha (U32.shl a 24) in
  Some [ImGui.AddRectFilled position (position + rectangleSize)%vec
          colorWithAlpha].

Definition FilledRoundedRectangle (color : Z) (transparency : float)
    (position rectangleSize : ImVec2) (rounding : float) : Drawing :=
  let colorWithAlpha := Z.land color 16777215 in
  let? a := U32.of_float (transparency * F32.of_int 255)%f32 in
  let colorWithAlpha := Z.lor colorWithAlpha (U32.shl a 24) in
  Some [ImGui.AddRectFilled_RoundCornersAll position
          (position + rectangleSize)%vec colorWithAlpha rounding].

Definition FilledRectangleWithStroke (color strokeColor : Z)
    (transparency : float) (position rectangleSize : ImVec2)
    (strokeWidth : float) : Drawing :=
  and_then
    (FilledRectangle strokeColor transparency
       (mkVec2 (vx position - strokeWidth)%f32 (vy position - strokeWidth)%f32)
       (rectangleSize
        + mkVec2 (strokeWidth * F32.of_int 2)%f32
                 (strokeWidth * F32.of_int 2)%f32)%vec)
    (FilledRectangle color transparency position rectangleSize).

(** [Highlight] measures the text in the font that is current when it
    is called, [current]; its own [font] and [fontSize] are not used. *)
Definition Highlight (ui : ImGui.Env) (current : ImGui.ImFont)
    (text : string) (font : ImGui.ImFont) (width : float) (color : Z)
    (transparency : float) (position : ImVec2) (fontSize : float) : Drawing :=
  let textSize := ImGui.CalcTextSize ui current text in
  let highlightOffset := (position - mkVec2 width width)%vec in
  let rectangleSize :=
    (textSize + mkVec2 (F32.of_int 2 * width)%f32
                       (F32.of_int 2 * width)%f32)%vec in
  FilledRectangle color transparency highlightOffset rectangleSize.

Definition HighlightRounded (ui : ImGui.Env) (text : string)
    (font : ImGui.ImFont) (width : float) (color : Z) (transparency : float)
    (position : ImVec2) (fontSize rounding : float) : Drawing :=
  let textSize := ImGui.CalcTextSize ui font text in
  let highlightOffset := (position - mkVec2 width width)%vec in
  let rectangleSize :=
    (textSize + mkVec2 (F32.of_int 2 * width)%f32
                       (F32.of_int 2 * width)%f32)%vec in
  and_then (Some [ImGui.PushFont font; ImGui.PopFont])
    (FilledRoundedRectangle color transparency highlightOffset rectangleSize
       rounding).


Definition TextWithRoundedHighlight (ui : ImGui.Env) (text : string)
    (font : ImGui.ImFont) (highlightWidth : float)
    (textColor highlightColor : Z)
    (textTransparency highlightTransparency : float) (position : ImVec2)
    (fontSize rounding : float) : Drawing :=
  and_then
    (HighlightRounded ui text font highlightWidth highlightColor
       highlightTransparency position fontSize rounding)
    (Text text textColor textTransparency position font fontSize).

Definition StrokedTextWithHighlight (ui : ImGui.Env) (current : ImGui.ImFont)
    (text : string) (font : ImGui.ImFont) (highlightWidth strokeWidth : float)
    (textColor highlightColor strokeColor : Z)
    (textTransparency highlightTransparency : float) (position : ImVec2)
    (fontSize : float) : Drawing :=
  and_then
    (Highlight ui current text font highlightWidth highlightColor
       highlightTransparency position (F32.of_int 0))
    (TextWithStroke ui text strokeColor textColor textTransparency
       strokeWidth position font (F32.of_int 0)).

Definition BoxAround (size position : ImVec2) (width : float) (color : Z)
    (transparency rounding : float) (rectangleFlags : Z) : Drawing :=
  let colorWithAlpha := Z.land color 16777215 in
  let? a := U32.of_float (transparency * F32.of_int 255)%f32 in
  let colorWithAlpha := Z.lor colorWithAlpha (U32.shl a 24) in
  let p_min := (position - mkVec2 width width)%vec in
  let p_max := (position + size + mkVec2 width width)%vec in
  Some [ImGui.AddRect p_min p_max colorWithAlpha rounding rectangleFlags
          width].

Definition RoundedRectangleBehind (size position : ImVec2) (width : float)
    (color : Z) (transparency rounding : float) : Drawing :=
  let colorWithAlpha := Z.land color 16777215 in
  let? a := U32.of_float (transparency * F32.of_int 255)%f32 in
  let colorWithAlpha := Z.lor colorWithAlpha (U32.shl a 24) in
  let p_min := (position - mkVec2 width width)%vec in
  let p_max := (position + size + mkVec2 width width)%vec in
  Some [ImGui.AddRectFilled_RoundCornersAll p_min p_max colorWithAlpha
          rounding].

Definition BoxAroundWithStroke (ui : ImGui.Env) (size offset : ImVec2)
    (width : float) (color : Z) (strokeWidth : float) (strokeColor : Z)
    (transparency rounding : float) (rectangleFlags : Z) : Drawing :=
  let step := (F32.of_int 2 * ImGui.IM_PI / F32.of_int segments)%f32 in
  and_then
    (draw_loop (Z.to_nat segments)
       (fun i =>
          let angle := (step * F32.of_int i)%f32 in
          let strokeOffset :=
            vscale (mkVec2 (ImGui.cosf ui angle) (ImGui.sinf ui angle))
                   strokeWidth in
          BoxAround size (offset + strokeOffset)%vec width strokeColor
            transparency rounding rectangleFlags))
    (BoxAround size offset width color transparency rounding rectangleFlags).

(** [Sprite]: the tint is computed in [double], from the literals
    [255.0]. *)
Definition Sprite (sprite : TextureData) (position : ImVec2)
    (transparency : float) : Drawing :=
  let? tintColor :=
    ImGui.IM_COL32 (F64.of_int 255) (F64.of_int 255) (F64.of_int 255)
      (F64.mul (F64.of_float transparency) (F64.of_int 255)) in
  Some [ImGui.AddImage (id sprite) position
          (position + mkVec2 (F32.of_int (width sprite))
                             (F32.of_int (height sprite)))%vec
          (mkVec2 (F32.of_int 0) (F32.of_int 0))
          (mkVec2 (F32.of_int 1) (F32.of_int 1)) tintColor].

Definition TintedSprite (sprite : TextureData) (position : ImVec2)
    (tintColor : Z) (transparency : float) : Drawing :=
  let? colorWithAlpha := Color.WithAlpha tintColor transparency in
  Some [ImGui.AddImage (id sprite) position
          (position + mkVec2 (F32.of_int (width sprite))
                             (F32.of_int (height sprite)))%vec
          (mkVec2 (F32.of_int 0) (F32.of_int 0))
          (mkVec2 (F32.of_int 1) (F32.of_int 1)) colorWithAlpha].

Definition SpriteSubsection (sprite : TextureData)
    (position startFraction endFraction : ImVec2) : Drawing :=
  let spriteSize :=
    mkVec2 (F32.of_int (width sprite)) (F32.of_int (height sprite)) in
  let topLeft :=
    (position + mkVec2 (vx startFraction * vx spriteSize)%f32
                       (vy startFraction * vy spriteSize)%f32)%vec in
  let bottomRight :=
    (position + mkVec2 (vx endFraction * vx spriteSize)%f32
                       (vy endFraction * vy spriteSize)%f32)%vec in
  Some [ImGui.AddImage (id sprite) topLeft bottomRight startFraction
          endFraction ImGui.IM_COL32_WHITE].

(** The literal [1.001f]: the single-precision number nearest to
    1001/1000, which is what dividing 1001 by 1000 gives. *)
Definition zoom_min : float := (F32.of_int 1001 / F32.of_int 1000)%f32.

Definition Image (ui : ImGui.Env) (sprite : TextureData)
    (position frameSize : ImVec2) (scale : float) : Drawing :=
  let trueScale :=
    ImGui.powf ui (F32.of_int 2) (scale * F32.of_int 4)%f32 in
  let topLeft := position in
  let bottomRight := (position + frameSize)%vec in
  let scale := ImGui.ImClamp trueScale zoom_min (F32.of_int 100) in
  let margin :=
    ((F32.of_int 1 - F32.of_int 1 / scale) / F32.of_int 2)%f32 in
  let startFraction := mkVec2 margin margin in
  let endFraction :=
    mkVec2 (F32.of_int 1 - margin)%f32 (F32.of_int 1 - margin)%f32 in
  Some [ImGui.AddImage (id sprite) topLeft bottomRight startFraction
          endFraction ImGui.IM_COL32_WHITE].

Definition Crop (sprite : TextureData)
    (position cropPosition cropSize frameSize : ImVec2) : Drawing :=
  let topLeft := position in
  let bottomRight := (position + frameSize)%vec in
  let startFraction :=
    mkVec2 (vx cropPosition / F32.of_int (width sprite))%f32
           (vy cropPosition / F32.of_int (height sprite))%f32 in
  let endFraction :=
    mkVec2 ((vx cropPosition + vx cropSize) / F32.of_int (width sprite))%f32
           ((vy cropPosition + vy cropSize) / F32.of_int (height sprite))%f32
    in
  Some [ImGui.AddImage (id sprite) topLeft bottomRight startFraction
          endFraction ImGui.IM_COL32_WHITE].

Definition RoundedImage (ui : ImGui.Env) (sprite : TextureData)
    (position frameSize : ImVec2) (scale rounding : float) : Drawing :=
  let trueScale :=
    ImGui.powf ui (F32.of_int 2) (scale * F32.of_int 4)%f32 in
  let topLeft := position in
  let bottomRight := (position + frameSize)%vec in
  let scale := ImGui.ImClamp trueScale zoom_min (F32.of_int 100) in
  let margin :=
    ((F32.of_int 1 - F32.of_int 1 / scale) / F32.of_int 2)%f32 in
  let startFraction := mkVec2 margin margin in
  let endFraction :=
    mkVec2 (F32.of_int 1 - margin)%f32 (F32.of_int 1 - margin)%f32 in
  Some [ImGui.AddImageRounded (id sprite) topLeft bottomRight startFraction
          endFraction ImGui.IM_COL32_WHITE rounding].

(** *** Grids *)

(** [for (int i = 0; i <= hi; i++) f(i)]: when [hi] is [INT_MAX] the
    increment overflows. *)
Definition draw_loop_le (hi : Z) (f : Z -> Drawing) : Drawing :=
  if Int.max_int <=? hi then None
  else draw_loop (Z.to_nat (hi + 1)) f.

Definition Grid (origin : ImVec2) (columns rows : Z)
    (cellWidth cellHeight gridlineWidth : float) (gridlineColor : Z)
    : Drawing :=
  let? columns1 := Int.add columns 1 in
  let documentWidth :=
    (F32.of_int columns1 * gridlineWidth
     + cellWidth * F32.of_int columns)%f32 in
  let? rows1 := Int.add rows 1 in
  let documentHeight :=
    (F32.of_int rows1 * gridlineWidth + cellHeight * F32.of_int rows)%f32 in
  let horizontalGridlineSize := mkVec2 documentWidth gridlineWidth in
  let verticalGridlineSize := mkVec2 gridlineWidth documentHeight in
  let horizontalCellDisplacement := (cellWidth + gridlineWidth)%f32 in
  let verticalCellDisplacement := (cellHeight + gridlineWidth)%f32 in
  and_then
    (draw_loop_le columns
       (fun currentColumn =>
          let anchor :=
            (origin
             + mkVec2 (horizontalCellDisplacement
                       * F32.of_int currentColumn)%f32
                      (F32.of_int 0))%vec in
          FilledRectangle gridlineColor (F32.of_int 1) anchor
            verticalGridlineSize))
    (draw_loop_le rows
       (fun currentRow =>
          let anchor :=
            (origin
             + mkVec2 (F32.of_int 0)
                      (verticalCellDisplacement
                       * F32.of_int currentRow)%f32)%vec in
          FilledRectangle gridlineColor (F32.of_int 1) anchor
            horizontalGridlineSize)).

(** The two loops of the three grid populations, for the body [cell] of
    a cell: [cell currentRow currentColumn] draws, or is undefined. *)
Definition SparseState : Type := (Z * list ImGui.DrawCmd)%type.

Definition populate_cell (imageCount : Z) (cell : Z -> Z -> Drawing)
    (currentRow currentColumn : Z) (st : SparseState)
    : option (Flow SparseState) :=
  let '(cellIndex, calls) := st in
  if imageCount <=? cellIndex then Some (Return st)
  else
    let? c := cell currentRow currentColumn in
    let? next := Int.add cellIndex 1 in
    Some (Continue (next, calls ++ c)).

Definition populate (rows columns imageCount : Z)
    (cell : Z -> Z -> Drawing) : Drawing :=
  let cellIndex := 0 in
  match for_loop (Z.to_nat rows) 0
          (fun currentRow =>
             for_loop (Z.to_nat columns) 0
               (populate_cell imageCount cell currentRow))
          (cellIndex, [])
  with
  | Some (Continue (_, calls)) | Some (Return (_, calls)) => Some calls
  | None => None
  end.

Definition PopulateSparseRoundedGrid (ui : ImGui.Env)
    (images : list TextureData) (origin : ImVec2) (columns rows : Z)
    (cellWidth cellHeight spacing rounding : float) : Drawing :=
  let origin := (origin + mkVec2 spacing spacing)%vec in
  let horizontalCellDisplacement := (cellWidth + spacing)%f32 in
  let verticalCellDisplacement := (cellHeight + spacing)%f32 in
  let cellFrameSize := mkVec2 cellWidth cellHeight in
  let imageCount := Int.of_size (Z.of_nat (List.length images)) in
  populate rows columns imageCount
    (fun currentRow currentColumn =>
       let anchor :=
         (origin
          + mkVec2 (F32.of_int currentColumn * horizontalCellDisplacement)%f32
                   (F32.of_int currentRow * verticalCellDisplacement)%f32)%vec
         in
       let? rc := Int.mul currentRow columns in
       let? index := Int.add rc currentColumn in
       let? sprite := at_index images index in
       RoundedImage ui sprite anchor cellFrameSize (F32.of_int 0) rounding).

(** [dates[i]] on a [std::vector<std::string>]. *)
Definition date_at (dates : list string) (i : Z) : option string :=
  if i <? 0 then None else nth_error dates (Z.to_nat i).

Definition PopulateSparseRoundedGridWithDates (ui : ImGui.Env)
    (images : list TextureData) (origin : ImVec2) (columns rows : Z)
    (cellWidth cellHeight spacing rounding : float) (dates : list string)
    (font : ImGui.ImFont) (exitSelected : bool) : Drawing :=
  let origin := (origin + mkVec2 spacing spacing)%vec in
  let horizontalCellDisplacement := (cellWidth + spacing)%f32 in
  let verticalCellDisplacement := (cellHeight + spacing)%f32 in
  let cellFrameSize := mkVec2 cellWidth cellHeight in
  let imageCount := Int.of_size (Z.of_nat (List.length images)) in
  populate rows columns imageCount
    (fun currentRow currentColumn =>
       let? rc := Int.mul currentRow columns in
       let? currentIndex := Int.add rc currentColumn in
       let anchor :=
         (origin
          + mkVec2 (F32.of_int currentColumn * horizontalCellDisplacement)%f32
                   (F32.of_int currentRow * verticalCellDisplacement)%f32)%vec
         in
       let? date := date_at dates currentIndex in
       if negb (String.eqb date EmptyString) then
         let? sprite := at_index images currentIndex in
         and_then
           (RoundedImage ui sprite anchor cellFrameSize (F32.of_int 0)
              rounding)
           (let fontSize := ImGui.CalcTextSize ui font date in
            let fontPosition :=
              Position.InnerAlignBottomLeft anchor cellFrameSize fontSize
                Style.DEFAULT_GRAPHICS_GAP in
            and_then (Some [ImGui.PushFont font])
              (and_then
                 (TextWithRoundedHighlight ui date font
                    Style.DEFAULT_HIGHLIGHT_WIDTH (Style.DEFAULT_FONT_COLOR ui)
                    ImGui.IM_COL32_WHITE (F32.of_int 1) (F32.of_int 1)
                    fontPosition (F32.of_int 0)
                    Style.DEFAULT_WINDOW_ROUNDING)
                 (Some [ImGui.PopFont])))
       else
         let? sprite := at_index images currentIndex in
         let iconSize :=
           mkVec2 (F32.of_int (width sprite)) (F32.of_int (height sprite)) in
         let iconPosition := Position.Center2D anchor cellFrameSize iconSize in
         if exitSelected then Sprite sprite iconPosition (F32.of_int 1)
         else
           TintedSprite sprite iconPosition
             (Color.RGBtoImU32 ui (F32.of_int 9) (F32.of_int 174)
                (F32.of_int 214) (F32.of_int 1))
             (F32.of_int 1)).

End Draw.

(* ================================================================== *)
(** ** [namespace Texture] *)

Module Texture.

(** Calls into the C library, stb_image, OpenGL and Dear ImGui's
    allocator. *)
Inductive Event : Type :=
| fopen (file_name : string)
| fseek_END
| ftell
| fseek_SET
| IM_ALLOC (size : Z)
| fread (size : Z)
| fclose
| IM_FREE
| stbi_load_from_memory (len : Z)
| glGenTextures
| glBindTexture (texture : Z)
| glTexParameteri_MIN_FILTER
| glTexParameteri_MAG_FILTER
| glPixelStorei_UNPACK_ROW_LENGTH
| glTexImage2D (width height : Z)
| stbi_image_free
| cerr (message : string).

(** What the outside answers: whether [fopen] returns a stream, the
    value of [ftell], the size of the image that [stbi_load_from_memory]
    decodes from a buffer of a given length ([None] for [NULL]), and the
    name that [glGenTextures] hands out. *)
Record World : Type := mkWorld {
  fopen_succeeds : bool;
  ftell_result : Z;
  stbi_decodes : Z -> option (Z * Z);
  gl_texture : Z
  }.

(** [(size_t) x] on 64 bits. *)
Definition to_size_t (x : Z) : Z := x mod 2 ^ 64.

(** The [bool] result and the three out-parameters, which are written
    on success only. *)
Definition Loaded : Type := option (Z * Z * Z).

Definition LoadTextureFromMemory (world : World) (data_size : Z)
    : list Event * Loaded :=
  let len := Int.of_size data_size in
  match stbi_decodes world len with
  | None => ([stbi_load_from_memory len], None)
  | Some (image_width, image_height) =>
      let image_texture := gl_texture world in
      ([stbi_load_from_memory len;
        glGenTextures;
        glBindTexture image_texture;
        glTexParameteri_MIN_FILTER;
        glTexParameteri_MAG_FILTER;
        glPixelStorei_UNPACK_ROW_LENGTH;
        glTexImage2D image_width image_height;
        stbi_image_free],
       Some (image_texture, image_width, image_height))
  end.

Definition LoadTextureFromFile (world : World) (file_name : string)
    : list Event * Loaded :=
  if negb (fopen_succeeds world) then ([fopen file_name], None)
  else
    let file_size := to_size_t (ftell_result world) in
    if file_size =? to_size_t (-1) then
      ([fopen file_name; fseek_END; ftell], None)
    else
      let '(calls, ret) := LoadTextureFromMemory world file_size in
      ([fopen file_name; fseek_END; ftell; fseek_SET; IM_ALLOC file_size;
        fread file_size; fclose] ++ calls ++ [IM_FREE],
       ret).

(** [Load] returns the texture or throws [std::runtime_error]. *)
Inductive Outcome : Type :=
| Returns (texture : TextureData)
| Throws (what : string).

Definition Load (world : World) (path : string) : list Event * Outcome :=
  let '(calls, ret) := LoadTextureFromFile world path in
  match ret with
  | None =>
      (calls
       ++ [cerr ("TextureLoader.LoadTexture: Failed to load texture: "
                 ++ path)],
       Throws "TextureLoader.LoadTexture: Failed to load texture")
  | Some (texture_id, width, height) =>
      (calls, Returns (mkTexture texture_id width height))
  end.

End Texture.

(* ================================================================== *)
(** ** [class Window] *)

Module Window.

(** Default value macros of [Window.h]. *)
Definition DEFAULT_VIEWPORT_WIDTH : float := F32.of_int 3840.
Definition DEFAULT_VIEWPORT_HEIGHT : float := F32.of_int 2160.

(** [Color::RGBtoImVec4] and [DEFAULT_BG]. *)
Definition RGBtoImVec4 (r g b a : float) : ImVec4 :=
  mkVec4 (r / F32.of_int 255)%f32 (g / F32.of_int 255)%f32
         (b / F32.of_int 255)%f32 a.
Definition DEFAULT_BG : ImVec4 :=
  RGBtoImVec4 (F32.of_int 40) (F32.of_int 40) (F32.of_int 40) F32.one.

(** [ImGuiWindowFlags_NoBackground = 1 << 7] in [imgui.h]. *)
Definition ImGuiWindowFlags_NoBackground : Z := Z.shiftl 1 7.

Record t : Type := mkWindow {
  title : string;
  designedWidth : float;
  designedHeight : float;
  designedPositionX : float;
  designedPositionY : float;
  width : float;
  height : float;
  dimensions : ImVec2;
  position : ImVec2;
  scaleX : float;
  scaleY : float;
  scaleAvg : float;
  previousViewportWidth : float;
  previousViewportHeight : float;
  currentTime : float;
  hasBackground : bool;
  backgroundColor : ImVec4;
  flags : Z
  }.

(** The constructor, with the default member initialisers. *)
Definition new (t : string) (dWidth dHeight posX posY : float) : Window.t :=
  {| title := t;
     designedWidth := dWidth;
     designedHeight := dHeight;
     designedPositionX := posX;
     designedPositionY := posY;
     width := dWidth;
     height := dHeight;
     dimensions := mkVec2 dWidth dHeight;
     position := mkVec2 posX posY;
     scaleX := F32.one;
     scaleY := F32.one;
     scaleAvg := F32.one;
     previousViewportWidth := DEFAULT_VIEWPORT_WIDTH;
     previousViewportHeight := DEFAULT_VIEWPORT_HEIGHT;
     currentTime := F32.zero;
     hasBackground := true;
     backgroundColor := DEFAULT_BG;
     flags := 0 |}.

(** Member assignments. *)
Definition with_scaleX (v : float) (w : t) : t :=
  mkWindow (title w) (designedWidth w) (designedHeight w)
    (designedPositionX w) (designedPositionY w) (width w) (height w)
    (dimensions w) (position w) v (scaleY w) (scaleAvg w)
    (previousViewportWidth w) (previousViewportHeight w) (currentTime w)
    (hasBackground w) (backgroundColor w) (flags w).
Definition with_scaleY (v : float) (w : t) : t :=
  mkWindow (title w) (designedWidth w) (designedHeight w)
    (designedPositionX w) (designedPositionY w) (width w) (height w)
    (dimensions w) (position w) (scaleX w) v (scaleAvg w)
    (previousViewportWidth w) (previousViewportHeight w) (currentTime w)
    (hasBackground w) (backgroundColor w) (flags w).
Definition with_scaleAvg (v : float) (w : t) : t :=
  mkWindow (title w) (designedWidth w) (designedHeight w)
    (designedPositionX w) (designedPositionY w) (width w) (height w)
    (dimensions w) (position w) (scaleX w) (scaleY w) v
    (previousViewportWidth w) (previousViewportHeight w) (currentTime w)
    (hasBackground w) (backgroundColor w) (flags w).
Definition with_previousViewportWidth (v : float) (w : t) : t :=
  mkWindow (title w) (designedWidth w) (designedHeight w)
    (designedPositionX w) (designedPositionY w) (width w) (height w)
    (dimensions w) (position w) (scaleX w) (scaleY w) (scaleAvg w)
    v (previousViewportHeight w) (currentTime w)
    (hasBackground w) (backgroundColor w) (flags w).
Definition with_previousViewportHeight (v : float) (w : t) : t :=
  mkWindow (title w) (designedWidth w) (designedHeight w)
    (designedPositionX w) (designedPositionY w) (width w) (height w)
    (dimensions w) (position w) (scaleX w) (scaleY w) (scaleAvg w)
    (previousViewportWidth w) v (currentTime w)
    (hasBackground w) (backgroundColor w) (flags w).
Definition with_dimensions (v : ImVec2) (w : t) : t :=
  mkWindow (title w) (designedWidth w) (designedHeight w)
    (designedPositionX w) (designedPositionY w) (width w) (height w)
    v (position w) (scaleX w) (scaleY w) (scaleAvg w)
    (previousViewportWidth w) (previousViewportHeight w) (currentTime w)
    (hasBackground w) (backgroundColor w) (flags w).
Definition with_position (v : ImVec2) (w : t) : t :=
  mkWindow (title w) (designedWidth w) (designedHeight w)
    (designedPositionX w) (designedPositionY w) (width w) (height w)
    (dimensions w) v (scaleX w) (scaleY w) (scaleAvg w)
    (previousViewportWidth w) (previousViewportHeight w) (currentTime w)
    (hasBackground w) (backgroundColor w) (flags w).
Definition with_currentTime (v : float) (w : t) : t :=
  mkWindow (title w) (designedWidth w) (designedHeight w)
    (designedPositionX w) (designedPositionY w) (width w) (height w)
    (dimensions w) (position w) (scaleX w) (scaleY w) (scaleAvg w)
    (previousViewportWidth w) (previousViewportHeight w) v
    (hasBackground w) (backgroundColor w) (flags w).
Definition with_hasBackground (v : bool) (w : t) : t :=
  mkWindow (title w) (designedWidth w) (designedHeight w)
    (designedPositionX w) (designedPositionY w) (width w) (height w)
    (dimensions w) (position w) (scaleX w) (scaleY w) (scaleAvg w)
    (previousViewportWidth w) (previousViewportHeight w) (currentTime w)
    v (backgroundColor w) (flags w).
Definition with_backgroundColor (v : ImVec4) (w : t) : t :=
  mkWindow (title w) (designedWidth w) (designedHeight w)
    (designedPositionX w) (designedPositionY w) (width w) (height w)
    (dimensions w) (position w) (scaleX w) (scaleY w) (scaleAvg w)
    (previousViewportWidth w) (previousViewportHeight w) (currentTime w)
    (hasBackground w) v (flags w).

(** Accessors and mutators. *)
Definition getWidth (w : t) : float := width w.
Definition getHeight (w : t) : float := height w.
Definition getScaleX (w : t) : float := scaleX w.
Definition getScaleY (w : t) : float := scaleY w.
Definition getScaleAvg (w : t) : float := scaleAvg w.
Definition getBackgroundColor (w : t) : ImVec4 := backgroundColor w.
Definition setBackgroundColor (color : ImVec4) (w : t) : t :=
  with_backgroundColor color w.
Definition setBackgroundVisibility (visible : bool) (w : t) : t :=
  with_hasBackground visible w.

(** *** Observable behaviour

    What the host library answers during one render pass: the work size
    of the main viewport and the time ([double], narrowed to [float] by
    the assignment to [currentTime]). *)
Record Host : Type := mkHost { WorkSize : ImVec2; Time : float }.

Inductive Member : Type :=
| m_scaleX | m_scaleY | m_scaleAvg
| m_previousViewportWidth | m_previousViewportHeight
| m_dimensions | m_position | m_currentTime.

(** Calls into Dear ImGui, and the calls made by a [draw()] override. *)
Inductive Event : Type :=
| GetTime
| GetMainViewport
| PushStyleColor_WindowBg (col : ImVec4)
| SetNextWindowPos_FirstUseEver (pos : ImVec2)
| SetNextWindowSize_FirstUseEver (size : ImVec2)
| Begin (name : string) (window_flags : Z)
| PopStyleColor
| End_
| Assign (m : Member)
| Content (what : string).

(** A member function either returns or leaves by an exception. *)
Inductive Completion (A : Type) : Type :=
| Returns (a : A)
| Throws.
Arguments Returns {A} a.
Arguments Throws {A}.

(** Member functions: they read and write the object, emit events and
    complete. *)
Definition M (A : Type) : Type := t -> list Event * t * Completion A.

Definition ret {A : Type} (a : A) : M A := fun w => ([], w, Returns a).

Definition seq {A B : Type} (m : M A) (k : A -> M B) : M B :=
  fun w =>
    match m w with
    | (tr, w', Returns a) =>
        let '(tr', w'', c) := k a w' in (tr ++ tr', w'', c)
    | (tr, w', Throws) => (tr, w', Throws)
    end.

Definition emit (e : Event) : M unit := fun w => ([e], w, Returns tt).
Definition read {A : Type} (f : t -> A) : M A := fun w => ([], w, Returns (f w)).
Definition assign (m : Member) (f : t -> t) : M unit :=
  fun w => ([Assign m], f w, Returns tt).

Definition trace {A : Type} (r : list Event * t * Completion A) : list Event :=
  fst (fst r).
Definition final {A : Type} (r : list Event * t * Completion A) : t :=
  snd (fst r).
Definition completion {A : Type} (r : list Event * t * Completion A)
    : Completion A := snd r.

Notation "x <- m ;; k" := (seq m (fun x => k))
  (at level 61, m at next level, right associativity).
Notation "m ;; k" := (seq m (fun _ => k))
  (at level 61, right associativity).

(** [Window::updateScale]. *)
Definition updateScale (host : Host) : M unit :=
  emit GetMainViewport ;;
  let viewportWidth := vx (WorkSize host) in
  let viewportHeight := vy (WorkSize host) in
  let altered := false in
  prevW <- read previousViewportWidth ;;
  altered <-
    (if F32.neb viewportWidth prevW then
       assign m_scaleX
         (with_scaleX (viewportWidth / DEFAULT_VIEWPORT_WIDTH)%f32) ;;
       assign m_previousViewportWidth
         (with_previousViewportWidth viewportWidth) ;;
       ret true
     else ret altered) ;;
  prevH <- read previousViewportHeight ;;
  altered <-
    (if F32.neb viewportHeight prevH then
       assign m_scaleY
         (with_scaleY (viewportHeight / DEFAULT_VIEWPORT_HEIGHT)%f32) ;;
       assign m_previousViewportHeight
         (with_previousViewportHeight viewportHeight) ;;
       ret true
     else ret altered) ;;
  if (altered : bool) then
    assign m_scaleAvg
      (fun w => with_scaleAvg ((scaleX w + scaleY w) * F32.half)%f32 w) ;;
    assign m_dimensions
      (fun w => with_dimensions
                  (mkVec2 (designedWidth w * scaleX w)%f32
                          (designedHeight w * scaleY w)%f32) w) ;;
    assign m_position
      (fun w => with_position
                  (mkVec2 (designedPositionX w * scaleX w)%f32
                          (designedPositionY w * scaleY w)%f32) w)
  else ret tt.

(** [Window::buildStart]; [debug] tells whether [DEBUG] is defined. *)
Definition buildStart (debug : bool) (host : Host) : M unit :=
  (if debug then updateScale host else ret tt) ;;
  currentFlags <- read flags ;;
  bg <- read hasBackground ;;
  currentFlags <-
    (if negb bg then
       ret (Z.lor currentFlags ImGuiWindowFlags_NoBackground)
     else
       col <- read backgroundColor ;;
       emit (PushStyleColor_WindowBg col) ;;
       ret currentFlags) ;;
  pos <- read position ;;
  emit (SetNextWindowPos_FirstUseEver pos) ;;
  dim <- read dimensions ;;
  emit (SetNextWindowSize_FirstUseEver dim) ;;
  name <- read title ;;
  emit (Begin name currentFlags) ;;
  bg <- read hasBackground ;;
  if bg then emit PopStyleColor else ret tt.

(** [Window::buildEnd]. *)
Definition buildEnd : M unit := emit End_.

(** [Window::render], for a subclass whose [draw()] is [draw]. *)
Definition render (debug : bool) (host : Host) (draw : M unit) : M unit :=
  emit GetTime ;;
  assign m_currentTime (with_currentTime (Time host)) ;;
  buildStart debug host ;;
  draw ;;
  buildEnd.

(** *** Vocabulary for the statements about [updateScale] and [render] *)

(** The observed work size differs from the cached one ([!=] of the
    language), per axis. *)
Definition width_differs (host : Host) (w : t) : bool :=
  F32.neb (vx (WorkSize host)) (previousViewportWidth w).
Definition height_differs (host : Host) (w : t) : bool :=
  F32.neb (vy (WorkSize host)) (previousViewportHeight w).

(** A run assigned member [m]. *)
Definition recomputed {A : Type} (m : Member)
    (r : list Event * t * Completion A) : Prop :=
  In (Assign m) (trace r).

(** The derived geometry is the designed geometry times the scale. *)
Definition geometry_consistent (w : t) : Prop :=
  dimensions w = mkVec2 (designedWidth w * scaleX w)%f32
                        (designedHeight w * scaleY w)%f32
  /\ position w = mkVec2 (designedPositionX w * scaleX w)%f32
                         (designedPositionY w * scaleY w)%f32.

(** Windows obtained from the constructor by scale updates, the
    background setters and the time stamp of [render]. *)
Inductive Reachable : t -> Prop :=
| reach_new name dWidth dHeight posX posY :
    F32.valid dWidth = true -> F32.valid dHeight = true ->
    F32.valid posX = true -> F32.valid posY = true ->
    Reachable (new name dWidth dHeight posX posY)
| reach_updateScale host w :
    Reachable w -> Reachable (final (updateScale host w))
| reach_setBackgroundColor color w :
    Reachable w -> Reachable (setBackgroundColor color w)
| reach_setBackgroundVisibility visible w :
    Reachable w -> Reachable (setBackgroundVisibility visible w)
| reach_currentTime time w :
    Reachable w -> Reachable (with_currentTime time w).

(** The calls by which [buildStart] opens the region of window [w]. *)
Definition region_open (w : t) : list Event :=
  (if hasBackground w
   then [PushStyleColor_WindowBg (backgroundColor w)] else [])
  ++ [SetNextWindowPos_FirstUseEver (position w);
      SetNextWindowSize_FirstUseEver (dimensions w);
      Begin (title w)
        (if hasBackground w then flags w
         else Z.lor (flags w) ImGuiWindowFlags_NoBackground)]
  ++ (if hasBackground w then [PopStyleColor] else []).

Definition is_Begin (e : Event) : bool :=
  match e with Begin _ _ => true | _ => false end.
Definition is_End (e : Event) : bool :=
  match e with End_ => true | _ => false end.
Definition count (p : Event -> bool) (tr : list Event) : nat :=
  List.length (filter p tr).

End Window.

(* ================================================================== *)
(** ** Vocabulary of the statements *)

Import Window.
Import Draw.

(** *** Dyadic numbers and rounding *)

(** Number of binary digits of a mantissa. *)
Definition D (m : positive) : Z := Z.pos (digits2_pos m).

(** Exponent of the single-precision numbers of magnitude [e]. *)
Definition fexp (e : Z) : Z := SpecFloat.fexp F32.prec F32.emax e.

Definition canonical (m : positive) (e : Z) : Prop := fexp (D m + e) = e.

(** A mantissa going through right shifts with nothing shifted out. *)
Definition exact_record (M : Z) : shr_record :=
  {| shr_m := M; shr_r := false; shr_s := false |}.

(** Two mantissa/exponent pairs denote the same dyadic number. *)
Definition same_dyadic (M1 e1 M2 e2 : Z) : Prop :=
  M1 * 2 ^ (e1 - Z.min e1 e2) = M2 * 2 ^ (e2 - Z.min e1 e2).

(** *** Rounding *)

(** The result of rounding [m * 2^e] with sign [s]: an infinity, or a
    single-precision number [m' * 2^e'] that is [m * 2^e] itself or lies
    within [2^-24] of it, relatively. *)
Definition rounds_to (f : float) (s : bool) (m : positive) (e : Z) : Prop :=
  f = S754_infinity s
  \/ exists m' e',
       f = S754_finite s m' e'
       /\ bounded F32.prec F32.emax m' e' = true
       /\ (same_dyadic (Z.pos m') e' (Z.pos m) e
           \/ (e <= e'
               /\ 16777216 * Z.abs (Z.pos m' * 2 ^ (e' - e) - Z.pos m)
                  <= Z.pos m)).

(** Largest relative error of one rounding to nearest: [2^-24]. *)
Definition unit_roundoff : Q := 1 # 16777216.

(** *** Side conditions: no operation is rounded *)

(** The coordinate can be shifted by 2 and by 14 without rounding. *)
Definition shift_exact (a : float) : Prop :=
  F32.valid a = true /\ F32.is_finite a = true /\
  F32.representable (F32.to_Q a + 2) /\ F32.representable (F32.to_Q a + 14).

(** The product [a * k] needs no rounding. *)
Definition product_exact (a k : float) : Prop :=
  F32.valid a = true /\ F32.is_finite a = true /\
  F32.representable (F32.to_Q a * F32.to_Q k).

(** Along one axis, none of the operations of [Center2D(O,T,S) + S/2]
    and [O + T/2] is rounded. *)
Definition centering_exact (o t s : float) : Prop :=
  (F32.valid o = true /\ F32.is_finite o = true) /\
  (F32.valid t = true /\ F32.is_finite t = true) /\
  (F32.valid s = true /\ F32.is_finite s = true) /\
  F32.representable (F32.to_Q t - F32.to_Q s) /\
  F32.representable ((F32.to_Q t - F32.to_Q s) / 2) /\
  F32.representable (F32.to_Q o + (F32.to_Q t - F32.to_Q s) / 2) /\
  F32.representable (F32.to_Q s / 2) /\
  F32.representable (F32.to_Q t / 2) /\
  F32.representable (F32.to_Q o + F32.to_Q t / 2).

(** *** Centering up to rounding *)

(** Both components are single-precision numbers, neither infinite nor
    NaN. *)
Definition finite_vec (V : ImVec2) : Prop :=
  (F32.valid (vx V) = true /\ F32.is_finite (vx V) = true)
  /\ (F32.valid (vy V) = true /\ F32.is_finite (vy V) = true).

(** The computation of [V] neither overflowed nor produced a NaN. *)
Definition no_overflow (V : ImVec2) : Prop :=
  F32.is_finite (vx V) = true /\ F32.is_finite (vy V) = true.

Definition close (a b : float) (tol : Q) : Prop :=
  (Qabs (F32.to_Q a - F32.to_Q b) <= tol)%Q.

(** Distance allowed between the two sides of the centering identity
    along one axis: [2^-22] of the magnitudes involved, plus [2^-148] for
    halves that fall below the least subnormal number. *)
Definition tolerance (o t s : float) : Q :=
  (1 # 4194304) * (Qabs (F32.to_Q o) + Qabs (F32.to_Q t) + Qabs (F32.to_Q s))
  + 2 ^ (-148).

(** *** Inputs of the worked examples *)

(** The grid example of the specification: 3 by 3 cells of 10 by 10,
    gridlines of 2, cell 4. *)
Definition grid_example (O : ImVec2) : option ImVec2 :=
  Position.GridTranslocatedOrigin O (F32.of_int 10) (F32.of_int 10)
    (F32.of_int 2) 3 3 4.

(** An origin at [2^25], where consecutive single-precision numbers are
    4 apart. *)
Definition far_origin : ImVec2 :=
  mkVec2 (F32.of_int 33554432) (F32.of_int 33554432).

(** A vector whose first component is [2^127], and [0.9f]. *)
Definition huge : ImVec2 := mkVec2 (F32.dyadic 1 127) F32.one.
Definition nine_tenths : float := (F32.of_int 9 / F32.of_int 10)%f32.

(** An object of width [3 * 2^126] on an empty target at [- 3 * 2^126]. *)
Definition far_left : ImVec2 := mkVec2 (F32.dyadic (-3) 126) F32.zero.
Definition empty_target : ImVec2 := mkVec2 F32.zero F32.zero.
Definition wide_object : ImVec2 := mkVec2 (F32.dyadic 3 126) F32.zero.

(** A target of 3 by 100 at [(2^24, 10)], where consecutive
    single-precision abscissas are 2 apart, and an object of 1 by 20. *)
Definition distant_origin : ImVec2 :=
  mkVec2 (F32.of_int 16777216) (F32.of_int 10).
Definition small_target : ImVec2 := mkVec2 (F32.of_int 3) (F32.of_int 100).
Definition small_object : ImVec2 := mkVec2 (F32.of_int 1) (F32.of_int 20).

(** A 100 by 100 window at (40, 20) and a viewport of 1920 by 1080. *)
Definition example_window : Window.t :=
  Window.new "panel" (F32.of_int 100) (F32.of_int 100)
    (F32.of_int 40) (F32.of_int 20).
Definition half_size_host : Host :=
  mkHost (mkVec2 (F32.of_int 1920) (F32.of_int 1080)) F32.zero.

(** The scale update of [buildStart]: present in a debug build only. *)
Definition scale_step (debug : bool) (host : Host) : M unit :=
  if debug then updateScale host else ret tt.

(** Two [draw()] overrides: one draws a label and returns, the other
    leaves by an exception after drawing part of its content. *)
Definition labelled_draw : M unit := emit (Content "label").
Definition failing_draw : M unit := fun w => ([Content "partial"], w, Throws).

(** Loop invariant of [PopulateGrid] for the image count [n]: the counter
    is the number of calls made, at most [n], and the calls read the
    first textures of the vector in order. *)
Definition grid_inv (images : list TextureData) (n : Z) (st : GridState)
    : Prop :=
  0 <= fst st <= Z.max 0 n
  /\ map access (rev (snd st))
     = numbered 0 (firstn (Z.to_nat (fst st)) images).

Definition three_textures : list TextureData :=
  [mkTexture 1 64 64; mkTexture 2 64 64; mkTexture 3 32 32].

(** A vector of [2^31] textures: its size is one more than [INT_MAX]. *)
Definition too_many : list TextureData :=
  repeat (mkTexture 0 0 0) (Z.to_nat (2 ^ 31)).

(** *** The rounded magnitude of a number *)

(** The float [f] has the sign [s] and the magnitude [k * 2^e]; an
    infinity stands for a magnitude that needs an exponent above the
    largest one. *)
Definition magnitude_is (f : float) (s : bool) (k e : Z) : Prop :=
  match f with
  | S754_zero s' => s' = s /\ k = 0
  | S754_finite s' m e' =>
      s' = s /\ bounded F32.prec F32.emax m e' = true
      /\ same_dyadic (Z.pos m) e' k e
  | S754_infinity s' => s' = s /\ 0 < k /\ 104 <= e
  | S754_nan => False
  end.

(** [q] with the sign [s]. *)
Definition signed (s : bool) (q : Q) : Q := if s then (- q)%Q else q.

(** *** The window between scale updates *)

(** The scales are the ones of the cached viewport size, and [scaleAvg]
    is their mean. *)
Definition scale_coherent (w : Window.t) : Prop :=
  scaleX w = (previousViewportWidth w / DEFAULT_VIEWPORT_WIDTH)%f32
  /\ scaleY w = (previousViewportHeight w / DEFAULT_VIEWPORT_HEIGHT)%f32
  /\ scaleAvg w = ((scaleX w + scaleY w) * F32.half)%f32.

(** The designed size and position are never assigned. *)
Definition same_design (w w' : Window.t) : Prop :=
  title w' = title w
  /\ designedWidth w' = designedWidth w
  /\ designedHeight w' = designedHeight w
  /\ designedPositionX w' = designedPositionX w
  /\ designedPositionY w' = designedPositionY w
  /\ Window.width w' = Window.width w
  /\ Window.height w' = Window.height w.

(** *** The zoom of an image *)

(** The margin that [Image] and [RoundedImage] leave out on each side
    of the texture, for the value [trueScale] of [std::pow]. *)
Definition zoom_margin (trueScale : float) : float :=
  let scale := ImGui.ImClamp trueScale zoom_min (F32.of_int 100) in
  ((F32.of_int 1 - F32.of_int 1 / scale) / F32.of_int 2)%f32.

(** An environment for the examples: [std::pow] answers 1 (its value at
    exponent 0), the angle functions 1 and 0, every text measures 80 by
    16 pixels and every colour packs to opaque grey. *)
Definition still_env : ImGui.Env :=
  ImGui.mkEnv (fun _ => F32.of_int 1) (fun _ => F32.of_int 0)
    (fun _ _ => F32.of_int 1)
    (fun _ _ => mkVec2 (F32.of_int 80) (F32.of_int 16))
    (fun _ => 4287926932).

Definition icon : TextureData := mkTexture 7 64 48.

(** *** Vocabulary for the loops that draw *)

(** The drawings of a list, one after the other. *)
Fixpoint draw_all (l : list Drawing) : Drawing :=
  match l with
  | [] => Some []
  | d :: l' => and_then d (draw_all l')
  end.

(** The integers [lo], [lo + 1], ..., [lo + n - 1]. *)
Fixpoint upto (n : nat) (lo : Z) : list Z :=
  match n with
  | O => []
  | S n' => lo :: upto n' (lo + 1)
  end.

(** The calls of a loop state, whichever way the loop was left. *)
Definition calls_of (r : option (Flow SparseState)) : Drawing :=
  match r with
  | Some (Continue (_, calls)) | Some (Return (_, calls)) => Some calls
  | None => None
  end.

(** [Draw::RoundedImage] with the arguments of a call of [Draw::Image]. *)
Definition rounded (ui : ImGui.Env) (rounding : float) (c : ImageCall)
    : Drawing :=
  RoundedImage ui (call_sprite c) (call_position c) (call_frameSize c)
    (call_scale c) rounding.

(** The calls that draw a texture. *)
Definition is_image (c : ImGui.DrawCmd) : bool :=
  match c with
  | ImGui.AddImage _ _ _ _ _ _ | ImGui.AddImageRounded _ _ _ _ _ _ _ => true
  | _ => false
  end.

(** The texture a call draws. *)
Definition texture_of (c : ImGui.DrawCmd) : option Z :=
  match c with
  | ImGui.AddImage t _ _ _ _ _ | ImGui.AddImageRounded t _ _ _ _ _ _ => Some t
  | _ => None
  end.

(** Two loops left the same way, in related states. *)
Definition flows_agree {S1 S2 : Type} (R : S1 -> S2 -> Prop)
    (a : option (Flow S1)) (b : option (Flow S2)) : Prop :=
  match a, b with
  | Some (Continue s1), Some (Continue s2) => R s1 s2
  | Some (Return s1), Some (Return s2) => R s1 s2
  | None, None => True
  | _, _ => False
  end.

(** The state of [PopulateGrid] and the state of the rounded population
    that made the same calls. *)
Definition same_calls (ui : ImGui.Env) (rounding : float) (a : GridState)
    (b : SparseState) : Prop :=
  fst a = fst b
  /\ draw_all (map (rounded ui rounding) (rev (snd a))) = Some (snd b).

(** *** Rectangles and grid cells on whole pixels *)

(** The call fills the rectangle from [(x0, y0)] to [(x1, y1)], in whole
    pixels, with the colour [col]. *)
Definition fills (c : ImGui.DrawCmd) (x0 y0 x1 y1 col : Z) : Prop :=
  exists p_min p_max,
    c = ImGui.AddRectFilled p_min p_max col
    /\ F32.exact (vx p_min) (inject_Z x0) /\ F32.exact (vy p_min) (inject_Z y0)
    /\ F32.exact (vx p_max) (inject_Z x1) /\ F32.exact (vy p_max) (inject_Z y1).

(** The call puts its image in the grid cell of its index, counting the
    cells row by row. *)
Definition in_its_cell (O : ImVec2) (columns : Z)
    (cellWidth cellHeight gridlineWidth : float) (c : ImageCall) : Prop :=
  call_position c
  = ((O + mkVec2 gridlineWidth gridlineWidth)
     + mkVec2 (F32.of_int (call_index c mod columns)
               * (cellWidth + gridlineWidth))%f32
              (F32.of_int (call_index c / columns)
               * (cellHeight + gridlineWidth))%f32)%vec
  /\ call_frameSize c = mkVec2 cellWidth cellHeight
  /\ call_scale c = F32.of_int 0.


(** *** Strokes *)

(** The call writes [text] in the colour [col], wherever. *)
Definition writes (font : ImGui.ImFont) (fontSize : float) (col : Z)
    (text : string) (c : ImGui.DrawCmd) : Prop :=
  exists pos, c = ImGui.AddText font fontSize pos col text.

(** The call outlines a box of the given size and line width in the
    colour [col], wherever. *)
Definition outlines (size : ImVec2) (width : float) (col : Z)
    (rounding : float) (flags : Z) (c : ImGui.DrawCmd) : Prop :=
  exists pos,
    c = ImGui.AddRect (pos - mkVec2 width width)%vec
          (pos + size + mkVec2 width width)%vec col rounding flags width.

(** *** Vocabulary for the statements about the texture loader *)

(** How often a call of some kind occurs. *)
Definition occurrences (p : Texture.Event -> bool) (tr : list Texture.Event)
    : nat :=
  List.length (filter p tr).

Definition is_fclose (e : Texture.Event) : bool :=
  match e with Texture.fclose => true | _ => false end.
Definition is_IM_ALLOC (e : Texture.Event) : bool :=
  match e with Texture.IM_ALLOC _ => true | _ => false end.
Definition is_IM_FREE (e : Texture.Event) : bool :=
  match e with Texture.IM_FREE => true | _ => false end.
Definition is_glGenTextures (e : Texture.Event) : bool :=
  match e with Texture.glGenTextures => true | _ => false end.
Definition is_stbi_image_free (e : Texture.Event) : bool :=
  match e with Texture.stbi_image_free => true | _ => false end.

(** [ftell] failed: its result, converted to [size_t], is [(size_t)-1]. *)
Definition ftell_failed (world : Texture.World) : bool :=
  Texture.to_size_t (Texture.ftell_result world) =? Texture.to_size_t (-1).

(** The length that the decoder is given: the file size narrowed to
    [int]. *)
Definition decoded_length (world : Texture.World) : Z :=
  Int.of_size (Texture.to_size_t (Texture.ftell_result world)).

(** *** Proof steps used more than once *)

(** Rational identities between integer expressions. *)
Ltac inject_field :=
  unfold Z.sub;
  repeat (rewrite inject_Z_plus || rewrite inject_Z_opp
          || rewrite inject_Z_mult);
  change (inject_Z 2) with 2%Q; change (inject_Z 0) with 0%Q; field.

(** The fields of a texture given by its three components. *)
Ltac texture_fields :=
  repeat match goal with
         | |- context [?f (mkTexture ?a ?b ?c)] =>
             let r := eval hnf in (f (mkTexture a b c)) in
             progress change (f (mkTexture a b c)) with r
         end.

(* ================================================================== *)
(** ** Single-precision arithmetic without rounding *)

(** *** Binary digits *)

Lemma D_pos m : 0 < D m.
Proof. unfold D; lia. Qed.

Lemma D_bounds m : 2 ^ (D m - 1) <= Z.pos m < 2 ^ D m.
Proof.
  unfold D; induction m as [p IH | p IH |]; cbn [digits2_pos].
  - rewrite Pos2Z.inj_succ.
    replace (Z.succ (Z.pos (digits2_pos p)) - 1) with (Z.succ (Z.pos (digits2_pos p) - 1)) by lia.
    rewrite !Z.pow_succ_r by lia. lia.
  - rewrite Pos2Z.inj_succ.
    replace (Z.succ (Z.pos (digits2_pos p)) - 1) with (Z.succ (Z.pos (digits2_pos p) - 1)) by lia.
    rewrite !Z.pow_succ_r by lia. lia.
  - cbn. lia.
Qed.

Lemma D_unique m d : 2 ^ (d - 1) <= Z.pos m < 2 ^ d -> D m = d.
Proof.
  intros [Hlo Hhi]. pose proof (D_bounds m) as [Blo Bhi]. pose proof (D_pos m).
  assert (Hd : 0 < d).
  { destruct (Z.lt_trichotomy d 0) as [Hn | [Hz | Hp]]; [| |assumption].
    - rewrite (Z.pow_neg_r 2 d) in Hhi by assumption. lia.
    - subst d. cbn in Hhi. lia. }
  destruct (Z.lt_trichotomy (D m) d) as [Hlt | [Heq | Hgt]]; [|assumption|].
  - assert (2 ^ D m <= 2 ^ (d - 1)) by (apply Z.pow_le_mono_r; lia). lia.
  - assert (2 ^ d <= 2 ^ (D m - 1)) by (apply Z.pow_le_mono_r; lia). lia.
Qed.

Lemma D_shift m m' k : 0 <= k -> Z.pos m' = Z.pos m * 2 ^ k -> D m' = D m + k.
Proof.
  intros Hk E. apply D_unique. pose proof (D_bounds m) as [Blo Bhi]. pose proof (D_pos m).
  rewrite E. replace (D m + k - 1) with ((D m - 1) + k) by lia.
  rewrite !Z.pow_add_r by lia.
  assert (0 < 2 ^ k) by (apply Z.pow_pos_nonneg; lia). nia.
Qed.

(** *** Shifting right an exact multiple *)

Lemma iter_pos_nat {A : Type} (f : A -> A) p : forall x,
  iter_pos f p x = Nat.iter (Pos.to_nat p) f x.
Proof.
  induction p as [p IH | p IH |]; intros x; cbn [iter_pos].
  - rewrite !IH, Pos2Nat.inj_xI.
    replace (S (2 * Pos.to_nat p))%nat with (Pos.to_nat p + (Pos.to_nat p + 1))%nat by lia.
    rewrite !Nat.iter_add. reflexivity.
  - rewrite !IH, Pos2Nat.inj_xO.
    replace (2 * Pos.to_nat p)%nat with (Pos.to_nat p + Pos.to_nat p)%nat by lia.
    rewrite Nat.iter_add. reflexivity.
  - reflexivity.
Qed.

Lemma shr_1_double M : shr_1 (exact_record (2 * M)) = exact_record M.
Proof. destruct M; reflexivity. Qed.

Lemma shr_iter_exact n : forall M,
  Nat.iter n shr_1 (exact_record (M * 2 ^ Z.of_nat n)) = exact_record M.
Proof.
  induction n as [| n IH]; intros M.
  - cbn. f_equal. lia.
  - rewrite Nat.iter_succ_r.
    replace (M * 2 ^ Z.of_nat (S n)) with (2 * (M * 2 ^ Z.of_nat n)).
    + rewrite shr_1_double. apply IH.
    + rewrite Nat2Z.inj_succ, Z.pow_succ_r by lia. ring.
Qed.

Lemma shr_exact M e n : 0 <= n ->
  shr (exact_record (M * 2 ^ n)) e n = (exact_record M, e + n).
Proof.
  intros Hn. destruct n as [| p | p]; [| | lia].
  - cbn [shr]. rewrite Z.mul_1_r, Z.add_0_r. reflexivity.
  - cbn [shr]. rewrite iter_pos_nat.
    rewrite <- (positive_nat_Z p) at 1. rewrite shr_iter_exact. reflexivity.
Qed.

(** *** Rounding a representable number is the identity *)

Lemma fexp_eq e : fexp e = Z.max (e - 24) (-149).
Proof. reflexivity. Qed.

Lemma fexp_mono a b : a <= b -> fexp a <= fexp b.
Proof. rewrite !fexp_eq. lia. Qed.

Lemma bounded_spec m e :
  bounded F32.prec F32.emax m e = true <-> canonical m e /\ e <= 104.
Proof.
  unfold bounded, canonical_mantissa, canonical, fexp, D.
  rewrite andb_true_iff, Z.eqb_eq, Z.leb_le. reflexivity.
Qed.

Lemma round_aux_exact s m e e0 :
  bounded F32.prec F32.emax m e = true -> e0 <= e ->
  binary_round_aux F32.prec F32.emax s (Z.pos m * 2 ^ (e - e0)) e0 loc_Exact
  = S754_finite s m e.
Proof.
  intros Hb He0. apply bounded_spec in Hb. destruct Hb as [Hc Hmax].
  unfold canonical in Hc.
  assert (Hpos : 0 < Z.pos m * 2 ^ (e - e0))
    by (apply Z.mul_pos_pos; [lia | apply Z.pow_pos_nonneg; lia]).
  destruct (Z.pos m * 2 ^ (e - e0)) as [| M | M] eqn:EM; try lia.
  assert (HD : D M = D m + (e - e0)) by (apply D_shift; [lia | symmetry; exact EM]).
  unfold binary_round_aux.
  assert (S1 : shr_fexp F32.prec F32.emax (Z.pos M) e0 loc_Exact
               = (exact_record (Z.pos m), e)).
  { unfold shr_fexp. cbn [Zdigits2 shr_record_of_loc].
    change (Z.pos (digits2_pos M)) with (D M).
    change (SpecFloat.fexp F32.prec F32.emax (D M + e0)) with (fexp (D M + e0)).
    replace (D M + e0) with (D m + e) by lia. rewrite Hc.
    change {| shr_m := Z.pos M; shr_r := false; shr_s := false |}
      with (exact_record (Z.pos M)).
    rewrite <- EM. replace (e - e0) with (e - e0) by lia.
    rewrite shr_exact by lia. f_equal. lia. }
  rewrite S1. cbn [exact_record shr_m loc_of_shr_record round_nearest_even].
  assert (S2 : shr_fexp F32.prec F32.emax (Z.pos m) e loc_Exact
               = (exact_record (Z.pos m), e)).
  { unfold shr_fexp. cbn [Zdigits2 shr_record_of_loc].
    change (Z.pos (digits2_pos m)) with (D m).
    change (SpecFloat.fexp F32.prec F32.emax (D m + e)) with (fexp (D m + e)).
    rewrite Hc, Z.sub_diag. reflexivity. }
  rewrite S2. cbn [exact_record shr_m].
  change (F32.emax - F32.prec) with 104.
  destruct (Z.leb_spec e 104); [reflexivity | lia].
Qed.

Lemma pos_iter_xO m d : Z.pos (Pos.iter xO m d) = Z.pos m * 2 ^ Z.pos d.
Proof.
  induction d as [| d IH] using Pos.peano_ind.
  - cbn. lia.
  - rewrite Pos.iter_succ, Pos2Z.inj_xO, IH, Pos2Z.inj_succ, Z.pow_succ_r by lia.
    ring.
Qed.

Lemma same_dyadic_digits m1 e1 m2 e2 :
  same_dyadic (Z.pos m1) e1 (Z.pos m2) e2 -> D m1 + e1 = D m2 + e2.
Proof.
  unfold same_dyadic. intros E.
  assert (Hpos : 0 < Z.pos m1 * 2 ^ (e1 - Z.min e1 e2))
    by (apply Z.mul_pos_pos; [lia | apply Z.pow_pos_nonneg; lia]).
  destruct (Z.pos m1 * 2 ^ (e1 - Z.min e1 e2)) as [| N | N] eqn:EN; try lia.
  assert (D N = D m1 + (e1 - Z.min e1 e2)) by (apply D_shift; [lia | auto]).
  assert (D N = D m2 + (e2 - Z.min e1 e2)) by (apply D_shift; [lia | auto]).
  lia.
Qed.

Lemma round_exact s m e m' e' :
  bounded F32.prec F32.emax m' e' = true ->
  same_dyadic (Z.pos m) e (Z.pos m') e' ->
  binary_round F32.prec F32.emax s m e = S754_finite s m' e'.
Proof.
  intros Hb E. pose proof (same_dyadic_digits _ _ _ _ E) as HD.
  pose proof (proj1 (bounded_spec _ _) Hb) as [Hc _]. unfold canonical in Hc.
  unfold binary_round.
  change (Z.pos (digits2_pos m)) with (D m).
  change (SpecFloat.fexp F32.prec F32.emax (D m + e)) with (fexp (D m + e)).
  rewrite HD, Hc. unfold same_dyadic in E. unfold shl_align.
  destruct (e' - e) as [| d | d] eqn:Ed.
  - assert (e' = e) by lia. subst e'.
    rewrite Z.min_id, Z.sub_diag, !Z.mul_1_r in E. injection E as ->.
    rewrite <- (Z.mul_1_r (Z.pos m')), <- (Z.pow_0_r 2), <- (Z.sub_diag e) at 1.
    apply round_aux_exact; [assumption | lia].
  - rewrite Z.min_l, Z.sub_diag, Z.mul_1_r in E by lia. rewrite E.
    apply round_aux_exact; [assumption | lia].
  - rewrite Z.min_r, Z.sub_diag, Z.mul_1_r in E by lia.
    assert (Pos.iter xO m d = m').
    { apply Pos2Z.inj. rewrite pos_iter_xO, <- E. f_equal. f_equal. lia. }
    subst m'.
    rewrite <- (Z.mul_1_r (Z.pos _)), <- (Z.pow_0_r 2), <- (Z.sub_diag e') at 1.
    apply round_aux_exact; [assumption | lia].
Qed.

Lemma normalize_exact M e m' e' :
  bounded F32.prec F32.emax m' e' = true ->
  same_dyadic (Z.abs M) e (Z.pos m') e' ->
  binary_normalize F32.prec F32.emax M e false = S754_finite (M <? 0) m' e'.
Proof.
  intros Hb E. destruct M as [| m | m]; cbn [binary_normalize Z.abs] in *.
  - unfold same_dyadic in E. rewrite Z.mul_0_l in E.
    assert (0 < Z.pos m' * 2 ^ (e' - Z.min e e'))
      by (apply Z.mul_pos_pos; [lia | apply Z.pow_pos_nonneg; lia]).
    lia.
  - apply round_exact; assumption.
  - apply round_exact; assumption.
Qed.

(** *** Dyadic rationals *)

Lemma two_nonzero : ~ (2 == 0)%Q.
Proof. discriminate. Qed.

Lemma pow2_nonzero e : ~ (2 ^ e == 0)%Q.
Proof. apply Qpower_not_0, two_nonzero. Qed.

Lemma dyadic_split M e c : c <= e ->
  (inject_Z M * 2 ^ e == inject_Z (M * 2 ^ (e - c)) * 2 ^ c)%Q.
Proof.
  intros Hc. replace e with ((e - c) + c) at 1 by lia.
  rewrite Qpower_plus by apply two_nonzero.
  rewrite inject_Z_mult, (Zpower_Qpower 2 (e - c)) by lia.
  change (inject_Z 2) with 2%Q. ring.
Qed.

Lemma dyadic_eq_iff M1 e1 M2 e2 c : c <= e1 -> c <= e2 ->
  (inject_Z M1 * 2 ^ e1 == inject_Z M2 * 2 ^ e2)%Q
  <-> M1 * 2 ^ (e1 - c) = M2 * 2 ^ (e2 - c).
Proof.
  intros H1 H2.
  rewrite (dyadic_split M1 e1 c H1), (dyadic_split M2 e2 c H2).
  rewrite Qmult_inj_r by apply pow2_nonzero.
  apply inject_Z_injective.
Qed.

Lemma dyadic_same M1 e1 M2 e2 :
  (inject_Z M1 * 2 ^ e1 == inject_Z M2 * 2 ^ e2)%Q
  <-> same_dyadic M1 e1 M2 e2.
Proof. unfold same_dyadic. apply dyadic_eq_iff; lia. Qed.

Lemma dyadic_zero M e : (inject_Z M * 2 ^ e == 0)%Q -> M = 0.
Proof.
  intros H. apply Qmult_integral in H. destruct H as [H | H].
  - apply (inject_Z_injective M 0). exact H.
  - exfalso. exact (pow2_nonzero e H).
Qed.

Lemma cond_Zopp_mul s a b : cond_Zopp s a * b = cond_Zopp s (a * b).
Proof. destruct s; cbn; ring. Qed.

Lemma same_dyadic_sym M1 e1 M2 e2 :
  same_dyadic M1 e1 M2 e2 -> same_dyadic M2 e2 M1 e1.
Proof. unfold same_dyadic. rewrite (Z.min_comm e2 e1). intros H; symmetry; exact H. Qed.

Lemma same_dyadic_sign M e s m e' :
  same_dyadic M e (cond_Zopp s (Z.pos m)) e' ->
  (M <? 0) = s /\ same_dyadic (Z.abs M) e (Z.pos m) e'.
Proof.
  unfold same_dyadic. intros E.
  assert (Ha : 0 < 2 ^ (e - Z.min e e')) by (apply Z.pow_pos_nonneg; lia).
  assert (Hb : 0 < 2 ^ (e' - Z.min e e')) by (apply Z.pow_pos_nonneg; lia).
  destruct s; cbn [cond_Zopp] in E.
  - assert (M < 0) by nia. split; [apply Z.ltb_lt; assumption|].
    rewrite Z.abs_neq by lia. lia.
  - assert (0 < M) by nia. split; [apply Z.ltb_ge; lia|].
    rewrite Z.abs_eq by lia. lia.
Qed.

(** *** Floats with a given exact value *)

Lemma exact_cases a q : F32.exact a q ->
  (exists s, a = S754_zero s /\ (q == 0)%Q) \/
  (exists s m e, a = S754_finite s m e /\ bounded F32.prec F32.emax m e = true
                 /\ (inject_Z (cond_Zopp s (Z.pos m)) * 2 ^ e == q)%Q).
Proof.
  intros (Hv & Hf & Hq). destruct a as [s | s | | s m e]; try discriminate.
  - left. exists s. split; [reflexivity|]. symmetry. exact Hq.
  - right. exists s, m, e. auto.
Qed.

Lemma exact_zero s q : (q == 0)%Q -> F32.exact (S754_zero s) q.
Proof. intros H. repeat split. cbn. symmetry. exact H. Qed.

Lemma finite_nonzero s m e : ~ (inject_Z (cond_Zopp s (Z.pos m)) * 2 ^ e == 0)%Q.
Proof. intros H. apply dyadic_zero in H. destruct s; discriminate. Qed.

Lemma exact_morph a q q' : (q == q')%Q -> F32.exact a q -> F32.exact a q'.
Proof. intros E (Hv & Hf & Hq). repeat split; auto. rewrite Hq. exact E. Qed.

Lemma normalize_exact_Q M e q :
  F32.representable q -> (inject_Z M * 2 ^ e == q)%Q ->
  F32.exact (binary_normalize F32.prec F32.emax M e false) q.
Proof.
  intros [r Hr] HM. pose proof Hr as Hr'.
  apply exact_cases in Hr. destruct Hr as [(s & -> & Hq) | (s & m & e' & -> & Hb & Hq)].
  - rewrite Hq in HM. apply dyadic_zero in HM. subst M. cbn.
    apply exact_zero. exact Hq.
  - rewrite <- Hq in HM. apply dyadic_same, same_dyadic_sign in HM.
    destruct HM as [Hs HM].
    rewrite (normalize_exact M e m e' Hb HM), Hs. exact Hr'.
Qed.

(** *** Addition and subtraction *)

Lemma shl_align_fst m e e0 : e0 <= e ->
  Z.pos (fst (shl_align m e e0)) = Z.pos m * 2 ^ (e - e0).
Proof.
  intros H. unfold shl_align. destruct (e0 - e) as [| d | d] eqn:Ed; cbn [fst].
  - replace (e - e0) with 0 by lia. lia.
  - lia.
  - rewrite pos_iter_xO. f_equal. f_equal. lia.
Qed.

Lemma aligned_value s m e e0 : e0 <= e ->
  (inject_Z (cond_Zopp s (Z.pos (fst (shl_align m e e0)))) * 2 ^ e0
   == inject_Z (cond_Zopp s (Z.pos m)) * 2 ^ e)%Q.
Proof.
  intros H. rewrite shl_align_fst by assumption.
  rewrite <- cond_Zopp_mul. symmetry. apply dyadic_split. assumption.
Qed.

Lemma add_exact x y qx qy :
  F32.exact x qx -> F32.exact y qy -> F32.representable (qx + qy) ->
  F32.exact (F32.add x y) (qx + qy).
Proof.
  intros Hx Hy Hr. pose proof Hx as Hx'. pose proof Hy as Hy'.
  apply exact_cases in Hx. apply exact_cases in Hy.
  destruct Hx as [(sx & -> & Ex) | (sx & mx & ex & -> & Bx & Ex)];
  destruct Hy as [(sy & -> & Ey) | (sy & my & ey & -> & By & Ey)].
  - assert (E : (qx + qy == 0)%Q) by (rewrite Ex, Ey; reflexivity).
    destruct sx, sy; apply exact_zero; exact E.
  - apply exact_morph with qy; [rewrite Ex; ring | exact Hy'].
  - apply exact_morph with qx; [rewrite Ey; ring | exact Hx'].
  - unfold F32.add, SFadd. apply normalize_exact_Q; [assumption|].
    rewrite inject_Z_plus, Qmult_plus_distr_l.
    rewrite !aligned_value by lia. rewrite Ex, Ey. reflexivity.
Qed.

Lemma sub_exact x y qx qy :
  F32.exact x qx -> F32.exact y qy -> F32.representable (qx - qy) ->
  F32.exact (F32.sub x y) (qx - qy).
Proof.
  intros Hx Hy Hr. pose proof Hx as Hx'. pose proof Hy as Hy'.
  apply exact_cases in Hx. apply exact_cases in Hy.
  destruct Hx as [(sx & -> & Ex) | (sx & mx & ex & -> & Bx & Ex)];
  destruct Hy as [(sy & -> & Ey) | (sy & my & ey & -> & By & Ey)].
  - assert (E : (qx - qy == 0)%Q) by (rewrite Ex, Ey; reflexivity).
    destruct sx, sy; apply exact_zero; exact E.
  - cbn. repeat split; [exact By|]. cbn.
    rewrite Ex, <- Ey. destruct sy; cbn [negb cond_Zopp]; rewrite ?inject_Z_opp; ring.
  - apply exact_morph with qx; [rewrite Ey; ring | exact Hx'].
  - unfold F32.sub, SFsub. apply normalize_exact_Q; [assumption|].
    unfold Z.sub at 1. rewrite inject_Z_plus, inject_Z_opp.
    setoid_replace ((inject_Z (cond_Zopp sx (Z.pos (fst (shl_align mx ex (Z.min ex ey)))))
                     + - inject_Z (cond_Zopp sy (Z.pos (fst (shl_align my ey (Z.min ex ey))))))
                    * 2 ^ Z.min ex ey)%Q
      with (inject_Z (cond_Zopp sx (Z.pos (fst (shl_align mx ex (Z.min ex ey))))) * 2 ^ Z.min ex ey
            - inject_Z (cond_Zopp sy (Z.pos (fst (shl_align my ey (Z.min ex ey))))) * 2 ^ Z.min ex ey)%Q
      by ring.
    rewrite !aligned_value by lia. rewrite Ex, Ey. reflexivity.
Qed.

(** *** Multiplication *)

Lemma D_mul_upper a b : D (a * b) <= D a + D b.
Proof.
  pose proof (D_bounds a) as [_ Ha]. pose proof (D_bounds b) as [_ Hb].
  pose proof (D_bounds (a * b)) as [Hab _].
  pose proof (D_pos a). pose proof (D_pos b). pose proof (D_pos (a * b)).
  destruct (Z.le_gt_cases (D (a * b)) (D a + D b)) as [|Hgt]; [assumption|].
  assert (2 ^ (D a + D b) <= 2 ^ (D (a * b) - 1)) by (apply Z.pow_le_mono_r; lia).
  rewrite Z.pow_add_r in * by lia. rewrite Pos2Z.inj_mul in Hab. nia.
Qed.

Lemma D_mul_lower a b : D a + D b - 1 <= D (a * b).
Proof.
  pose proof (D_bounds a) as [Ha _]. pose proof (D_bounds b) as [Hb _].
  pose proof (D_bounds (a * b)) as [_ Hab].
  pose proof (D_pos a). pose proof (D_pos b). pose proof (D_pos (a * b)).
  destruct (Z.le_gt_cases (D a + D b - 1) (D (a * b))) as [|Hgt]; [assumption|].
  assert (2 ^ D (a * b) <= 2 ^ ((D a - 1) + (D b - 1))) by (apply Z.pow_le_mono_r; lia).
  rewrite Z.pow_add_r in * by lia. rewrite Pos2Z.inj_mul in Hab.
  assert (0 < 2 ^ (D a - 1)) by (apply Z.pow_pos_nonneg; lia).
  assert (0 < 2 ^ (D b - 1)) by (apply Z.pow_pos_nonneg; lia).
  nia.
Qed.

Lemma cond_Zopp_xorb sx sy a b :
  cond_Zopp sx a * cond_Zopp sy b = cond_Zopp (xorb sx sy) (a * b).
Proof. destruct sx, sy; cbn; ring. Qed.

Lemma mul_value sx mx ex sy my ey :
  (inject_Z (cond_Zopp (xorb sx sy) (Z.pos (mx * my))) * 2 ^ (ex + ey)
   == inject_Z (cond_Zopp sx (Z.pos mx)) * 2 ^ ex
      * (inject_Z (cond_Zopp sy (Z.pos my)) * 2 ^ ey))%Q.
Proof.
  rewrite Pos2Z.inj_mul, <- cond_Zopp_xorb, inject_Z_mult.
  rewrite Qpower_plus by apply two_nonzero. ring.
Qed.

Lemma mul_exact x y qx qy :
  F32.exact x qx -> F32.exact y qy -> F32.representable (qx * qy) ->
  F32.exact (F32.mul x y) (qx * qy).
Proof.
  intros Hx Hy [r Hr]. pose proof Hr as Hr'.
  apply exact_cases in Hx. apply exact_cases in Hy.
  destruct Hx as [(sx & -> & Ex) | (sx & mx & ex & -> & Bx & Ex)];
  destruct Hy as [(sy & -> & Ey) | (sy & my & ey & -> & By & Ey)];
  try (apply exact_zero; rewrite ?Ex, ?Ey; ring).
  unfold F32.mul, SFmul.
  apply exact_cases in Hr.
  destruct Hr as [(sr & -> & Er) | (sr & mr & er & -> & Br & Er)].
  - exfalso. rewrite <- Ex, <- Ey in Er. apply Qmult_integral in Er.
    destruct Er as [Er | Er]; exact (finite_nonzero _ _ _ Er).
  - rewrite <- Ex, <- Ey, <- mul_value in Er. symmetry in Er.
    apply dyadic_same, same_dyadic_sign in Er. destruct Er as [Hs Er].
    assert (Habs : Z.abs (cond_Zopp (xorb sx sy) (Z.pos (mx * my))) = Z.pos (mx * my))
      by (destruct (xorb sx sy); reflexivity).
    assert (Hsgn : (cond_Zopp (xorb sx sy) (Z.pos (mx * my)) <? 0) = xorb sx sy)
      by (destruct (xorb sx sy); reflexivity).
    rewrite Habs in Er. rewrite Hsgn in Hs. subst sr.
    pose proof (same_dyadic_digits _ _ _ _ Er) as HD.
    pose proof (proj1 (bounded_spec _ _) Bx) as [Cx _].
    pose proof (proj1 (bounded_spec _ _) By) as [Cy _].
    pose proof (proj1 (bounded_spec _ _) Br) as [Cr _].
    unfold canonical in *. rewrite fexp_eq in *.
    pose proof (D_mul_lower mx my). pose proof (D_pos mx). pose proof (D_pos my).
    assert (Hle : ex + ey <= er) by lia.
    unfold same_dyadic in Er.
    rewrite Z.min_l, Z.sub_diag, Z.mul_1_r in Er by lia. rewrite Er.
    rewrite round_aux_exact by (assumption || lia). exact Hr'.
Qed.

(** *** Division *)

Lemma div_eucl_exact q b : b <> 0 -> Z.div_eucl (q * b) b = (q, 0).
Proof.
  intros Hb. pose proof (Z.div_mul q b Hb) as Hq. pose proof (Z.mod_mul q b Hb) as Hr.
  unfold Z.div, Z.modulo in Hq, Hr.
  destruct (Z.div_eucl (q * b) b) as [q' r']. subst. reflexivity.
Qed.

Lemma new_location_zero n : new_location n 0 = loc_Exact.
Proof. unfold new_location. destruct (Z.even n); reflexivity. Qed.

Lemma signed_product sr mr sy my sx mx P R :
  0 < P -> 0 < R ->
  cond_Zopp sr (Z.pos mr) * cond_Zopp sy (Z.pos my) * P = cond_Zopp sx (Z.pos mx) * R ->
  sr = xorb sx sy /\ Z.pos mr * Z.pos my * P = Z.pos mx * R.
Proof.
  intros HP HR E.
  assert (0 < Z.pos mr * Z.pos my * P) by (repeat apply Z.mul_pos_pos; lia).
  assert (0 < Z.pos mx * R) by (apply Z.mul_pos_pos; lia).
  destruct sr, sx, sy; cbn [cond_Zopp xorb] in *; split; try reflexivity; try lia.
Qed.

Lemma div_exact x y qx qy :
  F32.exact x qx -> F32.exact y qy -> ~ (qy == 0)%Q ->
  F32.representable (qx / qy) ->
  F32.exact (F32.div x y) (qx / qy).
Proof.
  intros Hx Hy Hnz [r Hr]. pose proof Hr as Hr'.
  apply exact_cases in Hx. apply exact_cases in Hy.
  destruct Hy as [(sy & -> & Ey) | (sy & my & ey & -> & By & Ey)];
    [contradiction|].
  destruct Hx as [(sx & -> & Ex) | (sx & mx & ex & -> & Bx & Ex)].
  - apply exact_zero. rewrite Ex. unfold Qdiv. ring.
  - apply exact_cases in Hr.
    destruct Hr as [(sr & -> & Er) | (sr & mr & er & -> & Br & Er)].
    + exfalso. assert (E0 : (qx == 0)%Q).
      { rewrite <- (Qmult_div_r qx qy Hnz), Er. ring. }
      rewrite <- Ex in E0. exact (finite_nonzero _ _ _ E0).
    + assert (Ev : (inject_Z (cond_Zopp sr (Z.pos mr) * cond_Zopp sy (Z.pos my))
                    * 2 ^ (er + ey)
                    == inject_Z (cond_Zopp sx (Z.pos mx)) * 2 ^ ex)%Q).
      { rewrite inject_Z_mult, Qpower_plus by apply two_nonzero.
        rewrite Ex. rewrite <- (Qmult_div_r qx qy Hnz), <- Er, <- Ey. ring. }
      pose proof (proj1 (bounded_spec _ _) Br) as [Cr _]. unfold canonical in Cr.
      (* magnitudes *)
      assert (HD : D (mr * my) + (er + ey) = D mx + ex).
      { apply same_dyadic_digits.
        pose proof (proj1 (dyadic_same _ _ _ _) Ev) as E1.
        rewrite cond_Zopp_xorb in E1. apply same_dyadic_sym in E1.
        apply same_dyadic_sign in E1. destruct E1 as [_ E1].
        apply same_dyadic_sym in E1.
        destruct sx; exact E1. }
      set (e' := Z.min (fexp (D mx + ex - (D my + ey))) (ex - ey)).
      assert (He' : e' <= er).
      { pose proof (D_mul_upper mr my).
        assert (fexp (D mx + ex - (D my + ey)) <= fexp (D mr + er))
          by (apply fexp_mono; lia).
        unfold e'. lia. }
      assert (Hs : 0 <= ex - ey - e') by (unfold e'; lia).
      apply (dyadic_eq_iff _ _ _ _ (ey + e')) in Ev; [| lia | lia].
      replace (er + ey - (ey + e')) with (er - e') in Ev by lia.
      replace (ex - (ey + e')) with (ex - ey - e') in Ev by lia.
      apply signed_product in Ev; try (apply Z.pow_pos_nonneg; lia).
      destruct Ev as [-> Ev].
      unfold F32.div, SFdiv, SFdiv_core_binary. cbn [Zdigits2].
      change (Z.pos (digits2_pos mx)) with (D mx).
      change (Z.pos (digits2_pos my)) with (D my).
      change (SpecFloat.fexp F32.prec F32.emax (D mx + ex - (D my + ey)))
        with (fexp (D mx + ex - (D my + ey))).
      fold e'.
      assert (Hm : match ex - ey - e' with
                   | 0 => Z.pos mx
                   | Z.pos _ => Z.shiftl (Z.pos mx) (ex - ey - e')
                   | Z.neg _ => 0
                   end = (Z.pos mr * 2 ^ (er - e')) * Z.pos my).
      { transitivity (Z.pos mx * 2 ^ (ex - ey - e')); [| rewrite <- Ev; ring].
        destruct (ex - ey - e') as [| p | p] eqn:Es; [lia | | lia].
        apply Z.shiftl_mul_pow2. lia. }
      rewrite Hm, div_eucl_exact by lia. rewrite new_location_zero.
      rewrite round_aux_exact by assumption. exact Hr'.
Qed.

(** *** Uniqueness of the representation *)

Lemma exact_unique a b q :
  F32.exact a q -> F32.exact b q -> ~ (q == 0)%Q -> a = b.
Proof.
  intros Ha Hb Hq. apply exact_cases in Ha. apply exact_cases in Hb.
  destruct Ha as [(sa & -> & Ea) | (sa & ma & ea & -> & Ba & Ea)]; [contradiction|].
  destruct Hb as [(sb & -> & Eb) | (sb & mb & eb & -> & Bb & Eb)]; [contradiction|].
  rewrite <- Eb in Ea. apply dyadic_same, same_dyadic_sign in Ea.
  destruct Ea as [Hs Ea].
  assert (sa = sb) by (destruct sa, sb; cbn in Hs; congruence). subst sb.
  replace (Z.abs (cond_Zopp sa (Z.pos ma))) with (Z.pos ma) in Ea
    by (destruct sa; reflexivity).
  pose proof (same_dyadic_digits _ _ _ _ Ea) as HD.
  pose proof (proj1 (bounded_spec _ _) Ba) as [Ca _].
  pose proof (proj1 (bounded_spec _ _) Bb) as [Cb _].
  unfold canonical in *. assert (ea = eb) by congruence. subst eb.
  unfold same_dyadic in Ea. rewrite Z.min_id, Z.sub_diag, !Z.mul_1_r in Ea.
  congruence.
Qed.

Lemma eqb_refl_finite s m e : F32.eqb (S754_finite s m e) (S754_finite s m e) = true.
Proof.
  unfold F32.eqb, SFeqb, SFcompare.
  destruct s; rewrite Z.compare_refl, Pos.compare_cont_refl; reflexivity.
Qed.

Lemma exact_eqb a b q : F32.exact a q -> F32.exact b q -> F32.eqb a b = true.
Proof.
  intros Ha Hb. pose proof Ha as Ha'. pose proof Hb as Hb'.
  apply exact_cases in Ha. apply exact_cases in Hb.
  destruct Ha as [(sa & -> & Ea) | (sa & ma & ea & -> & Ba & Ea)];
  destruct Hb as [(sb & -> & Eb) | (sb & mb & eb & -> & Bb & Eb)].
  - reflexivity.
  - exfalso. rewrite Ea in Eb. exact (finite_nonzero _ _ _ Eb).
  - exfalso. rewrite Eb in Ea. exact (finite_nonzero _ _ _ Ea).
  - assert (Hq : ~ (q == 0)%Q)
      by (intros Hq; rewrite Hq in Ea; exact (finite_nonzero _ _ _ Ea)).
    rewrite (exact_unique _ _ _ Ha' Hb' Hq). apply eqb_refl_finite.
Qed.

(** Multiplying by [1.0f] changes no single-precision value. *)
Lemma mul_one x : F32.valid x = true -> F32.mul x F32.one = x.
Proof.
  intros Hv. change F32.one with (S754_finite false 8388608 (-23)).
  destruct x as [s | s | | s m e]; cbn [F32.mul SFmul];
    rewrite ?xorb_false_r; try reflexivity.
  replace (Z.pos (m * 8388608)) with (Z.pos m * 2 ^ (e - (e + -23))).
  - apply round_aux_exact; [exact Hv | lia].
  - replace (e - (e + -23)) with 23 by lia. reflexivity.
Qed.

(** *** Numbers that are representable *)

(** A dyadic number with a mantissa below [2^24] and an exponent in the
    normal range is a single-precision number. *)
Lemma representable_dyadic k j :
  Z.abs k < 2 ^ 24 -> -126 <= j <= 104 ->
  F32.representable (inject_Z k * 2 ^ j).
Proof.
  intros Hk Hj. destruct (Z.eq_dec k 0) as [-> | Hk0].
  - exists (S754_zero false). apply exact_zero. ring.
  - destruct (Z.abs k) as [| p | p] eqn:Ep; try lia.
    pose proof (D_bounds p) as [Blo Bhi]. pose proof (D_pos p) as Dp.
    assert (Hd : D p <= 24).
    { destruct (Z.le_gt_cases (D p) 24) as [|Hgt]; [assumption|].
      assert (2 ^ 24 <= 2 ^ (D p - 1)) by (apply Z.pow_le_mono_r; lia). lia. }
    assert (Hpos : 0 < Z.pos p * 2 ^ (24 - D p))
      by (apply Z.mul_pos_pos; [lia | apply Z.pow_pos_nonneg; lia]).
    destruct (Z.pos p * 2 ^ (24 - D p)) as [| p' | p'] eqn:Ep'; try lia.
    assert (HD : D p' = 24).
    { rewrite (D_shift p p' (24 - D p)) by (lia || auto). lia. }
    exists (S754_finite (k <? 0) p' (j - (24 - D p))).
    assert (Hb : bounded F32.prec F32.emax p' (j - (24 - D p)) = true).
    { apply bounded_spec. unfold canonical. rewrite HD, fexp_eq. lia. }
    split; [exact Hb | split; [reflexivity |]].
    cbn [F32.to_Q].
    apply (dyadic_eq_iff _ _ _ _ (j - (24 - D p))); [lia | lia |].
    rewrite Z.sub_diag, Z.mul_1_r.
    replace (j - (j - (24 - D p))) with (24 - D p) by lia.
    destruct (Z.ltb_spec k 0); cbn [cond_Zopp]; rewrite <- Ep'; nia.
Qed.

Lemma representable_int k : Z.abs k < 2 ^ 24 -> F32.representable (inject_Z k).
Proof.
  intros Hk. destruct (representable_dyadic k 0 Hk ltac:(lia)) as [a Ha].
  exists a. apply exact_morph with (inject_Z k * 2 ^ 0)%Q; [| exact Ha].
  cbn. ring.
Qed.

Lemma representable_half k :
  Z.abs k < 2 ^ 24 -> F32.representable (inject_Z k / 2).
Proof.
  intros Hk. destruct (representable_dyadic k (-1) Hk ltac:(lia)) as [a Ha].
  exists a. apply exact_morph with (inject_Z k * 2 ^ (-1))%Q; [| exact Ha].
  cbn. field.
Qed.

(** The conversion of a small integer is exact. *)
Lemma of_int_exact k : Z.abs k < 2 ^ 24 -> F32.exact (F32.of_int k) (inject_Z k).
Proof.
  intros Hk. unfold F32.of_int. apply normalize_exact_Q.
  - apply representable_int. exact Hk.
  - cbn. ring.
Qed.

Lemma representable_morph q q' :
  (q == q')%Q -> F32.representable q -> F32.representable q'.
Proof. intros E [a Ha]. exists a. exact (exact_morph a q q' E Ha). Qed.

Lemma of_int_value k : Z.abs k < 2 ^ 24 -> (F32.to_Q (F32.of_int k) == inject_Z k)%Q.
Proof. intros Hk. exact (proj2 (proj2 (of_int_exact k Hk))). Qed.

(* ================================================================== *)
(** ** Single-precision arithmetic with rounding *)

(** *** Shifting right with a remainder *)

Lemma shr_1_spec m r s :
  0 <= m ->
  shr_1 {| shr_m := m; shr_r := r; shr_s := s |}
  = {| shr_m := m / 2; shr_r := Z.odd m; shr_s := r || s |}.
Proof.
  intros Hm. rewrite <- Z.div2_div.
  destruct m as [| [p | p |] | p]; try lia; reflexivity.
Qed.

(** [n + 1] shifts of an exact mantissa: the quotient, the last bit
    shifted out and whether anything was shifted out before it. *)
Lemma shr_iter_spec n M :
  0 <= M ->
  Nat.iter (S n) shr_1 (exact_record M)
  = {| shr_m := M / 2 ^ (Z.of_nat n + 1);
       shr_r := Z.odd (M / 2 ^ Z.of_nat n);
       shr_s := negb (M mod 2 ^ Z.of_nat n =? 0) |}.
Proof.
  intros HM. induction n as [| n IH].
  - cbn [Nat.iter]. unfold exact_record. rewrite shr_1_spec by assumption.
    cbn [Z.of_nat Z.add]. rewrite Z.pow_0_r, Z.pow_1_r, Z.div_1_r, Z.mod_1_r.
    reflexivity.
  - change (Nat.iter (S (S n)) shr_1 (exact_record M))
      with (shr_1 (Nat.iter (S n) shr_1 (exact_record M))).
    rewrite IH.
    assert (Hp : 0 < 2 ^ Z.of_nat n) by (apply Z.pow_pos_nonneg; lia).
    rewrite shr_1_spec by (apply Z.div_pos; [assumption | apply Z.pow_pos_nonneg; lia]).
    replace (Z.of_nat (S n)) with (Z.of_nat n + 1) by lia.
    assert (Hq : 0 < 2 ^ (Z.of_nat n + 1)) by (apply Z.pow_pos_nonneg; lia).
    f_equal.
    + rewrite Z.div_div by lia.
      rewrite (Z.pow_add_r 2 (Z.of_nat n + 1) 1), Z.pow_1_r by lia. reflexivity.
    + rewrite (Z.pow_add_r 2 (Z.of_nat n) 1), Z.pow_1_r by lia.
      rewrite Z.rem_mul_r by lia.
      pose proof (Z.mod_pos_bound M (2 ^ Z.of_nat n) Hp) as Hb.
      pose proof (Z.mod_pos_bound (M / 2 ^ Z.of_nat n) 2 ltac:(lia)) as Hc.
      rewrite Zodd_mod.
      destruct (Z.eqb_spec ((M / 2 ^ Z.of_nat n) mod 2) 1) as [E1 | E1];
        destruct (Z.eqb_spec (M mod 2 ^ Z.of_nat n) 0) as [E0 | E0];
        cbn [orb negb];
        destruct (Z.eqb_spec (M mod 2 ^ Z.of_nat n
                              + 2 ^ Z.of_nat n * ((M / 2 ^ Z.of_nat n) mod 2)) 0);
        try reflexivity; nia.
Qed.

(** Rounding to nearest after [n + 1] shifts moves the mantissa by at
    most half a unit of the last place kept. *)
Lemma round_shift_error n M :
  0 <= M ->
  let mrs := Nat.iter (S n) shr_1 (exact_record M) in
  let m2 := round_nearest_even (shr_m mrs) (loc_of_shr_record mrs) in
  M / 2 ^ (Z.of_nat n + 1) <= m2 <= M / 2 ^ (Z.of_nat n + 1) + 1
  /\ 2 * Z.abs (m2 * 2 ^ (Z.of_nat n + 1) - M) <= 2 ^ (Z.of_nat n + 1).
Proof.
  intros HM. cbv zeta. rewrite shr_iter_spec by assumption.
  cbn [shr_m loc_of_shr_record].
  assert (Hp : 0 < 2 ^ Z.of_nat n) by (apply Z.pow_pos_nonneg; lia).
  rewrite (Z.pow_add_r 2 (Z.of_nat n) 1), Z.pow_1_r by lia.
  rewrite <- Z.div_div by lia.
  pose proof (Z.div_mod M (2 ^ Z.of_nat n) ltac:(lia)) as EM.
  pose proof (Z.mod_pos_bound M (2 ^ Z.of_nat n) Hp) as Ht.
  set (a := M / 2 ^ Z.of_nat n) in *. set (t := M mod 2 ^ Z.of_nat n) in *.
  pose proof (Z.div_mod a 2 ltac:(lia)) as Ea.
  pose proof (Z.mod_pos_bound a 2 ltac:(lia)) as Hb.
  rewrite Zodd_mod.
  set (q := a / 2) in *. set (b := a mod 2) in *.
  destruct (Z.eqb_spec b 1) as [Eb | Eb];
    destruct (Z.eqb_spec t 0) as [Et | Et]; cbn [negb round_nearest_even].
  - destruct (Z.even q); split; try lia; nia.
  - split; try lia; nia.
  - split; try lia; nia.
  - split; try lia; nia.
Qed.

(** *** Rounding error of [binary_round] *)

(** A mantissa that already has its canonical exponent is kept; only the
    exponent range is checked. *)
Lemma round_aux_canonical s m e e0 :
  canonical m e -> e0 <= e ->
  binary_round_aux F32.prec F32.emax s (Z.pos m * 2 ^ (e - e0)) e0 loc_Exact
  = if e <=? 104 then S754_finite s m e else S754_infinity s.
Proof.
  intros Hc He0. unfold canonical in Hc.
  assert (Hpos : 0 < Z.pos m * 2 ^ (e - e0))
    by (apply Z.mul_pos_pos; [lia | apply Z.pow_pos_nonneg; lia]).
  destruct (Z.pos m * 2 ^ (e - e0)) as [| M | M] eqn:EM; try lia.
  assert (HD : D M = D m + (e - e0)) by (apply D_shift; [lia | symmetry; exact EM]).
  unfold binary_round_aux.
  assert (S1 : shr_fexp F32.prec F32.emax (Z.pos M) e0 loc_Exact
               = (exact_record (Z.pos m), e)).
  { unfold shr_fexp. cbn [Zdigits2 shr_record_of_loc].
    change (Z.pos (digits2_pos M)) with (D M).
    change (SpecFloat.fexp F32.prec F32.emax (D M + e0)) with (fexp (D M + e0)).
    replace (D M + e0) with (D m + e) by lia. rewrite Hc.
    change {| shr_m := Z.pos M; shr_r := false; shr_s := false |}
      with (exact_record (Z.pos M)).
    rewrite <- EM. rewrite shr_exact by lia. f_equal. lia. }
  rewrite S1. cbn [exact_record shr_m loc_of_shr_record round_nearest_even].
  assert (S2 : shr_fexp F32.prec F32.emax (Z.pos m) e loc_Exact
               = (exact_record (Z.pos m), e)).
  { unfold shr_fexp. cbn [Zdigits2 shr_record_of_loc].
    change (Z.pos (digits2_pos m)) with (D m).
    change (SpecFloat.fexp F32.prec F32.emax (D m + e)) with (fexp (D m + e)).
    rewrite Hc, Z.sub_diag. reflexivity. }
  rewrite S2. cbn [exact_record shr_m].
  reflexivity.
Qed.

(** Rounding [m * 2^e], [e] at least the least exponent: the result is
    exact when the mantissa fits, and otherwise off by at most half a unit
    of the last of its 24 digits. *)
Lemma round_error s m e :
  -149 <= e -> rounds_to (binary_round F32.prec F32.emax s m e) s m e.
Proof.
  intros He. unfold binary_round.
  change (Z.pos (digits2_pos m)) with (D m).
  change (SpecFloat.fexp F32.prec F32.emax (D m + e)) with (fexp (D m + e)).
  pose proof (D_bounds m) as [Blo Bhi]. pose proof (D_pos m) as Dp.
  destruct (Z.le_gt_cases (fexp (D m + e)) e) as [Hle | Hgt].
  - (* enough room: the number is representable as it is *)
    assert (Hal : exists mz, shl_align m e (fexp (D m + e)) = (mz, fexp (D m + e))
                             /\ Z.pos mz = Z.pos m * 2 ^ (e - fexp (D m + e))).
    { unfold shl_align. destruct (fexp (D m + e) - e) as [| d | d] eqn:Ed; try lia.
      - exists m. split; [f_equal; lia |]. replace (e - fexp (D m + e)) with 0 by lia. lia.
      - exists (Pos.iter xO m d). split; [reflexivity|].
        rewrite pos_iter_xO. f_equal. f_equal. lia. }
    destruct Hal as (mz & -> & Emz).
    assert (Hc : canonical mz (fexp (D m + e))).
    { unfold canonical. rewrite (D_shift m mz (e - fexp (D m + e))) by (lia || auto).
      f_equal. lia. }
    rewrite <- (Z.mul_1_r (Z.pos mz)), <- (Z.pow_0_r 2),
      <- (Z.sub_diag (fexp (D m + e))) at 1.
    rewrite round_aux_canonical by (assumption || lia).
    destruct (Z.leb_spec (fexp (D m + e)) 104) as [Hb | Hb]; [| left; reflexivity].
    right. exists mz, (fexp (D m + e)). split; [reflexivity|]. split.
    + apply bounded_spec. split; assumption.
    + left. unfold same_dyadic. rewrite Z.min_l by lia.
      rewrite Z.sub_diag, Z.mul_1_r. exact Emz.
  - (* the mantissa has more than 24 digits: it is shifted and rounded *)
    rewrite fexp_eq in Hgt.
    assert (HE : fexp (D m + e) = D m + e - 24) by (rewrite fexp_eq; lia).
    rewrite HE in *.
    assert (Hn : 0 < D m - 24) by lia.
    assert (Hal : shl_align m e (D m + e - 24) = (m, e)).
    { unfold shl_align. destruct (D m + e - 24 - e) eqn:Ed; try lia; reflexivity. }
    rewrite Hal. unfold binary_round_aux.
    (* first shift *)
    destruct (D m - 24) as [| p | p] eqn:Ep; try lia.
    destruct (Pos.to_nat p) as [| n] eqn:En; [lia|].
    assert (Hnp : Z.of_nat n + 1 = Z.pos p) by lia.
    assert (S1 : shr_fexp F32.prec F32.emax (Z.pos m) e loc_Exact
                 = (Nat.iter (S n) shr_1 (exact_record (Z.pos m)), D m + e - 24)).
    { unfold shr_fexp. cbn [Zdigits2 shr_record_of_loc].
      change (Z.pos (digits2_pos m)) with (D m).
      change (SpecFloat.fexp F32.prec F32.emax (D m + e)) with (fexp (D m + e)).
      rewrite HE. replace (D m + e - 24 - e) with (Z.pos p) by lia.
      cbn [shr]. rewrite iter_pos_nat, En.
      change {| shr_m := Z.pos m; shr_r := false; shr_s := false |}
        with (exact_record (Z.pos m)).
      f_equal. lia. }
    rewrite S1.
    pose proof (round_shift_error n (Z.pos m) ltac:(lia)) as Herr.
    cbv zeta in Herr. rewrite Hnp in Herr.
    set (m2 := round_nearest_even
                 (shr_m (Nat.iter (S n) shr_1 (exact_record (Z.pos m))))
                 (loc_of_shr_record (Nat.iter (S n) shr_1 (exact_record (Z.pos m)))))
      in *.
    destruct Herr as [Hm2 Herr].
    (* the quotient has exactly 24 digits *)
    assert (Hpp : 0 < 2 ^ Z.pos p) by (apply Z.pow_pos_nonneg; lia).
    assert (Hq : 8388608 <= Z.pos m / 2 ^ Z.pos p < 16777216).
    { replace (D m - 1) with (Z.pos p + 23) in Blo by lia.
      replace (D m) with (Z.pos p + 24) in Bhi by lia.
      rewrite Z.pow_add_r in Blo, Bhi by lia.
      change (2 ^ 23) with 8388608 in Blo. change (2 ^ 24) with 16777216 in Bhi.
      split.
      - apply Z.div_le_lower_bound; lia.
      - apply Z.div_lt_upper_bound; lia. }
    assert (Hbig : 16777216 * 2 ^ Z.pos p <= 2 * Z.pos m).
    { replace (D m - 1) with (Z.pos p + 23) in Blo by lia.
      rewrite Z.pow_add_r in Blo by lia. change (2 ^ 23) with 8388608 in Blo. lia. }
    destruct m2 as [| p2 | p2] eqn:Em2; try lia.
    destruct (Z.eq_dec (Z.pos p2) 16777216) as [Etop | Etop].
    + (* the rounded mantissa is [2^24]: one more shift *)
      assert (S2 : shr_fexp F32.prec F32.emax (Z.pos p2) (D m + e - 24) loc_Exact
                   = (exact_record 8388608, D m + e - 24 + 1)).
      { unfold shr_fexp. cbn [Zdigits2 shr_record_of_loc].
        injection Etop as ->. cbn [digits2_pos Pos.succ].
        change (SpecFloat.fexp F32.prec F32.emax (25 + (D m + e - 24)))
          with (fexp (25 + (D m + e - 24))).
        rewrite fexp_eq.
        replace (Z.max (25 + (D m + e - 24) - 24) (-149) - (D m + e - 24)) with 1 by lia.
        reflexivity. }
      rewrite S2. cbn [exact_record shr_m].
      destruct (Z.leb_spec (D m + e - 24 + 1) (F32.emax - F32.prec)) as [Hb | Hb];
        [| left; reflexivity].
      change (F32.emax - F32.prec) with 104 in Hb.
      right. exists 8388608%positive, (D m + e - 24 + 1). split; [reflexivity|]. split.
      * apply bounded_spec. split; [| lia]. unfold canonical.
        change (D 8388608) with 24. rewrite fexp_eq. lia.
      * right. split; [lia|].
        replace (D m + e - 24 + 1 - e) with (Z.pos p + 1) by lia.
        rewrite Z.pow_add_r, Z.pow_1_r by lia.
        rewrite Etop in Herr. lia.
    + (* the rounded mantissa still has 24 digits *)
      assert (HD2 : D p2 = 24).
      { apply D_unique. change (2 ^ (24 - 1)) with 8388608.
        change (2 ^ 24) with 16777216. lia. }
      assert (S2 : shr_fexp F32.prec F32.emax (Z.pos p2) (D m + e - 24) loc_Exact
                   = (exact_record (Z.pos p2), D m + e - 24)).
      { unfold shr_fexp. cbn [Zdigits2 shr_record_of_loc].
        change (Z.pos (digits2_pos p2)) with (D p2). rewrite HD2.
        change (SpecFloat.fexp F32.prec F32.emax (24 + (D m + e - 24)))
          with (fexp (24 + (D m + e - 24))).
        rewrite fexp_eq.
        replace (Z.max (24 + (D m + e - 24) - 24) (-149) - (D m + e - 24)) with 0 by lia.
        reflexivity. }
      rewrite S2. cbn [exact_record shr_m].
      destruct (Z.leb_spec (D m + e - 24) (F32.emax - F32.prec)) as [Hb | Hb];
        [| left; reflexivity].
      change (F32.emax - F32.prec) with 104 in Hb.
      right. exists p2, (D m + e - 24). split; [reflexivity|]. split.
      * apply bounded_spec. split; [| lia]. unfold canonical.
        rewrite HD2, fexp_eq. lia.
      * right. split; [lia|].
        replace (D m + e - 24 - e) with (Z.pos p) by lia. lia.
Qed.

(** *** The error of one operation, as a rational *)

Lemma Qabs_inject_Z z : Qabs (inject_Z z) = inject_Z (Z.abs z).
Proof. reflexivity. Qed.

Lemma abs_cond_Zopp s z : Z.abs (cond_Zopp s z) = Z.abs z.
Proof. destruct s; cbn [cond_Zopp]; lia. Qed.

Lemma pow2_pos e : (0 < 2 ^ e)%Q.
Proof. apply Qpower_0_lt. reflexivity. Qed.

Lemma Qabs_dyadic M e : (Qabs (inject_Z M * 2 ^ e) == inject_Z (Z.abs M) * 2 ^ e)%Q.
Proof.
  rewrite Qabs_Qmult, Qabs_inject_Z.
  rewrite (Qabs_pos (2 ^ e)) by (apply Qlt_le_weak, pow2_pos). reflexivity.
Qed.

Lemma cond_Zopp_sub s a b : cond_Zopp s a - cond_Zopp s b = cond_Zopp s (a - b).
Proof. destruct s; cbn [cond_Zopp]; lia. Qed.

Lemma error_zero a q :
  (a == q)%Q -> (Qabs (a - q) <= unit_roundoff * Qabs q)%Q.
Proof.
  intros E. setoid_replace (a - q)%Q with 0%Q by (rewrite E; ring).
  change (Qabs 0) with 0%Q.
  apply Qmult_le_0_compat; [discriminate | apply Qabs_nonneg].
Qed.

Lemma rounds_to_error f s m e :
  rounds_to f s m e -> F32.is_finite f = true ->
  F32.valid f = true
  /\ (Qabs (F32.to_Q f - inject_Z (cond_Zopp s (Z.pos m)) * 2 ^ e)
      <= unit_roundoff * Qabs (inject_Z (cond_Zopp s (Z.pos m)) * 2 ^ e))%Q.
Proof.
  intros [-> | (m' & e' & -> & Hb & H)] Hf; [discriminate|].
  split; [exact Hb|]. cbn [F32.to_Q].
  destruct H as [E | [Hle E]].
  - assert (Ev : (inject_Z (cond_Zopp s (Z.pos m')) * 2 ^ e'
                  == inject_Z (cond_Zopp s (Z.pos m)) * 2 ^ e)%Q).
    { apply dyadic_same in E. destruct s; cbn [cond_Zopp].
      - change (Z.neg m') with (- Z.pos m'). change (Z.neg m) with (- Z.pos m).
        rewrite !inject_Z_opp.
        setoid_replace (- inject_Z (Z.pos m') * 2 ^ e')%Q
          with (- (inject_Z (Z.pos m') * 2 ^ e'))%Q by ring.
        rewrite E. ring.
      - exact E. }
    apply error_zero. exact Ev.
  - rewrite (dyadic_split (cond_Zopp s (Z.pos m')) e' e Hle).
    setoid_replace (inject_Z (cond_Zopp s (Z.pos m') * 2 ^ (e' - e)) * 2 ^ e
                    - inject_Z (cond_Zopp s (Z.pos m)) * 2 ^ e)%Q
      with (inject_Z (cond_Zopp s (Z.pos m') * 2 ^ (e' - e) - cond_Zopp s (Z.pos m))
            * 2 ^ e)%Q
      by (unfold Z.sub; rewrite inject_Z_plus, inject_Z_opp; ring).
    rewrite cond_Zopp_mul, cond_Zopp_sub, !Qabs_dyadic, !abs_cond_Zopp.
    rewrite Qmult_assoc. apply Qmult_le_compat_r; [| apply Qlt_le_weak, pow2_pos].
    change (Z.abs (Z.pos m)) with (Z.pos m).
    unfold unit_roundoff, Qle. cbn [Qnum Qden Qmult inject_Z].
    change (16777216 * 1)%positive with 16777216%positive. lia.
Qed.

Lemma bounded_emin m e : bounded F32.prec F32.emax m e = true -> -149 <= e.
Proof.
  intros Hb. apply bounded_spec in Hb. destruct Hb as [Hc _].
  unfold canonical in Hc. rewrite fexp_eq in Hc. lia.
Qed.

(** Rounding an integer multiple of a power of two no smaller than the
    least subnormal number: a relative error of at most [2^-24]. *)
Lemma normalize_error M e :
  -149 <= e ->
  F32.is_finite (binary_normalize F32.prec F32.emax M e false) = true ->
  F32.valid (binary_normalize F32.prec F32.emax M e false) = true
  /\ (Qabs (F32.to_Q (binary_normalize F32.prec F32.emax M e false)
            - inject_Z M * 2 ^ e)
      <= unit_roundoff * Qabs (inject_Z M * 2 ^ e))%Q.
Proof.
  intros He Hf. destruct M as [| m | m]; cbn [binary_normalize] in *.
  - split; [reflexivity|]. apply error_zero. cbn [F32.to_Q].
    change (inject_Z 0) with 0%Q. ring.
  - apply (rounds_to_error _ false m e); [apply round_error; assumption | assumption].
  - apply (rounds_to_error _ true m e); [apply round_error; assumption | assumption].
Qed.

(** A sum or a difference that does not overflow is valid and within
    [2^-24] of the exact one, relatively: both operands are multiples of
    [2^-149], so nothing is lost to underflow. *)
Lemma add_error x y :
  F32.valid x = true -> F32.is_finite x = true ->
  F32.valid y = true -> F32.is_finite y = true ->
  F32.is_finite (F32.add x y) = true ->
  F32.valid (F32.add x y) = true
  /\ (Qabs (F32.to_Q (F32.add x y) - (F32.to_Q x + F32.to_Q y))
      <= unit_roundoff * Qabs (F32.to_Q x + F32.to_Q y))%Q.
Proof.
  intros Vx Fx Vy Fy Fz.
  destruct x as [sx | sx | | sx mx ex]; try discriminate;
  destruct y as [sy | sy | | sy my ey]; try discriminate.
  - split; [destruct sx, sy; reflexivity|].
    assert (E : F32.to_Q (F32.add (S754_zero sx) (S754_zero sy)) = 0%Q)
      by (destruct sx, sy; reflexivity).
    apply error_zero. rewrite E. cbn [F32.to_Q]. ring.
  - change (F32.add (S754_zero sx) (S754_finite sy my ey)) with (S754_finite sy my ey).
    split; [exact Vy|]. apply error_zero. cbn [F32.to_Q]. ring.
  - change (F32.add (S754_finite sx mx ex) (S754_zero sy)) with (S754_finite sx mx ex).
    split; [exact Vx|]. apply error_zero. cbn [F32.to_Q]. ring.
  - pose proof (bounded_emin _ _ Vx). pose proof (bounded_emin _ _ Vy).
    unfold F32.add, SFadd in *.
    assert (Ev : (inject_Z (cond_Zopp sx (Z.pos (fst (shl_align mx ex (Z.min ex ey))))
                            + cond_Zopp sy (Z.pos (fst (shl_align my ey (Z.min ex ey)))))
                  * 2 ^ Z.min ex ey
                  == F32.to_Q (S754_finite sx mx ex) + F32.to_Q (S754_finite sy my ey))%Q).
    { rewrite inject_Z_plus, Qmult_plus_distr_l.
      rewrite !aligned_value by lia. reflexivity. }
    rewrite <- Ev. apply normalize_error; [lia | exact Fz].
Qed.

Lemma sub_error x y :
  F32.valid x = true -> F32.is_finite x = true ->
  F32.valid y = true -> F32.is_finite y = true ->
  F32.is_finite (F32.sub x y) = true ->
  F32.valid (F32.sub x y) = true
  /\ (Qabs (F32.to_Q (F32.sub x y) - (F32.to_Q x - F32.to_Q y))
      <= unit_roundoff * Qabs (F32.to_Q x - F32.to_Q y))%Q.
Proof.
  intros Vx Fx Vy Fy Fz.
  destruct x as [sx | sx | | sx mx ex]; try discriminate;
  destruct y as [sy | sy | | sy my ey]; try discriminate.
  - split; [destruct sx, sy; reflexivity|].
    assert (E : F32.to_Q (F32.sub (S754_zero sx) (S754_zero sy)) = 0%Q)
      by (destruct sx, sy; reflexivity).
    apply error_zero. rewrite E. cbn [F32.to_Q]. ring.
  - change (F32.sub (S754_zero sx) (S754_finite sy my ey))
      with (S754_finite (negb sy) my ey).
    split; [exact Vy|]. apply error_zero. cbn [F32.to_Q].
    destruct sy; cbn [negb cond_Zopp];
      change (Z.neg my) with (- Z.pos my); rewrite ?inject_Z_opp; ring.
  - change (F32.sub (S754_finite sx mx ex) (S754_zero sy)) with (S754_finite sx mx ex).
    split; [exact Vx|]. apply error_zero. cbn [F32.to_Q]. ring.
  - pose proof (bounded_emin _ _ Vx). pose proof (bounded_emin _ _ Vy).
    unfold F32.sub, SFsub in *.
    assert (Ev : (inject_Z (cond_Zopp sx (Z.pos (fst (shl_align mx ex (Z.min ex ey))))
                            - cond_Zopp sy (Z.pos (fst (shl_align my ey (Z.min ex ey)))))
                  * 2 ^ Z.min ex ey
                  == F32.to_Q (S754_finite sx mx ex) - F32.to_Q (S754_finite sy my ey))%Q).
    { unfold Z.sub at 1. rewrite inject_Z_plus, inject_Z_opp.
      setoid_replace ((inject_Z (cond_Zopp sx (Z.pos (fst (shl_align mx ex (Z.min ex ey)))))
                       + - inject_Z (cond_Zopp sy (Z.pos (fst (shl_align my ey (Z.min ex ey))))))
                      * 2 ^ Z.min ex ey)%Q
        with (inject_Z (cond_Zopp sx (Z.pos (fst (shl_align mx ex (Z.min ex ey))))) * 2 ^ Z.min ex ey
              - inject_Z (cond_Zopp sy (Z.pos (fst (shl_align my ey (Z.min ex ey))))) * 2 ^ Z.min ex ey)%Q
        by ring.
      rewrite !aligned_value by lia. reflexivity. }
    rewrite <- Ev. apply normalize_error; [lia | exact Fz].
Qed.

(** *** Halving *)

Lemma D_le m k : 0 <= k -> Z.pos m < 2 ^ k -> D m <= k.
Proof.
  intros Hk Hm. pose proof (D_bounds m) as [Blo _]. pose proof (D_pos m).
  destruct (Z.le_gt_cases (D m) k) as [|Hgt]; [assumption|].
  assert (2 ^ k <= 2 ^ (D m - 1)) by (apply Z.pow_le_mono_r; lia). lia.
Qed.

Lemma div_eucl_spec q b r : 0 <= r < b -> Z.div_eucl (q * b + r) b = (q, r).
Proof.
  intros Hr.
  assert (Hq : (q * b + r) / b = q) by (symmetry; apply (Z.div_unique_pos _ _ q r); lia).
  assert (Hm : (q * b + r) mod b = r) by (symmetry; apply (Z.mod_unique_pos _ _ q r); lia).
  unfold Z.div, Z.modulo in Hq, Hm.
  destruct (Z.div_eucl (q * b + r) b) as [q' r']. subst. reflexivity.
Qed.

Lemma half_value s m e :
  (inject_Z (cond_Zopp s (Z.pos m)) * 2 ^ (e - 1)
   == inject_Z (cond_Zopp s (Z.pos m)) * 2 ^ e / 2)%Q.
Proof.
  unfold Z.sub. rewrite Qpower_plus by apply two_nonzero.
  change (2 ^ (- (1)))%Q with (/ 2)%Q. unfold Qdiv. ring.
Qed.

(** Half of a single-precision number is one too, unless the number is
    an odd multiple of the least subnormal number [2^-149]. *)
Lemma representable_halved s m e :
  bounded F32.prec F32.emax m e = true ->
  -149 < e \/ (exists m', m = xO m') ->
  F32.representable (F32.to_Q (S754_finite s m e) / 2).
Proof.
  intros Hb H. pose proof (proj1 (bounded_spec _ _) Hb) as [Hc Hmax].
  unfold canonical in Hc. rewrite fexp_eq in Hc.
  destruct (Z.eq_dec e (-149)) as [-> | Hne].
  - destruct H as [H | [m' ->]]; [lia|].
    exists (S754_finite s m' (-149)). split; [| split; [reflexivity|]].
    + apply bounded_spec. split; [| lia]. unfold canonical. rewrite fexp_eq.
      assert (D m'~0 = D m' + 1) by (unfold D; cbn [digits2_pos]; lia). lia.
    + cbn [F32.to_Q]. rewrite <- half_value.
      change (-149 - 1) with (-150).
      apply dyadic_same. unfold same_dyadic.
      rewrite Z.min_r by lia. cbn [Z.sub Z.add Z.opp Z.pos_sub].
      destruct s; cbn [cond_Zopp]; lia.
  - exists (S754_finite s m (e - 1)). split; [| split; [reflexivity|]].
    + apply bounded_spec. split; [| lia]. unfold canonical. rewrite fexp_eq. lia.
    + cbn [F32.to_Q]. apply half_value.
Qed.

(** Halving an odd multiple of [2^-149] rounds to one of the two
    neighbouring multiples. *)
Lemma half_odd_subnormal s q :
  bounded F32.prec F32.emax q~1 (-149) = true ->
  exists p, F32.div (S754_finite s q~1 (-149)) (F32.of_int 2) = S754_finite s p (-149)
            /\ bounded F32.prec F32.emax p (-149) = true
            /\ (p = q \/ p = Pos.succ q).
Proof.
  intros Hb. pose proof (proj1 (bounded_spec _ _) Hb) as [Hc _].
  unfold canonical in Hc. rewrite fexp_eq in Hc.
  assert (HD : D q~1 = D q + 1) by (unfold D; cbn [digits2_pos]; lia).
  pose proof (D_bounds q) as [_ Bq]. pose proof (D_pos q).
  assert (Hq : Z.pos q < 8388608).
  { assert (2 ^ D q <= 2 ^ 23) by (apply Z.pow_le_mono_r; lia).
    change (2 ^ 23) with 8388608 in *. lia. }
  assert (Hcan : forall p, Z.pos p <= 8388608 ->
                 SpecFloat.fexp F32.prec F32.emax (Z.pos (digits2_pos p) + -149) = -149).
  { intros p Hp. change (Z.pos (digits2_pos p)) with (D p).
    change (SpecFloat.fexp F32.prec F32.emax (D p + -149)) with (fexp (D p + -149)).
    rewrite fexp_eq. assert (D p <= 24) by (apply D_le; [lia|]; change (2 ^ 24) with 16777216; lia).
    lia. }
  change (F32.of_int 2) with (S754_finite false 8388608 (-22)).
  unfold F32.div, SFdiv, SFdiv_core_binary. cbn [Zdigits2]. rewrite xorb_false_r.
  change (Z.pos (digits2_pos 8388608)) with 24.
  change (Z.pos (digits2_pos q~1)) with (D q~1).
  change (SpecFloat.fexp F32.prec F32.emax (D q~1 + -149 - (24 + -22)))
    with (fexp (D q~1 + -149 - (24 + -22))).
  assert (He : Z.min (fexp (D q~1 + -149 - (24 + -22))) (-149 - -22) = -149)
    by (rewrite fexp_eq; lia).
  rewrite He. change (-149 - -22 - -149) with 22.
  cbv beta iota.
  assert (Hm : Z.shiftl (Z.pos q~1) 22 = Z.pos q * 8388608 + 4194304).
  { rewrite Z.shiftl_mul_pow2 by lia. change (2 ^ 22) with 4194304. lia. }
  rewrite Hm, div_eucl_spec by lia.
  change (new_location 8388608 4194304) with (loc_Inexact Eq).
  unfold binary_round_aux, shr_fexp. cbn [Zdigits2 shr_record_of_loc].
  rewrite (Hcan q) by lia. change (-149 - -149) with 0. cbn [shr shr_m loc_of_shr_record].
  cbn [round_nearest_even].
  destruct (Z.even (Z.pos q)).
  - cbn [Zdigits2]. rewrite (Hcan q) by lia. change (-149 - -149) with 0.
    cbn [shr shr_m]. exists q. split; [reflexivity|]. split; [| left; reflexivity].
    apply bounded_spec. split; [| lia]. unfold canonical.
    specialize (Hcan q ltac:(lia)). exact Hcan.
  - replace (Z.pos q + 1) with (Z.pos (Pos.succ q)) by lia.
    cbn [Zdigits2]. rewrite (Hcan (Pos.succ q)) by lia. change (-149 - -149) with 0.
    cbn [shr shr_m]. exists (Pos.succ q). split; [reflexivity|].
    split; [| right; reflexivity].
    apply bounded_spec. split; [| lia]. unfold canonical.
    specialize (Hcan (Pos.succ q) ltac:(lia)). exact Hcan.
Qed.

(** Halving never overflows and is exact but for the odd multiples of
    [2^-149], where it is off by [2^-150]. *)
Lemma half_error x :
  F32.valid x = true -> F32.is_finite x = true ->
  F32.valid (F32.div x (F32.of_int 2)) = true
  /\ F32.is_finite (F32.div x (F32.of_int 2)) = true
  /\ (Qabs (F32.to_Q (F32.div x (F32.of_int 2)) - F32.to_Q x / 2) <= 2 ^ (-150))%Q.
Proof.
  intros Vx Fx.
  assert (Hrep : F32.representable (F32.to_Q x / 2) ->
          F32.valid (F32.div x (F32.of_int 2)) = true
          /\ F32.is_finite (F32.div x (F32.of_int 2)) = true
          /\ (Qabs (F32.to_Q (F32.div x (F32.of_int 2)) - F32.to_Q x / 2) <= 2 ^ (-150))%Q).
  { intros Hr.
    destruct (div_exact x (F32.of_int 2) (F32.to_Q x) 2) as (V & F & E).
    - repeat split; assumption.
    - repeat split.
    - discriminate.
    - exact Hr.
    - split; [exact V|]. split; [exact F|].
      setoid_replace (F32.to_Q (F32.div x (F32.of_int 2)) - F32.to_Q x / 2)%Q with 0%Q
        by (rewrite E; ring).
      discriminate. }
  destruct x as [sx | sx | | sx mx ex]; try discriminate.
  - apply Hrep. exists (S754_zero false). repeat split.
  - destruct (Z.eq_dec ex (-149)) as [-> | Hne].
    + destruct mx as [q | m' |].
      * clear Hrep. destruct (half_odd_subnormal sx q Vx) as (p & -> & Hb & Hp).
        split; [exact Hb|]. split; [reflexivity|]. cbn [F32.to_Q].
        rewrite <- half_value. change (-149 - 1) with (-150).
        rewrite (dyadic_split (cond_Zopp sx (Z.pos p)) (-149) (-150)) by lia.
        change (2 ^ (-149 - -150)) with 2.
        setoid_replace (inject_Z (cond_Zopp sx (Z.pos p) * 2) * 2 ^ (-150)
                        - inject_Z (cond_Zopp sx (Z.pos q~1)) * 2 ^ (-150))%Q
          with (inject_Z (cond_Zopp sx (Z.pos p) * 2 - cond_Zopp sx (Z.pos q~1))
                * 2 ^ (-150))%Q
          by (unfold Z.sub; rewrite inject_Z_plus, inject_Z_opp; ring).
        rewrite cond_Zopp_mul, cond_Zopp_sub, Qabs_dyadic, abs_cond_Zopp.
        assert (Ek : Z.abs (Z.pos p * 2 - Z.pos q~1) = 1) by (destruct Hp as [-> | ->]; lia).
        rewrite Ek. change (inject_Z 1) with 1%Q. rewrite Qmult_1_l. apply Qle_refl.
      * apply Hrep, representable_halved; [exact Vx | right; eexists; reflexivity].
      * clear Hrep. destruct sx; repeat split; discriminate.
    + apply Hrep, representable_halved; [exact Vx | left].
      pose proof (bounded_emin _ _ Vx). lia.
Qed.

(** *** Infinities and NaN propagate *)

Lemma add_finite x y :
  F32.is_finite (F32.add x y) = true ->
  F32.is_finite x = true /\ F32.is_finite y = true.
Proof.
  destruct x as [sx | sx | | sx mx ex], y as [sy | sy | | sy my ey];
    try (intros _; split; reflexivity);
    try (destruct sx, sy; discriminate); try (destruct sx; discriminate);
    try discriminate.
Qed.

Lemma sub_finite x y :
  F32.is_finite (F32.sub x y) = true ->
  F32.is_finite x = true /\ F32.is_finite y = true.
Proof.
  destruct x as [sx | sx | | sx mx ex], y as [sy | sy | | sy my ey];
    try (intros _; split; reflexivity);
    try (destruct sx, sy; discriminate); try (destruct sx; discriminate);
    try discriminate.
Qed.

Lemma div_finite x y :
  F32.is_finite y = true ->
  F32.is_finite (F32.div x y) = true -> F32.is_finite x = true.
Proof.
  destruct x as [sx | sx | | sx mx ex], y as [sy | sy | | sy my ey];
    try (intros _ _; reflexivity); try discriminate.
Qed.

(* ================================================================== *)
(** ** The layout functions *)

(** *** Small facts used by several results *)

Lemma sub_zero x : F32.sub x (F32.of_int 0) = x.
Proof. destruct x as [[|] | [|] | | s m e]; reflexivity. Qed.

Lemma quot_in_range a b :
  b <> 0 -> Int.min_int <= a <= Int.max_int ->
  a <> Int.min_int \/ b <> -1 ->
  Int.in_range (Z.quot a b) = true.
Proof.
  intros Hb Ha Hab. unfold Int.in_range.
  change Int.min_int with (-2147483648) in *.
  change Int.max_int with 2147483647 in *.
  apply andb_true_iff.
  destruct (Z.eq_dec b 1) as [-> | Hb1].
  { rewrite Z.quot_1_r. split; apply Z.leb_le; lia. }
  assert (Habs : Z.abs (Z.quot a b) = Z.abs a / Z.abs b).
  { rewrite <- Z.quot_abs by assumption. apply Z.quot_div_nonneg; lia. }
  assert (Hle : Z.abs a / Z.abs b <= 2147483647).
  { destruct (Z.eq_dec a (-2147483648)) as [-> | Hne].
    - assert (2 <= Z.abs b) by lia.
      assert (Z.abs (-2147483648) / Z.abs b <= 1073741824)
        by (apply Z.div_le_upper_bound; lia).
      lia.
    - assert (Z.abs a / Z.abs b <= Z.abs a)
        by (apply Z.div_le_upper_bound; nia).
      lia. }
  split; apply Z.leb_le; lia.
Qed.

Lemma int_div_defined a b :
  b <> 0 -> Int.min_int <= a <= Int.max_int ->
  a <> Int.min_int \/ b <> -1 ->
  Int.div a b = Some (Z.quot a b).
Proof.
  intros Hb Ha Hab. unfold Int.div, Int.checked.
  destruct (Z.eqb_spec b 0); [contradiction|].
  rewrite quot_in_range by assumption. reflexivity.
Qed.

Lemma int_rem_defined a b :
  b <> 0 -> Int.min_int <= a <= Int.max_int ->
  a <> Int.min_int \/ b <> -1 ->
  Int.rem a b = Some (Z.rem a b).
Proof.
  intros Hb Ha Hab. unfold Int.rem.
  destruct (Z.eqb_spec b 0); [contradiction|].
  rewrite quot_in_range by assumption. reflexivity.
Qed.

Lemma exact_of_float a :
  F32.valid a = true -> F32.is_finite a = true -> F32.exact a (F32.to_Q a).
Proof. intros Hv Hf. split; [exact Hv | split; [exact Hf | reflexivity]]. Qed.

(** The constants of the worked grid example. *)
Lemma exact_2 : F32.exact (F32.of_int 2) 2.
Proof. repeat split. Qed.
Lemma exact_12 : F32.exact (F32.of_int 12) 12.
Proof. repeat split. Qed.
Lemma exact_14 : F32.exact (F32.of_int 14) 14.
Proof. repeat split. Qed.

(** Adding 2 and then 12 is adding 14, as long as neither sum is rounded. *)
Lemma add_2_12 a :
  F32.valid a = true -> F32.is_finite a = true ->
  F32.representable (F32.to_Q a + 2) -> F32.representable (F32.to_Q a + 14) ->
  F32.eqb (F32.add (F32.add a (F32.of_int 2)) (F32.of_int 12))
          (F32.add a (F32.of_int 14)) = true.
Proof.
  intros Hv Hf R2 R14. pose proof (exact_of_float a Hv Hf) as Ha.
  pose proof (add_exact _ _ _ _ Ha exact_2 R2) as H2.
  assert (E : (F32.to_Q a + 2 + 12 == F32.to_Q a + 14)%Q) by ring.
  assert (R : F32.representable (F32.to_Q a + 2 + 12)).
  { destruct R14 as [r Hr]. exists r. apply exact_morph with (F32.to_Q a + 14)%Q;
      [symmetry; exact E | exact Hr]. }
  pose proof (add_exact _ _ _ _ H2 exact_12 R) as H12.
  pose proof (add_exact _ _ _ _ Ha exact_14 R14) as H14.
  apply exact_eqb with (F32.to_Q a + 14)%Q; [| exact H14].
  apply exact_morph with (F32.to_Q a + 2 + 12)%Q; assumption.
Qed.

(* ------------------------------------------------------------------ *)

(** C1 (as amended).  For non-zero [rows] and [columns] and a zero-based
    [cellNumber], [GridTranslocatedOrigin] returns exactly
    [(O.x + gl + col*(cw+gl), O.y + gl + row*(ch+gl))] with
    [row = cellNumber / rows] and [col = cellNumber % columns] (the row
    is obtained by dividing by [rows]).  For 3 by 3 cells of 10 by 10,
    gridlines of 2 and cell 4 the result is [(O + (2,2)) + (12,12)] in
    single precision; it compares equal to [O + (14,14)] whenever
    neither [O + 2] nor [O + 14] is rounded, and is [(14,14)] for
    [O = (0,0)]. *)
Theorem GridTranslocatedOrigin_formula :
  (forall O cellWidth cellHeight gridlineWidth columns rows cellNumber,
      rows <> 0 -> columns <> 0 -> 0 <= cellNumber <= Int.max_int ->
      Position.GridTranslocatedOrigin O cellWidth cellHeight gridlineWidth
        columns rows cellNumber
      = let row := Z.quot cellNumber rows in
        let col := Z.rem cellNumber columns in
        Some (mkVec2
                (vx O + gridlineWidth
                 + F32.of_int col * (cellWidth + gridlineWidth))%f32
                (vy O + gridlineWidth
                 + F32.of_int row * (cellHeight + gridlineWidth))%f32))
  /\ (forall O,
         grid_example O
         = Some ((O + mkVec2 (F32.of_int 2) (F32.of_int 2))
                 + mkVec2 (F32.of_int 12) (F32.of_int 12))%vec)
  /\ (forall O, shift_exact (vx O) -> shift_exact (vy O) ->
         exists v, grid_example O = Some v
                   /\ veqb v (O + mkVec2 (F32.of_int 14) (F32.of_int 14))%vec
                      = true)
  /\ grid_example (mkVec2 F32.zero F32.zero)
     = Some (mkVec2 (F32.of_int 14) (F32.of_int 14)).
Proof.
  split; [| split; [| split]].
  - intros O cw ch gl columns rows cell Hr Hc Hcell.
    unfold Position.GridTranslocatedOrigin.
    assert (Hmin : Int.min_int = -2147483648) by reflexivity.
    rewrite int_div_defined, int_rem_defined by (assumption || lia).
    reflexivity.
  - intros O. reflexivity.
  - intros O (Vx & Fx & Rx2 & Rx14) (Vy & Fy & Ry2 & Ry14).
    eexists. split; [reflexivity|].
    unfold veqb. cbn [vx vy vadd].
    apply andb_true_iff. split; apply add_2_12; assumption.
  - reflexivity.
Qed.

Lemma GridTranslocatedOrigin_formula_witness :
  Position.GridTranslocatedOrigin (mkVec2 F32.one F32.one)
    (F32.of_int 10) (F32.of_int 10) (F32.of_int 2) 3 3 4
  = Some (mkVec2 (F32.of_int 15) (F32.of_int 15))
  /\ exists v, grid_example (mkVec2 F32.one F32.one) = Some v
               /\ veqb v (mkVec2 F32.one F32.one
                          + mkVec2 (F32.of_int 14) (F32.of_int 14))%vec = true.
Proof.
  split.
  - rewrite (proj1 GridTranslocatedOrigin_formula); [reflexivity | lia | lia |].
    unfold Int.max_int; lia.
  - apply (proj1 (proj2 (proj2 GridTranslocatedOrigin_formula))).
    + repeat split.
      * exists (F32.of_int 3). repeat split.
      * exists (F32.of_int 15). repeat split.
    + repeat split.
      * exists (F32.of_int 3). repeat split.
      * exists (F32.of_int 15). repeat split.
Defined.

Lemma GridTranslocatedOrigin_example_rounds :
  grid_example far_origin
  = Some (mkVec2 (F32.of_int 33554444) (F32.of_int 33554444))
  /\ (far_origin + mkVec2 (F32.of_int 14) (F32.of_int 14))%vec
     = mkVec2 (F32.of_int 33554448) (F32.of_int 33554448)
  /\ (F32.to_Q (F32.of_int 33554444) == 33554444)%Q
  /\ (F32.to_Q (vx far_origin) + 14 == 33554446)%Q
  /\ grid_example far_origin
     <> Some (far_origin + mkVec2 (F32.of_int 14) (F32.of_int 14))%vec.
Proof.
  repeat split. discriminate.
Qed.

(* ------------------------------------------------------------------ *)

(** C10.  On a square grid of [n > 0] columns and rows, the placement of
    [GridTranslocatedOrigin] (row [cellNumber / rows]) is the
    conventional row-major placement (row [cellNumber / columns]) for
    every cell number: both are defined and give the cell of row
    [cellNumber / n] and column [cellNumber % n]. *)
Theorem square_grid_is_row_major :
  forall O cellWidth cellHeight gridlineWidth n cellNumber,
    0 < n -> Int.min_int <= cellNumber <= Int.max_int ->
    Position.GridTranslocatedOrigin O cellWidth cellHeight gridlineWidth
      n n cellNumber
    = Position.GridTranslocatedOrigin_row_major O cellWidth cellHeight
        gridlineWidth n n cellNumber
    /\ Position.GridTranslocatedOrigin_row_major O cellWidth cellHeight
         gridlineWidth n n cellNumber
       = Some (mkVec2
                 (vx O + gridlineWidth
                  + F32.of_int (Z.rem cellNumber n)
                    * (cellWidth + gridlineWidth))%f32
                 (vy O + gridlineWidth
                  + F32.of_int (Z.quot cellNumber n)
                    * (cellHeight + gridlineWidth))%f32).
Proof.
  intros O cw ch gl n cell Hn Hcell. split; [reflexivity|].
  unfold Position.GridTranslocatedOrigin_row_major.
  rewrite int_div_defined, int_rem_defined by (assumption || lia).
  reflexivity.
Qed.

Lemma square_grid_is_row_major_witness :
  Position.GridTranslocatedOrigin (mkVec2 F32.zero F32.zero) (F32.of_int 10)
    (F32.of_int 10) (F32.of_int 2) 3 3 7
  = Position.GridTranslocatedOrigin_row_major (mkVec2 F32.zero F32.zero)
      (F32.of_int 10) (F32.of_int 10) (F32.of_int 2) 3 3 7
  /\ Position.GridTranslocatedOrigin_row_major (mkVec2 F32.zero F32.zero)
       (F32.of_int 10) (F32.of_int 10) (F32.of_int 2) 3 3 7
     = Some (mkVec2 (F32.of_int 14) (F32.of_int 26)).
Proof.
  destruct (square_grid_is_row_major (mkVec2 F32.zero F32.zero)
              (F32.of_int 10) (F32.of_int 10) (F32.of_int 2) 3 7) as [H1 H2].
  - lia.
  - unfold Int.min_int, Int.max_int; lia.
  - split; [exact H1 | rewrite H2; reflexivity].
Defined.

(** On a grid that is not square the two placements differ: with three
    columns and two rows, cell 4 is put on a third row. *)
Example non_square_grid_differs :
  Position.GridTranslocatedOrigin (mkVec2 F32.zero F32.zero) (F32.of_int 10)
    (F32.of_int 10) (F32.of_int 2) 3 2 4
  = Some (mkVec2 (F32.of_int 14) (F32.of_int 26))
  /\ Position.GridTranslocatedOrigin_row_major (mkVec2 F32.zero F32.zero)
       (F32.of_int 10) (F32.of_int 10) (F32.of_int 2) 3 2 4
     = Some (mkVec2 (F32.of_int 14) (F32.of_int 14)).
Proof. split; reflexivity. Qed.

(* ------------------------------------------------------------------ *)

(** C4.  With [A_in = I.x / I.y] and [A_out = F.x / F.y], [FrameWithin]
    returns [(F.x - 2p, (F.x - 2p) / A_in)] when [A_in > A_out] and
    [((F.y - 2p) * A_in, F.y - 2p)] otherwise.  For the outer frame
    (200,100), the inner frame (16,9) and no padding the comparison
    fails, so the height is fitted: [y = 100] and [x = 100 * (16/9)],
    which lies between 177.7 and 177.8. *)
Theorem FrameWithin_fit :
  (forall F I p,
      F32.gtb (vx I / vy I)%f32 (vx F / vy F)%f32 = true ->
      Position.FrameWithin F I p
      = mkVec2 (vx F - F32.of_int 2 * p)%f32
               ((vx F - F32.of_int 2 * p) / (vx I / vy I))%f32)
  /\ (forall F I p,
         F32.gtb (vx I / vy I)%f32 (vx F / vy F)%f32 = false ->
         Position.FrameWithin F I p
         = mkVec2 ((vy F - F32.of_int 2 * p) * (vx I / vy I))%f32
                  (vy F - F32.of_int 2 * p)%f32)
  /\ F32.gtb (F32.of_int 16 / F32.of_int 9)%f32
             (F32.of_int 200 / F32.of_int 100)%f32 = false
  /\ Position.FrameWithin (mkVec2 (F32.of_int 200) (F32.of_int 100))
       (mkVec2 (F32.of_int 16) (F32.of_int 9)) F32.zero
     = mkVec2 (F32.of_int 100 * (F32.of_int 16 / F32.of_int 9))%f32
              (F32.of_int 100)
  /\ (1777 # 10 < F32.to_Q (F32.of_int 100 * (F32.of_int 16 / F32.of_int 9))%f32
      < 1778 # 10)%Q.
Proof.
  split; [| split; [| split; [| split]]].
  - intros F I p H. unfold Position.FrameWithin. rewrite H. reflexivity.
  - intros F I p H. unfold Position.FrameWithin. rewrite H. reflexivity.
  - reflexivity.
  - reflexivity.
  - split; reflexivity.
Qed.

Lemma FrameWithin_fit_witness :
  Position.FrameWithin (mkVec2 (F32.of_int 100) (F32.of_int 100))
    (mkVec2 (F32.of_int 16) (F32.of_int 8)) F32.one
  = mkVec2 (F32.of_int 98) (F32.of_int 49)
  /\ Position.FrameWithin (mkVec2 (F32.of_int 200) (F32.of_int 100))
       (mkVec2 (F32.of_int 16) (F32.of_int 16)) F32.one
     = mkVec2 (F32.of_int 98) (F32.of_int 98).
Proof.
  split.
  - rewrite (proj1 FrameWithin_fit) by reflexivity. reflexivity.
  - rewrite (proj1 (proj2 FrameWithin_fit)) by reflexivity. reflexivity.
Defined.

(* ------------------------------------------------------------------ *)

(** C5.  [LeftAlign] returns [(O.x, O.y - h*l - S.y)], [RightAlign]
    returns [O + (w, l*h) - S] component-wise and [CenterAlign] returns
    [(O.x + (w - S.x)/2, O.y + l*h)]: the left alignment subtracts the
    line offset from the origin, the other two add it. *)
Theorem document_alignment :
  forall O documentWidth lineHeight line S,
    Position.LeftAlign O lineHeight line S
    = mkVec2 (vx O) (vy O - lineHeight * F32.of_int line - vy S)%f32
    /\ Position.RightAlign O documentWidth lineHeight line S
       = mkVec2 (vx O + documentWidth - vx S)%f32
                (vy O + F32.of_int line * lineHeight - vy S)%f32
    /\ Position.CenterAlign O documentWidth lineHeight line S
       = mkVec2 (vx O + (documentWidth - vx S) / F32.of_int 2)%f32
                (vy O + F32.of_int line * lineHeight)%f32.
Proof.
  intros O w h l S. repeat split.
  unfold Position.LeftAlign, vsub. cbn [vx vy].
  rewrite !sub_zero. reflexivity.
Qed.

(* ------------------------------------------------------------------ *)

Lemma mul_then_div a k :
  F32.valid k = true -> F32.is_finite k = true -> ~ (F32.to_Q k == 0)%Q ->
  product_exact a k ->
  F32.eqb (a * k / k)%f32 a = true.
Proof.
  intros Vk Fk Hk (Va & Fa & R).
  pose proof (exact_of_float a Va Fa) as Ha.
  pose proof (exact_of_float k Vk Fk) as Hkk.
  pose proof (mul_exact _ _ _ _ Ha Hkk R) as Hp.
  assert (E : (F32.to_Q a * F32.to_Q k / F32.to_Q k == F32.to_Q a)%Q)
    by (apply Qdiv_mult_l; exact Hk).
  assert (Rq : F32.representable (F32.to_Q a * F32.to_Q k / F32.to_Q k)).
  { exists a. apply exact_morph with (F32.to_Q a); [symmetry; exact E | exact Ha]. }
  pose proof (div_exact _ _ _ _ Hp Hkk Hk Rq) as Hd.
  apply exact_eqb with (F32.to_Q a); [| exact Ha].
  apply exact_morph with (F32.to_Q a * F32.to_Q k / F32.to_Q k)%Q; assumption.
Qed.

(** C8 (as amended).  For a vector [v] with finite components and a
    finite scalar [k <> 0], if neither product [v.x * k] nor [v.y * k] is
    rounded (each is a single-precision number), then
    [(v * k) / k == v]. *)
Theorem scale_then_divide :
  forall v k,
    F32.valid k = true -> F32.is_finite k = true -> ~ (F32.to_Q k == 0)%Q ->
    product_exact (vx v) k -> product_exact (vy v) k ->
    veqb (vdiv (vscale v k) k) v = true.
Proof.
  intros v k Vk Fk Hk Hx Hy. unfold veqb, vdiv, vscale. cbn [vx vy].
  apply andb_true_iff. split; apply mul_then_div; assumption.
Qed.

Lemma scale_then_divide_witness :
  veqb (vdiv (vscale (mkVec2 (F32.of_int 100) (F32.of_int 50)) (F32.of_int 3))
             (F32.of_int 3))
       (mkVec2 (F32.of_int 100) (F32.of_int 50)) = true.
Proof.
  apply scale_then_divide.
  - reflexivity.
  - reflexivity.
  - discriminate.
  - repeat split. exists (F32.of_int 300). repeat split.
  - repeat split. exists (F32.of_int 150). repeat split.
Defined.

Lemma scale_then_divide_not_identity :
  vdiv (vscale huge (F32.of_int 2)) (F32.of_int 2)
  = mkVec2 (S754_infinity false) F32.one
  /\ veqb (vdiv (vscale huge (F32.of_int 2)) (F32.of_int 2)) huge = false
  /\ nine_tenths = S754_finite false 15099494 (-24)
  /\ (nine_tenths * F32.of_int 3 / F32.of_int 3)%f32
     = S754_finite false 15099493 (-24)
  /\ veqb (vdiv (vscale (mkVec2 nine_tenths nine_tenths) (F32.of_int 3))
                (F32.of_int 3))
          (mkVec2 nine_tenths nine_tenths) = false.
Proof. repeat split. Qed.

(* ------------------------------------------------------------------ *)

Lemma center_axis o t s :
  centering_exact o t s ->
  F32.eqb (o + (t - s) / F32.of_int 2 + s / F32.of_int 2)%f32
          (o + t / F32.of_int 2)%f32 = true.
Proof.
  intros ((Vo & Fo) & (Vt & Ft) & (Vs & Fs) & R1 & R2 & R3 & R4 & R5 & R6).
  pose proof (exact_of_float o Vo Fo) as Ho.
  pose proof (exact_of_float t Vt Ft) as Ht.
  pose proof (exact_of_float s Vs Fs) as Hs.
  assert (H2 : ~ (2 == 0)%Q) by discriminate.
  pose proof (sub_exact _ _ _ _ Ht Hs R1) as A1.
  pose proof (div_exact _ _ _ _ A1 exact_2 H2 R2) as A2.
  pose proof (add_exact _ _ _ _ Ho A2 R3) as A3.
  pose proof (div_exact _ _ _ _ Hs exact_2 H2 R4) as A4.
  pose proof (div_exact _ _ _ _ Ht exact_2 H2 R5) as A5.
  pose proof (add_exact _ _ _ _ Ho A5 R6) as A6.
  assert (E : (F32.to_Q o + (F32.to_Q t - F32.to_Q s) / 2 + F32.to_Q s / 2
               == F32.to_Q o + F32.to_Q t / 2)%Q) by field.
  assert (R7 : F32.representable
                 (F32.to_Q o + (F32.to_Q t - F32.to_Q s) / 2 + F32.to_Q s / 2)).
  { destruct R6 as [r Hr]. exists r.
    apply exact_morph with (F32.to_Q o + F32.to_Q t / 2)%Q;
      [symmetry; exact E | exact Hr]. }
  pose proof (add_exact _ _ _ _ A3 A4 R7) as A7.
  apply exact_eqb with (F32.to_Q o + F32.to_Q t / 2)%Q; [| exact A6].
  apply exact_morph with
    (F32.to_Q o + (F32.to_Q t - F32.to_Q s) / 2 + F32.to_Q s / 2)%Q; assumption.
Qed.

(** When no operation is rounded the two sides of the centering identity
    are equal. *)
Lemma Center2D_centered_exactly :
  forall O T S,
    centering_exact (vx O) (vx T) (vx S) ->
    centering_exact (vy O) (vy T) (vy S) ->
    veqb (Position.Center2D O T S + vdiv S (F32.of_int 2))%vec
         (O + vdiv T (F32.of_int 2))%vec = true.
Proof.
  intros O T S Hx Hy. unfold veqb, Position.Center2D, vadd, vdiv. cbn [vx vy].
  apply andb_true_iff. split; apply center_axis; assumption.
Qed.

(** Rounding does occur, also at integer coordinates: centering a width
    of 1 on a width of 3 at [2^24] gives [2^24] on the left and
    [2^24 + 2] on the right. *)
Example Center2D_rounds :
  (Position.Center2D distant_origin small_target small_object
   + vdiv small_object (F32.of_int 2))%vec
  = mkVec2 (F32.of_int 16777216) (F32.of_int 60)
  /\ (distant_origin + vdiv small_target (F32.of_int 2))%vec
     = mkVec2 (F32.of_int 16777218) (F32.of_int 60)
  /\ veqb (Position.Center2D distant_origin small_target small_object
           + vdiv small_object (F32.of_int 2))%vec
          (distant_origin + vdiv small_target (F32.of_int 2))%vec = false.
Proof. repeat split. Qed.

(** **** The accumulated rounding error *)

(** A relative error turned into an interval, given a bound on the
    magnitude. *)
Lemma relative_bound f v b :
  (Qabs (f - v) <= unit_roundoff * Qabs v)%Q -> (Qabs v <= b)%Q ->
  (- ((1 # 16777216) * b) <= f - v <= (1 # 16777216) * b)%Q.
Proof.
  intros H Hb. apply Qabs_Qle_condition.
  apply Qle_trans with (1 := H). unfold unit_roundoff.
  apply Qmult_le_l; [reflexivity | exact Hb].
Qed.

(** The seven roundings of the two sides: [qd], [qh], [qc], [qg] and [ql]
    are the results of [T - S], [(T - S)/2], [O + (T - S)/2], [S/2] and of
    the left side; [qk] and [qr] those of [T/2] and of the right side. *)
Lemma centering_error qo qt qs qd qh qc qg ql qk qr eta :
  (0 <= eta)%Q ->
  (Qabs (qd - (qt - qs)) <= unit_roundoff * Qabs (qt - qs))%Q ->
  (Qabs (qh - qd * (1 # 2)) <= eta)%Q ->
  (Qabs (qc - (qo + qh)) <= unit_roundoff * Qabs (qo + qh))%Q ->
  (Qabs (qg - qs * (1 # 2)) <= eta)%Q ->
  (Qabs (ql - (qc + qg)) <= unit_roundoff * Qabs (qc + qg))%Q ->
  (Qabs (qk - qt * (1 # 2)) <= eta)%Q ->
  (Qabs (qr - (qo + qk)) <= unit_roundoff * Qabs (qo + qk))%Q ->
  (Qabs (ql - qr) <= (1 # 4194304) * (Qabs qo + Qabs qt + Qabs qs) + 4 * eta)%Q.
Proof.
  intros Heta E1 E2 E3 E4 E5 E6 E7.
  pose proof (Qabs_nonneg qo) as No. pose proof (Qabs_nonneg qt) as Nt.
  pose proof (Qabs_nonneg qs) as Ns.
  assert (Ao : (- Qabs qo <= qo <= Qabs qo)%Q) by (apply Qabs_Qle_condition, Qle_refl).
  assert (At : (- Qabs qt <= qt <= Qabs qt)%Q) by (apply Qabs_Qle_condition, Qle_refl).
  assert (As : (- Qabs qs <= qs <= Qabs qs)%Q) by (apply Qabs_Qle_condition, Qle_refl).
  set (A := Qabs qo) in *. set (T := Qabs qt) in *. set (S := Qabs qs) in *.
  apply Qabs_Qle_condition in E2, E4, E6.
  (* magnitude of each exact operand, then the error of its rounding *)
  assert (B1 : (Qabs (qt - qs) <= T + S)%Q) by (apply Qabs_Qle_condition; lra).
  apply relative_bound with (2 := B1) in E1.
  assert (B3 : (Qabs (qo + qh) <= A + (3 # 4) * (T + S) + eta)%Q)
    by (apply Qabs_Qle_condition; lra).
  apply relative_bound with (2 := B3) in E3.
  assert (B5 : (Qabs (qc + qg) <= (5 # 4) * A + (4 # 5) * (T + S) + (1 # 2) * S + 3 * eta)%Q)
    by (apply Qabs_Qle_condition; lra).
  apply relative_bound with (2 := B5) in E5.
  assert (B7 : (Qabs (qo + qk) <= A + (1 # 2) * T + eta)%Q)
    by (apply Qabs_Qle_condition; lra).
  apply relative_bound with (2 := B7) in E7.
  apply Qabs_Qle_condition. lra.
Qed.

Lemma half_as_factor a b eta :
  (Qabs (a - b / 2) <= eta)%Q -> (Qabs (a - b * (1 # 2)) <= eta)%Q.
Proof.
  intros H. setoid_replace (b * (1 # 2))%Q with (b / 2)%Q; [exact H|].
  unfold Qdiv. change (/ 2)%Q with (1 # 2)%Q. reflexivity.
Qed.

(** Along one axis the two sides differ by at most the tolerance. *)
Lemma center_axis_error o t s :
  F32.valid o = true -> F32.is_finite o = true ->
  F32.valid t = true -> F32.is_finite t = true ->
  F32.valid s = true -> F32.is_finite s = true ->
  F32.is_finite ((o + (t - s) / F32.of_int 2) + s / F32.of_int 2)%f32 = true ->
  F32.is_finite (o + t / F32.of_int 2)%f32 = true ->
  close ((o + (t - s) / F32.of_int 2) + s / F32.of_int 2)%f32
        (o + t / F32.of_int 2)%f32 (tolerance o t s).
Proof.
  intros Vo Fo Vt Ft Vs Fs Fl Fr.
  destruct (add_finite _ _ Fl) as [Fc Fg].
  destruct (add_finite _ _ Fc) as [_ Fh].
  pose proof (div_finite _ (F32.of_int 2) eq_refl Fh) as Fd.
  destruct (sub_error t s Vt Ft Vs Fs Fd) as [Vd E1].
  destruct (half_error _ Vd Fd) as (Vh & _ & E2).
  destruct (add_error o _ Vo Fo Vh Fh Fc) as [Vc E3].
  destruct (half_error s Vs Fs) as (Vg & _ & E4).
  destruct (add_error _ _ Vc Fc Vg Fg Fl) as [_ E5].
  destruct (half_error t Vt Ft) as (Vk & Fk & E6).
  destruct (add_error o _ Vo Fo Vk Fk Fr) as [_ E7].
  unfold close, tolerance.
  setoid_replace (2 ^ (-148))%Q with (4 * 2 ^ (-150))%Q by reflexivity.
  apply half_as_factor in E2, E4, E6.
  eapply centering_error; [| exact E1 | exact E2 | exact E3 | exact E4 | exact E5
                           | exact E6 | exact E7].
  apply Qlt_le_weak, pow2_pos.
Qed.

(** C7 (as amended).  For every origin [O], target size [T] and object
    size [S] with finite components, if neither [Center2D(O,T,S) + S/2]
    nor [O + T/2] overflows, the object placed by [Center2D] has its
    center at the target's center up to rounding: on each axis the two
    sides differ by at most [2^-22 * (|O| + |T| + |S|) + 2^-148]. *)
Theorem Center2D_centered :
  forall O T S,
    finite_vec O -> finite_vec T -> finite_vec S ->
    no_overflow (Position.Center2D O T S + vdiv S (F32.of_int 2))%vec ->
    no_overflow (O + vdiv T (F32.of_int 2))%vec ->
    close (vx (Position.Center2D O T S + vdiv S (F32.of_int 2))%vec)
          (vx (O + vdiv T (F32.of_int 2))%vec)
          (tolerance (vx O) (vx T) (vx S))
    /\ close (vy (Position.Center2D O T S + vdiv S (F32.of_int 2))%vec)
             (vy (O + vdiv T (F32.of_int 2))%vec)
             (tolerance (vy O) (vy T) (vy S)).
Proof.
  intros O T S [[Vox Fox] [Voy Foy]] [[Vtx Ftx] [Vty Fty]] [[Vsx Fsx] [Vsy Fsy]]
    [Flx Fly] [Frx Fry].
  unfold Position.Center2D, vadd, vdiv in *. cbn [vx vy] in *.
  split; apply center_axis_error; assumption.
Qed.

Lemma Center2D_centered_witness :
  close (vx (Position.Center2D distant_origin small_target small_object
             + vdiv small_object (F32.of_int 2))%vec)
        (vx (distant_origin + vdiv small_target (F32.of_int 2))%vec)
        (tolerance (vx distant_origin) (vx small_target) (vx small_object))
  /\ close (vy (Position.Center2D distant_origin small_target small_object
                + vdiv small_object (F32.of_int 2))%vec)
           (vy (distant_origin + vdiv small_target (F32.of_int 2))%vec)
           (tolerance (vy distant_origin) (vy small_target) (vy small_object)).
Proof.
  apply (Center2D_centered distant_origin small_target small_object);
    repeat split.
Defined.

(** Without the bound on the magnitudes the sides can be arbitrarily
    far apart: an overflow on the left only. *)
Lemma Center2D_overflows :
  (Position.Center2D far_left empty_target wide_object
   + vdiv wide_object (F32.of_int 2))%vec
  = mkVec2 (S754_infinity true) F32.zero
  /\ (far_left + vdiv empty_target (F32.of_int 2))%vec = far_left
  /\ F32.is_finite (vx far_left) = true
  /\ F32.is_finite (vx wide_object) = true
  /\ veqb (Position.Center2D far_left empty_target wide_object
           + vdiv wide_object (F32.of_int 2))%vec
          (far_left + vdiv empty_target (F32.of_int 2))%vec = false.
Proof. repeat split. Qed.

(* ------------------------------------------------------------------ *)

(** *** Integer pixel coordinates

    For coordinates that are integers of moderate size no operation of
    the three identities is rounded. *)

Lemma shift_exact_pixels o : Z.abs o <= 2 ^ 23 -> shift_exact (F32.of_int o).
Proof.
  intros Ho. assert (Hp : 2 ^ 23 = 8388608) by reflexivity.
  assert (Hq : 2 ^ 24 = 16777216) by reflexivity.
  destruct (of_int_exact o ltac:(lia)) as (V & F & E).
  repeat split; try assumption.
  - apply representable_morph with (inject_Z (o + 2));
      [rewrite E, inject_Z_plus; reflexivity | apply representable_int; lia].
  - apply representable_morph with (inject_Z (o + 14));
      [rewrite E, inject_Z_plus; reflexivity | apply representable_int; lia].
Qed.

Lemma product_exact_small a k :
  Z.abs a < 2 ^ 12 -> Z.abs k < 2 ^ 12 ->
  product_exact (F32.of_int a) (F32.of_int k).
Proof.
  intros Ha Hk. assert (Hp : 2 ^ 12 = 4096) by reflexivity.
  assert (Hq : 2 ^ 24 = 16777216) by reflexivity.
  destruct (of_int_exact a ltac:(lia)) as (V & F & E).
  pose proof (of_int_value k ltac:(lia)) as Ek.
  repeat split; try assumption.
  apply representable_morph with (inject_Z (a * k));
    [rewrite E, Ek, inject_Z_mult; reflexivity |].
  apply representable_int. nia.
Qed.

Lemma centering_exact_pixels o t s :
  Z.abs o <= 2 ^ 21 -> Z.abs t <= 2 ^ 21 -> Z.abs s <= 2 ^ 21 ->
  centering_exact (F32.of_int o) (F32.of_int t) (F32.of_int s).
Proof.
  intros Ho Ht Hs. assert (Hp : 2 ^ 21 = 2097152) by reflexivity.
  assert (Hq : 2 ^ 24 = 16777216) by reflexivity.
  destruct (of_int_exact o ltac:(lia)) as (Vo & Fo & Eo).
  destruct (of_int_exact t ltac:(lia)) as (Vt & Ft & Et).
  destruct (of_int_exact s ltac:(lia)) as (Vs & Fs & Es).
  unfold centering_exact. rewrite Vo, Fo, Vt, Ft, Vs, Fs.
  repeat split.
  - apply representable_morph with (inject_Z (t - s));
      [| apply representable_int; lia].
    rewrite Et, Es. unfold Z.sub. rewrite inject_Z_plus, inject_Z_opp. ring.
  - apply representable_morph with (inject_Z (t - s) / 2)%Q;
      [| apply representable_half; lia].
    rewrite Et, Es. unfold Z.sub. rewrite inject_Z_plus, inject_Z_opp. field.
  - apply representable_morph with (inject_Z (2 * o + (t - s)) / 2)%Q;
      [| apply representable_half; lia].
    rewrite Eo, Et, Es. unfold Z.sub.
    rewrite !inject_Z_plus, inject_Z_mult, inject_Z_opp. field.
  - apply representable_morph with (inject_Z s / 2)%Q;
      [| apply representable_half; lia].
    rewrite Es. reflexivity.
  - apply representable_morph with (inject_Z t / 2)%Q;
      [| apply representable_half; lia].
    rewrite Et. reflexivity.
  - apply representable_morph with (inject_Z (2 * o + t) / 2)%Q;
      [| apply representable_half; lia].
    rewrite Eo, Et. rewrite inject_Z_plus, inject_Z_mult. field.
Qed.

(** For integer pixel coordinates of magnitude up to [2^23] the grid
    example is [O + (14,14)]. *)
Corollary grid_example_pixels ox oy :
  Z.abs ox <= 2 ^ 23 -> Z.abs oy <= 2 ^ 23 ->
  exists v,
    grid_example (mkVec2 (F32.of_int ox) (F32.of_int oy)) = Some v
    /\ veqb v (mkVec2 (F32.of_int ox) (F32.of_int oy)
               + mkVec2 (F32.of_int 14) (F32.of_int 14))%vec = true.
Proof.
  intros Hx Hy.
  destruct (shift_exact_pixels ox Hx) as (Vx & Fx & Rx2 & Rx14).
  destruct (shift_exact_pixels oy Hy) as (Vy & Fy & Ry2 & Ry14).
  eexists. split; [reflexivity|]. unfold veqb. cbn [vx vy vadd].
  apply andb_true_iff. split; apply add_2_12; assumption.
Qed.

(** Integer components and scale factors below [2^12] in magnitude are
    recovered exactly. *)
Corollary scale_then_divide_small a b k :
  Z.abs a < 2 ^ 12 -> Z.abs b < 2 ^ 12 -> Z.abs k < 2 ^ 12 -> k <> 0 ->
  veqb (vdiv (vscale (mkVec2 (F32.of_int a) (F32.of_int b)) (F32.of_int k))
             (F32.of_int k))
       (mkVec2 (F32.of_int a) (F32.of_int b)) = true.
Proof.
  intros Ha Hb Hk Hk0. assert (Hp : 2 ^ 12 = 4096) by reflexivity.
  assert (Hq : 2 ^ 24 = 16777216) by reflexivity.
  destruct (of_int_exact k ltac:(lia)) as (Vk & Fk & Ek).
  assert (Hnz : ~ (F32.to_Q (F32.of_int k) == 0)%Q).
  { rewrite Ek. intros H. apply (inject_Z_injective k 0) in H. contradiction. }
  unfold veqb, vdiv, vscale. cbn [vx vy]. apply andb_true_iff.
  split; apply mul_then_div; try assumption; apply product_exact_small; assumption.
Qed.

(** For integer pixel coordinates and sizes of magnitude up to [2^21] the
    centred object has its centre exactly at the centre of the target. *)
Corollary Center2D_centered_pixels ox oy tx ty sx sy :
  Z.abs ox <= 2 ^ 21 -> Z.abs oy <= 2 ^ 21 ->
  Z.abs tx <= 2 ^ 21 -> Z.abs ty <= 2 ^ 21 ->
  Z.abs sx <= 2 ^ 21 -> Z.abs sy <= 2 ^ 21 ->
  veqb (Position.Center2D (mkVec2 (F32.of_int ox) (F32.of_int oy))
          (mkVec2 (F32.of_int tx) (F32.of_int ty))
          (mkVec2 (F32.of_int sx) (F32.of_int sy))
        + vdiv (mkVec2 (F32.of_int sx) (F32.of_int sy)) (F32.of_int 2))%vec
       (mkVec2 (F32.of_int ox) (F32.of_int oy)
        + vdiv (mkVec2 (F32.of_int tx) (F32.of_int ty)) (F32.of_int 2))%vec
  = true.
Proof.
  intros Hox Hoy Htx Hty Hsx Hsy.
  unfold veqb, Position.Center2D, vadd, vdiv. cbn [vx vy].
  apply andb_true_iff.
  split; apply center_axis; apply centering_exact_pixels; assumption.
Qed.

(* ================================================================== *)
(** ** The scalable window *)

Section UpdateScale.
Variable host : Host.

(** The four paths through [updateScale]. *)
Lemma updateScale_unchanged w :
  width_differs host w = false -> height_differs host w = false ->
  updateScale host w = ([GetMainViewport], w, Returns tt).
Proof.
  unfold width_differs, height_differs. intros Hw Hh.
  unfold updateScale, seq, emit, read, assign, ret. cbn.
  rewrite Hw. cbn. rewrite Hh. reflexivity.
Qed.

Lemma updateScale_width_only w :
  width_differs host w = true -> height_differs host w = false ->
  let sx := (vx (WorkSize host) / DEFAULT_VIEWPORT_WIDTH)%f32 in
  updateScale host w =
  ([GetMainViewport; Assign m_scaleX; Assign m_previousViewportWidth;
    Assign m_scaleAvg; Assign m_dimensions; Assign m_position],
   mkWindow (title w) (designedWidth w) (designedHeight w)
     (designedPositionX w) (designedPositionY w) (width w) (height w)
     (mkVec2 (designedWidth w * sx)%f32 (designedHeight w * scaleY w)%f32)
     (mkVec2 (designedPositionX w * sx)%f32
             (designedPositionY w * scaleY w)%f32)
     sx (scaleY w) ((sx + scaleY w) * F32.half)%f32
     (vx (WorkSize host)) (previousViewportHeight w) (currentTime w)
     (hasBackground w) (backgroundColor w) (flags w),
   Returns tt).
Proof.
  unfold width_differs, height_differs. intros Hw Hh.
  unfold updateScale, seq, emit, read, assign, ret. cbn.
  rewrite Hw. cbn. rewrite Hh. reflexivity.
Qed.

Lemma updateScale_height_only w :
  width_differs host w = false -> height_differs host w = true ->
  let sy := (vy (WorkSize host) / DEFAULT_VIEWPORT_HEIGHT)%f32 in
  updateScale host w =
  ([GetMainViewport; Assign m_scaleY; Assign m_previousViewportHeight;
    Assign m_scaleAvg; Assign m_dimensions; Assign m_position],
   mkWindow (title w) (designedWidth w) (designedHeight w)
     (designedPositionX w) (designedPositionY w) (width w) (height w)
     (mkVec2 (designedWidth w * scaleX w)%f32 (designedHeight w * sy)%f32)
     (mkVec2 (designedPositionX w * scaleX w)%f32
             (designedPositionY w * sy)%f32)
     (scaleX w) sy ((scaleX w + sy) * F32.half)%f32
     (previousViewportWidth w) (vy (WorkSize host)) (currentTime w)
     (hasBackground w) (backgroundColor w) (flags w),
   Returns tt).
Proof.
  unfold width_differs, height_differs. intros Hw Hh.
  unfold updateScale, seq, emit, read, assign, ret. cbn.
  rewrite Hw. cbn. rewrite Hh. reflexivity.
Qed.

Lemma updateScale_both w :
  width_differs host w = true -> height_differs host w = true ->
  let sx := (vx (WorkSize host) / DEFAULT_VIEWPORT_WIDTH)%f32 in
  let sy := (vy (WorkSize host) / DEFAULT_VIEWPORT_HEIGHT)%f32 in
  updateScale host w =
  ([GetMainViewport; Assign m_scaleX; Assign m_previousViewportWidth;
    Assign m_scaleY; Assign m_previousViewportHeight;
    Assign m_scaleAvg; Assign m_dimensions; Assign m_position],
   mkWindow (title w) (designedWidth w) (designedHeight w)
     (designedPositionX w) (designedPositionY w) (width w) (height w)
     (mkVec2 (designedWidth w * sx)%f32 (designedHeight w * sy)%f32)
     (mkVec2 (designedPositionX w * sx)%f32 (designedPositionY w * sy)%f32)
     sx sy ((sx + sy) * F32.half)%f32
     (vx (WorkSize host)) (vy (WorkSize host)) (currentTime w)
     (hasBackground w) (backgroundColor w) (flags w),
   Returns tt).
Proof.
  unfold width_differs, height_differs. intros Hw Hh.
  unfold updateScale, seq, emit, read, assign, ret. cbn.
  rewrite Hw. cbn. rewrite Hh. reflexivity.
Qed.

End UpdateScale.

(** [==] on floats: two zeros of any sign, or the same number. *)
Lemma eqb_true_cases a b :
  F32.eqb a b = true ->
  (exists s s', a = S754_zero s /\ b = S754_zero s') \/ a = b.
Proof.
  unfold F32.eqb, SFeqb, SFcompare.
  destruct a as [sa | sa | | sa ma ea], b as [sb | sb | | sb mb eb];
    try discriminate;
    try solve [intros _; left; eauto
              | destruct sa; discriminate
              | destruct sb; discriminate
              | destruct sa, sb; try discriminate; intros _; right; reflexivity].
  change (Pos.compare_cont Eq ma mb) with (Pos.compare ma mb).
  destruct sa, sb; try discriminate;
    destruct (Z.compare_spec ea eb); try discriminate;
    destruct (Pos.compare_spec ma mb); try discriminate;
    intros _; right; subst; reflexivity.
Qed.

Lemma eqb_trans a b c :
  F32.eqb a b = true -> F32.eqb b c = true -> F32.eqb a c = true.
Proof.
  intros Hab Hbc.
  destruct (eqb_true_cases a b Hab) as [(s & s' & -> & ->) | ->];
    [| exact Hbc].
  destruct (eqb_true_cases _ c Hbc) as [(t & t' & _ & ->) | <-]; reflexivity.
Qed.

Lemma neb_false a b : F32.neb a b = false <-> F32.eqb a b = true.
Proof.
  unfold F32.neb, F32.eqb. destruct (SFeqb a b); cbn; split; congruence.
Qed.

(** A second observation that equals the first finds nothing changed. *)
Lemma updateScale_same_again host host' w :
  F32.eqb (vx (WorkSize host')) (vx (WorkSize host)) = true ->
  F32.eqb (vy (WorkSize host')) (vy (WorkSize host)) = true ->
  updateScale host' (final (updateScale host w))
  = ([GetMainViewport], final (updateScale host w), Returns tt).
Proof.
  intros Ex Ey. apply updateScale_unchanged.
  - unfold width_differs. apply neb_false.
    destruct (width_differs host w) eqn:Hw, (height_differs host w) eqn:Hh.
    + rewrite (updateScale_both host w Hw Hh). exact Ex.
    + rewrite (updateScale_width_only host w Hw Hh). exact Ex.
    + rewrite (updateScale_height_only host w Hw Hh).
      apply eqb_trans with (vx (WorkSize host)); [exact Ex|].
      apply neb_false. exact Hw.
    + rewrite (updateScale_unchanged host w Hw Hh).
      apply eqb_trans with (vx (WorkSize host)); [exact Ex|].
      apply neb_false. exact Hw.
  - unfold height_differs. apply neb_false.
    destruct (width_differs host w) eqn:Hw, (height_differs host w) eqn:Hh.
    + rewrite (updateScale_both host w Hw Hh). exact Ey.
    + rewrite (updateScale_width_only host w Hw Hh).
      apply eqb_trans with (vy (WorkSize host)); [exact Ey|].
      apply neb_false. exact Hh.
    + rewrite (updateScale_height_only host w Hw Hh). exact Ey.
    + rewrite (updateScale_unchanged host w Hw Hh).
      apply eqb_trans with (vy (WorkSize host)); [exact Ey|].
      apply neb_false. exact Hh.
Qed.

(** C2.  [updateScale] assigns [scaleX] if and only if the observed
    width differs from [previousViewportWidth], and [scaleY] if and only
    if the observed height differs from [previousViewportHeight], each
    axis on its own: an axis that differs gets the ratio of the observed
    size to the reference size, an axis that does not keeps its scale.
    When neither differs the whole window is left unchanged and nothing
    is assigned; a second observation of a size identical to the first
    ([==] on both axes) therefore recomputes nothing. *)
Theorem updateScale_memoizes :
  forall host w,
    (recomputed m_scaleX (updateScale host w) <-> width_differs host w = true)
    /\ (recomputed m_scaleY (updateScale host w)
        <-> height_differs host w = true)
    /\ (width_differs host w = true ->
        scaleX (final (updateScale host w))
        = (vx (WorkSize host) / DEFAULT_VIEWPORT_WIDTH)%f32)
    /\ (width_differs host w = false ->
        scaleX (final (updateScale host w)) = scaleX w)
    /\ (height_differs host w = true ->
        scaleY (final (updateScale host w))
        = (vy (WorkSize host) / DEFAULT_VIEWPORT_HEIGHT)%f32)
    /\ (height_differs host w = false ->
        scaleY (final (updateScale host w)) = scaleY w)
    /\ (width_differs host w = false -> height_differs host w = false ->
        updateScale host w = ([GetMainViewport], w, Returns tt))
    /\ (forall host',
          F32.eqb (vx (WorkSize host')) (vx (WorkSize host)) = true ->
          F32.eqb (vy (WorkSize host')) (vy (WorkSize host)) = true ->
          updateScale host' (final (updateScale host w))
          = ([GetMainViewport], final (updateScale host w), Returns tt)).
Proof.
  intros host w.
  assert (Hagain := fun host' => updateScale_same_again host host' w).
  revert Hagain. unfold recomputed.
  destruct (width_differs host w) eqn:Hw, (height_differs host w) eqn:Hh;
    intros Hagain.
  - rewrite (updateScale_both host w Hw Hh) in *.
    cbn [final trace fst snd scaleX scaleY In].
    repeat split; try tauto; try discriminate; try exact Hagain.
  - rewrite (updateScale_width_only host w Hw Hh) in *.
    cbn [final trace fst snd scaleX scaleY In].
    repeat split; try tauto; try discriminate; try exact Hagain.
    intros H. repeat (destruct H as [H | H]; try discriminate). contradiction.
  - rewrite (updateScale_height_only host w Hw Hh) in *.
    cbn [final trace fst snd scaleX scaleY In].
    repeat split; try tauto; try discriminate; try exact Hagain.
    intros H. repeat (destruct H as [H | H]; try discriminate). contradiction.
  - rewrite (updateScale_unchanged host w Hw Hh) in *.
    cbn [final trace fst snd scaleX scaleY In].
    repeat split; try tauto; try discriminate; try exact Hagain.
    + intros H. repeat (destruct H as [H | H]; try discriminate). contradiction.
    + intros H. repeat (destruct H as [H | H]; try discriminate). contradiction.
Qed.

Lemma updateScale_memoizes_witness :
  recomputed m_scaleX (updateScale half_size_host example_window)
  /\ scaleX (final (updateScale half_size_host example_window)) = F32.half
  /\ updateScale half_size_host
       (final (updateScale half_size_host example_window))
     = ([GetMainViewport], final (updateScale half_size_host example_window),
        Returns tt)
  /\ updateScale
       (mkHost (mkVec2 DEFAULT_VIEWPORT_WIDTH DEFAULT_VIEWPORT_HEIGHT) F32.zero)
       example_window
     = ([GetMainViewport], example_window, Returns tt).
Proof.
  pose proof (updateScale_memoizes half_size_host example_window)
    as (HX & _ & HsX & _ & _ & _ & _ & Hidem).
  pose proof (updateScale_memoizes
                (mkHost (mkVec2 DEFAULT_VIEWPORT_WIDTH DEFAULT_VIEWPORT_HEIGHT)
                   F32.zero) example_window)
    as (_ & _ & _ & _ & _ & _ & Hsame & _).
  split; [apply HX; reflexivity |].
  split; [rewrite HsX; reflexivity |].
  split; [apply Hidem; reflexivity |].
  apply Hsame; reflexivity.
Defined.

(* ------------------------------------------------------------------ *)

Lemma updateScale_consistent host w :
  geometry_consistent w -> geometry_consistent (final (updateScale host w)).
Proof.
  intros Hc.
  destruct (width_differs host w) eqn:Hw, (height_differs host w) eqn:Hh.
  - rewrite (updateScale_both host w Hw Hh). split; reflexivity.
  - rewrite (updateScale_width_only host w Hw Hh). split; reflexivity.
  - rewrite (updateScale_height_only host w Hw Hh). split; reflexivity.
  - rewrite (updateScale_unchanged host w Hw Hh). exact Hc.
Qed.

Lemma updateScale_altered_consistent host w :
  width_differs host w = true \/ height_differs host w = true ->
  geometry_consistent (final (updateScale host w)).
Proof.
  intros H.
  destruct (width_differs host w) eqn:Hw, (height_differs host w) eqn:Hh.
  - rewrite (updateScale_both host w Hw Hh). split; reflexivity.
  - rewrite (updateScale_width_only host w Hw Hh). split; reflexivity.
  - rewrite (updateScale_height_only host w Hw Hh). split; reflexivity.
  - destruct H; discriminate.
Qed.

Lemma reachable_consistent w : Reachable w -> geometry_consistent w.
Proof.
  induction 1 as [name dW dH pX pY VW VH VX VY | host w _ IH | c w _ IH
                  | v w _ IH | time w _ IH].
  - unfold geometry_consistent, new. cbn.
    rewrite !mul_one by assumption. split; reflexivity.
  - apply updateScale_consistent. exact IH.
  - exact IH.
  - exact IH.
  - exact IH.
Qed.

(** C6.  A window designed at 100 by 100 that observes a viewport of
    1920 by 1080 (reference 3840 by 2160) has scale (0.5, 0.5) and
    dimensions (50, 50).  After every scale update of a window obtained
    from the constructor, and after every update that finds a changed
    axis in any window, [dimensions] is
    [(designedWidth * scaleX, designedHeight * scaleY)] and [position] is
    [(designedPositionX * scaleX, designedPositionY * scaleY)]. *)
Theorem scaled_geometry :
  (forall name posX posY time,
      let w := final (updateScale
                        (mkHost (mkVec2 (F32.of_int 1920) (F32.of_int 1080)) time)
                        (Window.new name (F32.of_int 100) (F32.of_int 100)
                           posX posY)) in
      scaleX w = F32.half /\ scaleY w = F32.half
      /\ dimensions w = mkVec2 (F32.of_int 50) (F32.of_int 50))
  /\ (forall host w, Reachable w ->
         geometry_consistent (final (updateScale host w)))
  /\ (forall host w,
         width_differs host w = true \/ height_differs host w = true ->
         geometry_consistent (final (updateScale host w))).
Proof.
  split; [| split].
  - intros name posX posY time. cbv zeta. repeat split.
  - intros host w Hr. apply updateScale_consistent, reachable_consistent, Hr.
  - intros host w. apply updateScale_altered_consistent.
Qed.

Lemma scaled_geometry_witness :
  geometry_consistent
    (final (updateScale half_size_host
              (final (updateScale half_size_host example_window))))
  /\ geometry_consistent (final (updateScale half_size_host example_window)).
Proof.
  split.
  - apply (proj1 (proj2 scaled_geometry)).
    apply reach_updateScale. apply reach_new; reflexivity.
  - apply (proj2 (proj2 scaled_geometry)). left. reflexivity.
Defined.

(* ------------------------------------------------------------------ *)

Lemma scale_step_returns debug host w :
  completion (scale_step debug host w) = Returns tt.
Proof.
  destruct debug; [| reflexivity]. unfold scale_step.
  destruct (width_differs host w) eqn:Hw, (height_differs host w) eqn:Hh.
  - rewrite (updateScale_both host w Hw Hh). reflexivity.
  - rewrite (updateScale_width_only host w Hw Hh). reflexivity.
  - rewrite (updateScale_height_only host w Hw Hh). reflexivity.
  - rewrite (updateScale_unchanged host w Hw Hh). reflexivity.
Qed.

Lemma buildStart_trace debug host w :
  buildStart debug host w
  = (trace (scale_step debug host w)
     ++ region_open (final (scale_step debug host w)),
     final (scale_step debug host w), Returns tt).
Proof.
  unfold buildStart. fold (scale_step debug host).
  pose proof (scale_step_returns debug host w) as Hc.
  unfold seq at 1.
  destruct (scale_step debug host w) as [[tr w1] c]. cbn in Hc. subst c.
  cbn [trace final fst snd]. unfold region_open.
  unfold seq, read, emit, ret. cbn.
  destruct (hasBackground w1) eqn:Hbg; cbn; rewrite ?Hbg; cbn; reflexivity.
Qed.

(** C3 (as amended).  When [draw()] returns, [render] performs in this
    order: the time stamp, the scale update in a debug build only, the
    opening of the region (with the background colour pushed around
    [Begin] when the background is visible), the calls of [draw()], and
    [End]; the region is then closed exactly once, after the content.
    When [draw()] leaves by an exception, [render] stops there: the
    exception propagates and [End] is not called. *)
Theorem render_order :
  forall debug host (draw : M unit) w,
    let w0 := with_currentTime (Time host) w in
    let w1 := final (scale_step debug host w0) in
    let before := [GetTime; Assign m_currentTime]
                  ++ trace (scale_step debug host w0) ++ region_open w1 in
    (completion (draw w1) = Returns tt ->
     render debug host draw w
     = (before ++ trace (draw w1) ++ [End_], final (draw w1), Returns tt))
    /\ (completion (draw w1) = Throws ->
        render debug host draw w
        = (before ++ trace (draw w1), final (draw w1), Throws)).
Proof.
  intros debug host draw w. cbv zeta.
  unfold render, seq, emit, assign, buildEnd. cbv beta.
  rewrite buildStart_trace.
  destruct (draw (final (scale_step debug host (with_currentTime (Time host) w))))
    as [[trd wd] [[] |]]; cbn [completion trace final fst snd]; split; intros H;
    try discriminate; unfold emit; cbn beta iota zeta;
    rewrite <- ?app_assoc; reflexivity.
Qed.

Lemma render_order_witness :
  trace (render true half_size_host labelled_draw example_window)
  = [GetTime; Assign m_currentTime; GetMainViewport;
     Assign m_scaleX; Assign m_previousViewportWidth;
     Assign m_scaleY; Assign m_previousViewportHeight;
     Assign m_scaleAvg; Assign m_dimensions; Assign m_position;
     PushStyleColor_WindowBg DEFAULT_BG;
     SetNextWindowPos_FirstUseEver (mkVec2 (F32.of_int 20) (F32.of_int 10));
     SetNextWindowSize_FirstUseEver (mkVec2 (F32.of_int 50) (F32.of_int 50));
     Begin "panel" 0; PopStyleColor; Content "label"; End_]
  /\ completion (render true half_size_host failing_draw example_window)
     = Throws.
Proof.
  split.
  - rewrite (proj1 (render_order true half_size_host labelled_draw
                      example_window)) by reflexivity.
    reflexivity.
  - rewrite (proj2 (render_order true half_size_host failing_draw
                      example_window)) by reflexivity.
    reflexivity.
Defined.

Lemma render_leaves_region_open :
  trace (render false half_size_host failing_draw example_window)
  = [GetTime; Assign m_currentTime;
     PushStyleColor_WindowBg DEFAULT_BG;
     SetNextWindowPos_FirstUseEver (mkVec2 (F32.of_int 40) (F32.of_int 20));
     SetNextWindowSize_FirstUseEver (mkVec2 (F32.of_int 100) (F32.of_int 100));
     Begin "panel" 0; PopStyleColor; Content "partial"]
  /\ count is_Begin
       (trace (render false half_size_host failing_draw example_window)) = 1%nat
  /\ count is_End
       (trace (render false half_size_host failing_draw example_window)) = 0%nat
  /\ completion (render false half_size_host failing_draw example_window)
     = Throws.
Proof. repeat split. Qed.

(** The accessor [getWidth] keeps returning the designed width: only
    [dimensions] follows the scale. *)
Example getWidth_is_designed_width :
  getWidth (final (updateScale half_size_host example_window)) = F32.of_int 100
  /\ vx (dimensions (final (updateScale half_size_host example_window)))
     = F32.of_int 50.
Proof. split; reflexivity. Qed.

(* ================================================================== *)
(** ** Grid population *)

Lemma numbered_app i l1 l2 :
  numbered i (l1 ++ l2) = numbered i l1 ++ numbered (i + Z.of_nat (List.length l1)) l2.
Proof.
  revert i. induction l1 as [| t l1 IH]; intros i; cbn [numbered app List.length].
  - rewrite Z.add_0_r. reflexivity.
  - rewrite IH. do 3 f_equal. lia.
Qed.

Lemma numbered_length i l : List.length (numbered i l) = List.length l.
Proof. revert i. induction l; intros i; cbn; [reflexivity | rewrite IHl; reflexivity]. Qed.

Lemma numbered_bounds l : forall i a,
  In a (numbered i l) ->
  fst (fst a) = snd (fst a) /\ i <= snd (fst a) < i + Z.of_nat (List.length l).
Proof.
  induction l as [| t l IH]; intros i a Ha; cbn [numbered In List.length] in *.
  - contradiction.
  - destruct Ha as [<- | Ha]; cbn [fst snd].
    + lia.
    + apply IH in Ha. lia.
Qed.

Lemma firstn_succ {A : Type} (l : list A) k t :
  nth_error l k = Some t -> firstn (S k) l = firstn k l ++ [t].
Proof.
  revert k. induction l as [| a l IH]; intros [| k] H; cbn in *; try discriminate.
  - injection H as ->. reflexivity.
  - rewrite (IH k H). reflexivity.
Qed.

Lemma of_size_small n : 0 <= n <= Int.max_int -> Int.of_size n = n.
Proof.
  unfold Int.of_size, Int.max_int. intros H.
  rewrite Z.mod_small by lia. lia.
Qed.

(** Narrowing a size to [int] never gives more than the size. *)
Lemma of_size_bounds n :
  0 <= n -> Int.of_size n <= n /\ Int.of_size n <= Int.max_int.
Proof.
  intros Hn. unfold Int.of_size, Int.max_int.
  change (2 ^ 31) with 2147483648. change (2 ^ 32) with 4294967296.
  pose proof (Z.mod_le (n + 2147483648) 4294967296 ltac:(lia) ltac:(lia)).
  pose proof (Z.mod_pos_bound (n + 2147483648) 4294967296 ltac:(lia)).
  lia.
Qed.

Lemma checked_in_range z :
  Int.min_int <= z <= Int.max_int -> Int.checked z = Some z.
Proof.
  intros H. unfold Int.checked, Int.in_range.
  destruct (Z.leb_spec Int.min_int z), (Z.leb_spec z Int.max_int); try lia.
  reflexivity.
Qed.

Section PopulateGrid.
Variable images : list TextureData.
Variable origin : ImVec2.
Variable columns : Z.
Variables hd vd : float.
Variable frame : ImVec2.
Variable n : Z.
Hypothesis n_size : n <= Z.of_nat (List.length images).
Hypothesis n_fits : n <= Int.max_int.
Hypothesis columns_pos : 0 < columns.

Lemma cell_past_end r c st :
  n <= fst st ->
  PopulateGrid_cell images origin columns hd vd frame n r c st
  = Some (Return st).
Proof.
  intros H. unfold PopulateGrid_cell. destruct st as [idx calls].
  cbn [fst] in H. destruct (Z.leb_spec n idx); [reflexivity | lia].
Qed.

Lemma cell_draws r c st :
  grid_inv images n st -> fst st = r * columns + c -> 0 <= r -> 0 <= c ->
  fst st < n ->
  exists st',
    PopulateGrid_cell images origin columns hd vd frame n r c st
    = Some (Continue st')
    /\ grid_inv images n st' /\ fst st' = fst st + 1.
Proof.
  intros [Hrange Hcalls] Hidx Hr Hc Hlt. destruct st as [idx calls].
  cbn [fst snd] in *. unfold PopulateGrid_cell.
  destruct (Z.leb_spec n idx); [lia|].
  assert (Hmin : Int.min_int = -2147483648) by reflexivity.
  assert (Hmax : Int.max_int = 2147483647) by reflexivity.
  assert (0 <= r * columns) by nia.
  unfold Int.mul, Int.add. rewrite checked_in_range by lia. cbn [bind].
  rewrite checked_in_range by lia. cbn [bind].
  rewrite <- Hidx. unfold at_index.
  destruct (Z.ltb_spec idx 0); [lia|].
  destruct (nth_error images (Z.to_nat idx)) as [t |] eqn:Ht.
  2:{ apply nth_error_None in Ht. lia. }
  cbn [bind]. rewrite checked_in_range by lia. cbn [bind].
  eexists. split; [reflexivity|]. split; [| reflexivity].
  split; cbn [fst snd]; [lia|].
  cbn [rev]. rewrite map_app, Hcalls.
  cbn [map access call_cellIndex call_index call_sprite].
  replace (Z.to_nat (idx + 1)) with (S (Z.to_nat idx)) by lia.
  rewrite (firstn_succ _ _ _ Ht), numbered_app. cbn [numbered].
  rewrite length_firstn, Nat.min_l by lia.
  rewrite Z2Nat.id by lia. reflexivity.
Qed.

(** The inner loop over the columns of row [r], entered at column [c]:
    either it runs its [k] iterations, or the guard returns once the
    counter has reached the image count. *)
Lemma row_loop r k : forall c st,
  grid_inv images n st -> fst st = r * columns + c -> 0 <= r -> 0 <= c ->
  exists st', grid_inv images n st'
    /\ ((for_loop k c (PopulateGrid_cell images origin columns hd vd frame n r) st
         = Some (Continue st')
         /\ fst st' = fst st + Z.of_nat k)
        \/ (for_loop k c (PopulateGrid_cell images origin columns hd vd frame n r) st
            = Some (Return st')
            /\ fst st' = Z.max 0 n /\ Z.max 0 n < fst st + Z.of_nat k)).
Proof.
  induction k as [| k IH]; intros c st Hinv Hidx Hr Hc.
  - exists st. split; [assumption|]. left. split; [reflexivity | lia].
  - cbn [for_loop]. destruct (Z.lt_ge_cases (fst st) n) as [Hlt | Hge].
    + destruct (cell_draws r c st Hinv Hidx Hr Hc Hlt) as (st1 & E1 & Inv1 & F1).
      rewrite E1.
      destruct (IH (c + 1) st1 Inv1 ltac:(lia) Hr ltac:(lia))
        as (st' & Inv' & [[E' F'] | (E' & F' & L')]).
      * exists st'. split; [assumption|]. left. split; [assumption | lia].
      * exists st'. split; [assumption|]. right.
        repeat split; [assumption | lia | lia].
    + rewrite (cell_past_end r c st Hge). exists st. split; [assumption|].
      right. destruct Hinv as [Hrange _]. repeat split; lia.
Qed.

(** The outer loop over the rows, entered at row [r]. *)
Lemma grid_loop k : forall r st,
  grid_inv images n st -> fst st = r * columns -> 0 <= r ->
  exists st', grid_inv images n st'
    /\ ((for_loop k r
           (fun row => for_loop (Z.to_nat columns) 0
                         (PopulateGrid_cell images origin columns hd vd frame n row))
           st
         = Some (Continue st')
         /\ fst st' = fst st + Z.of_nat k * columns)
        \/ (for_loop k r
              (fun row => for_loop (Z.to_nat columns) 0
                            (PopulateGrid_cell images origin columns hd vd frame n row))
              st
            = Some (Return st')
            /\ fst st' = Z.max 0 n
            /\ Z.max 0 n < fst st + Z.of_nat k * columns)).
Proof.
  induction k as [| k IH]; intros r st Hinv Hidx Hr.
  - exists st. split; [assumption|]. left. split; [reflexivity | lia].
  - cbn [for_loop].
    destruct (row_loop r (Z.to_nat columns) 0 st Hinv ltac:(lia) Hr ltac:(lia))
      as (st1 & Inv1 & [[E1 F1] | (E1 & F1 & L1)]); rewrite E1.
    + rewrite Z2Nat.id in F1 by lia.
      destruct (IH (r + 1) st1 Inv1 ltac:(lia) ltac:(lia))
        as (st' & Inv' & [[E' F'] | (E' & F' & L')]).
      * exists st'. split; [assumption|]. left. split; [assumption | lia].
      * exists st'. split; [assumption|]. right.
        repeat split; [assumption | lia | lia].
    + rewrite Z2Nat.id in L1 by lia.
      exists st1. split; [assumption|]. right. repeat split; [lia | nia].
Qed.

End PopulateGrid.

(** The calls of [PopulateGrid], for a vector of any size. *)
Lemma PopulateGrid_calls images O columns rows cw ch gl :
  0 < columns -> 0 < rows ->
  exists calls,
    PopulateGrid images O columns rows cw ch gl = Some calls
    /\ map access calls
       = numbered 0 (firstn (Z.to_nat (drawn images columns rows)) images).
Proof.
  intros Hcols Hrows. unfold PopulateGrid, drawn.
  destruct (of_size_bounds (Z.of_nat (List.length images)) ltac:(lia))
    as [Hsize Hfits].
  destruct (grid_loop images (O + mkVec2 gl gl)%vec columns
              (cw + gl)%f32 (ch + gl)%f32 (mkVec2 cw ch)
              (Int.of_size (Z.of_nat (List.length images))) Hsize Hfits Hcols
              (Z.to_nat rows) 0 (0, []))
    as (st' & [Hrange Hcalls] & [[E F] | (E & F & L)]).
  - split; cbn [fst snd]; [lia | reflexivity].
  - reflexivity.
  - lia.
  - rewrite E. destruct st' as [idx calls]. cbn [fst snd] in *.
    exists (rev calls). split; [reflexivity|]. rewrite Hcalls.
    rewrite Z2Nat.id in F by lia.
    replace (Z.min (Z.max 0 (Int.of_size (Z.of_nat (List.length images))))
               (columns * rows)) with idx by lia.
    reflexivity.
  - rewrite E. destruct st' as [idx calls]. cbn [fst snd] in *.
    exists (rev calls). split; [reflexivity|]. rewrite Hcalls.
    rewrite Z2Nat.id in L by lia.
    replace (Z.min (Z.max 0 (Int.of_size (Z.of_nat (List.length images))))
               (columns * rows)) with idx by lia.
    reflexivity.
Qed.

Lemma drawn_bounds images columns rows :
  0 < columns -> 0 < rows ->
  0 <= drawn images columns rows <= Z.of_nat (List.length images).
Proof.
  intros Hc Hr. unfold drawn.
  destruct (of_size_bounds (Z.of_nat (List.length images)) ltac:(lia)) as [H _].
  nia.
Qed.

Lemma drawn_shown images columns rows :
  Z.of_nat (List.length images) <= Int.max_int ->
  drawn images columns rows = shown images columns rows.
Proof.
  intros H. unfold drawn, shown. rewrite of_size_small by lia. lia.
Qed.

(** When the size of the vector, narrowed to [int], is not positive, the
    first test of the guard returns from the function. *)
Lemma PopulateGrid_no_image images O columns rows cw ch gl :
  0 < columns -> 0 < rows ->
  Int.of_size (Z.of_nat (List.length images)) <= 0 ->
  PopulateGrid images O columns rows cw ch gl = Some [].
Proof.
  intros Hc Hr Hn. unfold PopulateGrid.
  destruct (Z.to_nat rows) as [| kr] eqn:Er; [lia|].
  destruct (Z.to_nat columns) as [| kc] eqn:Ec; [lia|].
  cbn [for_loop]. unfold PopulateGrid_cell at 1.
  destruct (Z.leb_spec (Int.of_size (Z.of_nat (List.length images))) 0);
    [reflexivity | lia].
Qed.

(** C9.  For every vector of images and positive [columns] and [rows],
    [PopulateGrid] runs without undefined behaviour: it reads the first
    textures of the vector in order, at every access the guard counter
    [cellIndex] equals the index [currentRow * columns + currentColumn],
    and that index is below the size of the vector.  It never draws more
    than [min(images.size(), columns*rows)] images, and draws exactly
    that many when the size of the vector fits an [int]. *)
Theorem PopulateGrid_in_bounds :
  forall images O columns rows cellWidth cellHeight gridlineWidth,
    0 < columns -> 0 < rows ->
    exists calls,
      PopulateGrid images O columns rows cellWidth cellHeight gridlineWidth
      = Some calls
      /\ map access calls
         = numbered 0 (firstn (List.length calls) images)
      /\ Forall (fun c => call_cellIndex c = call_index c
                          /\ 0 <= call_index c < Z.of_nat (List.length images))
                calls
      /\ Z.of_nat (List.length calls) <= shown images columns rows
      /\ (Z.of_nat (List.length images) <= Int.max_int ->
          Z.of_nat (List.length calls) = shown images columns rows).
Proof.
  intros images O columns rows cw ch gl Hcols Hrows.
  destruct (PopulateGrid_calls images O columns rows cw ch gl Hcols Hrows)
    as (calls & E & Hacc).
  pose proof (drawn_bounds images columns rows Hcols Hrows) as Hdrawn.
  assert (Hlen : Z.of_nat (List.length calls) = drawn images columns rows).
  { rewrite <- (length_map access), Hacc, numbered_length, length_firstn. lia. }
  exists calls. split; [exact E|]. split.
  { rewrite Hacc, <- Hlen, Nat2Z.id. reflexivity. }
  split; [| split].
  - apply Forall_forall. intros c Hc.
    assert (Hin : In (access c) (map access calls)) by (apply in_map; exact Hc).
    rewrite Hacc in Hin. apply numbered_bounds in Hin.
    rewrite length_firstn in Hin. unfold access in Hin. cbn [fst snd] in Hin. lia.
  - rewrite Hlen. unfold drawn, shown.
    destruct (of_size_bounds (Z.of_nat (List.length images)) ltac:(lia))
      as [Hsize _].
    lia.
  - intros Hfits. rewrite Hlen. apply drawn_shown. exact Hfits.
Qed.

Lemma PopulateGrid_in_bounds_witness :
  exists calls,
    PopulateGrid three_textures (mkVec2 F32.zero F32.zero) 2 2
      (F32.of_int 10) (F32.of_int 10) (F32.of_int 2) = Some calls
    /\ map access calls
       = numbered 0 (firstn (List.length calls) three_textures)
    /\ Z.of_nat (List.length calls) = shown three_textures 2 2
    /\ shown three_textures 2 2 = 3.
Proof.
  destruct (PopulateGrid_in_bounds three_textures (mkVec2 F32.zero F32.zero)
              2 2 (F32.of_int 10) (F32.of_int 10) (F32.of_int 2))
    as (calls & E & Hacc & _ & _ & Hlen).
  - lia.
  - lia.
  - exists calls. split; [exact E|]. split; [exact Hacc|].
    split; [apply Hlen; discriminate | reflexivity].
Defined.

(** Where the count falls short.  The guard compares the counter with
    [int imageCount = images.size()]: for a vector of [2^31] textures the
    size narrows to [INT_MIN], the first test of the guard returns, and
    the one cell of a grid of one column and one row stays empty,
    although the vector holds a texture for it.  The comment of the
    function says that it fills the grid up to the capacity of the
    vector and leaves empty only the cells that exceed the number of
    textures. *)
Lemma PopulateGrid_size_wraps :
  PopulateGrid too_many (mkVec2 F32.zero F32.zero) 1 1
    F32.one F32.one F32.one = Some []
  /\ shown too_many 1 1 = 1
  /\ Int.of_size (Z.of_nat (List.length too_many)) = Int.min_int.
Proof.
  assert (Hlen : Z.of_nat (List.length too_many) = 2 ^ 31).
  { unfold too_many. rewrite repeat_length. apply Z2Nat.id. lia. }
  split; [| split].
  - apply PopulateGrid_no_image; [lia | lia |]. rewrite Hlen. discriminate.
  - unfold shown. rewrite Hlen. reflexivity.
  - rewrite Hlen. reflexivity.
Qed.

(* ================================================================== *)
(** ** The operator overloads *)

Lemma add_comm x y : (x + y)%f32 = (y + x)%f32.
Proof.
  destruct x as [sx | sx | | sx mx ex], y as [sy | sy | | sy my ey];
    try reflexivity.
  - destruct sx, sy; reflexivity.
  - destruct sx, sy; reflexivity.
  - cbn [F32.add SFadd]. rewrite (Z.min_comm ey ex), Z.add_comm. reflexivity.
Qed.

Lemma sub_self x :
  F32.is_finite x = true -> (x - x)%f32 = F32.of_int 0.
Proof.
  destruct x as [s | s | | s m e]; try discriminate; intros _.
  - destruct s; reflexivity.
  - cbn [F32.sub SFsub]. rewrite Z.sub_diag. reflexivity.
Qed.

Lemma add_zero_r x : x <> S754_zero true -> (x + F32.of_int 0)%f32 = x.
Proof.
  intros Hx. destruct x as [[|] | s | | s m e]; try reflexivity.
  contradiction.
Qed.

Lemma div_one x : F32.valid x = true -> (x / F32.of_int 1)%f32 = x.
Proof.
  intros Vx. destruct x as [s | s | | s m e]; try (destruct s; reflexivity);
    try reflexivity.
  apply (exact_unique _ _ (F32.to_Q (S754_finite s m e))).
  - apply exact_morph with (F32.to_Q (S754_finite s m e) / 1)%Q; [field |].
    apply div_exact.
    + repeat split. exact Vx.
    + repeat split.
    + discriminate.
    + apply representable_morph with (F32.to_Q (S754_finite s m e));
        [field |].
      exists (S754_finite s m e). repeat split. exact Vx.
  - repeat split. exact Vx.
  - apply finite_nonzero.
Qed.

(** X1.  The operators on [ImVec2]: a translation can be written in
    either order; scaling or dividing by 1 changes nothing; a finite
    vector minus itself is the zero vector; and adding the zero vector
    changes nothing unless a coordinate is the negative zero. *)
Theorem ImVec2_operators :
  (forall a b, (a + b)%vec = (b + a)%vec)
  /\ (forall v,
         F32.valid (vx v) = true -> F32.valid (vy v) = true ->
         vscale v (F32.of_int 1) = v /\ vdiv v (F32.of_int 1) = v)
  /\ (forall v,
         F32.is_finite (vx v) = true -> F32.is_finite (vy v) = true ->
         (v - v)%vec = mkVec2 (F32.of_int 0) (F32.of_int 0))
  /\ (forall v,
         vx v <> S754_zero true -> vy v <> S754_zero true ->
         (v + mkVec2 (F32.of_int 0) (F32.of_int 0))%vec = v).
Proof.
  split; [| split; [| split]].
  - intros a b. unfold vadd. rewrite (add_comm (vx a)), (add_comm (vy a)).
    reflexivity.
  - intros [x y] Vx Vy. cbn [vx vy] in *. unfold vscale, vdiv. cbn [vx vy].
    change (F32.of_int 1) with F32.one.
    rewrite (mul_one x Vx), (mul_one y Vy).
    change F32.one with (F32.of_int 1).
    rewrite (div_one x Vx), (div_one y Vy). split; reflexivity.
  - intros [x y] Fx Fy. cbn [vx vy] in *. unfold vsub. cbn [vx vy].
    rewrite (sub_self x Fx), (sub_self y Fy). reflexivity.
  - intros [x y] Hx Hy. cbn [vx vy] in *. unfold vadd. cbn [vx vy].
    rewrite (add_zero_r x Hx), (add_zero_r y Hy). reflexivity.
Qed.

Lemma ImVec2_operators_witness :
  vdiv (mkVec2 (F32.of_int 640) (F32.of_int 480)) (F32.of_int 1)
  = mkVec2 (F32.of_int 640) (F32.of_int 480).
Proof.
  apply (proj1 (proj2 ImVec2_operators)
           (mkVec2 (F32.of_int 640) (F32.of_int 480)));
    reflexivity.
Defined.

(* ================================================================== *)
(** ** Alignment on whole pixels *)

(** *** Half-integers *)

Lemma half_of_int n :
  Z.abs n < 2 ^ 23 -> F32.exact (F32.of_int n) (inject_Z (2 * n) / 2).
Proof.
  intros Hn. assert (Hq : 2 ^ 24 = 16777216) by reflexivity.
  assert (Hp : 2 ^ 23 = 8388608) by reflexivity.
  apply exact_morph with (inject_Z n); [| apply of_int_exact; lia].
  rewrite inject_Z_mult. field.
Qed.

Lemma half_add a b p q :
  F32.exact a (inject_Z p / 2) -> F32.exact b (inject_Z q / 2) ->
  Z.abs (p + q) < 2 ^ 24 ->
  F32.exact (a + b)%f32 (inject_Z (p + q) / 2).
Proof.
  intros Ha Hb Hpq.
  apply exact_morph with (inject_Z p / 2 + inject_Z q / 2)%Q;
    [rewrite inject_Z_plus; field |].
  apply add_exact; try assumption.
  apply representable_morph with (inject_Z (p + q) / 2)%Q;
    [rewrite inject_Z_plus; field | apply representable_half; assumption].
Qed.

Lemma half_sub a b p q :
  F32.exact a (inject_Z p / 2) -> F32.exact b (inject_Z q / 2) ->
  Z.abs (p - q) < 2 ^ 24 ->
  F32.exact (a - b)%f32 (inject_Z (p - q) / 2).
Proof.
  intros Ha Hb Hpq.
  assert (E : (inject_Z (p - q) / 2 == inject_Z p / 2 - inject_Z q / 2)%Q).
  { unfold Z.sub. rewrite inject_Z_plus, inject_Z_opp. field. }
  apply exact_morph with (inject_Z p / 2 - inject_Z q / 2)%Q;
    [symmetry; exact E |].
  apply sub_exact; try assumption.
  apply representable_morph with (inject_Z (p - q) / 2)%Q;
    [exact E | apply representable_half; assumption].
Qed.

Lemma half_halved a k p :
  F32.exact a (inject_Z k / 2) -> k = 2 * p -> Z.abs p < 2 ^ 24 ->
  F32.exact (a / F32.of_int 2)%f32 (inject_Z p / 2).
Proof.
  intros Ha -> Hp.
  assert (E : (inject_Z (2 * p) / 2 / 2 == inject_Z p / 2)%Q)
    by (rewrite inject_Z_mult; field).
  apply exact_morph with (inject_Z (2 * p) / 2 / 2)%Q; [exact E |].
  apply div_exact; try assumption.
  - repeat split.
  - discriminate.
  - apply representable_morph with (inject_Z p / 2)%Q;
      [symmetry; exact E | apply representable_half; assumption].
Qed.

(** X2.  The four functions that put an object beside a target: the
    two centring ones give the vertical position of [Center2D], and the
    three right-hand ones the same horizontal position, whatever the
    numbers.  On whole pixels the results are exact: the object left of
    the target ends [distanceApart] before it, the one on the right
    starts [distanceApart] after it, the bottom-aligned one ends on the
    bottom edge of the target, and the centred ones leave the same
    margin above and below. *)
Theorem outer_alignment_gap :
  (forall O T S d,
      vy (Position.CenterOnLeftSide O T S d) = vy (Position.Center2D O T S)
      /\ vy (Position.CenterOnRightSide O T S d)
         = vy (Position.Center2D O T S)
      /\ vx (Position.CenterOnRightSide O T S d)
         = vx (Position.TopAlignOnRightSide O T d)
      /\ vx (Position.BottomAlignOnRightSide O T S d)
         = vx (Position.TopAlignOnRightSide O T d)
      /\ vy (Position.TopAlignOnRightSide O T d) = vy O)
  /\ (forall ox oy tx ty sx sy d,
         Z.abs ox <= 2 ^ 20 -> Z.abs oy <= 2 ^ 20 ->
         Z.abs tx <= 2 ^ 20 -> Z.abs ty <= 2 ^ 20 ->
         Z.abs sx <= 2 ^ 20 -> Z.abs sy <= 2 ^ 20 -> Z.abs d <= 2 ^ 20 ->
         let O := mkVec2 (F32.of_int ox) (F32.of_int oy) in
         let T := mkVec2 (F32.of_int tx) (F32.of_int ty) in
         let S := mkVec2 (F32.of_int sx) (F32.of_int sy) in
         let D := F32.of_int d in
         F32.exact (vx (Position.CenterOnLeftSide O T S D))
           (inject_Z ox - inject_Z d - inject_Z sx)
         /\ F32.exact (vx (Position.TopAlignOnRightSide O T D))
              (inject_Z ox + inject_Z tx + inject_Z d)
         /\ F32.exact (vy (Position.BottomAlignOnRightSide O T S D))
              (inject_Z oy + inject_Z ty - inject_Z sy)
         /\ F32.exact (vy (Position.Center2D O T S))
              (inject_Z oy + (inject_Z ty - inject_Z sy) / 2)).
Proof.
  split.
  - intros O T S d. repeat split.
  - intros ox oy tx ty sx sy d Hox Hoy Htx Hty Hsx Hsy Hd O T S D.
    assert (Hp : 2 ^ 20 = 1048576) by reflexivity.
    assert (Hq : 2 ^ 23 = 8388608) by reflexivity.
    assert (Hr : 2 ^ 24 = 16777216) by reflexivity.
    pose proof (half_of_int ox ltac:(lia)) as Eox.
    pose proof (half_of_int oy ltac:(lia)) as Eoy.
    pose proof (half_of_int tx ltac:(lia)) as Etx.
    pose proof (half_of_int ty ltac:(lia)) as Ety.
    pose proof (half_of_int sx ltac:(lia)) as Esx.
    pose proof (half_of_int sy ltac:(lia)) as Esy.
    pose proof (half_of_int d ltac:(lia)) as Ed.
    subst O T S D. unfold Position.CenterOnLeftSide,
      Position.TopAlignOnRightSide, Position.BottomAlignOnRightSide,
      Position.Center2D, vadd. cbn [vx vy].
    split; [| split; [| split]].
    + pose proof (half_sub _ _ _ _ Eox Ed ltac:(lia)) as H1.
      pose proof (half_sub _ _ _ _ H1 Esx ltac:(lia)) as H2.
      eapply exact_morph; [| exact H2]. inject_field.
    + pose proof (half_add _ _ _ _ Eox Etx ltac:(lia)) as H1.
      pose proof (half_add _ _ _ _ H1 Ed ltac:(lia)) as H2.
      eapply exact_morph; [| exact H2]. inject_field.
    + pose proof (half_sub _ _ _ _ Ety Esy ltac:(lia)) as H1.
      pose proof (half_add _ _ _ _ Eoy H1 ltac:(lia)) as H2.
      eapply exact_morph; [| exact H2]. inject_field.
    + pose proof (half_sub _ _ _ _ Ety Esy ltac:(lia)) as H1.
      pose proof (half_halved _ _ (ty - sy) H1 ltac:(lia) ltac:(lia)) as H2.
      pose proof (half_add _ _ _ _ Eoy H2 ltac:(lia)) as H3.
      eapply exact_morph; [| exact H3]. inject_field.
Qed.

Lemma outer_alignment_gap_witness :
  F32.exact
    (vx (Position.CenterOnLeftSide
           (mkVec2 (F32.of_int 400) (F32.of_int 300))
           (mkVec2 (F32.of_int 200) (F32.of_int 100))
           (mkVec2 (F32.of_int 50) (F32.of_int 25)) (F32.of_int 10)))
    (inject_Z 400 - inject_Z 10 - inject_Z 50).
Proof.
  apply (proj2 outer_alignment_gap 400 300 200 100 50 25 10);
    cbn; lia.
Defined.

(** X3.  On whole pixels [CenterAbove] is exact; it centres the object
    horizontally on the target and puts its top at
    [origin.y - distanceApart - height / 2]: the middle of the object,
    not its bottom edge, lies [distanceApart] above the top of the
    target, so that the object reaches into the target when it is
    taller than twice the distance. *)
Theorem CenterAbove_centre_line :
  forall ox oy tx ty sx sy d,
    Z.abs ox <= 2 ^ 20 -> Z.abs oy <= 2 ^ 20 ->
    Z.abs tx <= 2 ^ 20 -> Z.abs ty <= 2 ^ 20 ->
    Z.abs sx <= 2 ^ 20 -> Z.abs sy <= 2 ^ 20 -> Z.abs d <= 2 ^ 20 ->
    let O := mkVec2 (F32.of_int ox) (F32.of_int oy) in
    let T := mkVec2 (F32.of_int tx) (F32.of_int ty) in
    let S := mkVec2 (F32.of_int sx) (F32.of_int sy) in
    F32.exact (vx (Position.CenterAbove O T S (F32.of_int d)))
      (inject_Z ox + (inject_Z tx - inject_Z sx) / 2)
    /\ F32.exact (vy (Position.CenterAbove O T S (F32.of_int d)))
         (inject_Z oy - inject_Z d - inject_Z sy / 2).
Proof.
  intros ox oy tx ty sx sy d Hox Hoy Htx Hty Hsx Hsy Hd O T S.
  assert (Hp : 2 ^ 20 = 1048576) by reflexivity.
  assert (Hq : 2 ^ 23 = 8388608) by reflexivity.
  assert (Hr : 2 ^ 24 = 16777216) by reflexivity.
  pose proof (half_of_int ox ltac:(lia)) as Eox.
  pose proof (half_of_int oy ltac:(lia)) as Eoy.
  pose proof (half_of_int tx ltac:(lia)) as Etx.
  pose proof (half_of_int ty ltac:(lia)) as Ety.
  pose proof (half_of_int sx ltac:(lia)) as Esx.
  pose proof (half_of_int sy ltac:(lia)) as Esy.
  pose proof (half_of_int d ltac:(lia)) as Ed.
  pose proof (half_of_int 0 ltac:(lia)) as E0.
  subst O T S. unfold Position.CenterAbove, Position.Center2D, vadd, vsub.
  cbn [vx vy]. split.
  - pose proof (half_sub _ _ _ _ Etx Esx ltac:(lia)) as H1.
    pose proof (half_halved _ _ (tx - sx) H1 ltac:(lia) ltac:(lia)) as H2.
    pose proof (half_add _ _ _ _ Eox H2 ltac:(lia)) as H3.
    pose proof (half_sub _ _ _ _ H3 E0 ltac:(lia)) as H4.
    eapply exact_morph; [| exact H4]. inject_field.
  - pose proof (half_sub _ _ _ _ Ety Esy ltac:(lia)) as H1.
    pose proof (half_halved _ _ (ty - sy) H1 ltac:(lia) ltac:(lia)) as H2.
    pose proof (half_add _ _ _ _ Eoy H2 ltac:(lia)) as H3.
    pose proof (half_halved _ _ ty Ety ltac:(lia) ltac:(lia)) as H4.
    pose proof (half_add _ _ _ _ Ed H4 ltac:(lia)) as H5.
    pose proof (half_sub _ _ _ _ H3 H5 ltac:(lia)) as H6.
    eapply exact_morph; [| exact H6]. inject_field.
Qed.

Lemma CenterAbove_centre_line_witness :
  F32.exact
    (vy (Position.CenterAbove
           (mkVec2 (F32.of_int 400) (F32.of_int 300))
           (mkVec2 (F32.of_int 200) (F32.of_int 100))
           (mkVec2 (F32.of_int 50) (F32.of_int 24)) (F32.of_int 10)))
    (inject_Z 300 - inject_Z 10 - inject_Z 24 / 2).
Proof.
  apply (CenterAbove_centre_line 400 300 200 100 50 24 10); cbn; lia.
Defined.

(** X4.  On whole pixels the inner alignments are exact and keep the
    gap: the object starts [gap] inside the left and top edges, or ends
    [gap] before the right and bottom edges of the target;
    [InnerAlignBottomCenter] centres it horizontally. *)
Theorem inner_alignment_gap :
  forall ox oy tx ty sx sy g,
    Z.abs ox <= 2 ^ 20 -> Z.abs oy <= 2 ^ 20 ->
    Z.abs tx <= 2 ^ 20 -> Z.abs ty <= 2 ^ 20 ->
    Z.abs sx <= 2 ^ 20 -> Z.abs sy <= 2 ^ 20 -> Z.abs g <= 2 ^ 20 ->
    let O := mkVec2 (F32.of_int ox) (F32.of_int oy) in
    let T := mkVec2 (F32.of_int tx) (F32.of_int ty) in
    let S := mkVec2 (F32.of_int sx) (F32.of_int sy) in
    let G := F32.of_int g in
    (F32.exact (vx (Position.InnerAlignTopLeft O G)) (inject_Z ox + inject_Z g)
     /\ F32.exact (vy (Position.InnerAlignTopLeft O G))
          (inject_Z oy + inject_Z g))
    /\ (F32.exact (vx (Position.InnerAlignBottomLeft O T S G))
          (inject_Z ox + inject_Z g)
        /\ F32.exact (vy (Position.InnerAlignBottomLeft O T S G))
             (inject_Z oy + inject_Z ty - inject_Z sy - inject_Z g))
    /\ (F32.exact (vx (Position.InnerAlignBottomRight O T S G))
          (inject_Z ox + inject_Z tx - inject_Z sx - inject_Z g)
        /\ F32.exact (vy (Position.InnerAlignBottomRight O T S G))
             (inject_Z oy + inject_Z ty - inject_Z sy - inject_Z g))
    /\ (F32.exact (vx (Position.InnerAlignBottomCenter O T S G))
          (inject_Z ox + (inject_Z tx - inject_Z sx) / 2)
        /\ F32.exact (vy (Position.InnerAlignBottomCenter O T S G))
             (inject_Z oy + inject_Z ty - inject_Z sy - inject_Z g)).
Proof.
  intros ox oy tx ty sx sy g Hox Hoy Htx Hty Hsx Hsy Hg O T S G.
  assert (Hp : 2 ^ 20 = 1048576) by reflexivity.
  assert (Hq : 2 ^ 23 = 8388608) by reflexivity.
  assert (Hr : 2 ^ 24 = 16777216) by reflexivity.
  pose proof (half_of_int ox ltac:(lia)) as Eox.
  pose proof (half_of_int oy ltac:(lia)) as Eoy.
  pose proof (half_of_int tx ltac:(lia)) as Etx.
  pose proof (half_of_int ty ltac:(lia)) as Ety.
  pose proof (half_of_int sx ltac:(lia)) as Esx.
  pose proof (half_of_int sy ltac:(lia)) as Esy.
  pose proof (half_of_int g ltac:(lia)) as Eg.
  subst O T S G.
  unfold Position.InnerAlignTopLeft, Position.InnerAlignBottomLeft,
    Position.InnerAlignBottomRight, Position.InnerAlignBottomCenter.
  cbn [vx vy].
  pose proof (half_add _ _ _ _ Eox Eg ltac:(lia)) as Xg.
  pose proof (half_add _ _ _ _ Eoy Eg ltac:(lia)) as Yg.
  pose proof (half_add _ _ _ _ Eoy Ety ltac:(lia)) as Yt.
  pose proof (half_sub _ _ _ _ Yt Eg ltac:(lia)) as Ytg.
  pose proof (half_sub _ _ _ _ Ytg Esy ltac:(lia)) as Ytgs.
  pose proof (half_sub _ _ _ _ Yt Esy ltac:(lia)) as Yts.
  pose proof (half_sub _ _ _ _ Yts Eg ltac:(lia)) as Ytsg.
  pose proof (half_add _ _ _ _ Eox Etx ltac:(lia)) as Xt.
  pose proof (half_sub _ _ _ _ Xt Esx ltac:(lia)) as Xts.
  pose proof (half_sub _ _ _ _ Xts Eg ltac:(lia)) as Xtsg.
  pose proof (half_sub _ _ _ _ Etx Esx ltac:(lia)) as Dx.
  pose proof (half_halved _ _ (tx - sx) Dx ltac:(lia) ltac:(lia)) as Hx.
  pose proof (half_add _ _ _ _ Eox Hx ltac:(lia)) as Xc.
  split; [split | split; [split | split; split]].
  - eapply exact_morph; [| exact Xg]. inject_field.
  - eapply exact_morph; [| exact Yg]. inject_field.
  - eapply exact_morph; [| exact Xg]. inject_field.
  - eapply exact_morph; [| exact Ytgs]. inject_field.
  - eapply exact_morph; [| exact Xtsg]. inject_field.
  - eapply exact_morph; [| exact Ytgs]. inject_field.
  - eapply exact_morph; [| exact Xc]. inject_field.
  - eapply exact_morph; [| exact Ytsg]. inject_field.
Qed.

Lemma inner_alignment_gap_witness :
  F32.exact
    (vx (Position.InnerAlignBottomRight
           (mkVec2 (F32.of_int 400) (F32.of_int 300))
           (mkVec2 (F32.of_int 200) (F32.of_int 100))
           (mkVec2 (F32.of_int 50) (F32.of_int 24)) (F32.of_int 10)))
    (inject_Z 400 + inject_Z 200 - inject_Z 50 - inject_Z 10).
Proof.
  apply (inner_alignment_gap 400 300 200 100 50 24 10); cbn; lia.
Defined.

(** X5.  On whole pixels [InnerAlignCenterLeft] and
    [InnerAlignCenterRight] are exact.  They centre the object
    vertically, and use that vertical margin,
    [(target height - object height) / 2], as the horizontal distance
    from the left or the right edge of the target as well. *)
Theorem inner_center_margins :
  forall ox oy tx ty sx sy,
    Z.abs ox <= 2 ^ 20 -> Z.abs oy <= 2 ^ 20 ->
    Z.abs tx <= 2 ^ 20 -> Z.abs ty <= 2 ^ 20 ->
    Z.abs sx <= 2 ^ 20 -> Z.abs sy <= 2 ^ 20 ->
    let O := mkVec2 (F32.of_int ox) (F32.of_int oy) in
    let T := mkVec2 (F32.of_int tx) (F32.of_int ty) in
    let S := mkVec2 (F32.of_int sx) (F32.of_int sy) in
    let margin := ((inject_Z ty - inject_Z sy) / 2)%Q in
    F32.exact (vx (Position.InnerAlignCenterLeft O T S)) (inject_Z ox + margin)
    /\ F32.exact (vy (Position.InnerAlignCenterLeft O T S))
         (inject_Z oy + margin)
    /\ F32.exact (vx (Position.InnerAlignCenterRight O T S))
         (inject_Z ox + inject_Z tx - inject_Z sx - margin)
    /\ F32.exact (vy (Position.InnerAlignCenterRight O T S))
         (inject_Z oy + margin).
Proof.
  intros ox oy tx ty sx sy Hox Hoy Htx Hty Hsx Hsy O T S margin.
  assert (Hp : 2 ^ 20 = 1048576) by reflexivity.
  assert (Hq : 2 ^ 23 = 8388608) by reflexivity.
  assert (Hr : 2 ^ 24 = 16777216) by reflexivity.
  pose proof (half_of_int ox ltac:(lia)) as Eox.
  pose proof (half_of_int oy ltac:(lia)) as Eoy.
  pose proof (half_of_int tx ltac:(lia)) as Etx.
  pose proof (half_of_int ty ltac:(lia)) as Ety.
  pose proof (half_of_int sx ltac:(lia)) as Esx.
  pose proof (half_of_int sy ltac:(lia)) as Esy.
  subst O T S margin.
  unfold Position.InnerAlignCenterLeft, Position.InnerAlignCenterRight.
  cbn [vx vy].
  pose proof (half_sub _ _ _ _ Ety Esy ltac:(lia)) as Dy.
  pose proof (half_halved _ _ (ty - sy) Dy ltac:(lia) ltac:(lia)) as Hy.
  pose proof (half_add _ _ _ _ Eox Hy ltac:(lia)) as Xl.
  pose proof (half_add _ _ _ _ Eoy Hy ltac:(lia)) as Yc.
  pose proof (half_add _ _ _ _ Eox Etx ltac:(lia)) as Xt.
  pose proof (half_sub _ _ _ _ Xt Esx ltac:(lia)) as Xts.
  pose proof (half_sub _ _ _ _ Xts Hy ltac:(lia)) as Xr.
  split; [| split; [| split]].
  - eapply exact_morph; [| exact Xl]. inject_field.
  - eapply exact_morph; [| exact Yc]. inject_field.
  - eapply exact_morph; [| exact Xr]. inject_field.
  - eapply exact_morph; [| exact Yc]. inject_field.
Qed.

Lemma inner_center_margins_witness :
  F32.exact
    (vx (Position.InnerAlignCenterRight
           (mkVec2 (F32.of_int 400) (F32.of_int 300))
           (mkVec2 (F32.of_int 200) (F32.of_int 100))
           (mkVec2 (F32.of_int 50) (F32.of_int 25))))
    (inject_Z 400 + inject_Z 200 - inject_Z 50
     - (inject_Z 100 - inject_Z 25) / 2).
Proof.
  apply (inner_center_margins 400 300 200 100 50 25); cbn; lia.
Defined.

(* ================================================================== *)
(** ** The window between scale updates *)

Lemma updateScale_same_design host w : same_design w (final (updateScale host w)).
Proof.
  destruct (width_differs host w) eqn:Hw, (height_differs host w) eqn:Hh.
  - rewrite (updateScale_both host w Hw Hh). repeat split.
  - rewrite (updateScale_width_only host w Hw Hh). repeat split.
  - rewrite (updateScale_height_only host w Hw Hh). repeat split.
  - rewrite (updateScale_unchanged host w Hw Hh). repeat split.
Qed.

Lemma updateScale_coherent host w :
  scale_coherent w -> scale_coherent (final (updateScale host w)).
Proof.
  intros (Hx & Hy & Ha).
  destruct (width_differs host w) eqn:Hw, (height_differs host w) eqn:Hh.
  - rewrite (updateScale_both host w Hw Hh). repeat split.
  - rewrite (updateScale_width_only host w Hw Hh).
    unfold scale_coherent, final. cbn. repeat split. exact Hy.
  - rewrite (updateScale_height_only host w Hw Hh).
    unfold scale_coherent, final. cbn. repeat split. exact Hx.
  - rewrite (updateScale_unchanged host w Hw Hh). repeat split; assumption.
Qed.

Lemma reachable_width w :
  Reachable w ->
  Window.width w = designedWidth w /\ Window.height w = designedHeight w.
Proof.
  induction 1 as [name dW dH pX pY VW VH VX VY | host w _ IH | c w _ IH
                  | v w _ IH | time w _ IH]; try exact IH.
  - split; reflexivity.
  - destruct (updateScale_same_design host w) as (_ & E1 & E2 & _ & _ & E3 & E4).
    rewrite E1, E2, E3, E4. exact IH.
Qed.

(** X6.  [getWidth] and [getHeight] return the designed size of
    the window from its construction on: no scale update changes them,
    only [dimensions] follows the scale. *)
Theorem getWidth_ignores_scale :
  (forall w, Reachable w ->
      getWidth w = designedWidth w /\ getHeight w = designedHeight w)
  /\ (forall host w,
         getWidth (final (updateScale host w)) = getWidth w
         /\ getHeight (final (updateScale host w)) = getHeight w).
Proof.
  split.
  - intros w Hr. apply reachable_width. exact Hr.
  - intros host w.
    destruct (updateScale_same_design host w) as (_ & _ & _ & _ & _ & E3 & E4).
    split; assumption.
Qed.

Lemma getWidth_ignores_scale_witness :
  getWidth (final (updateScale half_size_host example_window))
  = designedWidth (final (updateScale half_size_host example_window)).
Proof.
  apply (proj1 getWidth_ignores_scale).
  apply reach_updateScale. apply reach_new; reflexivity.
Defined.

(** X7.  The scale members are a cache of the viewport size: in every
    window built by the constructor and changed by scale updates and
    setters, [scaleX] and [scaleY] are the cached viewport width and
    height divided by the default viewport size, and [scaleAvg] is half
    their sum. *)
Theorem scale_cache_coherent :
  forall w, Reachable w -> scale_coherent w.
Proof.
  induction 1 as [name dW dH pX pY VW VH VX VY | host w _ IH | c w _ IH
                  | v w _ IH | time w _ IH]; try exact IH.
  - repeat split.
  - apply updateScale_coherent. exact IH.
Qed.

Lemma scale_cache_coherent_witness :
  scale_coherent (final (updateScale half_size_host example_window)).
Proof.
  apply scale_cache_coherent.
  apply reach_updateScale. apply reach_new; reflexivity.
Defined.

(** *** The background of a window *)

(** A scale update leaves the title, the flags and the background
    alone. *)
Lemma scale_step_keeps_background debug host w :
  let w1 := final (scale_step debug host w) in
  title w1 = title w /\ flags w1 = flags w
  /\ hasBackground w1 = hasBackground w
  /\ backgroundColor w1 = backgroundColor w.
Proof.
  destruct debug; [| repeat split]. unfold scale_step.
  destruct (width_differs host w) eqn:Hw, (height_differs host w) eqn:Hh.
  - rewrite (updateScale_both host w Hw Hh). repeat split.
  - rewrite (updateScale_width_only host w Hw Hh). repeat split.
  - rewrite (updateScale_height_only host w Hw Hh). repeat split.
  - rewrite (updateScale_unchanged host w Hw Hh). repeat split.
Qed.

(** X8.  The background setters take effect at the next [buildStart]:
    a window whose background was switched off is opened with
    [ImGuiWindowFlags_NoBackground] added to its flags and without any
    style colour pushed or popped; a window whose background is on is
    opened with its own flags, the colour last set being pushed before
    the position and size are announced and popped directly after
    [Begin].  [getBackgroundColor] returns the colour last set.  Each
    setter writes its own member only: the other one of the two, the
    three scales, the cached viewport size, the size, the dimensions,
    the position, the designed geometry, the title, the flags and the
    time stay as they were. *)
Theorem background_setters_take_effect :
  (forall debug host w,
      let w0 := setBackgroundVisibility false w in
      let w1 := final (scale_step debug host w0) in
      trace (buildStart debug host w0)
      = trace (scale_step debug host w0)
        ++ [SetNextWindowPos_FirstUseEver (position w1);
            SetNextWindowSize_FirstUseEver (dimensions w1);
            Begin (title w) (Z.lor (flags w) ImGuiWindowFlags_NoBackground)])
  /\ (forall debug host w color,
         let w0 := setBackgroundColor color (setBackgroundVisibility true w) in
         let w1 := final (scale_step debug host w0) in
         trace (buildStart debug host w0)
         = trace (scale_step debug host w0)
           ++ [PushStyleColor_WindowBg color;
               SetNextWindowPos_FirstUseEver (position w1);
               SetNextWindowSize_FirstUseEver (dimensions w1);
               Begin (title w) (flags w); PopStyleColor])
  /\ (forall color visible w,
         getBackgroundColor (setBackgroundColor color w) = color
         /\ hasBackground (setBackgroundVisibility visible w) = visible
         /\ getBackgroundColor (setBackgroundVisibility visible w)
            = getBackgroundColor w
         /\ hasBackground (setBackgroundColor color w) = hasBackground w)
  /\ (forall color visible w w',
         w' = setBackgroundColor color w
         \/ w' = setBackgroundVisibility visible w ->
         getScaleX w' = getScaleX w
         /\ getScaleY w' = getScaleY w
         /\ getScaleAvg w' = getScaleAvg w
         /\ previousViewportWidth w' = previousViewportWidth w
         /\ previousViewportHeight w' = previousViewportHeight w
         /\ getWidth w' = getWidth w
         /\ getHeight w' = getHeight w
         /\ dimensions w' = dimensions w
         /\ position w' = position w
         /\ designedWidth w' = designedWidth w
         /\ designedHeight w' = designedHeight w
         /\ designedPositionX w' = designedPositionX w
         /\ designedPositionY w' = designedPositionY w
         /\ title w' = title w
         /\ flags w' = flags w
         /\ currentTime w' = currentTime w).
Proof.
  split; [| split; [| split]].
  - intros debug host w w0 w1. rewrite buildStart_trace. cbn [trace fst].
    f_equal. fold w1.
    destruct (scale_step_keeps_background debug host w0)
      as (Ht & Hf & Hb & _).
    fold w1 in Ht, Hf, Hb. unfold region_open. rewrite Hb, Ht, Hf.
    reflexivity.
  - intros debug host w color w0 w1. rewrite buildStart_trace.
    cbn [trace fst]. f_equal. fold w1.
    destruct (scale_step_keeps_background debug host w0)
      as (Ht & Hf & Hb & Hc).
    fold w1 in Ht, Hf, Hb, Hc. unfold region_open. rewrite Hb, Ht, Hf, Hc.
    reflexivity.
  - intros color visible w. repeat split.
  - intros color visible w w' [-> | ->]; repeat split.
Qed.

Lemma background_setters_take_effect_witness :
  getScaleX (setBackgroundVisibility false example_window)
  = getScaleX example_window
  /\ getScaleY (setBackgroundVisibility false example_window)
     = getScaleY example_window.
Proof.
  destruct (proj2 (proj2 (proj2 background_setters_take_effect))
              DEFAULT_BG false example_window
              (setBackgroundVisibility false example_window)
              (or_intror eq_refl))
    as (Hx & Hy & _).
  split; assumption.
Defined.

(* ================================================================== *)
(** ** Comparison, and the error of a product or a quotient *)

(** *** The order of the single-precision numbers *)

Lemma dyadic_lt_iff M1 e1 M2 e2 c : c <= e1 -> c <= e2 ->
  (inject_Z M1 * 2 ^ e1 < inject_Z M2 * 2 ^ e2)%Q
  <-> M1 * 2 ^ (e1 - c) < M2 * 2 ^ (e2 - c).
Proof.
  intros H1 H2.
  rewrite (dyadic_split M1 e1 c H1), (dyadic_split M2 e2 c H2).
  rewrite Qmult_lt_r by apply pow2_pos.
  rewrite <- Zlt_Qlt. reflexivity.
Qed.

(** Among canonical mantissas a smaller exponent is a smaller number. *)
Lemma canonical_lt m1 e1 m2 e2 :
  canonical m1 e1 -> canonical m2 e2 -> e1 < e2 ->
  Z.pos m1 * 2 ^ (e1 - e1) < Z.pos m2 * 2 ^ (e2 - e1).
Proof.
  unfold canonical. rewrite !fexp_eq. intros C1 C2 He.
  rewrite Z.sub_diag, Z.mul_1_r.
  pose proof (D_bounds m1) as [_ B1]. pose proof (D_bounds m2) as [B2 _].
  pose proof (D_pos m1). pose proof (D_pos m2).
  assert (D2 : D m2 = 24) by lia. assert (D1 : D m1 <= 24) by lia.
  rewrite D2 in B2. change (2 ^ (24 - 1)) with 8388608 in B2.
  assert (Z.pos m1 < 16777216).
  { assert (2 ^ D m1 <= 2 ^ 24) by (apply Z.pow_le_mono_r; lia).
    change (2 ^ 24) with 16777216 in *. lia. }
  assert (2 <= 2 ^ (e2 - e1)).
  { change 2 with (2 ^ 1) at 1. apply Z.pow_le_mono_r; lia. }
  nia.
Qed.

Lemma Qcompare_Lt p q : (p < q)%Q -> (p ?= q)%Q = Lt.
Proof. intros H. apply Qlt_alt. exact H. Qed.

Lemma Qcompare_Gt p q : (q < p)%Q -> (p ?= q)%Q = Gt.
Proof. intros H. apply Qgt_alt. exact H. Qed.

Lemma Qcompare_Eq p q : (p == q)%Q -> (p ?= q)%Q = Eq.
Proof. intros H. apply Qeq_alt. exact H. Qed.

Lemma positive_value m e : (0 < inject_Z (Z.pos m) * 2 ^ e)%Q.
Proof.
  apply Qmult_lt_0_compat; [| apply pow2_pos].
  change 0%Q with (inject_Z 0). rewrite <- Zlt_Qlt. lia.
Qed.

Lemma negative_value m e : (inject_Z (Z.neg m) * 2 ^ e < 0)%Q.
Proof.
  change (Z.neg m) with (- Z.pos m). rewrite inject_Z_opp.
  pose proof (positive_value m e) as H.
  setoid_replace (- inject_Z (Z.pos m) * 2 ^ e)%Q
    with (- (inject_Z (Z.pos m) * 2 ^ e))%Q by ring.
  revert H. generalize (inject_Z (Z.pos m) * 2 ^ e)%Q. intros v H. lra.
Qed.

(** The magnitudes of two canonical numbers compare as the pairs of
    their exponents and mantissas do. *)
Lemma magnitude_compare m1 e1 m2 e2 :
  canonical m1 e1 -> canonical m2 e2 ->
  (inject_Z (Z.pos m1) * 2 ^ e1 ?= inject_Z (Z.pos m2) * 2 ^ e2)%Q
  = match e1 ?= e2 with
    | Lt => Lt
    | Gt => Gt
    | Eq => Pos.compare_cont Eq m1 m2
    end.
Proof.
  intros C1 C2. destruct (Z.compare_spec e1 e2) as [-> | Hlt | Hgt].
  - change (Pos.compare_cont Eq m1 m2) with (Z.pos m1 ?= Z.pos m2).
    destruct (Z.compare_spec (Z.pos m1) (Z.pos m2)) as [E | Hlt | Hgt].
    + apply Qcompare_Eq. rewrite E. reflexivity.
    + apply Qcompare_Lt. apply (dyadic_lt_iff _ _ _ _ e2); [lia | lia |].
      rewrite Z.sub_diag, !Z.mul_1_r. exact Hlt.
    + apply Qcompare_Gt. apply (dyadic_lt_iff _ _ _ _ e2); [lia | lia |].
      rewrite Z.sub_diag, !Z.mul_1_r. exact Hgt.
  - apply Qcompare_Lt. apply (dyadic_lt_iff _ _ _ _ e1); [lia | lia |].
    apply canonical_lt; assumption.
  - apply Qcompare_Gt. apply (dyadic_lt_iff _ _ _ _ e2); [lia | lia |].
    apply canonical_lt; assumption.
Qed.

Lemma Qcompare_opp p q : (- p ?= - q)%Q = CompOpp (p ?= q)%Q.
Proof.
  destruct (Qcompare_spec p q) as [E | H | H]; cbn [CompOpp].
  - apply Qcompare_Eq. rewrite E. reflexivity.
  - apply Qcompare_Gt. lra.
  - apply Qcompare_Lt. lra.
Qed.

(** Comparing two finite single-precision numbers is comparing their
    values. *)
Lemma compare_value a b :
  F32.valid a = true -> F32.is_finite a = true ->
  F32.valid b = true -> F32.is_finite b = true ->
  SFcompare a b = Some (F32.to_Q a ?= F32.to_Q b)%Q.
Proof.
  intros Va Fa Vb Fb.
  destruct a as [sa | sa | | sa ma ea]; try discriminate;
  destruct b as [sb | sb | | sb mb eb]; try discriminate;
    cbn [SFcompare F32.to_Q].
  - reflexivity.
  - f_equal. symmetry. destruct sb; cbn [cond_Zopp].
    + apply Qcompare_Gt, negative_value.
    + apply Qcompare_Lt, positive_value.
  - f_equal. symmetry. destruct sa; cbn [cond_Zopp].
    + apply Qcompare_Lt, negative_value.
    + apply Qcompare_Gt, positive_value.
  - apply bounded_spec in Va, Vb. destruct Va as [Ca _], Vb as [Cb _].
    f_equal. symmetry. destruct sa, sb; cbn [cond_Zopp].
    + change (Z.neg ma) with (- Z.pos ma). change (Z.neg mb) with (- Z.pos mb).
      rewrite !inject_Z_opp.
      setoid_replace (- inject_Z (Z.pos ma) * 2 ^ ea)%Q
        with (- (inject_Z (Z.pos ma) * 2 ^ ea))%Q by ring.
      setoid_replace (- inject_Z (Z.pos mb) * 2 ^ eb)%Q
        with (- (inject_Z (Z.pos mb) * 2 ^ eb))%Q by ring.
      rewrite Qcompare_opp, (magnitude_compare _ _ _ _ Ca Cb).
      destruct (ea ?= eb); reflexivity.
    + apply Qcompare_Lt.
      apply Qlt_trans with 0%Q; [apply negative_value | apply positive_value].
    + apply Qcompare_Gt.
      apply Qlt_trans with 0%Q; [apply negative_value | apply positive_value].
    + apply magnitude_compare; assumption.
Qed.

Lemma ltb_value a b :
  F32.valid a = true -> F32.is_finite a = true ->
  F32.valid b = true -> F32.is_finite b = true ->
  F32.ltb a b = true <-> (F32.to_Q a < F32.to_Q b)%Q.
Proof.
  intros Va Fa Vb Fb. unfold F32.ltb, SFltb.
  rewrite (compare_value a b Va Fa Vb Fb), Qlt_alt.
  destruct (F32.to_Q a ?= F32.to_Q b)%Q; split; congruence.
Qed.

Lemma ltb_false_value a b :
  F32.valid a = true -> F32.is_finite a = true ->
  F32.valid b = true -> F32.is_finite b = true ->
  F32.ltb a b = false <-> (F32.to_Q b <= F32.to_Q a)%Q.
Proof.
  intros Va Fa Vb Fb.
  pose proof (ltb_value a b Va Fa Vb Fb) as H.
  destruct (F32.ltb a b).
  - split; [discriminate |]. intros Hle.
    assert (F32.to_Q a < F32.to_Q b)%Q by (apply H; reflexivity). lra.
  - split; [| reflexivity]. intros _.
    destruct (Qlt_le_dec (F32.to_Q a) (F32.to_Q b)) as [Hlt | Hle];
      [| exact Hle].
    apply H in Hlt. discriminate.
Qed.

(** *** Rounding a quotient or a product: one of the two neighbours *)

Lemma shr_m_record_of_loc m l : shr_m (shr_record_of_loc m l) = m.
Proof. destruct l as [| []]; reflexivity. Qed.

Lemma shr_m_iter n : forall r,
  0 <= shr_m r -> shr_m (Nat.iter n shr_1 r) = shr_m r / 2 ^ Z.of_nat n.
Proof.
  induction n as [| n IH]; intros r Hr.
  - cbn. rewrite Z.div_1_r. reflexivity.
  - rewrite Nat.iter_succ_r.
    assert (E : shr_m (shr_1 r) = shr_m r / 2).
    { destruct r as [m b1 b2]. cbn [shr_m] in *.
      rewrite shr_1_spec by assumption. reflexivity. }
    rewrite IH by (rewrite E; apply Z.div_pos; lia).
    rewrite E, Z.div_div by (try lia; apply Z.pow_pos_nonneg; lia).
    rewrite Nat2Z.inj_succ, Z.pow_succ_r by lia. reflexivity.
Qed.

Lemma shr_m_shr r e n :
  0 <= shr_m r -> 0 <= n ->
  shr_m (fst (shr r e n)) = shr_m r / 2 ^ n /\ snd (shr r e n) = e + n.
Proof.
  intros Hr Hn. destruct n as [| p | p]; [| | lia]; cbn [shr fst snd].
  - rewrite Z.div_1_r, Z.add_0_r. split; reflexivity.
  - rewrite iter_pos_nat, shr_m_iter by assumption.
    rewrite positive_nat_Z. split; reflexivity.
Qed.

Lemma round_nearest_even_cases q l :
  round_nearest_even q l = q \/ round_nearest_even q l = q + 1.
Proof.
  destruct l as [| []]; cbn [round_nearest_even]; auto.
  destruct (Z.even q); auto.
Qed.

(** The digits of a quotient by a power of two. *)
Lemma D_div m q n :
  0 <= n -> Z.pos q = Z.pos m / 2 ^ n -> D q = D m - n.
Proof.
  intros Hn E. apply D_unique.
  pose proof (D_bounds m) as [Blo Bhi]. pose proof (D_pos m) as Dp.
  assert (Hp : 0 < 2 ^ n) by (apply Z.pow_pos_nonneg; lia).
  assert (Hdm : n < D m).
  { destruct (Z.lt_ge_cases n (D m)) as [| Hge]; [assumption |].
    assert (2 ^ D m <= 2 ^ n) by (apply Z.pow_le_mono_r; lia).
    assert (Z.pos m / 2 ^ n = 0) by (apply Z.div_small; lia). lia. }
  rewrite E. split.
  - apply Z.div_le_lower_bound; [exact Hp |].
    rewrite <- Z.pow_add_r by lia. replace (n + (D m - n - 1)) with (D m - 1) by lia.
    exact Blo.
  - apply Z.div_lt_upper_bound; [exact Hp |].
    rewrite <- Z.pow_add_r by lia. replace (n + (D m - n)) with (D m) by lia.
    exact Bhi.
Qed.

(** Adding one to a mantissa keeps its digits, unless it becomes a
    power of two. *)
Lemma D_succ p k :
  Z.pos k = Z.pos p + 1 ->
  D k = D p \/ (D k = D p + 1 /\ Z.pos k = 2 ^ D p).
Proof.
  intros E. pose proof (D_bounds p) as [Blo Bhi]. pose proof (D_pos p) as Dp.
  destruct (Z.eq_dec (Z.pos k) (2 ^ D p)) as [Ek | Hne].
  - right. split; [| exact Ek]. apply D_unique.
    replace (D p + 1 - 1) with (D p) by lia.
    rewrite Z.pow_add_r, Z.pow_1_r by lia. lia.
  - left. apply D_unique. lia.
Qed.

(** The last step of a rounding: a mantissa [k] whose exponent [e] is
    the canonical one, or that has just grown to [2^24]. *)
Lemma finish_rounding s k e :
  -149 <= e ->
  canonical k e \/ (Z.pos k = 16777216 /\ fexp (25 + e) = e + 1) ->
  magnitude_is
    (let '(mrs, e') := shr_fexp F32.prec F32.emax (Z.pos k) e loc_Exact in
     match shr_m mrs with
     | 0 => S754_zero s
     | Z.pos m =>
         if e' <=? F32.emax - F32.prec then S754_finite s m e'
         else S754_infinity s
     | Z.neg _ => S754_nan
     end) s (Z.pos k) e.
Proof.
  intros He [Hc | [Ek Hf]].
  - unfold shr_fexp. cbn [Zdigits2 shr_record_of_loc].
    change (Z.pos (digits2_pos k)) with (D k).
    change (SpecFloat.fexp F32.prec F32.emax (D k + e)) with (fexp (D k + e)).
    rewrite Hc, Z.sub_diag. cbn [shr shr_m].
    change (F32.emax - F32.prec) with 104.
    destruct (Z.leb_spec e 104) as [Hb | Hb]; cbn [magnitude_is].
    + split; [reflexivity |]. split.
      * apply bounded_spec. split; assumption.
      * unfold same_dyadic. reflexivity.
    + split; [reflexivity |]. split; lia.
  - injection Ek as ->.
    unfold shr_fexp. cbn [Zdigits2 shr_record_of_loc digits2_pos Pos.succ].
    change (SpecFloat.fexp F32.prec F32.emax (25 + e)) with (fexp (25 + e)).
    rewrite Hf. replace (e + 1 - e) with 1 by lia. cbn [shr iter_pos shr_1 shr_m].
    change (F32.emax - F32.prec) with 104.
    destruct (Z.leb_spec (e + 1) 104) as [Hb | Hb]; cbn [magnitude_is].
    + split; [reflexivity |]. split.
      * apply bounded_spec. split; [| assumption]. unfold canonical.
        change (D 8388608) with 24. replace (24 + (e + 1)) with (25 + e) by lia.
        exact Hf.
      * unfold same_dyadic. rewrite Z.min_r by lia.
        replace (e + 1 - e) with 1 by lia. rewrite Z.sub_diag. reflexivity.
    + split; [reflexivity |]. split; lia.
Qed.

(** [binary_round_aux] on a mantissa with at least the digits of the
    format: the mantissa is divided by the power of two that brings it to
    the canonical exponent [e1], and the result is the quotient or its
    successor. *)
Lemma round_aux_faithful s mx ex lx :
  0 <= mx -> ex <= fexp (Zdigits2 mx + ex) ->
  exists k,
    (k = mx / 2 ^ (fexp (Zdigits2 mx + ex) - ex)
     \/ k = mx / 2 ^ (fexp (Zdigits2 mx + ex) - ex) + 1)
    /\ magnitude_is (binary_round_aux F32.prec F32.emax s mx ex lx) s k
         (fexp (Zdigits2 mx + ex)).
Proof.
  intros Hmx Hex. set (e1 := fexp (Zdigits2 mx + ex)) in *.
  assert (He1 : -149 <= e1) by (unfold e1; rewrite fexp_eq; lia).
  set (q := mx / 2 ^ (e1 - ex)).
  assert (Hq : 0 <= q) by (apply Z.div_pos; [lia | apply Z.pow_pos_nonneg; lia]).
  unfold binary_round_aux.
  destruct (shr_fexp F32.prec F32.emax mx ex lx) as [mrs' e'] eqn:S1.
  assert (H1 : shr_m mrs' = q /\ e' = e1).
  { unfold shr_fexp in S1.
    change (SpecFloat.fexp F32.prec F32.emax (Zdigits2 mx + ex)) with e1 in S1.
    pose proof (shr_m_shr (shr_record_of_loc mx lx) ex (e1 - ex)) as H.
    rewrite shr_m_record_of_loc in H. specialize (H Hmx ltac:(lia)).
    rewrite S1 in H. cbn [fst snd] in H. destruct H as [Hm He]. split; [exact Hm | lia]. }
  destruct H1 as [Hm ->]. rewrite Hm.
  set (k := round_nearest_even q (loc_of_shr_record mrs')).
  assert (Hk : k = q \/ k = q + 1) by apply round_nearest_even_cases.
  exists k. split; [exact Hk |].
  destruct k as [| pk | pk] eqn:Ek; [| | lia].
  - (* rounded to zero *)
    unfold shr_fexp. cbn [Zdigits2 shr_record_of_loc].
    change (SpecFloat.fexp F32.prec F32.emax (0 + e1)) with (fexp (0 + e1)).
    assert (Hn : fexp (0 + e1) - e1 <= 0) by (rewrite fexp_eq; lia).
    destruct (fexp (0 + e1) - e1) as [| p | p]; try lia;
      cbn [shr shr_m magnitude_is]; split; reflexivity.
  - apply finish_rounding; [exact He1 |].
    (* the digits of the quotient *)
    destruct q as [| pq | pq] eqn:Eq; [| | lia].
    + (* the mantissa was shifted out entirely *)
      assert (Epk : pk = 1%positive) by lia. subst pk. left.
      assert (Hd : Zdigits2 mx + ex <= e1).
      { destruct mx as [| pm | pm]; [| | lia].
        - cbn [Zdigits2]. cbn [Zdigits2] in Hex. fold e1 in Hex. lia.
        - cbn [Zdigits2]. change (Z.pos (digits2_pos pm)) with (D pm).
          pose proof (D_bounds pm) as [Blo _]. pose proof (D_pos pm).
          destruct (Z.le_gt_cases (D pm) (e1 - ex)) as [| Hgt]; [lia |].
          assert (2 ^ (e1 - ex) <= 2 ^ (D pm - 1)) by (apply Z.pow_le_mono_r; lia).
          assert (0 < 2 ^ (e1 - ex)) by (apply Z.pow_pos_nonneg; lia).
          assert (1 <= Z.pos pm / 2 ^ (e1 - ex))
            by (apply Z.div_le_lower_bound; lia).
          unfold q in Eq. lia. }
      unfold canonical. change (D 1) with 1. rewrite fexp_eq.
      unfold e1 in Hd |- *. rewrite fexp_eq in Hd |- *. lia.
    + destruct mx as [| pm | pm]; [unfold q in Eq; cbn in Eq; discriminate | | lia].
      cbn [Zdigits2] in e1. change (Z.pos (digits2_pos pm)) with (D pm) in e1.
      assert (HD : D pq = D pm - (e1 - ex)) by (apply D_div; [lia | rewrite <- Eq; reflexivity]).
      assert (Hcq : fexp (D pq + e1) = e1).
      { rewrite HD. replace (D pm - (e1 - ex) + e1) with (D pm + ex) by lia.
        reflexivity. }
      destruct Hk as [Hk | Hk].
      * left. unfold canonical. injection Hk as ->. exact Hcq.
      * destruct (D_succ pq pk Hk) as [Hd | [Hd Hp]].
        -- left. unfold canonical. rewrite Hd. exact Hcq.
        -- rewrite fexp_eq in Hcq. pose proof (D_pos pq).
           destruct (Z.eq_dec (D pq) 24) as [E24 | N24].
           ++ right. rewrite E24 in Hp. split; [exact Hp |].
              rewrite fexp_eq. lia.
           ++ left. unfold canonical. rewrite Hd, fexp_eq. lia.
Qed.

(** *** The error of a rounded product or quotient *)

Lemma signed_inject s k : (signed s (inject_Z k) == inject_Z (cond_Zopp s k))%Q.
Proof. destruct s; cbn [signed cond_Zopp]; [rewrite inject_Z_opp |]; reflexivity. Qed.

Lemma signed_mult s a b : (signed s a * b == signed s (a * b))%Q.
Proof. destruct s; cbn [signed]; ring. Qed.

Lemma signed_abs_diff s a b : (Qabs (signed s a - signed s b) == Qabs (a - b))%Q.
Proof.
  destruct s; cbn [signed]; [| reflexivity].
  setoid_replace (- a - - b)%Q with (- (a - b))%Q by ring. apply Qabs_opp.
Qed.

Lemma pow2_split a b : (2 ^ (a + b) == 2 ^ a * 2 ^ b)%Q.
Proof. apply Qpower_plus, two_nonzero. Qed.

Lemma pow2_inject n : 0 <= n -> (inject_Z (2 ^ n) == 2 ^ n)%Q.
Proof. intros Hn. rewrite Zpower_Qpower by assumption. reflexivity. Qed.

(** The value of a float with a given magnitude. *)
Lemma magnitude_value f s k e :
  magnitude_is f s k e -> F32.is_finite f = true ->
  F32.valid f = true
  /\ (F32.to_Q f == signed s (inject_Z k * 2 ^ e))%Q.
Proof.
  destruct f as [s' | s' | | s' m e']; cbn [magnitude_is]; try discriminate.
  - intros [-> ->] _. split; [reflexivity |]. cbn [F32.to_Q].
    destruct s; cbn [signed]; change (inject_Z 0) with 0%Q; ring.
  - intros (-> & Hb & E) _. split; [exact Hb |]. cbn [F32.to_Q].
    apply dyadic_same in E. destruct s; cbn [signed cond_Zopp].
    + change (Z.neg m) with (- Z.pos m). rewrite inject_Z_opp, <- E. ring.
    + exact E.
Qed.

(** The two neighbours of [x] on the grid of step [2^n]. *)
Lemma neighbour_distance mx n k (x : Q) :
  0 <= mx -> 0 <= n ->
  (inject_Z mx <= x)%Q -> (x < inject_Z mx + 1)%Q ->
  k = mx / 2 ^ n \/ k = mx / 2 ^ n + 1 ->
  (Qabs (inject_Z (k * 2 ^ n) - x) <= inject_Z (2 ^ n))%Q.
Proof.
  intros Hmx Hn Hlo Hhi Hk.
  assert (Hp : 0 < 2 ^ n) by (apply Z.pow_pos_nonneg; lia).
  pose proof (Z.div_mod mx (2 ^ n) ltac:(lia)) as Ed.
  pose proof (Z.mod_pos_bound mx (2 ^ n) Hp) as Hr.
  set (q := mx / 2 ^ n) in *.
  assert (H1 : (inject_Z (q * 2 ^ n) <= inject_Z mx)%Q)
    by (rewrite <- Zle_Qle; lia).
  assert (H2 : (inject_Z mx + 1 <= inject_Z (q * 2 ^ n) + inject_Z (2 ^ n))%Q).
  { change 1%Q with (inject_Z 1). rewrite <- !inject_Z_plus, <- Zle_Qle. lia. }
  apply Qabs_Qle_condition.
  destruct Hk as [-> | ->].
  - lra.
  - replace ((q + 1) * 2 ^ n) with (q * 2 ^ n + 2 ^ n) by ring.
    rewrite inject_Z_plus. lra.
Qed.

(** The grid step at the canonical exponent, against the number. *)
Lemma step_bound mx ex (x : Q) :
  0 <= mx -> ex <= fexp (Zdigits2 mx + ex) ->
  (inject_Z mx <= x)%Q ->
  (2 ^ fexp (Zdigits2 mx + ex) <= (1 # 8388608) * (x * 2 ^ ex) + 2 ^ (-149))%Q.
Proof.
  intros Hmx Hex Hlo.
  assert (Hx : (0 <= x)%Q).
  { apply Qle_trans with (inject_Z mx); [| exact Hlo].
    change 0%Q with (inject_Z 0). rewrite <- Zle_Qle. exact Hmx. }
  assert (Hv : (0 <= (1 # 8388608) * (x * 2 ^ ex))%Q).
  { apply Qmult_le_0_compat; [discriminate |].
    apply Qmult_le_0_compat; [exact Hx | apply Qlt_le_weak, pow2_pos]. }
  destruct (Z.eq_dec (fexp (Zdigits2 mx + ex)) (-149)) as [-> | Hne].
  - lra.
  - rewrite fexp_eq in Hne, Hex |- *.
    assert (HE : Z.max (Zdigits2 mx + ex - 24) (-149) = Zdigits2 mx + ex - 24) by lia.
    rewrite HE in *.
    destruct mx as [| pm | pm]; [cbn [Zdigits2] in *; lia | | lia].
    cbn [Zdigits2] in *. change (Z.pos (digits2_pos pm)) with (D pm) in *.
    pose proof (D_bounds pm) as [Blo _]. pose proof (D_pos pm) as Dp.
    replace (D pm + ex - 24) with ((D pm - 1) + (ex + (-23))) by lia.
    rewrite !pow2_split, <- pow2_inject by lia.
    change (2 ^ (-23))%Q with (1 # 8388608)%Q.
    assert (H1 : (inject_Z (2 ^ (D pm - 1)) <= x)%Q).
    { apply Qle_trans with (inject_Z (Z.pos pm)); [| exact Hlo].
      rewrite <- Zle_Qle. exact Blo. }
    assert (H2 : (inject_Z (2 ^ (D pm - 1)) * 2 ^ ex <= x * 2 ^ ex)%Q)
      by (apply Qmult_le_compat_r; [exact H1 | apply Qlt_le_weak, pow2_pos]).
    pose proof (pow2_pos (-149)) as H3.
    apply Qle_trans with ((1 # 8388608) * (x * 2 ^ ex))%Q.
    + setoid_replace (inject_Z (2 ^ (D pm - 1)) * (2 ^ ex * (1 # 8388608)))%Q
        with ((1 # 8388608) * (inject_Z (2 ^ (D pm - 1)) * 2 ^ ex))%Q by ring.
      apply Qmult_le_l; [reflexivity | exact H2].
    + rewrite <- (Qplus_0_r ((1 # 8388608) * (x * 2 ^ ex))) at 1.
      apply Qplus_le_r. apply Qlt_le_weak. exact H3.
Qed.

Lemma round_aux_error s mx ex lx (x : Q) :
  0 <= mx -> ex <= fexp (Zdigits2 mx + ex) ->
  (inject_Z mx <= x)%Q -> (x < inject_Z mx + 1)%Q ->
  ((x * 2 ^ ex < 2 ^ 127)%Q ->
   F32.is_finite (binary_round_aux F32.prec F32.emax s mx ex lx) = true)
  /\ (F32.is_finite (binary_round_aux F32.prec F32.emax s mx ex lx) = true ->
      F32.valid (binary_round_aux F32.prec F32.emax s mx ex lx) = true
      /\ (Qabs (F32.to_Q (binary_round_aux F32.prec F32.emax s mx ex lx)
                - signed s (x * 2 ^ ex))
          <= (1 # 8388608) * (x * 2 ^ ex) + 2 ^ (-149))%Q).
Proof.
  intros Hmx Hex Hlo Hhi.
  destruct (round_aux_faithful s mx ex lx Hmx Hex) as (k & Hk & Hmag).
  set (f := binary_round_aux F32.prec F32.emax s mx ex lx) in *.
  set (E := fexp (Zdigits2 mx + ex)) in *.
  split.
  - intros Hsmall. destruct f as [s' | s' | | s' m e']; try reflexivity.
    + exfalso. cbn [magnitude_is] in Hmag. destruct Hmag as (_ & Hk0 & HE).
      unfold E in HE. rewrite fexp_eq in HE.
      destruct mx as [| pm | pm]; [cbn [Zdigits2] in * | | lia].
      * unfold E in Hex. rewrite fexp_eq in Hex. lia.
      * cbn [Zdigits2] in HE. change (Z.pos (digits2_pos pm)) with (D pm) in HE.
        pose proof (D_bounds pm) as [Blo _]. pose proof (D_pos pm) as Dp.
        assert (H1 : (inject_Z (2 ^ (D pm - 1)) * 2 ^ ex <= x * 2 ^ ex)%Q).
        { apply Qmult_le_compat_r; [| apply Qlt_le_weak, pow2_pos].
          apply Qle_trans with (inject_Z (Z.pos pm)); [| exact Hlo].
          rewrite <- Zle_Qle. exact Blo. }
        rewrite pow2_inject, <- pow2_split in H1 by lia.
        assert (H2 : (2 ^ 127 <= 2 ^ (D pm - 1 + ex))%Q)
          by (apply Qpower_le_compat_l; [lia | discriminate]).
        apply (Qlt_irrefl (2 ^ 127)).
        apply Qle_lt_trans with (x * 2 ^ ex)%Q; [| exact Hsmall].
        apply Qle_trans with (2 ^ (D pm - 1 + ex))%Q; assumption.
    + cbn [magnitude_is] in Hmag. contradiction.
  - intros Hf. destruct (magnitude_value f s k E Hmag Hf) as [Hv Hq].
    split; [exact Hv |]. rewrite Hq, signed_abs_diff.
    assert (HE : (2 ^ E == inject_Z (2 ^ (E - ex)) * 2 ^ ex)%Q).
    { rewrite pow2_inject, <- pow2_split by lia. replace (E - ex + ex) with E by lia.
      reflexivity. }
    apply Qle_trans with (2 ^ E)%Q; [| apply step_bound; assumption].
    rewrite HE.
    setoid_replace (inject_Z k * (inject_Z (2 ^ (E - ex)) * 2 ^ ex) - x * 2 ^ ex)%Q
      with ((inject_Z (k * 2 ^ (E - ex)) - x) * 2 ^ ex)%Q
      by (rewrite inject_Z_mult; ring).
    rewrite Qabs_Qmult, (Qabs_pos (2 ^ ex)) by apply Qlt_le_weak, pow2_pos.
    apply Qmult_le_compat_r; [| apply Qlt_le_weak, pow2_pos].
    apply neighbour_distance with mx; (assumption || lia).
Qed.

Lemma signed_abs s v : (0 <= v)%Q -> (Qabs (signed s v) == v)%Q.
Proof.
  intros Hv. destruct s; cbn [signed]; [rewrite Qabs_opp |]; apply Qabs_pos, Hv.
Qed.

Lemma signed_eq s a b : (a == b)%Q -> (signed s a == signed s b)%Q.
Proof. intros E. destruct s; cbn [signed]; rewrite E; reflexivity. Qed.

Lemma canonical_emin m e : canonical m e -> -149 <= e.
Proof. unfold canonical. rewrite fexp_eq. lia. Qed.

(** A product is rounded to one of its two neighbours: it overflows
    only from [2^127] on, and is off by at most [2^-23] of its value,
    or [2^-149]. *)
Lemma mul_bound x y :
  F32.valid x = true -> F32.is_finite x = true ->
  F32.valid y = true -> F32.is_finite y = true ->
  ((Qabs (F32.to_Q x * F32.to_Q y) < 2 ^ 127)%Q ->
   F32.is_finite (x * y)%f32 = true)
  /\ (F32.is_finite (x * y)%f32 = true ->
      F32.valid (x * y)%f32 = true
      /\ (Qabs (F32.to_Q (x * y)%f32 - F32.to_Q x * F32.to_Q y)
          <= (1 # 8388608) * Qabs (F32.to_Q x * F32.to_Q y) + 2 ^ (-149))%Q).
Proof.
  intros Vx Fx Vy Fy.
  assert (Hzero : forall s q, (q == 0)%Q ->
            ((Qabs q < 2 ^ 127)%Q -> F32.is_finite (S754_zero s) = true)
            /\ (F32.is_finite (S754_zero s) = true ->
                F32.valid (S754_zero s) = true
                /\ (Qabs (F32.to_Q (S754_zero s) - q)
                    <= (1 # 8388608) * Qabs q + 2 ^ (-149))%Q)).
  { intros s q Hq. split; [reflexivity |]. intros _. split; [reflexivity |].
    cbn [F32.to_Q]. rewrite Hq. cbn. discriminate. }
  destruct x as [sx | sx | | sx mx ex]; try discriminate;
  destruct y as [sy | sy | | sy my ey]; try discriminate;
    try (apply Hzero; cbn [F32.to_Q]; ring).
  pose proof (proj1 (bounded_spec _ _) Vx) as [Cx _].
  pose proof (proj1 (bounded_spec _ _) Vy) as [Cy _].
  unfold F32.mul, SFmul.
  set (P := Z.pos (mx * my)).
  assert (Hex : ex + ey <= fexp (Zdigits2 P + (ex + ey))).
  { unfold P. cbn [Zdigits2]. change (Z.pos (digits2_pos (mx * my))) with (D (mx * my)).
    pose proof (D_mul_lower mx my). pose proof (D_pos mx). pose proof (D_pos my).
    unfold canonical in Cx, Cy. rewrite fexp_eq in *. lia. }
  assert (Hv : (signed (xorb sx sy) (inject_Z P * 2 ^ (ex + ey))
                == F32.to_Q (S754_finite sx mx ex) * F32.to_Q (S754_finite sy my ey))%Q).
  { cbn [F32.to_Q]. rewrite <- mul_value, <- signed_mult, signed_inject.
    reflexivity. }
  assert (Hpos : (0 <= inject_Z P * 2 ^ (ex + ey))%Q)
    by (apply Qlt_le_weak, positive_value).
  assert (Ha : (Qabs (F32.to_Q (S754_finite sx mx ex) * F32.to_Q (S754_finite sy my ey))
                == inject_Z P * 2 ^ (ex + ey))%Q).
  { rewrite <- Hv. apply signed_abs. exact Hpos. }
  destruct (round_aux_error (xorb sx sy) P (ex + ey) loc_Exact (inject_Z P))
    as [Hfin Herr]; [unfold P; lia | exact Hex | apply Qle_refl | |].
  { rewrite <- (Qplus_0_r (inject_Z P)) at 1. apply Qplus_lt_r. reflexivity. }
  rewrite Ha, <- Hv. split; assumption.
Qed.

(** The digits of a quotient. *)
Lemma D_quotient m' my q :
  0 < my -> Z.pos q = m' / my ->
  forall c, 2 ^ c * my <= m' -> 0 <= c -> c + 1 <= D q.
Proof.
  intros Hmy E c Hc Hc0.
  pose proof (D_bounds q) as [_ Bhi]. pose proof (D_pos q).
  assert (H1 : 2 ^ c <= Z.pos q).
  { rewrite E. apply Z.div_le_lower_bound; lia. }
  destruct (Z.le_gt_cases (c + 1) (D q)) as [| Hgt]; [assumption |].
  assert (2 ^ D q <= 2 ^ c) by (apply Z.pow_le_mono_r; lia). lia.
Qed.

Lemma div_eucl_floor a b :
  0 <= a -> 0 < b ->
  let q := fst (Z.div_eucl a b) in
  q = a / b /\ 0 <= q
  /\ (inject_Z q <= inject_Z a / inject_Z b)%Q
  /\ (inject_Z a / inject_Z b < inject_Z q + 1)%Q.
Proof.
  intros Ha Hb q. assert (Eq : q = a / b) by reflexivity.
  pose proof (Z.div_mod a b ltac:(lia)) as Ed.
  pose proof (Z.mod_pos_bound a b Hb) as Hr. rewrite <- Eq in Ed.
  assert (Hq : 0 <= q) by (rewrite Eq; apply Z.div_pos; lia).
  assert (Hbq : (0 < inject_Z b)%Q)
    by (change 0%Q with (inject_Z 0); rewrite <- Zlt_Qlt; exact Hb).
  split; [exact Eq |]. split; [exact Hq |]. split.
  - apply Qle_shift_div_l; [exact Hbq |].
    rewrite <- inject_Z_mult, <- Zle_Qle. lia.
  - apply Qlt_shift_div_r; [exact Hbq |].
    change 1%Q with (inject_Z 1).
    rewrite <- inject_Z_plus, <- inject_Z_mult, <- Zlt_Qlt. lia.
Qed.

(** A quotient is rounded to one of its two neighbours. *)
Lemma div_bound x y :
  F32.valid x = true -> F32.is_finite x = true ->
  F32.valid y = true -> F32.is_finite y = true ->
  ~ (F32.to_Q y == 0)%Q ->
  ((Qabs (F32.to_Q x / F32.to_Q y) < 2 ^ 127)%Q ->
   F32.is_finite (x / y)%f32 = true)
  /\ (F32.is_finite (x / y)%f32 = true ->
      F32.valid (x / y)%f32 = true
      /\ (Qabs (F32.to_Q (x / y)%f32 - F32.to_Q x / F32.to_Q y)
          <= (1 # 8388608) * Qabs (F32.to_Q x / F32.to_Q y) + 2 ^ (-149))%Q).
Proof.
  intros Vx Fx Vy Fy Hy.
  destruct y as [sy | sy | | sy my ey]; try discriminate;
    [exfalso; apply Hy; reflexivity |].
  destruct x as [sx | sx | | sx mx ex]; try discriminate.
  - split; [reflexivity |]. intros _. split; [reflexivity |].
    change (S754_zero sx / S754_finite sy my ey)%f32
      with (S754_zero (xorb sx sy)).
    cbn [F32.to_Q]. generalize (inject_Z (cond_Zopp sy (Z.pos my)) * 2 ^ ey)%Q.
    intros v. setoid_replace (0 / v)%Q with 0%Q by (unfold Qdiv; ring).
    cbn. discriminate.
  - pose proof (proj1 (bounded_spec _ _) Vx) as [Cx _].
    pose proof (proj1 (bounded_spec _ _) Vy) as [Cy _].
    unfold canonical in Cx, Cy. rewrite fexp_eq in Cx, Cy.
    pose proof (D_bounds mx) as [Bxl Bxh]. pose proof (D_bounds my) as [Byl Byh].
    pose proof (D_pos mx) as Dx. pose proof (D_pos my) as Dy.
    unfold F32.div, SFdiv, SFdiv_core_binary. cbn [Zdigits2].
    change (Z.pos (digits2_pos mx)) with (D mx).
    change (Z.pos (digits2_pos my)) with (D my).
    change (SpecFloat.fexp F32.prec F32.emax (D mx + ex - (D my + ey)))
      with (fexp (D mx + ex - (D my + ey))).
    set (e' := Z.min (fexp (D mx + ex - (D my + ey))) (ex - ey)).
    assert (He' : e' = Z.min (Z.max (D mx + ex - (D my + ey) - 24) (-149))
                             (ex - ey))
      by (unfold e'; rewrite fexp_eq; reflexivity).
    clearbody e'.
    set (s' := ex - ey - e').
    assert (Es' : s' = ex - ey - e') by reflexivity.
    assert (Hs : 0 <= s') by lia.
    clearbody s'.
    set (m' := match s' with
               | 0 => Z.pos mx
               | Z.pos _ => Z.shiftl (Z.pos mx) s'
               | Z.neg _ => 0
               end).
    assert (Hm : m' = Z.pos mx * 2 ^ s').
    { unfold m'. destruct s' as [| p | p] eqn:Es; [lia | | lia].
      apply Z.shiftl_mul_pow2. lia. }
    assert (Hps : 0 < 2 ^ s') by (apply Z.pow_pos_nonneg; lia).
    assert (Hm0 : 0 <= m') by (rewrite Hm; lia).
    destruct (div_eucl_floor m' (Z.pos my) Hm0 ltac:(lia)) as (Eq & Hq0 & Hlo & Hhi).
    destruct (Z.div_eucl m' (Z.pos my)) as [q r] eqn:Ediv. cbn [fst] in *.
    (* the quotient has the digits the format asks for *)
    assert (Hex : e' <= fexp (Zdigits2 q + e')).
    { rewrite fexp_eq. destruct q as [| pq | pq]; [| | lia]; cbn [Zdigits2].
      - destruct (Z.le_gt_cases e' (-149)) as [| Hgt]; [lia |]. exfalso.
        assert (Hs' : D my - D mx + 24 <= s') by lia.
        assert (H1 : 2 ^ (D mx - 1 + (D my - D mx + 24)) <= m').
        { rewrite Hm, Z.pow_add_r by lia.
          assert (2 ^ (D my - D mx + 24) <= 2 ^ s') by (apply Z.pow_le_mono_r; lia).
          assert (0 < 2 ^ (D mx - 1)) by (apply Z.pow_pos_nonneg; lia).
          nia. }
        replace (D mx - 1 + (D my - D mx + 24)) with (D my + 23) in H1 by lia.
        assert (2 ^ D my <= 2 ^ (D my + 23)) by (apply Z.pow_le_mono_r; lia).
        assert (0 < m' / Z.pos my) by (apply Z.div_str_pos; lia).
        lia.
      - change (Z.pos (digits2_pos pq)) with (D pq). pose proof (D_pos pq).
        assert (HD : D mx + s' - D my <= D pq).
        { destruct (Z.le_gt_cases (D mx + s' - D my) 1) as [| Hgt]; [lia |].
          pose proof (D_quotient m' (Z.pos my) pq ltac:(lia) Eq
                        (D mx + s' - D my - 1)) as H1.
          assert (2 ^ (D mx + s' - D my - 1) * Z.pos my <= m'); [| lia].
          rewrite Hm.
          assert (2 ^ (D mx + s' - D my - 1) * 2 ^ D my = 2 ^ (D mx - 1) * 2 ^ s').
          { rewrite <- !Z.pow_add_r by lia. f_equal. lia. }
          assert (0 < 2 ^ (D mx + s' - D my - 1)) by (apply Z.pow_pos_nonneg; lia).
          nia. }
        lia. }
    set (xq := (inject_Z m' / inject_Z (Z.pos my))%Q) in *.
    assert (Hpy : (0 < inject_Z (Z.pos my))%Q) by reflexivity.
    assert (Hv : (signed (xorb sx sy) (xq * 2 ^ e')
                  == F32.to_Q (S754_finite sx mx ex) / F32.to_Q (S754_finite sy my ey))%Q).
    { assert (E3 : (xq * 2 ^ e'
                    == inject_Z (Z.pos mx) * 2 ^ ex
                       / (inject_Z (Z.pos my) * 2 ^ ey))%Q).
      { unfold xq. rewrite Hm, inject_Z_mult, pow2_inject by lia.
        assert (E2 : (2 ^ ex == 2 ^ s' * 2 ^ e' * 2 ^ ey)%Q).
        { rewrite <- !pow2_split. replace (s' + e' + ey) with ex by lia.
          reflexivity. }
        rewrite E2. field. split; [apply pow2_nonzero | discriminate]. }
      rewrite (signed_eq _ _ _ E3). cbn [F32.to_Q].
      destruct sx, sy; cbn [xorb signed cond_Zopp];
        change (Z.neg mx) with (- Z.pos mx); change (Z.neg my) with (- Z.pos my);
        rewrite ?inject_Z_opp; field;
        (split; [apply pow2_nonzero | discriminate]). }
    assert (Hpos : (0 <= xq * 2 ^ e')%Q).
    { apply Qmult_le_0_compat; [| apply Qlt_le_weak, pow2_pos].
      apply Qle_trans with (inject_Z q); [| exact Hlo].
      change 0%Q with (inject_Z 0). rewrite <- Zle_Qle. exact Hq0. }
    assert (Ha : (Qabs (F32.to_Q (S754_finite sx mx ex)
                        / F32.to_Q (S754_finite sy my ey)) == xq * 2 ^ e')%Q).
    { rewrite <- Hv. apply signed_abs. exact Hpos. }
    destruct (round_aux_error (xorb sx sy) q e' (new_location (Z.pos my) r)
                xq Hq0 Hex Hlo Hhi) as [Hfin Herr].
    rewrite Ha, <- Hv. split; assumption.
Qed.

(** *** Sums that do not overflow *)

(** [binary_round] first gives the mantissa the digits of the format. *)
Lemma binary_round_aligned s m e :
  exists mz ez,
    binary_round F32.prec F32.emax s m e
    = binary_round_aux F32.prec F32.emax s (Z.pos mz) ez loc_Exact
    /\ ez <= fexp (Zdigits2 (Z.pos mz) + ez)
    /\ (inject_Z (Z.pos mz) * 2 ^ ez == inject_Z (Z.pos m) * 2 ^ e)%Q.
Proof.
  unfold binary_round.
  change (Z.pos (digits2_pos m)) with (D m).
  change (SpecFloat.fexp F32.prec F32.emax (D m + e)) with (fexp (D m + e)).
  unfold shl_align. destruct (fexp (D m + e) - e) as [| d | d] eqn:Ed.
  - exists m, e. split; [reflexivity |]. split; [| reflexivity].
    cbn [Zdigits2]. change (Z.pos (digits2_pos m)) with (D m). lia.
  - exists m, e. split; [reflexivity |]. split; [| reflexivity].
    cbn [Zdigits2]. change (Z.pos (digits2_pos m)) with (D m). lia.
  - exists (Pos.iter xO m d), (fexp (D m + e)). split; [reflexivity |].
    assert (Hz : Z.pos (Pos.iter xO m d) = Z.pos m * 2 ^ (e - fexp (D m + e))).
    { rewrite pos_iter_xO. f_equal. f_equal. lia. }
    split.
    + cbn [Zdigits2]. change (Z.pos (digits2_pos (Pos.iter xO m d)))
        with (D (Pos.iter xO m d)).
      rewrite (D_shift m (Pos.iter xO m d) (e - fexp (D m + e)))
        by (lia || exact Hz).
      replace (D m + (e - fexp (D m + e)) + fexp (D m + e)) with (D m + e) by lia.
      lia.
    + rewrite Hz. symmetry. apply dyadic_split. lia.
Qed.

Lemma normalize_finite M e :
  (Qabs (inject_Z M * 2 ^ e) < 2 ^ 127)%Q ->
  F32.is_finite (binary_normalize F32.prec F32.emax M e false) = true.
Proof.
  intros Hs. rewrite Qabs_dyadic in Hs.
  assert (H : forall s m, Z.abs M = Z.pos m ->
              F32.is_finite (binary_round F32.prec F32.emax s m e) = true).
  { intros s m Em. rewrite Em in Hs.
    destruct (binary_round_aligned s m e) as (mz & ez & -> & Hex & Ev).
    destruct (round_aux_error s (Z.pos mz) ez loc_Exact (inject_Z (Z.pos mz)))
      as [Hfin _]; [lia | exact Hex | apply Qle_refl | |].
    - rewrite <- (Qplus_0_r (inject_Z (Z.pos mz))) at 1.
      apply Qplus_lt_r. reflexivity.
    - apply Hfin. rewrite Ev. exact Hs. }
  destruct M as [| m | m]; cbn [binary_normalize].
  - reflexivity.
  - apply H. reflexivity.
  - apply H. reflexivity.
Qed.

Lemma add_small x y :
  F32.valid x = true -> F32.is_finite x = true ->
  F32.valid y = true -> F32.is_finite y = true ->
  (Qabs (F32.to_Q x + F32.to_Q y) < 2 ^ 127)%Q ->
  F32.is_finite (x + y)%f32 = true.
Proof.
  intros Vx Fx Vy Fy Hs.
  destruct x as [sx | sx | | sx mx ex]; try discriminate;
  destruct y as [sy | sy | | sy my ey]; try discriminate;
    try reflexivity.
  - destruct sx, sy; reflexivity.
  - unfold F32.add, SFadd. apply normalize_finite.
    rewrite inject_Z_plus, Qmult_plus_distr_l.
    rewrite !aligned_value by lia. exact Hs.
Qed.

Lemma sub_small x y :
  F32.valid x = true -> F32.is_finite x = true ->
  F32.valid y = true -> F32.is_finite y = true ->
  (Qabs (F32.to_Q x - F32.to_Q y) < 2 ^ 127)%Q ->
  F32.is_finite (x - y)%f32 = true.
Proof.
  intros Vx Fx Vy Fy Hs.
  destruct x as [sx | sx | | sx mx ex]; try discriminate;
  destruct y as [sy | sy | | sy my ey]; try discriminate;
    try reflexivity.
  - destruct sx, sy; reflexivity.
  - unfold F32.sub, SFsub. apply normalize_finite.
    unfold Z.sub at 1. rewrite inject_Z_plus, inject_Z_opp.
    setoid_replace ((inject_Z (cond_Zopp sx (Z.pos (fst (shl_align mx ex (Z.min ex ey)))))
                     + - inject_Z (cond_Zopp sy (Z.pos (fst (shl_align my ey (Z.min ex ey))))))
                    * 2 ^ Z.min ex ey)%Q
      with (inject_Z (cond_Zopp sx (Z.pos (fst (shl_align mx ex (Z.min ex ey))))) * 2 ^ Z.min ex ey
            - inject_Z (cond_Zopp sy (Z.pos (fst (shl_align my ey (Z.min ex ey))))) * 2 ^ Z.min ex ey)%Q
      by ring.
    rewrite !aligned_value by lia. exact Hs.
Qed.

(* ================================================================== *)
(** ** Images and colours *)

(** *** The zoom of [Image] *)

Lemma tiny_bound : (2 ^ (-149) <= 1 # 1000000000)%Q.
Proof. vm_compute. discriminate. Qed.

Lemma tinier_bound : (2 ^ (-150) <= 1 # 1000000000)%Q.
Proof. vm_compute. discriminate. Qed.

(** The clamped zoom is a number between [1.001f] and [100]. *)
Lemma ImClamp_zoom ts :
  F32.valid ts = true -> F32.is_nan ts = false ->
  let sc := ImGui.ImClamp ts zoom_min (F32.of_int 100) in
  F32.valid sc = true /\ F32.is_finite sc = true
  /\ (8396997 # 8388608 <= F32.to_Q sc <= 100)%Q.
Proof.
  intros Vt Nt sc. subst sc. unfold ImGui.ImClamp, F32.gtb.
  change (SFltb (F32.of_int 100) ts) with (F32.ltb (F32.of_int 100) ts).
  destruct (F32.ltb ts zoom_min) eqn:L1.
  - split; [reflexivity |]. split; [reflexivity |]. split; vm_compute; discriminate.
  - destruct (F32.ltb (F32.of_int 100) ts) eqn:L2.
    + split; [reflexivity |]. split; [reflexivity |]. split; vm_compute; discriminate.
    + assert (Ft : F32.is_finite ts = true).
      { destruct ts as [s | [|] | | s m e]; try reflexivity; discriminate. }
      split; [exact Vt |]. split; [exact Ft |].
      apply ltb_false_value in L1; try assumption; try reflexivity.
      apply ltb_false_value in L2; try assumption; try reflexivity.
      split.
      * apply Qle_trans with (F32.to_Q zoom_min); [| exact L1].
        vm_compute. discriminate.
      * apply Qle_trans with (F32.to_Q (F32.of_int 100)); [exact L2 |].
        vm_compute. discriminate.
Qed.

Lemma error_interval f v b :
  (Qabs (f - v) <= b)%Q -> (v - b <= f <= v + b)%Q.
Proof. intros H. apply Qabs_Qle_condition in H. lra. Qed.

Lemma one_value : (F32.to_Q (F32.of_int 1) == 1)%Q.
Proof. reflexivity. Qed.

Lemma zoom_margin_bounds ts :
  F32.valid ts = true -> F32.is_nan ts = false ->
  let margin := zoom_margin ts in
  let far := (F32.of_int 1 - margin)%f32 in
  (F32.valid margin = true /\ F32.is_finite margin = true)
  /\ (F32.valid far = true /\ F32.is_finite far = true)
  /\ (1 # 2048 < F32.to_Q margin)%Q /\ (F32.to_Q margin < 1 # 2)%Q
  /\ (1 # 2 < F32.to_Q far)%Q /\ (F32.to_Q far < 1)%Q.
Proof.
  intros Vt Nt margin far. subst far margin. unfold zoom_margin.
  destruct (ImClamp_zoom ts Vt Nt) as (Vs & Fs & Hlo & Hhi).
  set (sc := ImGui.ImClamp ts zoom_min (F32.of_int 100)) in *.
  assert (Hq : (0 < F32.to_Q sc)%Q) by lra.
  assert (Hnz : ~ (F32.to_Q sc == 0)%Q) by lra.
  (* the reciprocal *)
  set (v := (F32.to_Q (F32.of_int 1) / F32.to_Q sc)%Q).
  assert (Hv : (1 # 100 <= v <= 8388608 # 8396997)%Q).
  { unfold v. rewrite one_value. split.
    - apply Qle_shift_div_l; [exact Hq |]. lra.
    - apply Qle_shift_div_r; [exact Hq |]. lra. }
  destruct (div_bound (F32.of_int 1) sc eq_refl eq_refl Vs Fs Hnz) as [Fr Er].
  fold v in Fr, Er.
  assert (Hav : (Qabs v == v)%Q) by (apply Qabs_pos; lra).
  rewrite Hav in Fr, Er.
  assert (Fr' : F32.is_finite (F32.of_int 1 / sc)%f32 = true).
  { apply Fr. apply Qle_lt_trans with 1%Q; [lra | reflexivity]. }
  destruct (Er Fr') as [Vr Err]. clear Fr Er.
  apply error_interval in Err. pose proof tiny_bound as Ht.
  pose proof tinier_bound as Ht'.
  set (r := F32.to_Q (F32.of_int 1 / sc)%f32) in *.
  (* one minus the reciprocal *)
  assert (Fd : F32.is_finite (F32.of_int 1 - F32.of_int 1 / sc)%f32 = true).
  { apply sub_small; try assumption; try reflexivity.
    fold r. rewrite one_value.
    apply Qle_lt_trans with 2%Q; [apply Qabs_Qle_condition; lra | reflexivity]. }
  destruct (sub_error (F32.of_int 1) (F32.of_int 1 / sc)%f32
              eq_refl eq_refl Vr Fr' Fd) as [Vd Ed].
  fold r in Ed. rewrite one_value in Ed.
  assert (Hd : (Qabs (1 - r) == 1 - r)%Q) by (apply Qabs_pos; lra).
  rewrite Hd in Ed. unfold unit_roundoff in Ed. apply error_interval in Ed.
  set (d := F32.to_Q (F32.of_int 1 - F32.of_int 1 / sc)%f32) in *.
  (* the half *)
  destruct (half_error _ Vd Fd) as (Vm & Fm & Em).
  fold d in Em. apply error_interval in Em.
  set (m := F32.to_Q ((F32.of_int 1 - F32.of_int 1 / sc) / F32.of_int 2)%f32) in *.
  assert (Hm : (1 # 2048 < m)%Q /\ (m < 496 # 1000)%Q).
  { assert (E2 : (d / 2 == d * (1 # 2))%Q) by (unfold Qdiv; reflexivity).
    rewrite E2 in Em.
    revert Ht Ht' Err Ed Em. generalize (2 ^ (-149))%Q (2 ^ (-150))%Q.
    intros eta eta' Ht Ht' Err Ed Em. split; lra. }
  (* one minus the margin *)
  assert (Ff : F32.is_finite
                 (F32.of_int 1 - (F32.of_int 1 - F32.of_int 1 / sc) / F32.of_int 2)%f32
               = true).
  { apply sub_small; try assumption; try reflexivity.
    fold m. rewrite one_value.
    apply Qle_lt_trans with 2%Q; [apply Qabs_Qle_condition; lra | reflexivity]. }
  destruct (sub_error (F32.of_int 1)
              ((F32.of_int 1 - F32.of_int 1 / sc) / F32.of_int 2)%f32
              eq_refl eq_refl Vm Fm Ff) as [Vf Ef].
  fold m in Ef. rewrite one_value in Ef.
  assert (Hf : (Qabs (1 - m) == 1 - m)%Q) by (apply Qabs_pos; lra).
  rewrite Hf in Ef. unfold unit_roundoff in Ef. apply error_interval in Ef.
  repeat split; try assumption; lra.
Qed.

(** X9.  [Image] and [RoundedImage] issue one draw call that maps a
    centred window of the texture onto the frame
    [position .. position + frameSize]: whatever number [std::pow]
    returns, the UV rectangle is [(m, m) .. (f, f)] with
    [0 < m < 1/2 < f < 1], so the picture is never mirrored, never empty
    and never the whole texture. *)
Theorem Image_shows_centred_window :
  forall ui sprite position frameSize scale rounding,
    let trueScale := ImGui.powf ui (F32.of_int 2) (scale * F32.of_int 4)%f32 in
    F32.valid trueScale = true -> F32.is_nan trueScale = false ->
    exists margin far,
      Image ui sprite position frameSize scale
      = Some [ImGui.AddImage (id sprite) position (position + frameSize)%vec
                (mkVec2 margin margin) (mkVec2 far far) ImGui.IM_COL32_WHITE]
      /\ RoundedImage ui sprite position frameSize scale rounding
         = Some [ImGui.AddImageRounded (id sprite) position
                   (position + frameSize)%vec (mkVec2 margin margin)
                   (mkVec2 far far) ImGui.IM_COL32_WHITE rounding]
      /\ F32.is_finite margin = true /\ F32.is_finite far = true
      /\ (0 < F32.to_Q margin)%Q /\ (F32.to_Q margin < 1 # 2)%Q
      /\ (1 # 2 < F32.to_Q far)%Q /\ (F32.to_Q far < 1)%Q.
Proof.
  intros ui sprite position frameSize scale rounding trueScale Vt Nt.
  destruct (zoom_margin_bounds trueScale Vt Nt)
    as ((_ & Fm) & (_ & Ff) & Hm1 & Hm2 & Hf1 & Hf2).
  exists (zoom_margin trueScale), (F32.of_int 1 - zoom_margin trueScale)%f32.
  split; [reflexivity |]. split; [reflexivity |].
  repeat split; try assumption.
  apply Qlt_trans with (1 # 2048)%Q; [reflexivity | exact Hm1].
Qed.

Lemma Image_shows_centred_window_witness :
  exists margin far,
    Image still_env icon (mkVec2 (F32.of_int 10) (F32.of_int 20))
      (mkVec2 (F32.of_int 320) (F32.of_int 240)) (F32.of_int 0)
    = Some [ImGui.AddImage 7 (mkVec2 (F32.of_int 10) (F32.of_int 20))
              (mkVec2 (F32.of_int 10) (F32.of_int 20)
               + mkVec2 (F32.of_int 320) (F32.of_int 240))%vec
              (mkVec2 margin margin) (mkVec2 far far) ImGui.IM_COL32_WHITE]
    /\ (0 < F32.to_Q margin)%Q /\ (F32.to_Q far < 1)%Q.
Proof.
  destruct (Image_shows_centred_window still_env icon
              (mkVec2 (F32.of_int 10) (F32.of_int 20))
              (mkVec2 (F32.of_int 320) (F32.of_int 240)) (F32.of_int 0)
              (F32.of_int 0) eq_refl eq_refl)
    as (margin & far & E & _ & _ & _ & Hm & _ & _ & Hf).
  exists margin, far. split; [exact E |]. split; assumption.
Defined.

(** *** Packed colours *)

Lemma shl_24 a : 0 <= a -> U32.shl a 24 = (a mod 256) * 16777216.
Proof.
  intros Ha. unfold U32.shl, U32.modulus. rewrite Z.shiftl_mul_pow2 by lia.
  change (2 ^ 24) with 16777216. change (2 ^ 32) with (256 * 16777216).
  rewrite Z.mul_mod_distr_r by lia. reflexivity.
Qed.

(** A colour byte above 24 bits next to 24 low bits: the two parts can be
    read back. *)
Lemma pack_rgb c b :
  0 <= b < 256 ->
  Z.land (Z.lor (Z.land c 16777215) (b * 16777216)) 16777215
  = Z.land c 16777215.
Proof.
  intros Hb. change 16777215 with (Z.ones 24).
  rewrite Z.land_lor_distr_l, <- Z.land_assoc, Z.land_diag.
  replace (Z.land (b * 16777216) (Z.ones 24)) with 0; [apply Z.lor_0_r |].
  rewrite Z.land_ones by lia. change (2 ^ 24) with 16777216.
  symmetry. apply Z.mod_mul. lia.
Qed.

Lemma pack_alpha c b :
  0 <= b < 256 ->
  Z.shiftr (Z.lor (Z.land c 16777215) (b * 16777216)) 24 = b.
Proof.
  intros Hb. rewrite Z.shiftr_lor.
  replace (Z.shiftr (Z.land c 16777215) 24) with 0.
  - rewrite Z.lor_0_l, Z.shiftr_div_pow2 by lia. change (2 ^ 24) with 16777216.
    apply Z.div_mul. lia.
  - change 16777215 with (Z.ones 24). rewrite Z.land_ones by lia.
    rewrite Z.shiftr_div_pow2 by lia. symmetry. apply Z.div_small.
    apply Z.mod_pos_bound. reflexivity.
Qed.

Lemma pack_range c b :
  0 <= b < 256 ->
  0 <= Z.lor (Z.land c 16777215) (b * 16777216) < 4294967296.
Proof.
  intros Hb.
  assert (H1 : 0 <= Z.land c 16777215 < 2 ^ 24).
  { change 16777215 with (Z.ones 24). rewrite Z.land_ones by lia.
    apply Z.mod_pos_bound. reflexivity. }
  change (2 ^ 24) with 16777216 in H1.
  assert (H2 : 0 <= Z.lor (Z.land c 16777215) (b * 16777216))
    by (apply Z.lor_nonneg; lia).
  assert (H3 : 0 <= Z.land (Z.land c 16777215) (b * 16777216))
    by (apply Z.land_nonneg; lia).
  pose proof (Z.add_lor_land (Z.land c 16777215) (b * 16777216)). lia.
Qed.

Lemma of_float_range f z : U32.of_float f = Some z -> 0 <= z < 2 ^ 32.
Proof.
  unfold U32.of_float. destruct (F32.trunc f) as [t |]; [| discriminate].
  unfold U32.in_range, U32.modulus.
  destruct (Z.leb_spec 0 t), (Z.ltb_spec t (2 ^ 32)); cbn; try discriminate.
  intros [= <-]. lia.
Qed.

(** What [WithAlpha] and the drawing functions do to a colour. *)
Lemma with_alpha_bits color a :
  0 <= a ->
  let r := Z.lor (Z.land color 16777215) (U32.shl a 24) in
  U32.rgb r = U32.rgb color /\ U32.alpha r = a mod 256
  /\ 0 <= r < 4294967296.
Proof.
  intros Ha r. subst r. rewrite shl_24 by assumption.
  pose proof (Z.mod_pos_bound a 256 ltac:(lia)) as Hb.
  unfold U32.rgb, U32.alpha.
  repeat split; [apply pack_rgb | apply pack_alpha | apply pack_range
                 | apply pack_range]; assumption.
Qed.

(** X10.  Where [Color::WithAlpha] is defined it keeps the red, green
    and blue bytes of the colour and replaces the alpha byte by the low
    byte of the converted [alpha * 255]: the bits of a larger value are
    shifted out, so that the result is a 32-bit colour.  The alpha of
    the argument does not matter: applying a second alpha to the result
    gives what applying it to the colour gives. *)
Theorem WithAlpha_replaces_alpha :
  forall color alpha r,
    Color.WithAlpha color alpha = Some r ->
    U32.rgb r = U32.rgb color
    /\ (exists a, U32.of_float (alpha * F32.of_int 255)%f32 = Some a
                  /\ U32.alpha r = a mod 256)
    /\ 0 <= r < 4294967296
    /\ forall alpha', Color.WithAlpha r alpha' = Color.WithAlpha color alpha'.
Proof.
  intros color alpha r. unfold Color.WithAlpha.
  destruct (U32.of_float (alpha * F32.of_int 255)%f32) as [a |] eqn:Ea;
    [| discriminate].
  cbn [bind]. intros [= <-].
  pose proof (of_float_range _ _ Ea) as Ha.
  destruct (with_alpha_bits color a ltac:(lia)) as (Hrgb & Halpha & Hr).
  split; [exact Hrgb |]. split; [exists a; split; [reflexivity | exact Halpha] |].
  split; [exact Hr |].
  intros alpha'. unfold U32.rgb in Hrgb. rewrite Hrgb. reflexivity.
Qed.

Lemma WithAlpha_replaces_alpha_witness :
  U32.rgb 2130771967 = U32.rgb 4278255615.
Proof.
  apply (WithAlpha_replaces_alpha 4278255615 F32.half 2130771967).
  reflexivity.
Defined.

(** *** Truncation to an integer *)

Lemma pow2_neg n : 0 <= n -> (2 ^ (- n) == / inject_Z (2 ^ n))%Q.
Proof. intros Hn. rewrite Qpower_opp, pow2_inject by assumption. reflexivity. Qed.

Lemma shiftl_floor M e :
  0 <= M ->
  (inject_Z (Z.shiftl M e) <= inject_Z M * 2 ^ e)%Q
  /\ (inject_Z M * 2 ^ e < inject_Z (Z.shiftl M e) + 1)%Q.
Proof.
  intros HM. destruct (Z.le_gt_cases 0 e) as [He | He].
  - rewrite Z.shiftl_mul_pow2 by assumption.
    rewrite inject_Z_mult, pow2_inject by assumption.
    split; [apply Qle_refl |].
    rewrite <- (Qplus_0_r (inject_Z M * 2 ^ e)) at 1.
    apply Qplus_lt_r. reflexivity.
  - rewrite Z.shiftl_div_pow2 by lia.
    assert (E2 : (2 ^ e == / inject_Z (2 ^ (- e)))%Q).
    { rewrite <- pow2_neg by lia. rewrite Z.opp_involutive. reflexivity. }
    rewrite E2.
    assert (Hd : 0 < 2 ^ (- e)) by (apply Z.pow_pos_nonneg; lia).
    set (d := 2 ^ (- e)) in *.
    change (inject_Z M * / inject_Z d)%Q with (inject_Z M / inject_Z d)%Q.
    pose proof (Z.div_mod M d ltac:(lia)) as Hdm.
    pose proof (Z.mod_pos_bound M d Hd) as Hr.
    assert (Hdq : (0 < inject_Z d)%Q).
    { change 0%Q with (inject_Z 0). rewrite <- Zlt_Qlt. exact Hd. }
    split.
    + apply Qle_shift_div_l; [exact Hdq |].
      rewrite <- inject_Z_mult, <- Zle_Qle. nia.
    + apply Qlt_shift_div_r; [exact Hdq |].
      change 1%Q with (inject_Z 1).
      rewrite <- inject_Z_plus, <- inject_Z_mult, <- Zlt_Qlt. nia.
Qed.

(** The conversion of a finite number to an integer drops the
    fraction. *)
Lemma trunc_floor a :
  F32.is_finite a = true ->
  exists z, F32.trunc a = Some z
    /\ ((0 <= F32.to_Q a)%Q ->
        0 <= z /\ (inject_Z z <= F32.to_Q a)%Q
        /\ (F32.to_Q a < inject_Z z + 1)%Q)
    /\ ((F32.to_Q a <= 0)%Q ->
        z <= 0 /\ (F32.to_Q a <= inject_Z z)%Q
        /\ (inject_Z z - 1 < F32.to_Q a)%Q).
Proof.
  destruct a as [s | s | | s m e]; try discriminate; intros _.
  - exists 0. split; [reflexivity |]. cbn [F32.to_Q].
    split; intros _; (split; [lia |]); split; reflexivity || discriminate.
  - eexists. split; [reflexivity |]. cbn [F32.to_Q].
    destruct (shiftl_floor (Z.pos m) e ltac:(lia)) as [Hlo Hhi].
    pose proof (Z.shiftl_nonneg (Z.pos m) e) as Hn.
    assert (Hpos : (0 < inject_Z (Z.pos m) * 2 ^ e)%Q).
    { apply Qmult_lt_0_compat; [reflexivity | apply pow2_pos]. }
    assert (Hz : (0 <= inject_Z (Z.shiftl (Z.pos m) e))%Q).
    { change 0%Q with (inject_Z 0). rewrite <- Zle_Qle. lia. }
    destruct s; cbn [cond_Zopp].
    + change (Z.neg m) with (- Z.pos m). rewrite !inject_Z_opp.
      split; intros H.
      * exfalso. lra.
      * split; [lia |]. split; lra.
    + split; intros H.
      * split; [lia |]. split; lra.
      * exfalso. lra.
Qed.

(** *** The alpha byte of a transparency *)

Lemma value_255 : (F32.to_Q (F32.of_int 255) == 255)%Q.
Proof. reflexivity. Qed.

Lemma alpha_byte t :
  F32.valid t = true -> F32.is_finite t = true ->
  (0 <= F32.to_Q t)%Q -> (F32.to_Q t <= 1)%Q ->
  exists a, U32.of_float (t * F32.of_int 255)%f32 = Some a
    /\ 0 <= a <= 255
    /\ (inject_Z a <= 255 * F32.to_Q t + (1 # 32768))%Q
    /\ (255 * F32.to_Q t - (1 # 32768) < inject_Z a + 1)%Q.
Proof.
  intros Vt Ft H0 H1.
  destruct (mul_bound t (F32.of_int 255) Vt Ft eq_refl eq_refl) as [Hfin Herr].
  rewrite value_255 in Hfin, Herr.
  assert (Hv : (Qabs (F32.to_Q t * 255) == F32.to_Q t * 255)%Q)
    by (apply Qabs_pos; lra).
  rewrite Hv in Hfin, Herr.
  assert (Fp : F32.is_finite (t * F32.of_int 255)%f32 = true).
  { apply Hfin. apply Qle_lt_trans with 255%Q; [lra | reflexivity]. }
  destruct (Herr Fp) as [_ Err]. clear Hfin Herr.
  apply error_interval in Err. pose proof tiny_bound as Ht.
  destruct (trunc_floor _ Fp) as (z & Ez & Hpos & Hneg).
  set (f := F32.to_Q (t * F32.of_int 255)%f32) in *.
  assert (Hf : (- (1 # 32768) <= f - 255 * F32.to_Q t)%Q
               /\ (f - 255 * F32.to_Q t <= 1 # 32768)%Q).
  { revert Ht Err. generalize (2 ^ (-149))%Q. intros eta Ht Err. split; lra. }
  destruct Hf as [Hf1 Hf2].
  assert (Hz : 0 <= z <= 255
               /\ (inject_Z z <= 255 * F32.to_Q t + (1 # 32768))%Q
               /\ (255 * F32.to_Q t - (1 # 32768) < inject_Z z + 1)%Q).
  { destruct (Qlt_le_dec f 0) as [Hlt | Hge].
    - destruct (Hneg ltac:(lra)) as (Hz0 & Hz1 & Hz2).
      assert (Hz3 : (inject_Z (-1) < inject_Z z)%Q).
      { change (inject_Z (-1)) with (-1)%Q. lra. }
      rewrite <- Zlt_Qlt in Hz3. assert (z = 0) by lia. subst z.
      change (inject_Z 0) with 0%Q. split; [lia |]. split; lra.
    - destruct (Hpos Hge) as (Hz0 & Hz1 & Hz2).
      assert (Hz3 : (inject_Z z < inject_Z 256)%Q).
      { change (inject_Z 256) with 256%Q. lra. }
      rewrite <- Zlt_Qlt in Hz3. split; [lia |]. split; lra. }
  exists z. unfold U32.of_float. rewrite Ez.
  unfold U32.in_range, U32.modulus.
  destruct (Z.leb_spec 0 z); [| lia].
  destruct (Z.ltb_spec z (2 ^ 32)); [| change (2 ^ 32) with 4294967296 in *; lia].
  split; [reflexivity | exact Hz].
Qed.

(** X11.  A transparency between 0 and 1 is applied in the same way by
    [Color::WithAlpha], by [TintedSprite], which calls it, and by every
    drawing function that repeats its arithmetic:
    the call is made in the colour that keeps the red, green and blue
    bytes and has the alpha byte [a], the integer part of the rounded
    [transparency * 255], between 0 and 255 and within one unit of the
    product. *)
Theorem transparency_sets_alpha :
  forall color t,
    F32.valid t = true -> F32.is_finite t = true ->
    (0 <= F32.to_Q t)%Q -> (F32.to_Q t <= 1)%Q ->
    exists c,
      Color.WithAlpha color t = Some c
      /\ U32.rgb c = U32.rgb color
      /\ 0 <= U32.alpha c <= 255
      /\ (inject_Z (U32.alpha c) <= 255 * F32.to_Q t + (1 # 32768))%Q
      /\ (255 * F32.to_Q t - (1 # 32768) < inject_Z (U32.alpha c) + 1)%Q
      /\ (forall text position font fontSize,
             Text text color t position font fontSize
             = Some [ImGui.AddText font fontSize position c text])
      /\ (forall position size,
             FilledRectangle color t position size
             = Some [ImGui.AddRectFilled position (position + size)%vec c])
      /\ (forall position size rounding,
             FilledRoundedRectangle color t position size rounding
             = Some [ImGui.AddRectFilled_RoundCornersAll position
                       (position + size)%vec c rounding])
      /\ (forall size position width rounding flags,
             BoxAround size position width color t rounding flags
             = Some [ImGui.AddRect (position - mkVec2 width width)%vec
                       (position + size + mkVec2 width width)%vec c rounding
                       flags width])
      /\ (forall size position width rounding,
             RoundedRectangleBehind size position width color t rounding
             = Some [ImGui.AddRectFilled_RoundCornersAll
                       (position - mkVec2 width width)%vec
                       (position + size + mkVec2 width width)%vec c rounding])
      /\ (forall texture_id image_width image_height position,
             TintedSprite (mkTexture texture_id image_width image_height)
               position color t
             = Some [ImGui.AddImage texture_id position
                       (position
                        + mkVec2 (F32.of_int image_width)
                                 (F32.of_int image_height))%vec
                       (mkVec2 (F32.of_int 0) (F32.of_int 0))
                       (mkVec2 (F32.of_int 1) (F32.of_int 1)) c]).
Proof.
  intros color t Vt Ft H0 H1.
  destruct (alpha_byte t Vt Ft H0 H1) as (a & Ea & Ha & Hlo & Hhi).
  destruct (with_alpha_bits color a ltac:(lia)) as (Hrgb & Halpha & _).
  rewrite Z.mod_small in Halpha by lia.
  exists (Z.lor (Z.land color 16777215) (U32.shl a 24)).
  unfold TintedSprite, Color.WithAlpha, Text, FilledRectangle,
    FilledRoundedRectangle, BoxAround, RoundedRectangleBehind.
  rewrite Ea, Halpha. cbn [bind].
  repeat (split; [reflexivity || assumption || lia |]).
  reflexivity.
Qed.

Lemma transparency_sets_alpha_witness :
  exists c,
    Color.WithAlpha 4278255615 F32.half = Some c
    /\ U32.rgb c = U32.rgb 4278255615 /\ 0 <= U32.alpha c <= 255.
Proof.
  destruct (transparency_sets_alpha 4278255615 F32.half eq_refl eq_refl)
    as (c & E & Hrgb & Ha & _).
  - vm_compute. discriminate.
  - vm_compute. discriminate.
  - exists c. split; [exact E |]. split; assumption.
Defined.

(** *** Transparencies that cannot be converted *)

Lemma alpha_undefined t :
  F32.valid t = true ->
  F32.is_finite t = false \/ (F32.to_Q t <= - (1 # 100))%Q
  \/ (33554432 <= F32.to_Q t)%Q ->
  U32.of_float (t * F32.of_int 255)%f32 = None.
Proof.
  intros Vt H.
  destruct (F32.is_finite t) eqn:Ft.
  2:{ destruct t as [s | s | | s m e]; try discriminate; reflexivity. }
  destruct H as [H | H]; [discriminate |].
  destruct (mul_bound t (F32.of_int 255) Vt Ft eq_refl eq_refl) as [_ Herr].
  rewrite value_255 in Herr.
  destruct (F32.is_finite (t * F32.of_int 255)%f32) eqn:Fp.
  2:{ unfold U32.of_float.
      destruct (t * F32.of_int 255)%f32 as [s | s | | s m e];
        try discriminate; reflexivity. }
  destruct (Herr eq_refl) as [_ Err]. clear Herr.
  pose proof tiny_bound as Ht.
  destruct (trunc_floor _ Fp) as (z & Ez & Hpos & Hneg).
  unfold U32.of_float. rewrite Ez.
  set (f := F32.to_Q (t * F32.of_int 255)%f32) in *.
  destruct H as [H | H].
  - assert (Hv : (Qabs (F32.to_Q t * 255) == - (F32.to_Q t * 255))%Q)
      by (apply Qabs_neg; lra).
    rewrite Hv in Err. apply error_interval in Err.
    assert (Hf : (f <= - 2)%Q).
    { revert Ht Err. generalize (2 ^ (-149))%Q. intros eta Ht Err. lra. }
    destruct (Hneg ltac:(lra)) as (Hz0 & Hz1 & Hz2).
    assert (Hz : (inject_Z z < inject_Z 0)%Q).
    { change (inject_Z 0) with 0%Q. lra. }
    rewrite <- Zlt_Qlt in Hz. unfold U32.in_range.
    destruct (Z.leb_spec 0 z); [lia | reflexivity].
  - assert (Hv : (Qabs (F32.to_Q t * 255) == F32.to_Q t * 255)%Q)
      by (apply Qabs_pos; lra).
    rewrite Hv in Err. apply error_interval in Err.
    assert (Hf : (4294967296 + 1 <= f)%Q).
    { revert Ht Err. generalize (2 ^ (-149))%Q. intros eta Ht Err. lra. }
    destruct (Hpos ltac:(lra)) as (Hz0 & Hz1 & Hz2).
    assert (Hz : (inject_Z 4294967296 < inject_Z z + 1)%Q).
    { change (inject_Z 4294967296) with 4294967296%Q. lra. }
    change 1%Q with (inject_Z 1) in Hz.
    rewrite <- inject_Z_plus, <- Zlt_Qlt in Hz.
    unfold U32.in_range, U32.modulus. change (2 ^ 32) with 4294967296.
    destruct (Z.ltb_spec z 4294967296); [lia |].
    rewrite andb_false_r. reflexivity.
Qed.

(** X12.  A transparency that is NaN or infinite, at most -0.01, or at
    least 2^25 has no alpha byte: the conversion of
    [transparency * 255] to [ImU32] is undefined, and with it
    [Color::WithAlpha] and every drawing function that takes the
    transparency. *)
Theorem transparency_out_of_range :
  forall color t,
    F32.valid t = true ->
    F32.is_finite t = false \/ (F32.to_Q t <= - (1 # 100))%Q
    \/ (33554432 <= F32.to_Q t)%Q ->
    Color.WithAlpha color t = None
    /\ (forall text position font fontSize,
           Text text color t position font fontSize = None)
    /\ (forall position size, FilledRectangle color t position size = None)
    /\ (forall position size rounding,
           FilledRoundedRectangle color t position size rounding = None)
    /\ (forall size position width rounding flags,
           BoxAround size position width color t rounding flags = None)
    /\ (forall size position width rounding,
           RoundedRectangleBehind size position width color t rounding = None)
    /\ (forall sprite position, TintedSprite sprite position color t = None).
Proof.
  intros color t Vt H. pose proof (alpha_undefined t Vt H) as E.
  unfold Color.WithAlpha, Text, FilledRectangle, FilledRoundedRectangle,
    BoxAround, RoundedRectangleBehind, TintedSprite, Color.WithAlpha.
  rewrite E. repeat split.
Qed.

Lemma transparency_out_of_range_witness :
  Color.WithAlpha 4294967295 (F32.of_int (-1)) = None.
Proof.
  apply (transparency_out_of_range 4294967295 (F32.of_int (-1)) eq_refl).
  right. left. vm_compute. discriminate.
Defined.

(** *** The gradient *)






(** *** The whole texture *)

(** A positive size converts to a positive number. *)
Lemma of_int_positive k :
  0 < k < 2 ^ 24 ->
  exists m e, F32.of_int k = S754_finite false m e
    /\ F32.exact (F32.of_int k) (inject_Z k).
Proof.
  intros Hk. assert (Hq : 2 ^ 24 = 16777216) by reflexivity.
  pose proof (of_int_exact k ltac:(lia)) as Hx. pose proof Hx as Hx'.
  apply exact_cases in Hx.
  destruct Hx as [(s & _ & E) | (s & m & e & E & _ & Hv)].
  - exfalso. unfold Qeq in E. cbn in E. lia.
  - exists m, e. split; [| exact Hx']. rewrite E. f_equal.
    destruct s; [| reflexivity]. exfalso.
    assert (Hneg : (inject_Z (cond_Zopp true (Z.pos m)) * 2 ^ e < 0)%Q).
    { cbn [cond_Zopp]. change (Z.neg m) with (- Z.pos m).
      rewrite inject_Z_opp.
      assert (0 < inject_Z (Z.pos m) * 2 ^ e)%Q
        by (apply Qmult_lt_0_compat; [reflexivity | apply pow2_pos]).
      lra. }
    rewrite Hv in Hneg. change 0%Q with (inject_Z 0) in Hneg.
    rewrite <- Zlt_Qlt in Hneg. lia.
Qed.

Lemma div_self x k :
  F32.exact x (inject_Z k) -> k <> 0 -> (x / x)%f32 = F32.of_int 1.
Proof.
  intros Hx Hk.
  assert (Hnz : ~ (inject_Z k == 0)%Q).
  { intros E. unfold Qeq in E. cbn in E. lia. }
  apply (exact_unique _ _ 1).
  - apply exact_morph with (inject_Z k / inject_Z k)%Q;
      [field; exact Hnz |].
    apply div_exact; try assumption.
    apply representable_morph with 1%Q; [field; exact Hnz |].
    exists (F32.of_int 1). repeat split.
  - repeat split.
  - discriminate.
Qed.

Lemma mul_one_l x k :
  F32.exact x (inject_Z k) -> k <> 0 -> (F32.of_int 1 * x)%f32 = x.
Proof.
  intros Hx Hk.
  assert (Hnz : ~ (inject_Z k == 0)%Q).
  { intros E. unfold Qeq in E. cbn in E. lia. }
  apply (exact_unique _ _ (inject_Z k)); [| exact Hx | exact Hnz].
  apply exact_morph with (1 * inject_Z k)%Q; [ring |].
  apply mul_exact; [repeat split | exact Hx |].
  apply representable_morph with (inject_Z k); [ring |].
  exists x. exact Hx.
Qed.

(** X14.  Three ways to draw a whole texture at its own size make the
    same call: [Sprite] at transparency 1, [Crop] of the rectangle
    [(0, 0) .. (width, height)] into a frame of that size, and, unless a
    coordinate of the position is the negative zero, [SpriteSubsection]
    from fraction [(0, 0)] to [(1, 1)]; the call draws the texture
    untinted from [position] to [position + (width, height)]. *)
Theorem whole_texture_is_Sprite :
  forall i w h position,
    0 < w < 2 ^ 24 -> 0 < h < 2 ^ 24 ->
    let sprite := mkTexture i w h in
    let size := mkVec2 (F32.of_int w) (F32.of_int h) in
    let origin := mkVec2 (F32.of_int 0) (F32.of_int 0) in
    let whole := mkVec2 (F32.of_int 1) (F32.of_int 1) in
    Sprite sprite position (F32.of_int 1)
    = Some [ImGui.AddImage i position (position + size)%vec origin whole
              ImGui.IM_COL32_WHITE]
    /\ Crop sprite position origin size size
       = Sprite sprite position (F32.of_int 1)
    /\ (vx position <> S754_zero true -> vy position <> S754_zero true ->
        SpriteSubsection sprite position origin whole
        = Sprite sprite position (F32.of_int 1)).
Proof.
  intros i w h position Hw Hh sprite size origin whole.
  destruct (of_int_positive w Hw) as (mw & ew & Ew & Xw).
  destruct (of_int_positive h Hh) as (mh & eh & Eh & Xh).
  assert (ES : Sprite sprite position (F32.of_int 1)
               = Some [ImGui.AddImage i position (position + size)%vec origin
                         whole ImGui.IM_COL32_WHITE]) by reflexivity.
  split; [exact ES |]. rewrite ES. split.
  - unfold Crop. subst sprite size origin whole. texture_fields.
    cbn [vx vy].
    assert (Z0w : (F32.of_int 0 / F32.of_int w)%f32 = F32.of_int 0)
      by (rewrite Ew; reflexivity).
    assert (Z0h : (F32.of_int 0 / F32.of_int h)%f32 = F32.of_int 0)
      by (rewrite Eh; reflexivity).
    assert (A0w : (F32.of_int 0 + F32.of_int w)%f32 = F32.of_int w)
      by (rewrite Ew; reflexivity).
    assert (A0h : (F32.of_int 0 + F32.of_int h)%f32 = F32.of_int h)
      by (rewrite Eh; reflexivity).
    rewrite Z0w, Z0h, A0w, A0h.
    rewrite (div_self _ w Xw ltac:(lia)), (div_self _ h Xh ltac:(lia)).
    reflexivity.
  - intros Hx Hy. unfold SpriteSubsection. subst sprite size origin whole.
    texture_fields. cbn [vx vy].
    assert (M0w : (F32.of_int 0 * F32.of_int w)%f32 = F32.of_int 0)
      by (rewrite Ew; reflexivity).
    assert (M0h : (F32.of_int 0 * F32.of_int h)%f32 = F32.of_int 0)
      by (rewrite Eh; reflexivity).
    rewrite M0w, M0h.
    rewrite (mul_one_l _ w Xw ltac:(lia)), (mul_one_l _ h Xh ltac:(lia)).
    unfold vadd at 1. cbn [vx vy].
    rewrite (add_zero_r _ Hx), (add_zero_r _ Hy).
    destruct position; reflexivity.
Qed.

Lemma whole_texture_is_Sprite_witness :
  Crop (mkTexture 7 64 48) (mkVec2 (F32.of_int 10) (F32.of_int 20))
    (mkVec2 (F32.of_int 0) (F32.of_int 0))
    (mkVec2 (F32.of_int 64) (F32.of_int 48))
    (mkVec2 (F32.of_int 64) (F32.of_int 48))
  = Sprite (mkTexture 7 64 48) (mkVec2 (F32.of_int 10) (F32.of_int 20))
      (F32.of_int 1).
Proof.
  refine (proj1 (proj2 (whole_texture_is_Sprite 7 64 48
                          (mkVec2 (F32.of_int 10) (F32.of_int 20)) _ _)));
    change (2 ^ 24) with 16777216; lia.
Defined.

(* ================================================================== *)
(** ** Drawing in loops *)

(** ** Loops that draw *)

Lemma and_then_nil_r d : and_then d (Some []) = d.
Proof. destruct d as [l |]; [| reflexivity]. cbn. rewrite app_nil_r. reflexivity. Qed.

Lemma and_then_assoc a b c :
  and_then (and_then a b) c = and_then a (and_then b c).
Proof.
  destruct a as [x |]; [| reflexivity]. destruct b as [y |]; [| reflexivity].
  destruct c as [z |]; [| reflexivity]. cbn. rewrite app_assoc. reflexivity.
Qed.

Lemma draw_all_app l1 l2 :
  draw_all (l1 ++ l2) = and_then (draw_all l1) (draw_all l2).
Proof.
  induction l1 as [| d l1 IH]; cbn [draw_all app].
  - destruct (draw_all l2); reflexivity.
  - rewrite IH, and_then_assoc. reflexivity.
Qed.

Lemma upto_length n : forall lo, List.length (upto n lo) = n.
Proof. induction n as [| n IH]; intros lo; cbn; [| rewrite IH]; reflexivity. Qed.

Lemma upto_app n m : forall lo,
  upto (n + m) lo = upto n lo ++ upto m (lo + Z.of_nat n).
Proof.
  induction n as [| n IH]; intros lo.
  - cbn. rewrite Z.add_0_r. reflexivity.
  - cbn [Nat.add upto app]. rewrite IH.
    replace (lo + 1 + Z.of_nat n) with (lo + Z.of_nat (S n)) by lia.
    reflexivity.
Qed.

Lemma upto_In n : forall lo k, In k (upto n lo) <-> lo <= k < lo + Z.of_nat n.
Proof.
  induction n as [| n IH]; intros lo k; cbn [upto In].
  - lia.
  - rewrite IH. lia.
Qed.

Lemma upto_shift n d : forall lo,
  upto n (lo + d) = map (fun k => k + d) (upto n lo).
Proof.
  induction n as [| n IH]; intros lo; cbn [upto map]; [reflexivity |].
  replace (lo + d + 1) with (lo + 1 + d) by lia. rewrite IH. reflexivity.
Qed.

Lemma upto_nth n : forall lo k,
  (k < n)%nat -> nth_error (upto n lo) k = Some (lo + Z.of_nat k).
Proof.
  induction n as [| n IH]; intros lo k Hk; [lia |].
  destruct k as [| k]; cbn [upto nth_error].
  - f_equal. lia.
  - rewrite IH by lia. f_equal. lia.
Qed.

(** A loop whose body only draws is the list of its iterations. *)
Lemma draw_steps (f : Z -> Drawing) n : forall i acc,
  for_loop n i (fun i calls => let? c := f i in Some (Continue (calls ++ c)))
    acc
  = match draw_all (map f (upto n i)) with
    | Some l => Some (Continue (acc ++ l))
    | None => None
    end.
Proof.
  induction n as [| n IH]; intros i acc; cbn [for_loop upto map draw_all].
  - rewrite app_nil_r. reflexivity.
  - destruct (f i) as [c |]; [| reflexivity]. cbn [bind]. rewrite IH.
    destruct (draw_all (map f (upto n (i + 1)))) as [l |]; [| reflexivity].
    cbn. rewrite app_assoc. reflexivity.
Qed.

Lemma draw_loop_spec n f : draw_loop n f = draw_all (map f (upto n 0)).
Proof.
  unfold draw_loop. rewrite draw_steps.
  destruct (draw_all (map f (upto n 0))); reflexivity.
Qed.

(** Every drawing of the list is defined: so is the whole, and a count
    that adds up over the parts adds up over the whole. *)
Lemma draw_all_defined {A : Type} (f : A -> Drawing)
    (size : list ImGui.DrawCmd -> nat) (k : nat) (l : list A) :
  size [] = 0%nat ->
  (forall x y, size (x ++ y) = (size x + size y)%nat) ->
  (forall a, In a l -> exists c, f a = Some c /\ size c = k) ->
  exists cmds, draw_all (map f l) = Some cmds
    /\ size cmds = (k * List.length l)%nat.
Proof.
  intros H0 Happ. induction l as [| a l IH]; intros H.
  - exists []. split; [reflexivity |]. rewrite H0. cbn. lia.
  - destruct (H a (or_introl eq_refl)) as (c & Ec & Sc).
    destruct IH as (cmds & E & Scmds).
    { intros b Hb. apply H. right. exact Hb. }
    exists (c ++ cmds). cbn [map draw_all]. rewrite Ec, E.
    split; [reflexivity |]. rewrite Happ, Sc, Scmds. cbn [List.length]. lia.
Qed.

Lemma draw_all_undefined {A : Type} (f : A -> Drawing) (l : list A) a :
  In a l -> f a = None -> draw_all (map f l) = None.
Proof.
  induction l as [| b l IH]; intros Hin Ha; [destruct Hin |].
  cbn [map draw_all]. destruct Hin as [-> | Hin].
  - rewrite Ha. reflexivity.
  - rewrite (IH Hin Ha). destruct (f b); reflexivity.
Qed.

(** *** The two loops of the grid populations *)

Section Populate.
Variable n : Z.
Variable cell : Z -> Z -> Drawing.
Hypothesis n_fits : n <= Int.max_int.

(** The loop over the columns of row [r]: it draws the next cells while
    the counter is below the image count, then returns. *)
Lemma populate_row r k : forall c idx acc,
  0 <= idx ->
  for_loop k c (populate_cell n cell r) (idx, acc)
  = let m := Nat.min k (Z.to_nat (n - idx)) in
    match draw_all (map (cell r) (upto m c)) with
    | None => None
    | Some l =>
        Some ((if (m <? k)%nat then Return else Continue)
                (idx + Z.of_nat m, acc ++ l))
    end.
Proof.
  assert (Hmax : Int.max_int = 2147483647) by reflexivity.
  assert (Hmin : Int.min_int = -2147483648) by reflexivity.
  induction k as [| k IH]; intros c idx acc Hidx.
  - cbn. rewrite app_nil_r, Z.add_0_r. reflexivity.
  - cbn [for_loop]. unfold populate_cell at 1.
    destruct (Z.leb_spec n idx) as [Hge | Hlt].
    + replace (Z.to_nat (n - idx)) with 0%nat by lia.
      rewrite Nat.min_0_r. cbn. rewrite app_nil_r, Z.add_0_r. reflexivity.
    + destruct (Z.to_nat (n - idx)) as [| p] eqn:Ep; [lia |].
      cbn [Nat.min upto map draw_all].
      destruct (cell r c) as [l0 |]; [| reflexivity]. cbn [bind].
      unfold Int.add. rewrite checked_in_range by lia. cbn [bind].
      rewrite IH by lia.
      replace (Z.to_nat (n - (idx + 1))) with p by lia. cbn zeta.
      destruct (draw_all (map (cell r) (upto (Nat.min k p) (c + 1))))
        as [l |]; [| reflexivity].
      cbn [and_then bind].
      replace (idx + 1 + Z.of_nat (Nat.min k p))
        with (idx + Z.of_nat (S (Nat.min k p))) by lia.
      rewrite app_assoc.
      change (S (Nat.min k p) <? S k)%nat with (Nat.min k p <? k)%nat.
      reflexivity.
Qed.

(** The cells of [k] rows of [cols] columns from row [r], row by row. *)
Lemma populate_rows cols k : forall r idx acc,
  0 <= idx ->
  calls_of
    (for_loop k r (fun row => for_loop cols 0 (populate_cell n cell row))
       (idx, acc))
  = and_then (Some acc)
      (draw_all
         (map (fun rc => cell (fst rc) (snd rc))
            (firstn (Z.to_nat (n - idx))
               (flat_map (fun row => map (pair row) (upto cols 0))
                  (upto k r))))).
Proof.
  induction k as [| k IH]; intros r idx acc Hidx.
  - cbn. rewrite firstn_nil. cbn. rewrite app_nil_r. reflexivity.
  - cbn [for_loop upto flat_map]. rewrite populate_row by assumption.
    cbn zeta. rewrite firstn_app, map_app, draw_all_app, length_map, upto_length.
    destruct (Nat.le_gt_cases cols (Z.to_nat (n - idx))) as [Hle | Hgt].
    + rewrite Nat.min_l by lia.
      rewrite firstn_all2 by (rewrite length_map, upto_length; lia).
      rewrite map_map. cbn [fst snd].
      destruct (draw_all (map (fun x => cell r x) (upto cols 0))) as [l |];
        [| reflexivity].
      rewrite Nat.ltb_irrefl, IH by lia.
      replace (Z.to_nat (n - (idx + Z.of_nat cols)))
        with (Z.to_nat (n - idx) - cols)%nat by lia.
      destruct (draw_all _) as [l' |]; [| reflexivity].
      cbn. rewrite app_assoc. reflexivity.
    + rewrite Nat.min_r by lia.
      replace (Z.to_nat (n - idx) - cols)%nat with 0%nat by lia.
      rewrite firstn_O. cbn [map draw_all]. rewrite and_then_nil_r.
      rewrite firstn_map, map_map. cbn [fst snd].
      assert (E : firstn (Z.to_nat (n - idx)) (upto cols 0)
                  = upto (Z.to_nat (n - idx)) 0).
      { replace cols with (Z.to_nat (n - idx) + (cols - Z.to_nat (n - idx)))%nat
          at 1 by lia.
        rewrite upto_app, firstn_app, upto_length, Nat.sub_diag, firstn_O,
          app_nil_r.
        apply firstn_all2. rewrite upto_length. lia. }
      rewrite E.
      destruct (draw_all (map (fun x => cell r x) (upto (Z.to_nat (n - idx)) 0)))
        as [l |]; [| reflexivity].
      destruct (Nat.ltb_spec (Z.to_nat (n - idx)) cols); [| lia].
      reflexivity.
Qed.

End Populate.

(** The cells of a grid, row by row, are numbered consecutively. *)
Lemma row_major_cells cols k : forall r,
  (0 < cols)%nat ->
  flat_map (fun row => map (pair row) (upto cols 0)) (upto k r)
  = map (fun p => (r + p / Z.of_nat cols, p mod Z.of_nat cols))
      (upto (k * cols) 0).
Proof.
  intros r Hc. revert r. induction k as [| k IH]; intros r; [reflexivity |].
  cbn [upto flat_map]. rewrite IH.
  replace (S k * cols)%nat with (cols + k * cols)%nat by lia.
  rewrite upto_app, map_app. f_equal.
  - apply map_ext_in. intros p Hp. apply upto_In in Hp.
    rewrite Z.div_small, Z.mod_small by lia. f_equal. lia.
  - rewrite (upto_shift (k * cols) (Z.of_nat cols) 0). rewrite map_map. apply map_ext_in.
    intros p Hp. apply upto_In in Hp.
    replace (p + Z.of_nat cols) with (p + 1 * Z.of_nat cols) by lia.
    rewrite Z.div_add, Z.mod_add by lia. f_equal. lia.
Qed.

(** [populate] draws the first cells of the grid in row-major order, as
    many as there are images or cells. *)
Lemma populate_spec rows columns n cell :
  0 < columns -> 0 <= rows -> n <= Int.max_int ->
  populate rows columns n cell
  = draw_all
      (map (fun p => cell (p / columns) (p mod columns))
         (upto (Z.to_nat (Z.min (Z.max 0 n) (rows * columns))) 0)).
Proof.
  intros Hc Hr Hn.
  change (populate rows columns n cell)
    with (calls_of
            (for_loop (Z.to_nat rows) 0
               (fun row => for_loop (Z.to_nat columns) 0
                             (populate_cell n cell row))
               (0, []))).
  rewrite populate_rows by (assumption || lia).
  rewrite Z.sub_0_r, row_major_cells by lia.
  rewrite Z2Nat.id by lia. rewrite firstn_map, map_map. cbn [fst snd].
  assert (E : firstn (Z.to_nat n) (upto (Z.to_nat rows * Z.to_nat columns) 0)
              = upto (Z.to_nat (Z.min (Z.max 0 n) (rows * columns))) 0).
  { destruct (Z.le_gt_cases (rows * columns) (Z.max 0 n)) as [Hle | Hgt].
    - rewrite Z.min_r by lia.
      replace (Z.to_nat (rows * columns))
        with (Z.to_nat rows * Z.to_nat columns)%nat by nia.
      apply firstn_all2. rewrite upto_length. nia.
    - rewrite Z.min_l by lia.
      replace (Z.to_nat (Z.max 0 n)) with (Z.to_nat n) by lia.
      replace (Z.to_nat rows * Z.to_nat columns)%nat
        with (Z.to_nat n + (Z.to_nat rows * Z.to_nat columns - Z.to_nat n))%nat
        by nia.
      rewrite upto_app, firstn_app, upto_length, Nat.sub_diag, firstn_O,
        app_nil_r.
      apply firstn_all2. rewrite upto_length. lia. }
  rewrite E. cbn [and_then bind].
  destruct (draw_all _); reflexivity.
Qed.

(** *** Loops that run in step *)

Lemma for_loop_agree {S1 S2 : Type} (R : S1 -> S2 -> Prop)
    (b1 : Z -> S1 -> option (Flow S1)) (b2 : Z -> S2 -> option (Flow S2)) n :
  (forall j s1 s2, R s1 s2 -> flows_agree R (b1 j s1) (b2 j s2)) ->
  forall i s1 s2, R s1 s2 ->
    flows_agree R (for_loop n i b1 s1) (for_loop n i b2 s2).
Proof.
  intros Hb. induction n as [| n IH]; intros i s1 s2 HR; cbn [for_loop].
  - exact HR.
  - pose proof (Hb i s1 s2 HR) as H. unfold flows_agree in H.
    destruct (b1 i s1) as [[t1 | t1] |], (b2 i s2) as [[t2 | t2] |];
      try contradiction; try exact H.
    apply IH. exact H.
Qed.

Lemma rounded_one ui rounding c :
  exists cmd, rounded ui rounding c = Some [cmd]
    /\ texture_of cmd = Some (id (call_sprite c)).
Proof. eexists. split; reflexivity. Qed.

Lemma sparse_cell_agrees ui images origin columns hd vd frame n rounding r c
    st1 st2 :
  same_calls ui rounding st1 st2 ->
  flows_agree (same_calls ui rounding)
    (PopulateGrid_cell images origin columns hd vd frame n r c st1)
    (populate_cell n
       (fun currentRow currentColumn =>
          let anchor :=
            (origin
             + mkVec2 (F32.of_int currentColumn * hd)%f32
                      (F32.of_int currentRow * vd)%f32)%vec in
          let? rc := Int.mul currentRow columns in
          let? index := Int.add rc currentColumn in
          let? sprite := at_index images index in
          RoundedImage ui sprite anchor frame (F32.of_int 0) rounding)
       r c st2).
Proof.
  destruct st1 as [i1 calls], st2 as [i2 cmds]. intros [Hi Hc].
  cbn [fst snd] in Hi, Hc. subst i2.
  unfold PopulateGrid_cell, populate_cell.
  destruct (n <=? i1); [split; [reflexivity | exact Hc] |].
  destruct (Int.mul r columns) as [rc |]; [| exact I]. cbn [bind].
  destruct (Int.add rc c) as [index |]; [| exact I]. cbn [bind].
  destruct (at_index images index) as [sprite |]; [| exact I]. cbn [bind].
  destruct (Int.add i1 1) as [next |]; [| exact I]. cbn [bind flows_agree].
  split; [reflexivity |]. cbn [fst snd rev].
  rewrite map_app, draw_all_app, Hc. reflexivity.
Qed.

Lemma numbered_textures l : forall i,
  map (fun a => snd a) (numbered i l) = l.
Proof.
  induction l as [| t l IH]; intros i; cbn [numbered map]; [reflexivity |].
  rewrite IH. reflexivity.
Qed.

(** The rounded population makes the calls of [PopulateGrid], with
    [RoundedImage] in the place of [Image]. *)
Lemma sparse_as_grid ui images O columns rows cw ch sp rounding :
  PopulateSparseRoundedGrid ui images O columns rows cw ch sp rounding
  = (let? calls := PopulateGrid images O columns rows cw ch sp in
     draw_all (map (rounded ui rounding) calls)).
Proof.
  unfold PopulateSparseRoundedGrid, PopulateGrid, populate.
  pose proof
    (for_loop_agree (same_calls ui rounding)
       (fun currentRow =>
          for_loop (Z.to_nat columns) 0
            (PopulateGrid_cell images (O + mkVec2 sp sp)%vec columns
               (cw + sp)%f32 (ch + sp)%f32 (mkVec2 cw ch)
               (Int.of_size (Z.of_nat (List.length images))) currentRow))
       (fun currentRow =>
          for_loop (Z.to_nat columns) 0
            (populate_cell (Int.of_size (Z.of_nat (List.length images)))
               (fun currentRow currentColumn =>
                  let anchor :=
                    ((O + mkVec2 sp sp)
                     + mkVec2 (F32.of_int currentColumn * (cw + sp))%f32
                              (F32.of_int currentRow * (ch + sp))%f32)%vec in
                  let? rc := Int.mul currentRow columns in
                  let? index := Int.add rc currentColumn in
                  let? sprite := at_index images index in
                  RoundedImage ui sprite anchor (mkVec2 cw ch)
                    (F32.of_int 0) rounding)
               currentRow))
       (Z.to_nat rows)) as H.
  specialize (H (fun j s1 s2 HR =>
                   for_loop_agree (same_calls ui rounding) _ _
                     (Z.to_nat columns)
                     (fun c t1 t2 HT =>
                        sparse_cell_agrees ui images _ columns _ _ _ _
                          rounding j c t1 t2 HT)
                     0 s1 s2 HR)
                0 (0, []) (0, []) (conj eq_refl eq_refl)).
  cbn zeta in H |- *.
  match type of H with
  | flows_agree _ ?a ?b =>
      destruct a as [[[i1 calls] | [i1 calls]] |],
               b as [[[i2 cmds] | [i2 cmds]] |]
  end; cbn [flows_agree] in H; try contradiction; try reflexivity;
    destruct H as [_ Hc]; cbn [snd] in Hc; cbn [bind]; rewrite Hc;
    reflexivity.
Qed.

(** X15.  [PopulateSparseRoundedGrid] makes the calls of [PopulateGrid]
    with [RoundedImage] in the place of [Image], for all arguments:
    where one is undefined so is the other.  For positive [columns] and
    [rows] it is defined and draws the first textures of the vector in
    order, one rounded image each, as many as [PopulateGrid] draws. *)
Theorem PopulateSparseRoundedGrid_as_PopulateGrid :
  forall ui images O columns rows cellWidth cellHeight spacing rounding,
    PopulateSparseRoundedGrid ui images O columns rows cellWidth cellHeight
      spacing rounding
    = (let? calls :=
         PopulateGrid images O columns rows cellWidth cellHeight spacing in
       draw_all (map (rounded ui rounding) calls))
    /\ (0 < columns -> 0 < rows ->
        exists cmds,
          PopulateSparseRoundedGrid ui images O columns rows cellWidth
            cellHeight spacing rounding = Some cmds
          /\ map texture_of cmds
             = map (fun t => Some (id t))
                 (firstn (Z.to_nat (drawn images columns rows)) images)).
Proof.
  intros ui images O columns rows cw ch sp rounding.
  pose proof (sparse_as_grid ui images O columns rows cw ch sp rounding) as E.
  split; [exact E |].
  intros Hc Hr.
  destruct (PopulateGrid_calls images O columns rows cw ch sp Hc Hr)
    as (calls & Ecalls & Hacc).
  rewrite E, Ecalls. cbn [bind].
  rewrite <- (numbered_textures
                (firstn (Z.to_nat (drawn images columns rows)) images) 0).
  rewrite <- Hacc, !map_map. unfold access. cbn [snd].
  clear. induction calls as [| c calls IH].
  - exists []. split; reflexivity.
  - destruct IH as (cmds & E1 & E2).
    destruct (rounded_one ui rounding c) as (cmd & Ec & Tc).
    exists (cmd :: cmds). cbn [map draw_all]. rewrite Ec, E1.
    split; [reflexivity |]. cbn [map]. rewrite Tc, E2. reflexivity.
Qed.

Lemma PopulateSparseRoundedGrid_as_PopulateGrid_witness :
  exists cmds,
    PopulateSparseRoundedGrid still_env three_textures
      (mkVec2 F32.zero F32.zero) 2 2 (F32.of_int 10) (F32.of_int 10)
      (F32.of_int 2) (F32.of_int 4)
    = Some cmds
    /\ map texture_of cmds = [Some 1; Some 2; Some 3].
Proof.
  apply (proj2 (PopulateSparseRoundedGrid_as_PopulateGrid still_env
                  three_textures (mkVec2 F32.zero F32.zero) 2 2
                  (F32.of_int 10) (F32.of_int 10) (F32.of_int 2)
                  (F32.of_int 4)));
    lia.
Defined.

(** *** The grid with dates *)

Lemma opaque_alpha :
  U32.of_float (F32.of_int 1 * F32.of_int 255)%f32 = Some 255.
Proof. reflexivity. Qed.

Lemma Sprite_opaque sprite position :
  exists cmd, Sprite sprite position (F32.of_int 1) = Some [cmd]
    /\ is_image cmd = true.
Proof. eexists. split; reflexivity. Qed.

Lemma TintedSprite_opaque sprite position tint :
  exists cmd, TintedSprite sprite position tint (F32.of_int 1) = Some [cmd]
    /\ is_image cmd = true.
Proof.
  unfold TintedSprite, Color.WithAlpha. rewrite opaque_alpha. cbn [bind].
  eexists. split; reflexivity.
Qed.

Lemma label_drawn ui date font position :
  exists rect text,
    TextWithRoundedHighlight ui date font Style.DEFAULT_HIGHLIGHT_WIDTH
      (Style.DEFAULT_FONT_COLOR ui) ImGui.IM_COL32_WHITE (F32.of_int 1)
      (F32.of_int 1) position (F32.of_int 0) Style.DEFAULT_WINDOW_ROUNDING
    = Some [ImGui.PushFont font; ImGui.PopFont; rect; text]
    /\ is_image rect = false /\ is_image text = false.
Proof.
  unfold TextWithRoundedHighlight, HighlightRounded, FilledRoundedRectangle,
    Text.
  rewrite opaque_alpha. cbn [bind and_then app].
  eexists. eexists. split; [reflexivity |]. split; reflexivity.
Qed.

Lemma count_images_app x y :
  List.length (filter is_image (x ++ y))
  = (List.length (filter is_image x) + List.length (filter is_image y))%nat.
Proof. rewrite filter_app, length_app. reflexivity. Qed.

Lemma int_index r c columns :
  0 <= r -> 0 <= c -> r * columns + c <= Int.max_int -> 0 <= columns ->
  (let? rc := Int.mul r columns in Int.add rc c) = Some (r * columns + c).
Proof.
  intros Hr Hc Hmax Hcols. assert (Int.max_int = 2147483647) by reflexivity.
  assert (Int.min_int = -2147483648) by reflexivity.
  assert (0 <= r * columns) by nia.
  unfold Int.mul, Int.add. rewrite checked_in_range by lia. cbn [bind].
  apply checked_in_range. lia.
Qed.

Lemma cell_index p columns :
  0 < columns -> 0 <= p -> p / columns * columns + p mod columns = p.
Proof. intros Hc Hp. rewrite (Z.div_mod p columns) at 3 by lia. lia. Qed.

(** X16.  [PopulateSparseRoundedGridWithDates] reads [dates] at the
    index of every cell it draws: for positive [columns] and [rows] it
    is defined exactly when [dates] has an entry for each of the
    [min(imageCount, columns*rows)] drawn cells, and then it draws one
    texture per cell; a shorter [dates] is read out of bounds. *)
Theorem PopulateSparseRoundedGridWithDates_needs_dates :
  forall ui images O columns rows cellWidth cellHeight spacing rounding dates
         font exitSelected,
    0 < columns -> 0 < rows ->
    (drawn images columns rows <= Z.of_nat (List.length dates) ->
     exists cmds,
       PopulateSparseRoundedGridWithDates ui images O columns rows cellWidth
         cellHeight spacing rounding dates font exitSelected = Some cmds
       /\ Z.of_nat (List.length (filter is_image cmds))
          = drawn images columns rows)
    /\ (Z.of_nat (List.length dates) < drawn images columns rows ->
        PopulateSparseRoundedGridWithDates ui images O columns rows cellWidth
          cellHeight spacing rounding dates font exitSelected = None).
Proof.
  intros ui images O columns rows cw ch sp rounding dates font exitSelected
    Hc Hr.
  destruct (of_size_bounds (Z.of_nat (List.length images)) ltac:(lia))
    as [Hsize Hfits].
  assert (Hmax : Int.max_int = 2147483647) by reflexivity.
  assert (Hmin : Int.min_int = -2147483648) by reflexivity.
  unfold PopulateSparseRoundedGridWithDates, drawn.
  rewrite populate_spec by (assumption || lia).
  rewrite (Z.mul_comm rows columns).
  set (n := Int.of_size (Z.of_nat (List.length images))) in *.
  set (K := Z.min (Z.max 0 n) (columns * rows)).
  assert (HK : 0 <= K) by (unfold K; nia).
  assert (Hindex : forall p, 0 <= p < K ->
            Int.mul (p / columns) columns = Some (p / columns * columns)
            /\ Int.add (p / columns * columns) (p mod columns) = Some p).
  { intros p Hp. pose proof (cell_index p columns Hc ltac:(lia)) as Ep.
    pose proof (Z.mod_pos_bound p columns Hc) as Hm.
    assert (0 <= p / columns) by (apply Z.div_pos; lia).
    assert (0 <= p / columns * columns) by nia.
    unfold Int.mul, Int.add. split.
    - apply checked_in_range. lia.
    - rewrite Ep. apply checked_in_range. lia. }
  split.
  - intros Hdates.
    match goal with
    | |- exists cmds, draw_all (map ?f ?l) = Some cmds /\ _ =>
        destruct (draw_all_defined f
                    (fun c => List.length (filter is_image c)) 1 l eq_refl
                    count_images_app)
          as (cmds & E & Hcount)
    end.
    + intros p Hp. apply upto_In in Hp.
      destruct (Hindex p ltac:(lia)) as [E1 E2]. rewrite E1. cbn [bind].
      rewrite E2. cbn [bind]. cbn zeta.
      unfold date_at, at_index. destruct (Z.ltb_spec p 0); [lia |].
      destruct (nth_error dates (Z.to_nat p)) as [date |] eqn:Ed.
      2:{ apply nth_error_None in Ed. lia. }
      destruct (nth_error images (Z.to_nat p)) as [sprite |] eqn:Es.
      2:{ apply nth_error_None in Es. lia. }
      cbn [bind]. destruct (negb (String.eqb date EmptyString)).
      * cbn [bind].
        destruct (label_drawn ui date font
                    (Position.InnerAlignBottomLeft
                       ((O + mkVec2 sp sp)
                        + mkVec2 (F32.of_int (p mod columns) * (cw + sp))%f32
                                 (F32.of_int (p / columns) * (ch + sp))%f32)%vec
                       (mkVec2 cw ch) (ImGui.CalcTextSize ui font date)
                       Style.DEFAULT_GRAPHICS_GAP))
          as (rect & text & El & Hrect & Htext).
        rewrite El. eexists. split; [reflexivity |].
        cbn [app filter is_image List.length]. rewrite Hrect, Htext.
        reflexivity.
      * cbn [bind]. destruct exitSelected.
        -- edestruct (Sprite_opaque sprite) as (cmd & Ecmd & Hcmd).
           rewrite Ecmd. eexists. split; [reflexivity |].
           cbn [filter]. rewrite Hcmd. reflexivity.
        -- edestruct (TintedSprite_opaque sprite) as (cmd & Ecmd & Hcmd).
           rewrite Ecmd. eexists. split; [reflexivity |].
           cbn [filter]. rewrite Hcmd. reflexivity.
    + exists cmds. split; [exact E |]. rewrite Hcount, upto_length. lia.
  - intros Hdates.
    apply draw_all_undefined with (a := Z.of_nat (List.length dates)).
    + apply upto_In. lia.
    + destruct (Hindex (Z.of_nat (List.length dates)) ltac:(lia)) as [E1 E2].
      rewrite E1. cbn [bind]. rewrite E2. cbn [bind]. cbn zeta.
      unfold date_at. rewrite Nat2Z.id.
      destruct (Z.ltb_spec (Z.of_nat (List.length dates)) 0); [reflexivity |].
      replace (nth_error dates (List.length dates)) with (@None string);
        [reflexivity |].
      symmetry. apply nth_error_None. lia.
Qed.

Lemma PopulateSparseRoundedGridWithDates_needs_dates_witness :
  PopulateSparseRoundedGridWithDates still_env three_textures
    (mkVec2 F32.zero F32.zero) 2 2 (F32.of_int 10) (F32.of_int 10)
    (F32.of_int 2) (F32.of_int 4) ["Mon"%string; EmptyString] 1 false
  = None.
Proof.
  apply (proj2 (PopulateSparseRoundedGridWithDates_needs_dates still_env
                  three_textures (mkVec2 F32.zero F32.zero) 2 2
                  (F32.of_int 10) (F32.of_int 10) (F32.of_int 2)
                  (F32.of_int 4) ["Mon"%string; EmptyString] 1 false
                  ltac:(lia) ltac:(lia))).
  vm_compute. reflexivity.
Defined.

(** *** Whole pixels *)

Lemma int_add a b p q :
  F32.exact a (inject_Z p) -> F32.exact b (inject_Z q) ->
  Z.abs (p + q) < 2 ^ 24 ->
  F32.exact (a + b)%f32 (inject_Z (p + q)).
Proof.
  intros Ha Hb Hpq.
  apply exact_morph with (inject_Z p + inject_Z q)%Q;
    [rewrite inject_Z_plus; reflexivity |].
  apply add_exact; try assumption.
  apply representable_morph with (inject_Z (p + q));
    [rewrite inject_Z_plus; reflexivity | apply representable_int; assumption].
Qed.

Lemma int_mul a b p q :
  F32.exact a (inject_Z p) -> F32.exact b (inject_Z q) ->
  Z.abs (p * q) < 2 ^ 24 ->
  F32.exact (a * b)%f32 (inject_Z (p * q)).
Proof.
  intros Ha Hb Hpq.
  apply exact_morph with (inject_Z p * inject_Z q)%Q;
    [rewrite inject_Z_mult; reflexivity |].
  apply mul_exact; try assumption.
  apply representable_morph with (inject_Z (p * q));
    [rewrite inject_Z_mult; reflexivity | apply representable_int; assumption].
Qed.

(** *** The gridlines *)

Lemma FilledRectangle_opaque color position size :
  FilledRectangle color (F32.of_int 1) position size
  = Some [ImGui.AddRectFilled position (position + size)%vec
            (Z.lor (Z.land color 16777215) 4278190080)].
Proof. unfold FilledRectangle. rewrite opaque_alpha. reflexivity. Qed.

Lemma draw_all_singletons {A : Type} (f : A -> ImGui.DrawCmd) (l : list A) :
  draw_all (map (fun a => Some [f a]) l) = Some (map f l).
Proof.
  induction l as [| a l IH]; [reflexivity |].
  cbn [map draw_all]. rewrite IH. reflexivity.
Qed.

Lemma Grid_lines O columns rows cw ch gl color :
  Int.min_int <= columns < Int.max_int -> Int.min_int <= rows < Int.max_int ->
  Grid O columns rows cw ch gl color
  = Some
      (map (fun k =>
              ImGui.AddRectFilled
                (O + mkVec2 ((cw + gl) * F32.of_int k)%f32 (F32.of_int 0))%vec
                ((O + mkVec2 ((cw + gl) * F32.of_int k)%f32 (F32.of_int 0))
                 + mkVec2 gl
                     (F32.of_int (rows + 1) * gl + ch * F32.of_int rows)%f32)%vec
                (Z.lor (Z.land color 16777215) 4278190080))
         (upto (Z.to_nat (columns + 1)) 0)
       ++ map (fun k =>
                 ImGui.AddRectFilled
                   (O + mkVec2 (F32.of_int 0) ((ch + gl) * F32.of_int k)%f32)%vec
                   ((O + mkVec2 (F32.of_int 0) ((ch + gl) * F32.of_int k)%f32)
                    + mkVec2
                        (F32.of_int (columns + 1) * gl
                         + cw * F32.of_int columns)%f32
                        gl)%vec
                   (Z.lor (Z.land color 16777215) 4278190080))
            (upto (Z.to_nat (rows + 1)) 0)).
Proof.
  intros Hc Hr. assert (Hmax : Int.max_int = 2147483647) by reflexivity.
  assert (Hmin : Int.min_int = -2147483648) by reflexivity.
  unfold Grid, Int.add. rewrite !checked_in_range by lia. cbn [bind].
  unfold draw_loop_le.
  destruct (Z.leb_spec Int.max_int columns); [lia |].
  destruct (Z.leb_spec Int.max_int rows); [lia |].
  rewrite !draw_loop_spec.
  rewrite (map_ext _ _ (fun k => FilledRectangle_opaque color _ _)).
  rewrite (map_ext _ _ (fun k => FilledRectangle_opaque color _ _)).
  rewrite !draw_all_singletons. reflexivity.
Qed.

(** X17.  On whole pixels [Grid] draws [columns + 1] vertical and then
    [rows + 1] horizontal opaque bars, exactly: bar [k] of either kind
    starts [k] cell pitches from the origin and is one gridline thick,
    and the bars are as long as the document, so that the last bar of
    each kind ends where the bars of the other kind end and the frame is
    closed. *)
Theorem Grid_draws_closed_frame :
  forall ox oy columns rows cw ch gl color,
    Z.abs ox <= 2 ^ 20 -> Z.abs oy <= 2 ^ 20 ->
    0 <= columns <= 1024 -> 0 <= rows <= 1024 ->
    0 <= cw <= 1024 -> 0 <= ch <= 1024 -> 0 <= gl <= 1024 ->
    let opaque := Z.lor (Z.land color 16777215) 4278190080 in
    let documentWidth := (columns + 1) * gl + cw * columns in
    let documentHeight := (rows + 1) * gl + ch * rows in
    exists vertical horizontal,
      Grid (mkVec2 (F32.of_int ox) (F32.of_int oy)) columns rows
        (F32.of_int cw) (F32.of_int ch) (F32.of_int gl) color
      = Some (vertical ++ horizontal)
      /\ Z.of_nat (List.length vertical) = columns + 1
      /\ Z.of_nat (List.length horizontal) = rows + 1
      /\ (forall k, 0 <= k <= columns ->
          exists c, nth_error vertical (Z.to_nat k) = Some c
            /\ fills c (ox + k * (cw + gl)) oy
                 (ox + k * (cw + gl) + gl) (oy + documentHeight) opaque)
      /\ (forall k, 0 <= k <= rows ->
          exists c, nth_error horizontal (Z.to_nat k) = Some c
            /\ fills c ox (oy + k * (ch + gl))
                 (ox + documentWidth) (oy + k * (ch + gl) + gl) opaque).
Proof.
  intros ox oy columns rows cw ch gl color Hox Hoy Hcols Hrows Hcw Hch Hgl
    opaque documentWidth documentHeight.
  assert (Hmax : Int.max_int = 2147483647) by reflexivity.
  assert (Hmin : Int.min_int = -2147483648) by reflexivity.
  assert (Hp : 2 ^ 20 = 1048576) by reflexivity.
  assert (Hq : 2 ^ 24 = 16777216) by reflexivity.
  rewrite Grid_lines by lia.
  eexists. eexists. split; [reflexivity |].
  rewrite !length_map, !upto_length.
  split; [lia |]. split; [lia |].
  assert (Ex : forall z, Z.abs z <= 2 ^ 20 -> F32.exact (F32.of_int z) (inject_Z z))
    by (intros z Hz; apply of_int_exact; lia).
  assert (E0 : F32.exact (F32.of_int 0) (inject_Z 0)) by (apply Ex; lia).
  assert (Hdw : 0 <= documentWidth <= 2 * 1025 * 1024) by (unfold documentWidth; nia).
  assert (Hdh : 0 <= documentHeight <= 2 * 1025 * 1024) by (unfold documentHeight; nia).
  assert (Edw : F32.exact (F32.of_int (columns + 1) * F32.of_int gl
                           + F32.of_int cw * F32.of_int columns)%f32
                  (inject_Z documentWidth)).
  { apply int_add; [apply int_mul | apply int_mul |]; try (apply Ex; lia);
      fold documentWidth; nia. }
  assert (Edh : F32.exact (F32.of_int (rows + 1) * F32.of_int gl
                           + F32.of_int ch * F32.of_int rows)%f32
                  (inject_Z documentHeight)).
  { apply int_add; [apply int_mul | apply int_mul |]; try (apply Ex; lia);
      fold documentHeight; nia. }
  split.
  - intros k Hk. rewrite nth_error_map, upto_nth by lia. cbn [option_map].
    eexists. split; [reflexivity |]. eexists. eexists.
    split; [reflexivity |]. rewrite Z2Nat.id by lia. cbn [vadd vx vy Z.add].
    assert (Epitch : F32.exact ((F32.of_int cw + F32.of_int gl) * F32.of_int k)%f32
                       (inject_Z ((cw + gl) * k))).
    { apply int_mul; [apply int_add | |]; try (apply Ex; lia); nia. }
    assert (Eleft : F32.exact
                      (F32.of_int ox
                       + (F32.of_int cw + F32.of_int gl) * F32.of_int k)%f32
                      (inject_Z (ox + k * (cw + gl)))).
    { replace (k * (cw + gl)) with ((cw + gl) * k) by lia.
      apply int_add; [apply Ex; lia | exact Epitch | nia]. }
    assert (Etop : F32.exact (F32.of_int oy + F32.of_int 0)%f32 (inject_Z oy)).
    { replace oy with (oy + 0) at 2 by lia. apply int_add; [apply Ex | |]; lia || assumption. }
    split; [exact Eleft |]. split; [exact Etop |]. split.
    + apply int_add; [exact Eleft | apply Ex; lia | nia].
    + apply int_add; [exact Etop | exact Edh | nia].
  - intros k Hk. rewrite nth_error_map, upto_nth by lia. cbn [option_map].
    eexists. split; [reflexivity |]. eexists. eexists.
    split; [reflexivity |]. rewrite Z2Nat.id by lia. cbn [vadd vx vy Z.add].
    assert (Epitch : F32.exact ((F32.of_int ch + F32.of_int gl) * F32.of_int k)%f32
                       (inject_Z ((ch + gl) * k))).
    { apply int_mul; [apply int_add | |]; try (apply Ex; lia); nia. }
    assert (Etop : F32.exact
                     (F32.of_int oy
                      + (F32.of_int ch + F32.of_int gl) * F32.of_int k)%f32
                     (inject_Z (oy + k * (ch + gl)))).
    { replace (k * (ch + gl)) with ((ch + gl) * k) by lia.
      apply int_add; [apply Ex; lia | exact Epitch | nia]. }
    assert (Eleft : F32.exact (F32.of_int ox + F32.of_int 0)%f32 (inject_Z ox)).
    { replace ox with (ox + 0) at 2 by lia. apply int_add; [apply Ex | |]; lia || assumption. }
    split; [exact Eleft |]. split; [exact Etop |]. split.
    + apply int_add; [exact Eleft | exact Edw | nia].
    + apply int_add; [exact Etop | apply Ex; lia | nia].
Qed.

Lemma Grid_draws_closed_frame_witness :
  exists vertical horizontal,
    Grid (mkVec2 (F32.of_int 100) (F32.of_int 50)) 3 2 (F32.of_int 40)
      (F32.of_int 30) (F32.of_int 2) 4278190335
    = Some (vertical ++ horizontal)
    /\ Z.of_nat (List.length vertical) = 4
    /\ Z.of_nat (List.length horizontal) = 3.
Proof.
  destruct (Grid_draws_closed_frame 100 50 3 2 40 30 2 4278190335)
    as (vertical & horizontal & E & Hv & Hh & _); try (cbn; lia).
  exists vertical, horizontal. split; [exact E |]. split; assumption.
Defined.

(** *** Where the images go *)

(** A property of the state that every iteration keeps holds when the
    loop is left. *)
Lemma for_loop_keeps {S : Type} (P : S -> Prop)
    (body : Z -> S -> option (Flow S)) n : forall i s,
  (forall j t, i <= j < i + Z.of_nat n -> P t ->
     match body j t with
     | Some (Continue t') | Some (Return t') => P t'
     | None => True
     end) ->
  P s ->
  match for_loop n i body s with
  | Some (Continue s') | Some (Return s') => P s'
  | None => True
  end.
Proof.
  induction n as [| n IH]; intros i s Hbody Hs; cbn [for_loop]; [exact Hs |].
  pose proof (Hbody i s ltac:(lia) Hs) as H.
  destruct (body i s) as [[t | t] |]; try exact H.
  apply IH; [| exact H].
  intros j t' Hj. apply Hbody. lia.
Qed.

Lemma PopulateGrid_cell_places images O columns cw ch gl n r c st :
  0 < columns -> 0 <= r -> 0 <= c < columns ->
  Forall (fun call =>
            in_its_cell O columns cw ch gl call
            /\ 0 <= call_index call <= Int.max_int) (snd st) ->
  match
    PopulateGrid_cell images (O + mkVec2 gl gl)%vec columns (cw + gl)%f32
      (ch + gl)%f32 (mkVec2 cw ch) n r c st
  with
  | Some (Continue st') | Some (Return st') =>
      Forall (fun call =>
                in_its_cell O columns cw ch gl call
                /\ 0 <= call_index call <= Int.max_int) (snd st')
  | None => True
  end.
Proof.
  intros Hcols Hr Hc Hst. destruct st as [idx calls]. cbn [snd] in Hst.
  unfold PopulateGrid_cell. destruct (n <=? idx); [exact Hst |].
  unfold Int.mul, Int.add, Int.checked.
  destruct (Int.in_range (r * columns)) eqn:R1; [| exact I]. cbn [bind].
  destruct (Int.in_range (r * columns + c)) eqn:R2; [| exact I]. cbn [bind].
  destruct (at_index images (r * columns + c)) as [sprite |]; [| exact I].
  cbn [bind]. destruct (Int.in_range (idx + 1)); [| exact I]. cbn [bind snd].
  constructor; [| exact Hst].
  unfold Int.in_range in R2. apply andb_prop in R2. destruct R2 as [_ R2].
  apply Z.leb_le in R2.
  assert (Hdiv : (r * columns + c) / columns = r).
  { rewrite Z.div_add_l by lia. rewrite Z.div_small by lia. lia. }
  assert (Hmod : (r * columns + c) mod columns = c).
  { rewrite Z.add_comm, Z.mod_add by lia. apply Z.mod_small. lia. }
  split; [| cbn [call_index]; nia].
  unfold in_its_cell.
  cbn [call_position call_index call_frameSize call_scale].
  rewrite Hdiv, Hmod. repeat split.
Qed.

(** X18.  [PopulateGrid] puts image [k] in row [k / columns], column
    [k % columns] of the grid, in a frame of the size of a cell and at
    zoom 0.  On a square grid that is the corner
    [Position::GridTranslocatedOrigin] computes for cell [k]. *)
Theorem PopulateGrid_places_row_major :
  forall images O columns rows cellWidth cellHeight gridlineWidth,
    0 < columns -> 0 < rows ->
    exists calls,
      PopulateGrid images O columns rows cellWidth cellHeight gridlineWidth
      = Some calls
      /\ Forall (in_its_cell O columns cellWidth cellHeight gridlineWidth)
           calls
      /\ (rows = columns ->
          Forall (fun c =>
                    Position.GridTranslocatedOrigin O cellWidth cellHeight
                      gridlineWidth columns rows (call_index c)
                    = Some (call_position c)) calls).
Proof.
  intros images O columns rows cw ch gl Hcols Hrows.
  destruct (PopulateGrid_calls images O columns rows cw ch gl Hcols Hrows)
    as (calls & E & _).
  exists calls. split; [exact E |].
  assert (H : Forall (fun call =>
                        in_its_cell O columns cw ch gl call
                        /\ 0 <= call_index call <= Int.max_int) calls).
  { assert (K : match
                    for_loop (Z.to_nat rows) 0
                      (fun currentRow =>
                         for_loop (Z.to_nat columns) 0
                           (PopulateGrid_cell images (O + mkVec2 gl gl)%vec
                              columns (cw + gl)%f32 (ch + gl)%f32
                              (mkVec2 cw ch)
                              (Int.of_size (Z.of_nat (List.length images)))
                              currentRow))
                      (0, [])
                  with
                  | Some (Continue st') | Some (Return st') =>
                      Forall (fun call =>
                                in_its_cell O columns cw ch gl call
                                /\ 0 <= call_index call <= Int.max_int)
                        (snd st')
                  | None => True
                  end).
    { apply for_loop_keeps; [| constructor].
      intros r st Hr Hst. apply for_loop_keeps; [| exact Hst].
      intros c t Hc Ht. apply PopulateGrid_cell_places; (assumption || lia). }
    revert K E. unfold PopulateGrid. cbn zeta.
    destruct (for_loop (Z.to_nat rows) 0 _ _) as [[[i l] | [i l]] |];
      intros K E; try discriminate; injection E as <-;
      apply Forall_rev; exact K. }
  split.
  - apply Forall_impl with (2 := H). intros c [Hc _]. exact Hc.
  - intros ->. apply Forall_impl with (2 := H). intros c [(Hp & _ & _) Hi].
    assert (Hmax : Int.max_int = 2147483647) by reflexivity.
    assert (Hmin : Int.min_int = -2147483648) by reflexivity.
    unfold Position.GridTranslocatedOrigin.
    rewrite int_div_defined, int_rem_defined by lia. cbn [bind].
    rewrite Z.quot_div_nonneg, Z.rem_mod_nonneg by lia.
    rewrite Hp. reflexivity.
Qed.

Lemma PopulateGrid_places_row_major_witness :
  exists calls,
    PopulateGrid three_textures (mkVec2 F32.zero F32.zero) 2 2 (F32.of_int 10)
      (F32.of_int 10) (F32.of_int 2) = Some calls
    /\ Forall (fun c =>
                 Position.GridTranslocatedOrigin (mkVec2 F32.zero F32.zero)
                   (F32.of_int 10) (F32.of_int 10) (F32.of_int 2) 2 2
                   (call_index c)
                 = Some (call_position c)) calls.
Proof.
  destruct (PopulateGrid_places_row_major three_textures
              (mkVec2 F32.zero F32.zero) 2 2 (F32.of_int 10) (F32.of_int 10)
              (F32.of_int 2) ltac:(lia) ltac:(lia))
    as (calls & E & _ & H).
  exists calls. split; [exact E | exact (H eq_refl)].
Defined.

(** *** Grids with nothing to draw *)

(** Rows of no columns: the loop over the rows runs to its end and
    leaves the state as it was. *)
Lemma empty_rows {S : Type} (body : Z -> Z -> S -> option (Flow S)) k :
  forall r st,
    for_loop k r (fun row => for_loop 0 0 (body row)) st = Some (Continue st).
Proof.
  induction k as [| k IH]; intros r st; [reflexivity |].
  cbn [for_loop]. apply IH.
Qed.

Lemma PopulateGrid_nothing images O columns rows cw ch gl :
  columns <= 0 \/ rows <= 0 \/ images = [] ->
  PopulateGrid images O columns rows cw ch gl = Some [].
Proof.
  intros H. unfold PopulateGrid.
  destruct (Z.to_nat rows) as [| kr] eqn:Er; [reflexivity |].
  destruct (Z.to_nat columns) as [| kc] eqn:Ec.
  - rewrite empty_rows. reflexivity.
  - destruct H as [H | [H | ->]]; [lia | lia |].
    cbn [for_loop]. reflexivity.
Qed.

Lemma no_cells {A : Type} (f : Z -> list A) (l : list Z) :
  (forall r, f r = []) -> flat_map f l = [].
Proof.
  intros H. induction l as [| r l IH]; [reflexivity |].
  cbn [flat_map]. rewrite H, IH. reflexivity.
Qed.

Lemma populate_nothing rows columns n cell :
  n <= Int.max_int -> columns <= 0 \/ rows <= 0 \/ n <= 0 ->
  populate rows columns n cell = Some [].
Proof.
  intros Hn H.
  change (populate rows columns n cell)
    with (calls_of
            (for_loop (Z.to_nat rows) 0
               (fun row => for_loop (Z.to_nat columns) 0
                             (populate_cell n cell row))
               (0, []))).
  rewrite populate_rows by (assumption || lia).
  destruct H as [H | [H | H]].
  - replace (Z.to_nat columns) with 0%nat by lia.
    rewrite no_cells by reflexivity. rewrite firstn_nil. reflexivity.
  - replace (Z.to_nat rows) with 0%nat by lia. cbn [upto flat_map].
    rewrite firstn_nil. reflexivity.
  - replace (Z.to_nat (n - 0)) with 0%nat by lia. reflexivity.
Qed.

(** X19.  Nothing to draw is no error.  With no column, no row or no
    image, the three grid populations return at once without a call,
    whatever [dates] holds.  [Grid] with negative [columns] and [rows]
    draws no bar.  With [columns] or [rows] equal to [INT_MAX], [Grid]
    is undefined: [columns + 1] overflows. *)
Theorem empty_grids_draw_nothing :
  forall ui images O columns rows cellWidth cellHeight spacing rounding dates
         font exitSelected color,
    (columns <= 0 \/ rows <= 0 \/ images = [] ->
     PopulateGrid images O columns rows cellWidth cellHeight spacing = Some []
     /\ PopulateSparseRoundedGrid ui images O columns rows cellWidth
          cellHeight spacing rounding = Some []
     /\ PopulateSparseRoundedGridWithDates ui images O columns rows cellWidth
          cellHeight spacing rounding dates font exitSelected = Some [])
    /\ (Int.min_int <= columns < 0 -> Int.min_int <= rows < 0 ->
        Grid O columns rows cellWidth cellHeight spacing color = Some [])
    /\ (columns = Int.max_int \/ rows = Int.max_int ->
        Grid O columns rows cellWidth cellHeight spacing color = None).
Proof.
  intros ui images O columns rows cw ch sp rounding dates font exitSelected
    color.
  assert (Hmax : Int.max_int = 2147483647) by reflexivity.
  assert (Hmin : Int.min_int = -2147483648) by reflexivity.
  split; [| split].
  - intros H.
    pose proof (PopulateGrid_nothing images O columns rows cw ch sp H) as E.
    split; [exact E |]. split.
    + rewrite sparse_as_grid, E. reflexivity.
    + unfold PopulateSparseRoundedGridWithDates.
      destruct (of_size_bounds (Z.of_nat (List.length images)) ltac:(lia))
        as [Hsize Hfits].
      apply populate_nothing; [exact Hfits |].
      destruct H as [H | [H | ->]]; [left; exact H | right; left; exact H |].
      right. right. cbn. lia.
  - intros Hc Hr. rewrite Grid_lines by lia.
    replace (Z.to_nat (columns + 1)) with 0%nat by lia.
    replace (Z.to_nat (rows + 1)) with 0%nat by lia. reflexivity.
  - intros H. unfold Grid, Int.add, Int.checked.
    destruct H as [-> | ->].
    + reflexivity.
    + destruct (Int.in_range (columns + 1)); reflexivity.
Qed.

Lemma empty_grids_draw_nothing_witness :
  PopulateSparseRoundedGridWithDates still_env three_textures
    (mkVec2 F32.zero F32.zero) 0 5 (F32.of_int 10) (F32.of_int 10)
    (F32.of_int 2) (F32.of_int 4) [] 1 false
  = Some [].
Proof.
  apply (proj1 (empty_grids_draw_nothing still_env three_textures
                  (mkVec2 F32.zero F32.zero) 0 5 (F32.of_int 10)
                  (F32.of_int 10) (F32.of_int 2) (F32.of_int 4) [] 1 false 0)).
  left. lia.
Defined.

(** *** Strokes *)

Lemma draw_all_each {A : Type} (f : A -> Drawing) (P : ImGui.DrawCmd -> Prop)
    (l : list A) :
  (forall a, In a l -> exists c, f a = Some [c] /\ P c) ->
  exists cmds, draw_all (map f l) = Some cmds
    /\ List.length cmds = List.length l /\ Forall P cmds.
Proof.
  induction l as [| a l IH]; intros H.
  - exists []. repeat split. constructor.
  - destruct (H a (or_introl eq_refl)) as (c & Ec & Pc).
    destruct IH as (cmds & E & Hlen & Hall).
    { intros b Hb. apply H. right. exact Hb. }
    exists (c :: cmds). cbn [map draw_all]. rewrite Ec, E.
    split; [reflexivity |]. split; [cbn; lia |]. constructor; assumption.
Qed.

(** X20.  The stroked functions draw the 32 copies of the stroke first,
    in the stroke colour, and what they stroke last, at its own
    position: the text of [TextWithStroke] and the box of
    [BoxAroundWithStroke] lie on top of their outline.
    [StrokedTextWithHighlight] draws the highlight before both, and
    draws the text at font size 0 whatever its [fontSize].  All of them
    are undefined when the conversion of [transparency * 255] is. *)
Theorem stroke_is_drawn_first :
  forall ui text strokeColor textColor boxColor t strokeWidth position font
         fontSize size width rounding flags a,
    U32.of_float (t * F32.of_int 255)%f32 = Some a ->
    let stroke := Z.lor (Z.land strokeColor 16777215) (U32.shl a 24) in
    (exists copies,
        TextWithStroke ui text strokeColor textColor t strokeWidth position
          font fontSize
        = Some (copies
                ++ [ImGui.AddText font fontSize position
                      (Z.lor (Z.land textColor 16777215) (U32.shl a 24))
                      text])
        /\ List.length copies = 32%nat
        /\ Forall (writes font fontSize stroke text) copies)
    /\ (exists copies,
           BoxAroundWithStroke ui size position width boxColor strokeWidth
             strokeColor t rounding flags
           = Some (copies
                   ++ [ImGui.AddRect (position - mkVec2 width width)%vec
                         (position + size + mkVec2 width width)%vec
                         (Z.lor (Z.land boxColor 16777215) (U32.shl a 24))
                         rounding flags width])
           /\ List.length copies = 32%nat
           /\ Forall (outlines size width stroke rounding flags) copies)
    /\ (forall current highlightWidth highlightColor t',
           StrokedTextWithHighlight ui current text font highlightWidth
             strokeWidth textColor highlightColor strokeColor t t' position
             fontSize
           = and_then
               (Highlight ui current text font highlightWidth highlightColor
                  t' position fontSize)
               (TextWithStroke ui text strokeColor textColor t strokeWidth
                  position font (F32.of_int 0))).
Proof.
  intros ui text strokeColor textColor boxColor t strokeWidth position font
    fontSize size width rounding flags a Ea stroke.
  split; [| split].
  - unfold TextWithStroke, TextStroke. rewrite draw_loop_spec.
    match goal with
    | |- context [draw_all (map ?f ?l)] =>
        destruct (draw_all_each f (writes font fontSize stroke text) l)
          as (copies & E & Hlen & Hall)
    end.
    + intros i _. unfold Text. rewrite Ea. cbn [bind].
      eexists. split; [reflexivity |]. eexists. reflexivity.
    + exists copies. rewrite E. unfold Text. rewrite Ea.
      split; [reflexivity |]. split; [| exact Hall].
      rewrite Hlen, upto_length. reflexivity.
  - unfold BoxAroundWithStroke. rewrite draw_loop_spec.
    match goal with
    | |- context [draw_all (map ?f ?l)] =>
        destruct (draw_all_each f
                    (outlines size width stroke rounding flags) l)
          as (copies & E & Hlen & Hall)
    end.
    + intros i _. unfold BoxAround. rewrite Ea. cbn [bind].
      eexists. split; [reflexivity |]. eexists. reflexivity.
    + exists copies. rewrite E. unfold BoxAround. rewrite Ea.
      split; [reflexivity |]. split; [| exact Hall].
      rewrite Hlen, upto_length. reflexivity.
  - reflexivity.
Qed.

Lemma stroke_is_drawn_first_witness :
  exists copies,
    TextWithStroke still_env "ok" 4278190080 4294967295 (F32.of_int 1)
      (F32.of_int 2) (mkVec2 (F32.of_int 10) (F32.of_int 20)) 1
      (F32.of_int 16)
    = Some (copies
            ++ [ImGui.AddText 1 (F32.of_int 16)
                  (mkVec2 (F32.of_int 10) (F32.of_int 20))
                  (Z.lor (Z.land 4294967295 16777215) (U32.shl 255 24)) "ok"])
    /\ List.length copies = 32%nat.
Proof.
  destruct (stroke_is_drawn_first still_env "ok" 4278190080 4294967295 0
              (F32.of_int 1) (F32.of_int 2)
              (mkVec2 (F32.of_int 10) (F32.of_int 20)) 1 (F32.of_int 16)
              (mkVec2 F32.zero F32.zero) F32.zero F32.zero 0 255 eq_refl)
    as ((copies & E & Hlen & _) & _).
  exists copies. split; [exact E | exact Hlen].
Defined.

(** *** Outlines *)

Lemma int_sub a b p q :
  F32.exact a (inject_Z p) -> F32.exact b (inject_Z q) ->
  Z.abs (p - q) < 2 ^ 24 ->
  F32.exact (a - b)%f32 (inject_Z (p - q)).
Proof.
  intros Ha Hb Hpq.
  assert (E : (inject_Z (p - q) == inject_Z p - inject_Z q)%Q).
  { unfold Z.sub. rewrite inject_Z_plus, inject_Z_opp. reflexivity. }
  apply exact_morph with (inject_Z p - inject_Z q)%Q; [symmetry; exact E |].
  apply sub_exact; try assumption.
  apply representable_morph with (inject_Z (p - q));
    [exact E | apply representable_int; assumption].
Qed.

(** X21.  On whole pixels the outline of [FilledRectangleWithStroke]
    and the box of [Highlight] extend by exactly the given width beyond
    what they surround, on every side: the stroke rectangle is drawn
    first, from [position - w] to [position + size + w], and the
    rectangle itself on top of it; the highlight goes from
    [position - w] to [position + textSize + w], for the size of the
    text in the font that is current. *)
Theorem outline_extends_by_its_width :
  forall ui current text font fontSize color strokeColor t px py sx sy w a,
    Z.abs px <= 2 ^ 20 -> Z.abs py <= 2 ^ 20 ->
    0 <= sx <= 2 ^ 20 -> 0 <= sy <= 2 ^ 20 -> 0 <= w <= 2 ^ 20 ->
    U32.of_float (t * F32.of_int 255)%f32 = Some a ->
    let position := mkVec2 (F32.of_int px) (F32.of_int py) in
    let size := mkVec2 (F32.of_int sx) (F32.of_int sy) in
    let fill := Z.lor (Z.land color 16777215) (U32.shl a 24) in
    let stroke := Z.lor (Z.land strokeColor 16777215) (U32.shl a 24) in
    (exists outer inner,
        FilledRectangleWithStroke color strokeColor t position size
          (F32.of_int w)
        = Some [outer; inner]
        /\ fills outer (px - w) (py - w) (px + sx + w) (py + sy + w) stroke
        /\ fills inner px py (px + sx) (py + sy) fill)
    /\ (ImGui.CalcTextSize ui current text = size ->
        exists box,
          Highlight ui current text font (F32.of_int w) color t position
            fontSize
          = Some [box]
          /\ fills box (px - w) (py - w) (px + sx + w) (py + sy + w) fill).
Proof.
  intros ui current text font fontSize color strokeColor t px py sx sy w a
    Hpx Hpy Hsx Hsy Hw Ea position size fill stroke.
  assert (Hp : 2 ^ 20 = 1048576) by reflexivity.
  assert (Hq : 2 ^ 24 = 16777216) by reflexivity.
  assert (Ex : forall z, Z.abs z <= 2 ^ 21 -> F32.exact (F32.of_int z) (inject_Z z)).
  { intros z Hz. apply of_int_exact. change (2 ^ 21) with 2097152 in Hz. lia. }
  assert (H21 : 2 ^ 21 = 2097152) by reflexivity.
  assert (Epx : F32.exact (F32.of_int px) (inject_Z px)) by (apply Ex; lia).
  assert (Epy : F32.exact (F32.of_int py) (inject_Z py)) by (apply Ex; lia).
  assert (Esx : F32.exact (F32.of_int sx) (inject_Z sx)) by (apply Ex; lia).
  assert (Esy : F32.exact (F32.of_int sy) (inject_Z sy)) by (apply Ex; lia).
  assert (Ew : F32.exact (F32.of_int w) (inject_Z w)) by (apply Ex; lia).
  assert (E2 : F32.exact (F32.of_int 2) (inject_Z 2)) by (apply Ex; lia).
  assert (Eleft : F32.exact (F32.of_int px - F32.of_int w)%f32 (inject_Z (px - w)))
    by (apply int_sub; assumption || lia).
  assert (Etop : F32.exact (F32.of_int py - F32.of_int w)%f32 (inject_Z (py - w)))
    by (apply int_sub; assumption || lia).
  assert (Ew2 : F32.exact (F32.of_int w * F32.of_int 2)%f32 (inject_Z (w * 2)))
    by (apply int_mul; assumption || lia).
  assert (E2w : F32.exact (F32.of_int 2 * F32.of_int w)%f32 (inject_Z (2 * w)))
    by (apply int_mul; assumption || lia).
  split.
  - unfold FilledRectangleWithStroke, FilledRectangle. rewrite Ea.
    cbn [bind and_then app]. eexists. eexists. split; [reflexivity |].
    split.
    + eexists. eexists. split; [reflexivity |].
      subst position size. cbn [vadd vx vy].
      split; [exact Eleft |]. split; [exact Etop |]. split.
      * replace (px + sx + w) with ((px - w) + (sx + w * 2)) by lia.
        apply int_add; [exact Eleft | apply int_add; assumption || lia | lia].
      * replace (py + sy + w) with ((py - w) + (sy + w * 2)) by lia.
        apply int_add; [exact Etop | apply int_add; assumption || lia | lia].
    + eexists. eexists. split; [reflexivity |].
      subst position size. cbn [vadd vx vy].
      split; [exact Epx |]. split; [exact Epy |].
      split; apply int_add; assumption || lia.
  - intros Esize. unfold Highlight, FilledRectangle. rewrite Esize, Ea.
    cbn [bind]. eexists. split; [reflexivity |].
    eexists. eexists. split; [reflexivity |].
    subst position size. cbn [vadd vsub vx vy].
    split; [exact Eleft |]. split; [exact Etop |]. split.
    + replace (px + sx + w) with ((px - w) + (sx + 2 * w)) by lia.
      apply int_add; [exact Eleft | apply int_add; assumption || lia | lia].
    + replace (py + sy + w) with ((py - w) + (sy + 2 * w)) by lia.
      apply int_add; [exact Etop | apply int_add; assumption || lia | lia].
Qed.

Lemma outline_extends_by_its_width_witness :
  exists outer inner,
    FilledRectangleWithStroke 4294967295 4278190080 (F32.of_int 1)
      (mkVec2 (F32.of_int 10) (F32.of_int 20))
      (mkVec2 (F32.of_int 100) (F32.of_int 40)) (F32.of_int 3)
    = Some [outer; inner]
    /\ fills outer 7 17 113 63
         (Z.lor (Z.land 4278190080 16777215) (U32.shl 255 24)).
Proof.
  destruct (proj1 (outline_extends_by_its_width still_env 0 EmptyString 0 F32.zero
                     4294967295 4278190080 (F32.of_int 1) 10 20 100 40 3 255
                     ltac:(cbn; lia) ltac:(cbn; lia) ltac:(cbn; lia)
                     ltac:(cbn; lia) ltac:(cbn; lia) eq_refl))
    as (outer & inner & E & Ho & _).
  exists outer, inner. split; [exact E | exact Ho].
Defined.




(* ================================================================== *)
(** ** The texture loader *)

(** X23.  [Texture::Load] returns a texture exactly when the file opens,
    [ftell] does not fail and the decoder accepts the buffer, whose
    length it is given narrowed to [int]; the texture then carries the
    name OpenGL handed out and the decoded size.  In every other case
    nothing is returned: the failure is written to [std::cerr] with the
    path, as the last thing done, and [std::runtime_error] is thrown. *)
Theorem Load_returns_or_throws :
  forall world path,
    match snd (Texture.Load world path) with
    | Texture.Returns (mkTexture texture_id image_width image_height) =>
        Texture.fopen_succeeds world = true /\ ftell_failed world = false
        /\ Texture.stbi_decodes world (decoded_length world)
           = Some (image_width, image_height)
        /\ texture_id = Texture.gl_texture world
    | Texture.Throws what =>
        (Texture.fopen_succeeds world = false \/ ftell_failed world = true
         \/ Texture.stbi_decodes world (decoded_length world) = None)
        /\ what = "TextureLoader.LoadTexture: Failed to load texture"%string
        /\ exists calls,
             fst (Texture.Load world path)
             = calls
               ++ [Texture.cerr
                     ("TextureLoader.LoadTexture: Failed to load texture: "
                      ++ path)%string]
    end.
Proof.
  intros world path.
  unfold Texture.Load, Texture.LoadTextureFromFile,
    Texture.LoadTextureFromMemory, ftell_failed, decoded_length.
  destruct (Texture.fopen_succeeds world); cbn [negb].
  - destruct (Texture.to_size_t (Texture.ftell_result world)
              =? Texture.to_size_t (-1)).
    + cbn [snd fst]. split; [right; left; reflexivity |].
      split; [reflexivity |]. eexists. reflexivity.
    + destruct (Texture.stbi_decodes world
                  (Int.of_size (Texture.to_size_t (Texture.ftell_result world))))
        as [[w h] |]; cbn [snd fst].
      * repeat split.
      * split; [right; right; reflexivity |].
        split; [reflexivity |]. eexists. reflexivity.
  - cbn [snd fst]. split; [left; reflexivity |].
    split; [reflexivity |]. eexists. reflexivity.
Qed.

(** X24.  What [Texture::Load] acquires and releases, on every path:
    the file buffer is freed exactly when it was allocated and the
    decoded pixels exactly when a texture was generated, which happens
    on success only; the stream is closed when [ftell] succeeded, and is
    left open when [fopen] succeeded and [ftell] failed. *)
Theorem Load_releases :
  forall world path,
    let calls := fst (Texture.Load world path) in
    occurrences is_IM_FREE calls = occurrences is_IM_ALLOC calls
    /\ occurrences is_stbi_image_free calls
       = occurrences is_glGenTextures calls
    /\ occurrences is_glGenTextures calls
       = match snd (Texture.Load world path) with
         | Texture.Returns _ => 1%nat
         | Texture.Throws _ => 0%nat
         end
    /\ occurrences is_fclose calls
       = (if Texture.fopen_succeeds world && negb (ftell_failed world)
          then 1%nat else 0%nat).
Proof.
  intros world path calls. subst calls.
  unfold Texture.Load, Texture.LoadTextureFromFile,
    Texture.LoadTextureFromMemory, ftell_failed.
  destruct (Texture.fopen_succeeds world); cbn [negb andb].
  - destruct (Texture.to_size_t (Texture.ftell_result world)
              =? Texture.to_size_t (-1)); cbn [negb].
    + repeat split.
    + destruct (Texture.stbi_decodes world
                  (Int.of_size (Texture.to_size_t (Texture.ftell_result world))))
        as [[w h] |]; repeat split.
  - repeat split.
Qed.
